(** * BusTub storage core: trie, extendible hash table, LRU-K replacer, buffer
    pool manager and B+ tree index, embedded from the C++ sources.

    Conventions of the embedding.
    - Heap objects reached through pointers are kept in explicit stores and the
      pointers are handles into them, so that aliasing (several directory
      slots sharing one bucket, a tree page edited through a frame pointer)
      is the program's own.
    - A call has one of three outcomes, see [result]. *)

From Stdlib Require Import ZArith Lia List Bool Ascii.
From stdpp Require Import base option numbers list gmap strings.

Open Scope nat_scope.

(** Outcome of a call of the embedded program. *)
Inductive result (A : Type) : Type :=
| Ok (a : A)
| Fault
| Timeout.
Arguments Ok {A} a.
Arguments Fault {A}.
Arguments Timeout {A}.

(** [Fault]: the source runs into undefined behaviour (a null pointer, an
    index outside a vector, an uninitialised pointer). [Timeout]: a loop of
    the source did not finish within the fuel given to the model. *)
Definition rbind {A B} (m : result A) (f : A -> result B) : result B :=
  match m with
  | Ok a => f a
  | Fault => Fault
  | Timeout => Timeout
  end.

Definition of_option {A} (o : option A) : result A :=
  match o with
  | Some a => Ok a
  | None => Fault
  end.

(** * container/hash/extendible_hash_table.cpp *)
Module ExtHash.
Section Table.
Context {K V : Type} `{EqDecision K}.

(** [std::hash<K>()(key)], a [size_t]. *)
Variable hash : K -> nat.

(** [Bucket]: capacity [size_], local depth [depth_], the items [list_]. *)
Record Bucket := mkBucket {
  size_ : nat;
  depth_ : nat;
  list_ : list (K * V)
}.

(** The table. [dir_] is the vector of [shared_ptr<Bucket>]: the pointers are
    handles into [heap_], so two slots holding the same handle share one
    bucket, as in the source. The [int] depths and counters are naturals:
    the model is exact as long as the depths stay below the width of [int]. *)
Record ExtendibleHashTable := mkTable {
  global_depth_ : nat;
  bucket_size_ : nat;
  num_buckets_ : nat;
  dir_ : list nat;
  heap_ : list Bucket
}.

(** Constructor: one bucket of depth 0, one directory slot. *)
Definition new (bucket_size : nat) : ExtendibleHashTable :=
  mkTable 0 bucket_size 1 [0] [mkBucket bucket_size 0 []].

(** [(1 << d) - 1] *)
Definition mask (d : nat) : nat := Nat.shiftl 1 d - 1.

Definition IndexOf (t : ExtendibleHashTable) (key : K) : nat :=
  Nat.land (hash key) (mask (global_depth_ t)).

Definition GetGlobalDepth (t : ExtendibleHashTable) : nat := global_depth_ t.

Definition GetNumBuckets (t : ExtendibleHashTable) : nat := num_buckets_ t.

(** [dir_[dir_index]]; outside the vector the source is undefined. *)
Definition GetIndexBucket (t : ExtendibleHashTable) (dir_index : nat) : option nat :=
  dir_ t !! dir_index.

(** Dereference of a bucket pointer. *)
Definition bucket_at (t : ExtendibleHashTable) (h : nat) : option Bucket :=
  heap_ t !! h.

Definition GetLocalDepthInternal (t : ExtendibleHashTable) (dir_index : nat) : option nat :=
  h ← GetIndexBucket t dir_index; b ← bucket_at t h; Some (depth_ b).

(** Modelled from the spec: [Bucket::IsFull] is declared in
    extendible_hash_table.h, which is not among the sources; a bucket is a
    bounded list of pairs and is full when it holds [size_] of them. *)
Definition IsFull (b : Bucket) : bool := bool_decide (length (list_ b) = size_ b).

(** [Bucket::Find]: the first pair with the key. *)
Fixpoint list_find_key (key : K) (l : list (K * V)) : option V :=
  match l with
  | [] => None
  | (k, v) :: l' => if decide (k = key) then Some v else list_find_key key l'
  end.

Definition Bucket_Find (b : Bucket) (key : K) : option V := list_find_key key (list_ b).

(** [Bucket::Remove]: erases the first pair with the key; [None] when there is none. *)
Fixpoint list_erase_key (key : K) (l : list (K * V)) : option (list (K * V)) :=
  match l with
  | [] => None
  | (k, v) :: l' =>
      if decide (k = key) then Some l'
      else match list_erase_key key l' with
           | Some r => Some ((k, v) :: r)
           | None => None
           end
  end.

Definition Bucket_Remove (b : Bucket) (key : K) : bool * Bucket :=
  match list_erase_key key (list_ b) with
  | Some l' => (true, mkBucket (size_ b) (depth_ b) l')
  | None => (false, b)
  end.

(** The scan of [Bucket::Insert]: overwrites the value of the first pair with
    the key; [None] when the key is not in the list. *)
Fixpoint list_overwrite (key : K) (value : V) (l : list (K * V)) : option (list (K * V)) :=
  match l with
  | [] => None
  | (k, v) :: l' =>
      if decide (k = key) then Some ((k, value) :: l')
      else match list_overwrite key value l' with
           | Some r => Some ((k, v) :: r)
           | None => None
           end
  end.

(** [Bucket::Insert]: the fullness test comes first, then the scan, then the append. *)
Definition Bucket_Insert (b : Bucket) (key : K) (value : V) : bool * Bucket :=
  if IsFull b then (false, b)
  else match list_overwrite key value (list_ b) with
       | Some l' => (true, mkBucket (size_ b) (depth_ b) l')
       | None => (true, mkBucket (size_ b) (depth_ b) (list_ b ++ [(key, value)]))
       end.

(** Write through a bucket pointer. *)
Definition set_bucket (t : ExtendibleHashTable) (h : nat) (b : Bucket) : ExtendibleHashTable :=
  mkTable (global_depth_ t) (bucket_size_ t) (num_buckets_ t) (dir_ t) (<[h := b]> (heap_ t)).

Definition set_dir (t : ExtendibleHashTable) (d : list nat) : ExtendibleHashTable :=
  mkTable (global_depth_ t) (bucket_size_ t) (num_buckets_ t) d (heap_ t).

(** [Find]: [Some (Some v)] is (true, v), [Some None] is false. *)
Definition Find (t : ExtendibleHashTable) (key : K) : option (option V) :=
  h ← GetIndexBucket t (IndexOf t key);
  b ← bucket_at t h;
  Some (Bucket_Find b key).

Definition Remove (t : ExtendibleHashTable) (key : K) : option (bool * ExtendibleHashTable) :=
  h ← GetIndexBucket t (IndexOf t key);
  b ← bucket_at t h;
  let '(r, b') := Bucket_Remove b key in
  Some (r, set_bucket t h b').

(** Directory doubling: [global_depth_++] and every slot [i] of the old
    directory pushed again at [i + n]. *)
Definition grow (t : ExtendibleHashTable) : ExtendibleHashTable :=
  mkTable (S (global_depth_ t)) (bucket_size_ t) (num_buckets_ t) (dir_ t ++ dir_ t) (heap_ t).

(** One round of the re-pointing loop of [Insert], at slot [i]. [first] is the
    slot pattern of the bucket being split and [depth] its depth after
    [IncrementDepth]; [build] is the new bucket once it has been made. *)
Definition repoint (first depth : nat) (st : option nat * ExtendibleHashTable) (i : nat)
  : option nat * ExtendibleHashTable :=
  let '(build, t) := st in
  if decide (Nat.land i (mask (depth - 1)) = first) then
    let second := Nat.land i (mask depth) in
    if decide (first = second) then st
    else
      let '(new_bucket, t1) :=
        match build with
        | Some nb => (nb, t)
        | None =>
            (length (heap_ t),
             mkTable (global_depth_ t) (bucket_size_ t) (S (num_buckets_ t)) (dir_ t)
                     (heap_ t ++ [mkBucket (bucket_size_ t) depth []]))
        end in
      (Some new_bucket, set_dir t1 (<[i := new_bucket]> (dir_ t1)))
  else st.

(** The redistribution loop: each saved pair is inserted into the bucket its
    slot now points to; the result of [Bucket::Insert] is dropped. *)
Fixpoint redistribute (l : list (K * V)) (t : ExtendibleHashTable) : option ExtendibleHashTable :=
  match l with
  | [] => Some t
  | (k, v) :: l' =>
      h ← GetIndexBucket t (IndexOf t k);
      b ← bucket_at t h;
      redistribute l' (set_bucket t h (snd (Bucket_Insert b k v)))
  end.

(** The body of the [while] loop of [Insert], entered when the bucket [h] of
    the key refused the pair. *)
Definition split (t : ExtendibleHashTable) (key : K) (h : nat) : option ExtendibleHashTable :=
  bucket ← bucket_at t h;
  let list := list_ bucket in
  let t1 := set_bucket t h (mkBucket (size_ bucket) (depth_ bucket) []) in
  ld ← GetLocalDepthInternal t1 (IndexOf t1 key);
  let t2 := if decide (ld = global_depth_ t1) then grow t1 else t1 in
  bucket2 ← bucket_at t2 h;
  let first := Nat.land (hash key) (mask (depth_ bucket2)) in
  let depth := S (depth_ bucket2) in
  let t3 := set_bucket t2 h (mkBucket (size_ bucket2) depth (list_ bucket2)) in
  let t4 := snd (fold_left (repoint first depth)
                           (seq (first + 1) (length (dir_ t3) - (first + 1)))
                           (None, t3)) in
  redistribute list t4.

(** [Insert]: the loop runs until the bucket of the key accepts the pair. *)
Fixpoint Insert (fuel : nat) (t : ExtendibleHashTable) (key : K) (value : V)
  : result ExtendibleHashTable :=
  match fuel with
  | 0 => Timeout
  | S fuel' =>
      match GetIndexBucket t (IndexOf t key) with
      | None => Fault
      | Some h =>
          match bucket_at t h with
          | None => Fault
          | Some bucket =>
              match Bucket_Insert bucket key value with
              | (true, bucket') => Ok (set_bucket t h bucket')
              | (false, _) =>
                  match split t key h with
                  | None => Fault
                  | Some t' => Insert fuel' t' key value
                  end
              end
          end
      end
  end.

(** ** The invariant of the table

    What the constructor establishes and [Insert] and [Remove] keep: the
    directory has [2 ^ global_depth_] slots; every slot holds a live bucket
    whose depth is at most the global depth, whose capacity is
    [bucket_size_], whose keys are distinct and hash to the slot on the low
    [depth_] bits; and the slots that share a bucket are exactly those that
    agree on these bits. *)
Definition slot_ok (t : ExtendibleHashTable) (i h : nat) (b : Bucket) : Prop :=
  depth_ b ≤ global_depth_ t ∧
  size_ b = bucket_size_ t ∧
  length (list_ b) ≤ size_ b ∧
  NoDup (list_ b).*1 ∧
  Forall (fun k => hash k mod 2 ^ depth_ b = i mod 2 ^ depth_ b) (list_ b).*1 ∧
  ∀ j, j < length (dir_ t) ->
       dir_ t !! j = Some h <-> j mod 2 ^ depth_ b = i mod 2 ^ depth_ b.

Definition wf (t : ExtendibleHashTable) : Prop :=
  length (dir_ t) = 2 ^ global_depth_ t ∧
  ∀ i h, dir_ t !! i = Some h -> ∃ b, heap_ t !! h = Some b ∧ slot_ok t i h b.

(** The tables the program can build. *)
Inductive reachable : ExtendibleHashTable -> Prop :=
| reachable_new bucket_size : reachable (new bucket_size)
| reachable_Insert t fuel key value t' :
    reachable t -> Insert fuel t key value = Ok t' -> reachable t'
| reachable_Remove t key r t' :
    reachable t -> Remove t key = Some (r, t') -> reachable t'.

(** Slot [j] belongs to the bucket with pattern [first] at depth [d] and gets
    the new bucket when the depth becomes [S d]. *)
Definition moved (first d j : nat) : Prop :=
  j mod 2 ^ d = first ∧ j mod 2 ^ S d ≠ first.

#[global] Instance moved_dec first d j : Decision (moved first d j).
Proof. unfold moved. apply _. Defined.

(** The directory after the re-pointing loop has visited the slots [js]. *)
Definition repointed (first d nb : nat) (js : list nat) (dir : list nat) : list nat :=
  imap (fun j x => if decide (j ∈ js ∧ moved first d j) then nb else x) dir.

(** The table after the bucket [h] of depth [d] was given depth [S d] and the
    loop has run over the directory: the slots that moved hold the new bucket. *)
Definition repointed_table (t : ExtendibleHashTable) (h : nat) (b : Bucket) (first : nat)
  : ExtendibleHashTable :=
  mkTable (global_depth_ t) (bucket_size_ t) (S (num_buckets_ t))
          (imap (fun j x => if decide (moved first (depth_ b) j) then length (heap_ t) else x)
                (dir_ t))
          (<[h := mkBucket (size_ b) (S (depth_ b)) (list_ b)]> (heap_ t)
             ++ [mkBucket (bucket_size_ t) (S (depth_ b)) []]).

(** The pair goes to bucket [h]. *)
Definition targets (t : ExtendibleHashTable) (h : nat) (kv : K * V) : Prop :=
  dir_ t !! IndexOf t kv.1 = Some h.

#[global] Instance targets_dec t h kv : Decision (targets t h kv).
Proof. unfold targets. apply _. Defined.

(** The keys of the bucket the slot of [key] holds. *)
Definition target_keys (t : ExtendibleHashTable) (key : K) : list K :=
  match GetIndexBucket t (IndexOf t key) ≫= bucket_at t with
  | Some b => (list_ b).*1
  | None => []
  end.

(** The keys of [l] whose hash has the low [D] bits of the hash of [key]. *)
Definition agreeing (D : nat) (key : K) (l : list K) : list K :=
  filter (fun k => hash k mod 2 ^ D = hash key mod 2 ^ D) l.

End Table.
End ExtHash.

(** * buffer/lru_k_replacer.cpp, include/buffer/lru_k_replacer.h *)
Module LRUK.

(** [size_t] arithmetic: 64 bits, wrapping. *)
Definition size_t_wrap (x : Z) : Z := (x mod 2 ^ 64)%Z.

(** The [Node] objects a pointer can reach: the two dummies allocated by the
    constructor and the node [entries_] holds for a frame. [None] is [nullptr]. *)
Inductive node_id : Type :=
| DummyHistory
| DummyBuffer
| Entry (frame_id : Z).

#[global] Instance node_id_eq_dec : EqDecision node_id.
Proof. solve_decision. Defined.

Record Node := mkNode {
  key_ : Z;
  value_ : Z;
  evictable_ : bool;
  prev_ : option node_id;
  next_ : option node_id
}.

Record LRUKReplacer := mkReplacer {
  curr_history_size_ : Z;
  curr_buffer_size_ : Z;
  replacer_size_ : Z;
  k_ : Z;
  dummy_history_ : Node;
  dummy_buffer_ : Node;
  entries_ : gmap Z Node
}.

(** Constructor: the two dummies point at each other, so that the history
    nodes sit between [dummy_history_] and [dummy_buffer_] and the buffer nodes
    between [dummy_buffer_] and [dummy_history_], on one ring. *)
Definition new (num_frames k : Z) : LRUKReplacer :=
  mkReplacer 0 0 num_frames k
    (mkNode 0 0 false (Some DummyBuffer) (Some DummyBuffer))
    (mkNode 0 0 false (Some DummyHistory) (Some DummyHistory))
    ∅.

(** Dereference; a pointer to a deleted node has no object behind it. *)
Definition read (r : LRUKReplacer) (p : node_id) : option Node :=
  match p with
  | DummyHistory => Some (dummy_history_ r)
  | DummyBuffer => Some (dummy_buffer_ r)
  | Entry f => entries_ r !! f
  end.

Definition write (r : LRUKReplacer) (p : node_id) (n : Node) : LRUKReplacer :=
  match p with
  | DummyHistory =>
      mkReplacer (curr_history_size_ r) (curr_buffer_size_ r) (replacer_size_ r) (k_ r)
                 n (dummy_buffer_ r) (entries_ r)
  | DummyBuffer =>
      mkReplacer (curr_history_size_ r) (curr_buffer_size_ r) (replacer_size_ r) (k_ r)
                 (dummy_history_ r) n (entries_ r)
  | Entry f =>
      mkReplacer (curr_history_size_ r) (curr_buffer_size_ r) (replacer_size_ r) (k_ r)
                 (dummy_history_ r) (dummy_buffer_ r) (<[f := n]> (entries_ r))
  end.

Definition set_prev (n : Node) (p : option node_id) : Node :=
  mkNode (key_ n) (value_ n) (evictable_ n) p (next_ n).

Definition set_next (n : Node) (p : option node_id) : Node :=
  mkNode (key_ n) (value_ n) (evictable_ n) (prev_ n) p.

Definition set_value (n : Node) (v : Z) : Node :=
  mkNode (key_ n) v (evictable_ n) (prev_ n) (next_ n).

Definition set_evictable (n : Node) (e : bool) : Node :=
  mkNode (key_ n) (value_ n) e (prev_ n) (next_ n).

Definition set_sizes (r : LRUKReplacer) (h b : Z) : LRUKReplacer :=
  mkReplacer h b (replacer_size_ r) (k_ r) (dummy_history_ r) (dummy_buffer_ r) (entries_ r).

Definition dec_history (r : LRUKReplacer) : LRUKReplacer :=
  set_sizes r (size_t_wrap (curr_history_size_ r - 1)) (curr_buffer_size_ r).

Definition inc_history (r : LRUKReplacer) : LRUKReplacer :=
  set_sizes r (size_t_wrap (curr_history_size_ r + 1)) (curr_buffer_size_ r).

Definition dec_buffer (r : LRUKReplacer) : LRUKReplacer :=
  set_sizes r (curr_history_size_ r) (size_t_wrap (curr_buffer_size_ r - 1)).

Definition inc_buffer (r : LRUKReplacer) : LRUKReplacer :=
  set_sizes r (curr_history_size_ r) (size_t_wrap (curr_buffer_size_ r + 1)).

Definition Size (r : LRUKReplacer) : Z :=
  size_t_wrap (curr_history_size_ r + curr_buffer_size_ r).

(** [x->field = v] through a pointer. *)
Definition update (r : LRUKReplacer) (p : node_id) (f : Node -> Node) : option LRUKReplacer :=
  n ← read r p; Some (write r p (f n)).

Definition RemoveFromPool (r : LRUKReplacer) (x : node_id) : option LRUKReplacer :=
  nx ← read r x;
  match prev_ nx, next_ nx with
  | Some p, Some n =>
      r1 ← update r p (fun np => set_next np (Some n));
      r2 ← update r1 n (fun nn => set_prev nn (Some p));
      r3 ← update r2 x (fun n0 => set_prev n0 None);
      update r3 x (fun n0 => set_next n0 None)
  | _, _ => Some r
  end.

(** [PushFrontHistoryPool] and [PushFrontBufferPool] differ in the dummy only. *)
Definition PushFront (dummy : node_id) (r : LRUKReplacer) (x : node_id) : option LRUKReplacer :=
  d ← read r dummy;
  first ← next_ d;
  r1 ← update r first (fun n => set_prev n (Some x));
  d1 ← read r1 dummy;
  r2 ← update r1 x (fun n => set_next n (next_ d1));
  r3 ← update r2 dummy (fun n => set_next n (Some x));
  update r3 x (fun n => set_prev n (Some dummy)).

Definition PushFrontHistoryPool := PushFront DummyHistory.
Definition PushFrontBufferPool := PushFront DummyBuffer.

(** The logging loop at the head of [EvictInternal]: it walks [next_] from the
    first history node until it is back at [dummy_history_] (or at null). *)
Fixpoint walk (fuel : nat) (r : LRUKReplacer) (node : option node_id) : result unit :=
  match node with
  | None => Ok tt
  | Some DummyHistory => Ok tt
  | Some p =>
      match fuel with
      | 0 => Timeout
      | S fuel' =>
          match read r p with
          | None => Fault
          | Some n => walk fuel' r (next_ n)
          end
      end
  end.

(** [EvictInternal], called with a non-null [frame_id]: the replacer after the
    call and the frame written to [*frame_id] when the call returns true. *)
Definition EvictInternal (fuel : nat) (r : LRUKReplacer) : result (LRUKReplacer * option Z) :=
  if decide (Size r = 0%Z) then Ok (r, None)
  else
    rbind (walk fuel r (next_ (dummy_history_ r))) (fun _ =>
    let '(victim, r1) :=
      if decide (curr_history_size_ r ≠ 0%Z)
      then (prev_ (dummy_buffer_ r), dec_history r)
      else (prev_ (dummy_history_ r), dec_buffer r) in
    of_option (
      node ← victim;
      r2 ← RemoveFromPool r1 node;
      r3 ← update r2 node (fun n => set_evictable n false);
      r4 ← update r3 node (fun n => set_value n 0%Z);
      n ← read r4 node;
      Some (r4, Some (key_ n)))).

Definition Evict := EvictInternal.

Definition RecordAccess (r : LRUKReplacer) (frame_id : Z) : option LRUKReplacer :=
  match entries_ r !! frame_id with
  | None =>
      let r1 := write r (Entry frame_id) (mkNode frame_id 1 false None None) in
      update r1 (Entry frame_id) (fun n => set_value n 1%Z)
  | Some _ =>
      let node := Entry frame_id in
      r1 ← update r node (fun n => set_value n (size_t_wrap (value_ n + 1)));
      n ← read r1 node;
      if evictable_ n && bool_decide (k_ r1 ≤ value_ n)%Z then
        let r2 := if decide (value_ n = k_ r1) then dec_history r1 else dec_buffer r1 in
        r3 ← RemoveFromPool r2 node;
        r4 ← PushFrontBufferPool r3 node;
        Some (inc_buffer r4)
      else Some r1
  end.

(** The loop of [SetEvictable] that makes room: it evicts while the replacer
    holds [replacer_size_] frames or more. *)
Fixpoint make_room (fuel : nat) (r : LRUKReplacer) : result LRUKReplacer :=
  if decide (Size r < replacer_size_ r)%Z then Ok r
  else match fuel with
       | 0 => Timeout
       | S fuel' => rbind (EvictInternal fuel r) (fun '(r', _) => make_room fuel' r')
       end.

Definition SetEvictable (fuel : nat) (r : LRUKReplacer) (frame_id : Z) (set_evictable_ : bool)
  : result LRUKReplacer :=
  match entries_ r !! frame_id with
  | None => Ok r
  | Some n0 =>
      let node := Entry frame_id in
      if evictable_ n0 && negb set_evictable_ then
        let r1 := if decide (k_ r ≤ value_ n0)%Z then dec_buffer r else dec_history r in
        of_option (
          r2 ← RemoveFromPool r1 node;
          r3 ← update r2 node (fun n => set_evictable n false);
          update r3 node (fun n => set_value n 0%Z))
      else if negb (evictable_ n0) && set_evictable_ then
        rbind (make_room fuel r) (fun r1 =>
        of_option (
          r2 ← update r1 node (fun n => set_evictable n true);
          n ← read r2 node;
          if decide (k_ r2 ≤ value_ n)%Z then
            r3 ← PushFrontBufferPool r2 node; Some (inc_buffer r3)
          else
            r3 ← PushFrontHistoryPool r2 node; Some (inc_history r3)))
      else Ok r
  end.

Definition erase (r : LRUKReplacer) (frame_id : Z) : LRUKReplacer :=
  mkReplacer (curr_history_size_ r) (curr_buffer_size_ r) (replacer_size_ r) (k_ r)
             (dummy_history_ r) (dummy_buffer_ r) (delete frame_id (entries_ r)).

(** [Remove]: there is no test that the frame is evictable before the node is
    deleted and erased. *)
Definition Remove (r : LRUKReplacer) (frame_id : Z) : option LRUKReplacer :=
  match entries_ r !! frame_id with
  | None => Some r
  | Some n0 =>
      let node := Entry frame_id in
      r' ← (if evictable_ n0 then
              let r1 := if decide (k_ r ≤ value_ n0)%Z then dec_buffer r else dec_history r in
              r2 ← RemoveFromPool r1 node;
              r3 ← update r2 node (fun n => set_evictable n false);
              update r3 node (fun n => set_value n 0%Z)
            else Some r);
      Some (erase r' frame_id)
  end.

End LRUK.

(** * What a page holds *)
Module TreePage.

(** Keys ([GenericKey]) and values ([RID] in a leaf, a child page id in an
    internal page) are integers; the comparator is the order of [Z]. *)
Inductive IndexPageType : Type :=
| INVALID_INDEX_PAGE
| LEAF_PAGE
| INTERNAL_PAGE.

#[global] Instance IndexPageType_eq_dec : EqDecision IndexPageType.
Proof. solve_decision. Defined.

(** The header fields shared by leaf and internal pages (the source casts
    between the two freely), the sibling link of a leaf, and the entry array.
    The array keeps what was written beyond [size_]; slots never written read
    as zero, as after [ResetMemory]. *)
Record BPlusTreePage := mkTreePage {
  page_type_ : IndexPageType;
  size_ : Z;
  max_size_ : Z;
  parent_page_id_ : Z;
  page_id_ : Z;
  next_page_id_ : Z;
  array_ : list (Z * Z)
}.

(** Modelled from the spec: [INVALID_PAGE_ID] is a constant of
    common/config.h, which is not among the sources. The header page has
    id 0, so the sentinel for "no such page" is the other value the spec
    names, -1. *)
Definition INVALID_PAGE_ID : Z := (-1)%Z.

(** Modelled from the spec: the header page is page 0 (common/config.h is not
    among the sources; the comment of [UpdateRootPageId] says the same). *)
Definition HEADER_PAGE_ID : Z := 0%Z.

(** Modelled from the spec: [INVALID_INDEX_ID] is what the key search of a
    leaf returns for an absent key; its declaration is not among the sources
    and only equality with it is ever tested. *)
Definition INVALID_INDEX_ID : Z := (-1)%Z.

Definition zero_page : BPlusTreePage :=
  mkTreePage INVALID_INDEX_PAGE 0 0 0 0 0 [].

(** [array_[i]], zero where nothing was written. *)
Definition arr_get (a : list (Z * Z)) (i : nat) : Z * Z := nth i a (0%Z, 0%Z).

(** [array_[i] = x]; the list grows with zeroes up to [i] when needed. *)
Definition arr_set (a : list (Z * Z)) (i : nat) (x : Z * Z) : list (Z * Z) :=
  if decide (i < length a) then <[i := x]> a
  else a ++ replicate (i - length a) (0%Z, 0%Z) ++ [x].

Definition set_size (p : BPlusTreePage) (n : Z) : BPlusTreePage :=
  mkTreePage (page_type_ p) n (max_size_ p) (parent_page_id_ p) (page_id_ p)
             (next_page_id_ p) (array_ p).

Definition set_parent (p : BPlusTreePage) (parent : Z) : BPlusTreePage :=
  mkTreePage (page_type_ p) (size_ p) (max_size_ p) parent (page_id_ p)
             (next_page_id_ p) (array_ p).

Definition set_next (p : BPlusTreePage) (next : Z) : BPlusTreePage :=
  mkTreePage (page_type_ p) (size_ p) (max_size_ p) (parent_page_id_ p) (page_id_ p)
             next (array_ p).

Definition set_array (p : BPlusTreePage) (a : list (Z * Z)) : BPlusTreePage :=
  mkTreePage (page_type_ p) (size_ p) (max_size_ p) (parent_page_id_ p) (page_id_ p)
             (next_page_id_ p) a.

Definition IsLeafPage (p : BPlusTreePage) : bool := bool_decide (page_type_ p = LEAF_PAGE).

(** Modelled from the spec: the page classes (b_plus_tree_page,
    b_plus_tree_leaf_page, b_plus_tree_internal_page) are not among the
    sources. [min_size] is the ceiling of [max_size / 2]. *)
Definition GetMinSize (p : BPlusTreePage) : Z := ((max_size_ p + 1) / 2)%Z.

(** Modelled from the spec: [Init] of a leaf page sets the header fields and
    an invalid sibling link; the entries are not touched. *)
Definition leaf_Init (p : BPlusTreePage) (page_id parent_id max_size : Z) : BPlusTreePage :=
  mkTreePage LEAF_PAGE 0 max_size parent_id page_id INVALID_PAGE_ID (array_ p).

(** Modelled from the spec: [Init] of an internal page. *)
Definition internal_Init (p : BPlusTreePage) (page_id parent_id max_size : Z) : BPlusTreePage :=
  mkTreePage INTERNAL_PAGE 0 max_size parent_id page_id (next_page_id_ p) (array_ p).

(** Modelled from the spec: the key search of a leaf returns the index of the
    entry with the key among the first [size_] entries, and
    [INVALID_INDEX_ID] when there is none. *)
Fixpoint leaf_find_from (a : list (Z * Z)) (key : Z) (i n : nat) : Z :=
  match n with
  | 0 => INVALID_INDEX_ID
  | S n' => if decide (fst (arr_get a i) = key) then Z.of_nat i
            else leaf_find_from a key (S i) n'
  end.

Definition leaf_Find (p : BPlusTreePage) (key : Z) : Z :=
  leaf_find_from (array_ p) key 0 (Z.to_nat (size_ p)).

(** Modelled from the spec: the key search of an internal page returns the
    greatest index [i] with [key[i] <= key], where the key of entry 0 counts
    as minus infinity and is never read. [n] runs down from [size_ - 1]. *)
Fixpoint internal_find_down (a : list (Z * Z)) (key : Z) (n : nat) : Z :=
  match n with
  | 0 => 0%Z
  | S n' => if decide (fst (arr_get a n) ≤ key)%Z then Z.of_nat n
            else internal_find_down a key n'
  end.

Definition internal_Find (p : BPlusTreePage) (key : Z) : Z :=
  internal_find_down (array_ p) key (Z.to_nat (size_ p) - 1).

(** Modelled from the spec: [IndexAtOfValue] returns the index of the entry
    whose value is the given child, [INVALID_INDEX_ID] when there is none. *)
Fixpoint index_of_value_from (a : list (Z * Z)) (value : Z) (i n : nat) : Z :=
  match n with
  | 0 => INVALID_INDEX_ID
  | S n' => if decide (snd (arr_get a i) = value) then Z.of_nat i
            else index_of_value_from a value (S i) n'
  end.

Definition IndexAtOfValue (p : BPlusTreePage) (value : Z) : Z :=
  index_of_value_from (array_ p) value 0 (Z.to_nat (size_ p)).

(** Entries [pos .. size-1] moved one slot to the right, the last first. *)
Fixpoint shift_right (a : list (Z * Z)) (pos n : nat) : list (Z * Z) :=
  match n with
  | 0 => a
  | S n' => shift_right (arr_set a (pos + n) (arr_get a (pos + n'))) pos n'
  end.

(** The number of entries among [array_[lo .. lo+n-1]] whose key is below [key]. *)
Fixpoint count_below (a : list (Z * Z)) (key : Z) (lo n : nat) : nat :=
  match n with
  | 0 => 0
  | S n' => (if decide (fst (arr_get a lo) < key)%Z then 1 else 0)
            + count_below a key (S lo) n'
  end.

(** Modelled from the spec: [InsertDataToPage] of a leaf inserts the pair
    keeping the keys in order and increments [size_]. *)
Definition leaf_InsertDataToPage (p : BPlusTreePage) (key value : Z) : BPlusTreePage :=
  let n := Z.to_nat (size_ p) in
  let pos := count_below (array_ p) key 0 n in
  let a := arr_set (shift_right (array_ p) pos (n - pos)) pos (key, value) in
  set_size (set_array p a) (size_ p + 1)%Z.

(** Modelled from the spec: [InsertDataToPage] of an internal page inserts the
    pair after entry 0, keeping the keys of the entries 1, 2, ... in order,
    and increments [size_]. *)
Definition internal_InsertDataToPage (p : BPlusTreePage) (key value : Z) : BPlusTreePage :=
  let n := Z.to_nat (size_ p) in
  let pos := 1 + count_below (array_ p) key 1 (n - 1) in
  let a := arr_set (shift_right (array_ p) pos (n - pos)) pos (key, value) in
  set_size (set_array p a) (size_ p + 1)%Z.

(** The pair is inserted through whichever class the pointer has. *)
Definition InsertDataToPage (leaf : bool) (p : BPlusTreePage) (key value : Z) : BPlusTreePage :=
  if leaf then leaf_InsertDataToPage p key value else internal_InsertDataToPage p key value.

(** Modelled from the spec: the header page keeps records (index name, root
    page id). [InsertRecord] adds a record for a name it does not hold yet,
    [UpdateRecord] rewrites the record of a name it holds. *)
Fixpoint has_record (records : list (string * Z)) (name : string) : bool :=
  match records with
  | [] => false
  | (n, _) :: rest => if decide (n = name) then true else has_record rest name
  end.

Definition InsertRecord (records : list (string * Z)) (name : string) (root_id : Z)
  : list (string * Z) :=
  if has_record records name then records else records ++ [(name, root_id)].

Fixpoint UpdateRecord (records : list (string * Z)) (name : string) (root_id : Z)
  : list (string * Z) :=
  match records with
  | [] => []
  | (n, r) :: rest =>
      if decide (n = name) then (n, root_id) :: rest
      else (n, r) :: UpdateRecord rest name root_id
  end.

End TreePage.

(** * buffer/buffer_pool_manager_instance.cpp *)
Module BufferPool.
Import TreePage.

(** The bytes of a page, as the layout they were last written through. *)
Inductive PageData : Type :=
| Zeroed
| TreeData (p : BPlusTreePage)
| HeaderData (records : list (string * Z)).

Record Page := mkPage {
  page_id_ : Z;
  pin_count_ : Z;
  is_dirty_ : bool;
  data_ : PageData
}.

(** Modelled from the spec: the disk manager is an external collaborator that
    reads and writes whole pages by page id. It is kept as the list of the
    [WritePage] calls, the latest first; [ReadPage] returns what was last
    written for the id, and zeroes for an id never written. *)
Definition DiskManager : Type := list (Z * PageData).

Definition WritePage (d : DiskManager) (page_id : Z) (data : PageData) : DiskManager :=
  (page_id, data) :: d.

Fixpoint ReadPage (d : DiskManager) (page_id : Z) : PageData :=
  match d with
  | [] => Zeroed
  | (p, data) :: d' => if decide (p = page_id) then data else ReadPage d' page_id
  end.

Record BufferPoolManagerInstance := mkBPM {
  pool_size_ : nat;
  pages_ : list Page;
  page_table_ : @ExtHash.ExtendibleHashTable Z Z;
  replacer_ : LRUK.LRUKReplacer;
  free_list_ : list Z;
  next_page_id_ : Z;
  disk_manager_ : DiskManager
}.

Section Pool.

(** [std::hash<page_id_t>] of the page table. *)
Variable hash : Z -> nat.

(** Constructor. [bucket_size] is the constant [bucket_size_] of the header,
    which is not among the sources; every frame starts in the free list and
    page ids are handed out from 0. *)
Definition new (pool_size : nat) (replacer_k : Z) (bucket_size : nat) : BufferPoolManagerInstance :=
  mkBPM pool_size
        (replicate pool_size (mkPage INVALID_PAGE_ID 0 false Zeroed))
        (ExtHash.new bucket_size)
        (LRUK.new (Z.of_nat pool_size) replacer_k)
        (map Z.of_nat (seq 0 pool_size))
        0
        [].

(** [pages_[frame_id]] *)
Definition frame (bpm : BufferPoolManagerInstance) (frame_id : Z) : option Page :=
  if decide (0 ≤ frame_id)%Z then pages_ bpm !! Z.to_nat frame_id else None.

Definition set_pages (bpm : BufferPoolManagerInstance) (ps : list Page) : BufferPoolManagerInstance :=
  mkBPM (pool_size_ bpm) ps (page_table_ bpm) (replacer_ bpm) (free_list_ bpm)
        (next_page_id_ bpm) (disk_manager_ bpm).

Definition set_frame (bpm : BufferPoolManagerInstance) (frame_id : Z) (p : Page)
  : BufferPoolManagerInstance :=
  set_pages bpm (<[Z.to_nat frame_id := p]> (pages_ bpm)).

Definition set_page_table (bpm : BufferPoolManagerInstance) (t : ExtHash.ExtendibleHashTable)
  : BufferPoolManagerInstance :=
  mkBPM (pool_size_ bpm) (pages_ bpm) t (replacer_ bpm) (free_list_ bpm)
        (next_page_id_ bpm) (disk_manager_ bpm).

Definition set_replacer (bpm : BufferPoolManagerInstance) (r : LRUK.LRUKReplacer)
  : BufferPoolManagerInstance :=
  mkBPM (pool_size_ bpm) (pages_ bpm) (page_table_ bpm) r (free_list_ bpm)
        (next_page_id_ bpm) (disk_manager_ bpm).

Definition set_free_list (bpm : BufferPoolManagerInstance) (l : list Z)
  : BufferPoolManagerInstance :=
  mkBPM (pool_size_ bpm) (pages_ bpm) (page_table_ bpm) (replacer_ bpm) l
        (next_page_id_ bpm) (disk_manager_ bpm).

Definition set_next_page_id (bpm : BufferPoolManagerInstance) (n : Z)
  : BufferPoolManagerInstance :=
  mkBPM (pool_size_ bpm) (pages_ bpm) (page_table_ bpm) (replacer_ bpm) (free_list_ bpm)
        n (disk_manager_ bpm).

Definition set_disk (bpm : BufferPoolManagerInstance) (d : DiskManager)
  : BufferPoolManagerInstance :=
  mkBPM (pool_size_ bpm) (pages_ bpm) (page_table_ bpm) (replacer_ bpm) (free_list_ bpm)
        (next_page_id_ bpm) d.

(** [page_table_->Find(page_id, frame_id)] *)
Definition table_find (bpm : BufferPoolManagerInstance) (page_id : Z) : option (option Z) :=
  ExtHash.Find hash (page_table_ bpm) page_id.

(** [page_table_->Remove(page_id)], the result dropped. *)
Definition table_remove (bpm : BufferPoolManagerInstance) (page_id : Z)
  : option BufferPoolManagerInstance :=
  r ← ExtHash.Remove hash (page_table_ bpm) page_id;
  Some (set_page_table bpm (snd r)).

(** The victim of an eviction: written back when dirty, then unbound from the
    page table. *)
Definition reclaim (bpm : BufferPoolManagerInstance) (frame_id : Z)
  : option BufferPoolManagerInstance :=
  p ← frame bpm frame_id;
  let bpm1 :=
    if is_dirty_ p then
      set_frame (set_disk bpm (WritePage (disk_manager_ bpm) (page_id_ p) (data_ p)))
                frame_id (mkPage (page_id_ p) (pin_count_ p) false (data_ p))
    else bpm in
  p1 ← frame bpm1 frame_id;
  table_remove bpm1 (page_id_ p1).

(** [GetAvailableFrame]: the pool after the call and the frame found, if any. *)
Definition GetAvailableFrame (fuel : nat) (bpm : BufferPoolManagerInstance)
  : result (BufferPoolManagerInstance * option Z) :=
  match free_list_ bpm with
  | frame_id :: rest => Ok (set_free_list bpm rest, Some frame_id)
  | [] =>
      rbind (LRUK.Evict fuel (replacer_ bpm)) (fun '(r, victim) =>
      let bpm1 := set_replacer bpm r in
      match victim with
      | Some frame_id =>
          rbind (of_option (reclaim bpm1 frame_id)) (fun bpm2 => Ok (bpm2, Some frame_id))
      | None => Ok (bpm1, None)
      end)
  end.

Definition AllocatePage (bpm : BufferPoolManagerInstance) : BufferPoolManagerInstance * Z :=
  (set_next_page_id bpm (next_page_id_ bpm + 1)%Z, next_page_id_ bpm).

(** Modelled from the spec: [DeallocatePage] is defined in the header, which is
    not among the sources; deallocation is left to the disk manager and does
    nothing to the pool. *)
Definition DeallocatePage (bpm : BufferPoolManagerInstance) (page_id : Z)
  : BufferPoolManagerInstance := bpm.

(** The tail shared by [NewPgImp] and [FetchPgImp]: the access is recorded, the
    frame made non-evictable and pinned once more. *)
Definition pin (fuel : nat) (bpm : BufferPoolManagerInstance) (frame_id : Z)
  : result BufferPoolManagerInstance :=
  rbind (of_option (LRUK.RecordAccess (replacer_ bpm) frame_id)) (fun r1 =>
  rbind (LRUK.SetEvictable fuel r1 frame_id false) (fun r2 =>
  let bpm1 := set_replacer bpm r2 in
  rbind (of_option (frame bpm1 frame_id)) (fun p =>
  Ok (set_frame bpm1 frame_id
        (mkPage (page_id_ p) (pin_count_ p + 1)%Z (is_dirty_ p) (data_ p)))))).

(** [NewPgImp]: [None] is the null return; otherwise the new page id and the
    frame the returned [Page *] points to. *)
Definition NewPgImp (fuel : nat) (bpm : BufferPoolManagerInstance)
  : result (BufferPoolManagerInstance * option (Z * Z)) :=
  rbind (GetAvailableFrame fuel bpm) (fun '(bpm1, avail) =>
  match avail with
  | None => Ok (bpm1, None)
  | Some frame_id =>
      let '(bpm2, page_id) := AllocatePage bpm1 in
      rbind (of_option (frame bpm2 frame_id)) (fun _ =>
      let bpm3 := set_frame bpm2 frame_id (mkPage page_id 0 false Zeroed) in
      rbind (ExtHash.Insert hash fuel (page_table_ bpm3) page_id frame_id) (fun t =>
      rbind (pin fuel (set_page_table bpm3 t) frame_id) (fun bpm4 =>
      Ok (bpm4, Some (page_id, frame_id)))))
  end).

(** [FetchPgImp]: [None] is the null return, otherwise the frame. *)
Definition FetchPgImp (fuel : nat) (bpm : BufferPoolManagerInstance) (page_id : Z)
  : result (BufferPoolManagerInstance * option Z) :=
  rbind (of_option (table_find bpm page_id)) (fun found =>
  match found with
  | Some frame_id =>
      rbind (pin fuel bpm frame_id) (fun bpm1 => Ok (bpm1, Some frame_id))
  | None =>
      rbind (GetAvailableFrame fuel bpm) (fun '(bpm1, avail) =>
      match avail with
      | None => Ok (bpm1, None)
      | Some frame_id =>
          rbind (of_option (frame bpm1 frame_id)) (fun _ =>
          let bpm2 := set_frame bpm1 frame_id
                        (mkPage page_id 0 false (ReadPage (disk_manager_ bpm1) page_id)) in
          rbind (ExtHash.Insert hash fuel (page_table_ bpm2) page_id frame_id) (fun t =>
          rbind (pin fuel (set_page_table bpm2 t) frame_id) (fun bpm3 =>
          Ok (bpm3, Some frame_id))))
      end)
  end).

Definition UnpinPgImp (fuel : nat) (bpm : BufferPoolManagerInstance) (page_id : Z) (is_dirty : bool)
  : result (BufferPoolManagerInstance * bool) :=
  rbind (of_option (table_find bpm page_id)) (fun found =>
  match found with
  | None => Ok (bpm, false)
  | Some frame_id =>
      rbind (of_option (frame bpm frame_id)) (fun p =>
      if decide (pin_count_ p ≤ 0)%Z then Ok (bpm, false)
      else
        let bpm1 := set_frame bpm frame_id
                      (mkPage (page_id_ p) (pin_count_ p - 1)%Z (is_dirty_ p) (data_ p)) in
        rbind (if decide (pin_count_ p - 1 = 0)%Z
               then rbind (LRUK.SetEvictable fuel (replacer_ bpm1) frame_id true)
                          (fun r => Ok (set_replacer bpm1 r))
               else Ok bpm1) (fun bpm2 =>
        rbind (of_option (frame bpm2 frame_id)) (fun p2 =>
        Ok (if is_dirty
            then set_frame bpm2 frame_id
                   (mkPage (page_id_ p2) (pin_count_ p2) true (data_ p2))
            else bpm2, true))))
  end).

Definition FlushPgImp (bpm : BufferPoolManagerInstance) (page_id : Z)
  : option (BufferPoolManagerInstance * bool) :=
  found ← table_find bpm page_id;
  match found with
  | None => Some (bpm, false)
  | Some frame_id =>
      p ← frame bpm frame_id;
      Some (set_frame (set_disk bpm (WritePage (disk_manager_ bpm) page_id (data_ p)))
                      frame_id (mkPage (page_id_ p) (pin_count_ p) false (data_ p)), true)
  end.

(** The loop of [FlushAllPgsImp] over the frames [i], [i+1], ... *)
Fixpoint flush_from (n : nat) (i : nat) (bpm : BufferPoolManagerInstance)
  : option BufferPoolManagerInstance :=
  match n with
  | 0 => Some bpm
  | S n' =>
      p ← pages_ bpm !! i;
      bpm1 ← (if decide (page_id_ p ≠ INVALID_PAGE_ID)
              then fst <$> FlushPgImp bpm (page_id_ p) else Some bpm);
      flush_from n' (S i) bpm1
  end.

Definition FlushAllPgsImp (bpm : BufferPoolManagerInstance) : option BufferPoolManagerInstance :=
  flush_from (pool_size_ bpm) 0 bpm.

Definition DeletePgImp (bpm : BufferPoolManagerInstance) (page_id : Z)
  : option (BufferPoolManagerInstance * bool) :=
  found ← table_find bpm page_id;
  match found with
  | None => Some (bpm, true)
  | Some frame_id =>
      p ← frame bpm frame_id;
      if decide (0 < pin_count_ p)%Z then Some (bpm, false)
      else
        bpm1 ← table_remove bpm page_id;
        r ← LRUK.Remove (replacer_ bpm1) frame_id;
        let bpm2 := set_free_list (set_replacer bpm1 r) (free_list_ bpm1 ++ [frame_id]) in
        _ ← frame bpm2 frame_id;
        let bpm3 := set_frame bpm2 frame_id (mkPage INVALID_PAGE_ID 0 false Zeroed) in
        Some (DeallocatePage bpm3 page_id, true)
  end.

End Pool.
End BufferPool.

(** * storage/index/b_plus_tree.cpp *)
Module BPlusTree.
Import TreePage BufferPool.

(** The calls a tree operation makes on the buffer pool, in order. The log is
    not state of the source; it records what the source does so that pins and
    unpins can be counted. A fetch or a new page is logged when it returns a
    page (a pin), an unpin and a delete with what they return. *)
Inductive Call : Type :=
| CallFetch (page_id : Z)
| CallNew (page_id : Z)
| CallUnpin (page_id : Z) (is_dirty : bool) (ok : bool)
| CallDelete (page_id : Z) (ok : bool).

(** The tree object, the buffer pool it points to, and the log. *)
Record BPlusTree := mkTree {
  index_name_ : string;
  root_page_id_ : Z;
  buffer_pool_manager_ : BufferPoolManagerInstance;
  leaf_max_size_ : Z;
  internal_max_size_ : Z;
  calls_ : list Call
}.

(** Constructor. *)
Definition new (name : string) (bpm : BufferPoolManagerInstance)
  (leaf_max_size internal_max_size : Z) : BPlusTree :=
  mkTree name INVALID_PAGE_ID bpm leaf_max_size internal_max_size [].

Definition IsEmpty (t : BPlusTree) : bool := bool_decide (root_page_id_ t = INVALID_PAGE_ID).

(** Tree code runs in a state monad over the tree and its pool. *)
Definition M (A : Type) : Type := BPlusTree -> result (A * BPlusTree).

#[global] Instance M_ret : MRet M := fun A a s => Ok (a, s).

#[global] Instance M_bind : MBind M := fun A B f m s =>
  match m s with
  | Ok (a, s') => f a s'
  | Fault => Fault
  | Timeout => Timeout
  end.

Definition pure {A} (a : A) : M A := fun s => Ok (a, s).
Definition fault {A} : M A := fun _ => Fault.
Definition timeout {A} : M A := fun _ => Timeout.

(** Use of a pointer that may be null. *)
Definition deref {A} (o : option A) : M A :=
  match o with
  | Some a => pure a
  | None => fault
  end.

Definition get_root : M Z := fun s => Ok (root_page_id_ s, s).

Definition set_root (r : Z) : M unit := fun s =>
  Ok (tt, mkTree (index_name_ s) r (buffer_pool_manager_ s) (leaf_max_size_ s)
                 (internal_max_size_ s) (calls_ s)).

Definition get_leaf_max : M Z := fun s => Ok (leaf_max_size_ s, s).
Definition get_internal_max : M Z := fun s => Ok (internal_max_size_ s, s).
Definition get_name : M string := fun s => Ok (index_name_ s, s).

Definition set_bpm (s : BPlusTree) (bpm : BufferPoolManagerInstance) : BPlusTree :=
  mkTree (index_name_ s) (root_page_id_ s) bpm (leaf_max_size_ s) (internal_max_size_ s) (calls_ s).

Definition log (c : Call) : M unit := fun s =>
  Ok (tt, mkTree (index_name_ s) (root_page_id_ s) (buffer_pool_manager_ s) (leaf_max_size_ s)
                 (internal_max_size_ s) (calls_ s ++ [c])).

(** A call on the pool the tree points to. *)
Definition on_pool {A} (f : BufferPoolManagerInstance -> result (BufferPoolManagerInstance * A))
  : M A := fun s =>
  match f (buffer_pool_manager_ s) with
  | Ok (bpm, a) => Ok (a, set_bpm s bpm)
  | Fault => Fault
  | Timeout => Timeout
  end.

Section Tree.
Variable hash : Z -> nat.
Variable fuel : nat.

(** [buffer_pool_manager_->FetchPage(page_id)]: the frame, or null. *)
Definition FetchPage (page_id : Z) : M (option Z) :=
  r ← on_pool (fun bpm => FetchPgImp hash fuel bpm page_id);
  _ ← (if r is Some _ then log (CallFetch page_id) else pure tt);
  pure r.

(** [buffer_pool_manager_->NewPage(&page_id)]: the id written and the frame, or null. *)
Definition NewPage : M (option (Z * Z)) :=
  r ← on_pool (fun bpm => NewPgImp hash fuel bpm);
  _ ← (if r is Some (page_id, _) then log (CallNew page_id) else pure tt);
  pure r.

Definition UnpinPage (page_id : Z) (is_dirty : bool) : M bool :=
  r ← on_pool (fun bpm => UnpinPgImp hash fuel bpm page_id is_dirty);
  _ ← log (CallUnpin page_id is_dirty r);
  pure r.

Definition DeletePage (page_id : Z) : M bool :=
  r ← on_pool (fun bpm => of_option (DeletePgImp hash bpm page_id));
  _ ← log (CallDelete page_id r);
  pure r.

(** [FetchPage(page_id)->GetData()] *)
Definition fetch (page_id : Z) : M Z := FetchPage page_id ≫= deref.

(** The data of the page in a frame, read through a tree page pointer. A page
    of zeroes reads as a page of no type and no entries; the records of the
    header page are not read as a tree page by any path taken here. *)
Definition rd (f : Z) : M BPlusTreePage := fun s =>
  match frame (buffer_pool_manager_ s) f with
  | Some p =>
      match data_ p with
      | Zeroed => Ok (zero_page, s)
      | TreeData tp => Ok (tp, s)
      | HeaderData _ => Fault
      end
  | None => Fault
  end.

Definition wr (f : Z) (tp : BPlusTreePage) : M unit := fun s =>
  match frame (buffer_pool_manager_ s) f with
  | Some p =>
      Ok (tt, set_bpm s (set_frame (buffer_pool_manager_ s) f
                           (mkPage (BufferPool.page_id_ p) (pin_count_ p) (is_dirty_ p)
                                   (TreeData tp))))
  | None => Fault
  end.

Definition modify (f : Z) (g : BPlusTreePage -> BPlusTreePage) : M unit :=
  tp ← rd f; wr f (g tp).

(** An index into [array_]; a negative one is outside the array. *)
Definition idx (i : Z) : M nat :=
  if decide (0 ≤ i)%Z then pure (Z.to_nat i) else fault.

Definition GetSize (f : Z) : M Z := tp ← rd f; pure (size_ tp).
Definition GetMaxSize (f : Z) : M Z := tp ← rd f; pure (max_size_ tp).
Definition GetMinSizeOf (f : Z) : M Z := tp ← rd f; pure (GetMinSize tp).
Definition GetPageId (f : Z) : M Z := tp ← rd f; pure (TreePage.page_id_ tp).
Definition GetParentPageId (f : Z) : M Z := tp ← rd f; pure (parent_page_id_ tp).
Definition GetNextPageId (f : Z) : M Z := tp ← rd f; pure (TreePage.next_page_id_ tp).
Definition IsLeaf (f : Z) : M bool := tp ← rd f; pure (IsLeafPage tp).
Definition SetSize (f : Z) (n : Z) : M unit := modify f (fun tp => set_size tp n).
Definition IncreaseSize (f : Z) (n : Z) : M unit := modify f (fun tp => set_size tp (size_ tp + n)%Z).
Definition SetParentPageId (f : Z) (p : Z) : M unit := modify f (fun tp => set_parent tp p).
Definition SetNextPageId (f : Z) (p : Z) : M unit := modify f (fun tp => set_next tp p).
Definition KeyAt (f : Z) (i : Z) : M Z := tp ← rd f; n ← idx i; pure (fst (arr_get (array_ tp) n)).
Definition ValueAt (f : Z) (i : Z) : M Z := tp ← rd f; n ← idx i; pure (snd (arr_get (array_ tp) n)).

Definition SetKeyValueAt (f : Z) (i : Z) (key value : Z) : M unit :=
  n ← idx i; modify f (fun tp => set_array tp (arr_set (array_ tp) n (key, value))).

(** [for (int i = lo; i < hi; i++) body(i)], for a body that leaves [hi] alone. *)
Definition for_ (lo hi : Z) (body : Z -> M unit) : M unit :=
  fold_left (fun acc n => _ ← acc; body (lo + Z.of_nat n)%Z)
            (seq 0 (Z.to_nat (hi - lo))) (pure tt).

(** [KeyType()] *)
Definition KeyType0 : Z := 0%Z.

(** The records of the header page, read and written through a [HeaderPage *]. *)
Definition modify_header (f : Z) (g : list (string * Z) -> list (string * Z)) : M unit := fun s =>
  match frame (buffer_pool_manager_ s) f with
  | Some p =>
      match (match data_ p with
             | Zeroed => Some []
             | HeaderData r => Some r
             | TreeData _ => None
             end) with
      | Some r =>
          Ok (tt, set_bpm s (set_frame (buffer_pool_manager_ s) f
                               (mkPage (BufferPool.page_id_ p) (pin_count_ p) (is_dirty_ p)
                                       (HeaderData (g r)))))
      | None => Fault
      end
  | None => Fault
  end.

Definition UpdateRootPageId (insert_record : bool) : M unit :=
  header_page ← fetch HEADER_PAGE_ID;
  name ← get_name;
  root ← get_root;
  _ ← modify_header header_page
        (fun r => if insert_record then InsertRecord r name root else UpdateRecord r name root);
  _ ← UnpinPage HEADER_PAGE_ID true;
  pure tt.

(** The loop of [FindLeafPage]; [page] is the pinned page reached so far. *)
Fixpoint descend (n : nat) (key : Z) (page : Z) : M Z :=
  leaf ← IsLeaf page;
  if (leaf : bool) then pure page
  else match n with
       | 0 => timeout
       | S n' =>
           let internal := page in
           tp ← rd internal;
           let index := internal_Find tp key in
           page_id ← ValueAt internal index;
           page' ← fetch page_id;
           ipid ← GetPageId internal;
           _ ← UnpinPage ipid false;
           descend n' key page'
       end.

Definition FindLeafPage (key : Z) : M Z :=
  page_id ← get_root;
  page ← fetch page_id;
  descend fuel key page.

(** [GetValue]: [Some v] when the call returns true, having pushed [v]. *)
Definition GetValue (key : Z) : M (option Z) :=
  leaf ← FindLeafPage key;
  tp ← rd leaf;
  let index := leaf_Find tp key in
  if decide (index = INVALID_INDEX_ID) then pure None
  else
    v ← ValueAt leaf index;
    pid ← GetPageId leaf;
    _ ← UnpinPage pid false;
    pure (Some v).

(** The new root made when the root [page] has been split into [page] and [newPage]. *)
Definition make_root (page newPage : Z) : M Z :=
  '(rid, newRootPage) ← NewPage ≫= deref;
  _ ← set_root rid;
  imax ← get_internal_max;
  _ ← modify newRootPage (fun tp => internal_Init tp rid INVALID_PAGE_ID imax);
  pid ← GetPageId page;
  _ ← SetKeyValueAt newRootPage 0 KeyType0 pid;
  k0 ← KeyAt newPage 0;
  npid ← GetPageId newPage;
  _ ← SetKeyValueAt newRootPage 1 k0 npid;
  _ ← IncreaseSize newRootPage 2;
  pure newRootPage.

(** The upper half [splitIndex .. size-1] of [page] copied to [newPage]. *)
Definition move_upper_half (page newPage : Z) (size : Z) : M unit :=
  let splitIndex := (size `quot` 2)%Z in
  _ ← for_ splitIndex size (fun i =>
        k ← KeyAt page i; v ← ValueAt page i;
        SetKeyValueAt newPage (i - splitIndex) k v);
  _ ← SetSize newPage (size - splitIndex);
  SetSize page splitIndex.

Definition SplitLeafPage (page : Z) : M Z :=
  size ← GetSize page;
  '(page_id_, newPage) ← NewPage ≫= deref;
  parent ← GetParentPageId page;
  lmax ← get_leaf_max;
  _ ← modify newPage (fun tp => leaf_Init tp page_id_ parent lmax);
  _ ← move_upper_half page newPage size;
  pid ← GetPageId page;
  root ← get_root;
  parent_pid ←
    (if decide (pid = root) then
       _ ← make_root page newPage;
       _ ← UpdateRootPageId false;
       root' ← get_root;
       _ ← SetParentPageId page root';
       pure root'
     else
       parent_pid ← GetParentPageId page;
       parentPage ← fetch parent_pid;
       k0 ← KeyAt newPage 0;
       npid ← GetPageId newPage;
       _ ← modify parentPage (fun tp => internal_InsertDataToPage tp k0 npid);
       pure parent_pid);
  _ ← SetParentPageId newPage parent_pid;
  next ← GetNextPageId page;
  _ ← SetNextPageId newPage next;
  npid ← GetPageId newPage;
  _ ← SetNextPageId page npid;
  _ ← UnpinPage page_id_ true;
  _ ← UnpinPage parent_pid true;
  pure parent_pid.

(** The [while] loop of [InsertLeafPage] over the overflowing ancestors;
    [None] is a null [current_page]. *)
Fixpoint split_up (n : nat) (current_page : option Z) : M (option Z) :=
  match current_page with
  | None => pure None
  | Some cur =>
      size ← GetSize cur;
      max ← GetMaxSize cur;
      if decide (size ≤ max)%Z then pure (Some cur)
      else match n with
           | 0 => timeout
           | S n' =>
               '(new_page_id_, newPage) ← NewPage ≫= deref;
               cur_parent ← GetParentPageId cur;
               imax ← get_internal_max;
               _ ← modify newPage (fun tp => internal_Init tp new_page_id_ cur_parent imax);
               _ ← move_upper_half cur newPage size;
               cur_id ← GetPageId cur;
               root ← get_root;
               _ ← (if decide (cur_id = root) then
                      _ ← make_root cur newPage;
                      v0 ← ValueAt newPage 0;
                      _ ← SetKeyValueAt newPage 0 KeyType0 v0;
                      _ ← UpdateRootPageId false;
                      root' ← get_root;
                      _ ← SetParentPageId cur root';
                      SetParentPageId newPage root'
                    else
                      ppid ← GetParentPageId cur;
                      parentPage ← fetch ppid;
                      k0 ← KeyAt newPage 0;
                      npid ← GetPageId newPage;
                      _ ← modify parentPage (fun tp => internal_InsertDataToPage tp k0 npid);
                      v0 ← ValueAt newPage 0;
                      _ ← SetKeyValueAt newPage 0 KeyType0 v0;
                      ppid' ← GetParentPageId cur;
                      _ ← SetParentPageId newPage ppid';
                      parent_id ← GetPageId parentPage;
                      _ ← UnpinPage parent_id true;
                      pure tt);
               parent_pid ← GetParentPageId cur;
               npid ← GetPageId newPage;
               _ ← UnpinPage npid true;
               cid ← GetPageId cur;
               _ ← UnpinPage cid true;
               next ← (if decide (parent_pid ≠ INVALID_PAGE_ID)
                       then (p ← fetch parent_pid; pure (Some p))
                       else pure None);
               split_up n' next
           end
  end.

Definition InsertLeafPage (key value : Z) : M unit :=
  leaf ← FindLeafPage key;
  tp ← rd leaf;
  let index := leaf_Find tp key in
  if decide (index ≠ INVALID_INDEX_ID) then
    _ ← SetKeyValueAt leaf index key value;
    pid ← GetPageId leaf;
    _ ← UnpinPage pid true;
    pure tt
  else
    _ ← modify leaf (fun tp => leaf_InsertDataToPage tp key value);
    size ← GetSize leaf;
    max ← GetMaxSize leaf;
    if decide (size ≤ max)%Z then
      pid ← GetPageId leaf;
      _ ← UnpinPage pid true;
      pure tt
    else
      current_page_id ← SplitLeafPage leaf;
      current_page ← fetch current_page_id;
      last ← split_up fuel (Some current_page);
      cur ← deref last;
      cid ← GetPageId cur;
      _ ← UnpinPage cid true;
      pure tt.

Definition Insert (key value : Z) : M bool :=
  root ← get_root;
  if decide (root = INVALID_PAGE_ID) then
    '(rid, root_page) ← NewPage ≫= deref;
    _ ← set_root rid;
    let leaf_page := root_page in
    lmax ← get_leaf_max;
    _ ← modify leaf_page (fun tp => leaf_Init tp rid INVALID_PAGE_ID lmax);
    _ ← UpdateRootPageId true;
    _ ← modify leaf_page (fun tp => leaf_InsertDataToPage tp key value);
    root' ← get_root;
    _ ← UnpinPage root' true;
    pure true
  else
    _ ← InsertLeafPage key value;
    pure true.

Definition isRedistribute (node : Z) : M bool :=
  size ← GetSize node;
  min ← GetMinSizeOf node;
  pure (bool_decide (min < size)%Z).

Definition isCoalesce (lNode rNode : Z) : M bool :=
  lsize ← GetSize lNode;
  rsize ← GetSize rNode;
  rmax ← GetMaxSize rNode;
  pure (bool_decide (lsize + rsize ≤ rmax)%Z).

(** [for (i = 1; i < rNode->GetSize(); i++) rNode[i-1] = rNode[i]] *)
Definition shift_left_from_1 (rNode : Z) : M unit :=
  rsize ← GetSize rNode;
  for_ 1 rsize (fun i =>
    k ← KeyAt rNode i; v ← ValueAt rNode i; SetKeyValueAt rNode (i - 1) k v).

(** [for (i = 0; i < rNode->GetSize(); i++) rNode[i+1] = rNode[i]], in
    ascending order of [i] as the source has it. *)
Definition shift_right_from_0 (rNode : Z) : M unit :=
  rsize ← GetSize rNode;
  for_ 0 rsize (fun i =>
    k ← KeyAt rNode i; v ← ValueAt rNode i; SetKeyValueAt rNode (i + 1) k v).

Definition Redistribute (lNode rNode parent : Z) (index : Z) : M unit :=
  lsize ← GetSize lNode;
  lmin ← GetMinSizeOf lNode;
  _ ← (if decide (lsize < lmin)%Z then
         lleaf ← IsLeaf lNode;
         if (lleaf : bool) then
           k1 ← KeyAt rNode 1; pv ← ValueAt parent index;
           _ ← SetKeyValueAt parent index k1 pv;
           n ← GetSize lNode; k0 ← KeyAt rNode 0; v0 ← ValueAt rNode 0;
           _ ← SetKeyValueAt lNode n k0 v0;
           shift_left_from_1 rNode
         else
           pk ← KeyAt parent index; v0 ← ValueAt rNode 0;
           _ ← SetKeyValueAt rNode 0 pk v0;
           k1 ← KeyAt rNode 1; pv ← ValueAt parent index;
           _ ← SetKeyValueAt parent index k1 pv;
           v1 ← ValueAt rNode 1;
           _ ← SetKeyValueAt rNode 1 KeyType0 v1;
           n ← GetSize lNode; k0 ← KeyAt rNode 0; v0' ← ValueAt rNode 0;
           _ ← SetKeyValueAt lNode n k0 v0';
           shift_left_from_1 rNode
       else
         rleaf ← IsLeaf rNode;
         if (rleaf : bool) then
           _ ← shift_right_from_0 rNode;
           n ← GetSize lNode;
           let moveIndex := (n - 1)%Z in
           mk ← KeyAt lNode moveIndex; mv ← ValueAt lNode moveIndex;
           _ ← SetKeyValueAt rNode 0 mk mv;
           k0 ← KeyAt rNode 0; pv ← ValueAt parent index;
           SetKeyValueAt parent index k0 pv
         else
           _ ← shift_right_from_0 rNode;
           pk ← KeyAt parent index; v1 ← ValueAt rNode 1;
           _ ← SetKeyValueAt rNode 1 pk v1;
           n ← GetSize lNode;
           let moveIndex := (n - 1)%Z in
           mk ← KeyAt lNode moveIndex; mv ← ValueAt lNode moveIndex;
           _ ← SetKeyValueAt rNode 0 mk mv;
           k0 ← KeyAt rNode 0; pv ← ValueAt parent index;
           _ ← SetKeyValueAt parent index k0 pv;
           v0 ← ValueAt rNode 0;
           SetKeyValueAt rNode 0 KeyType0 v0);
  _ ← IncreaseSize lNode 1;
  IncreaseSize rNode (-1).

Definition Coalesce (lNode rNode parent : Z) (index : Z) : M unit :=
  lleaf ← IsLeaf lNode;
  _ ← (if (lleaf : bool) then
         next ← GetNextPageId rNode;
         SetNextPageId lNode next
       else
         pk ← KeyAt parent index; v0 ← ValueAt rNode 0;
         SetKeyValueAt rNode 0 pk v0);
  lsize ← GetSize lNode;
  _ ← for_ 0 lsize (fun i =>
        n ← GetSize lNode; k ← KeyAt rNode i; v ← ValueAt rNode i;
        SetKeyValueAt lNode (n + i) k v);
  psize ← GetSize parent;
  _ ← for_ (index + 1) psize (fun i =>
        k ← KeyAt parent i; v ← ValueAt parent i;
        SetKeyValueAt parent (i - 1) k v);
  rsize ← GetSize rNode;
  _ ← IncreaseSize lNode rsize;
  rpid ← GetPageId rNode;
  _ ← DeletePage rpid;
  pure tt.

(** [SolveOverflow]. The source has one copy of each step for a leaf and one
    for an internal page; they differ in the pointer type only. *)
Definition SolveOverflow (node0 : Z) : M unit :=
  parent_pid ← GetParentPageId node0;
  parentPage ← fetch parent_pid;
  ptp ← rd parentPage;
  npid ← GetPageId node0;
  let current_index := IndexAtOfValue ptp npid in
  let left_sib_index := (current_index - 1)%Z in
  let right_sib_index := (current_index + 1)%Z in
  psize ← GetSize parentPage;
  borrow ←
    (if decide (0 ≤ left_sib_index)%Z then
       sibling_pid ← ValueAt parentPage left_sib_index;
       sib_node ← fetch sibling_pid;
       b ← isRedistribute sib_node;
       _ ← (if (b : bool) then Redistribute sib_node node0 parentPage current_index else pure tt);
       _ ← UnpinPage sibling_pid true;
       pure b
     else if decide (right_sib_index < psize)%Z then
       sibling_pid ← ValueAt parentPage right_sib_index;
       sib_node ← fetch sibling_pid;
       b ← isRedistribute sib_node;
       _ ← (if (b : bool) then Redistribute node0 sib_node parentPage right_sib_index else pure tt);
       _ ← UnpinPage sibling_pid true;
       pure b
     else pure false);
  node ←
    (if (borrow : bool) then pure node0
     else if decide (0 ≤ left_sib_index)%Z then
       sibling_pid ← ValueAt parentPage left_sib_index;
       sib_node ← fetch sibling_pid;
       c ← isCoalesce sib_node node0;
       if (c : bool) then
         _ ← Coalesce sib_node node0 parentPage current_index;
         pure sib_node
       else pure node0
     else
       sibling_pid ← ValueAt parentPage right_sib_index;
       sib_node ← fetch sibling_pid;
       c ← isCoalesce node0 sib_node;
       _ ← (if (c : bool) then Coalesce node0 sib_node parentPage right_sib_index else pure tt);
       pure node0);
  psize' ← GetSize parentPage;
  ppid ← GetPageId parentPage;
  root ← get_root;
  _ ← (if decide (psize' = 1 ∧ ppid = root)%Z then
         _ ← DeletePage root;
         nid ← GetPageId node;
         _ ← set_root nid;
         _ ← SetParentPageId node INVALID_PAGE_ID;
         UpdateRootPageId false
       else pure tt);
  _ ← UnpinPage parent_pid true;
  pure tt.

(** The [while] loop of [Remove] over the underflowing ancestors; the result
    is the [node] the loop ends with. *)
Fixpoint solve_up (n : nat) (node : Z) : M Z :=
  size ← GetSize node;
  min ← GetMinSizeOf node;
  if decide (min ≤ size)%Z then pure node
  else match n with
       | 0 => timeout
       | S n' =>
           _ ← SolveOverflow node;
           parent_pid ← GetParentPageId node;
           if decide (parent_pid ≠ INVALID_PAGE_ID) then
             nid ← GetPageId node;
             _ ← UnpinPage nid true;
             node' ← fetch parent_pid;
             solve_up n' node'
           else pure node
       end.

Definition Remove (key : Z) : M unit :=
  root ← get_root;
  if decide (root = INVALID_PAGE_ID) then pure tt
  else
    leaf ← FindLeafPage key;
    tp ← rd leaf;
    let index := leaf_Find tp key in
    if decide (index ≠ INVALID_INDEX_ID) then
      size ← GetSize leaf;
      _ ← for_ index (size - 1) (fun i =>
            k ← KeyAt leaf (i + 1); v ← ValueAt leaf (i + 1);
            SetKeyValueAt leaf i k v);
      _ ← IncreaseSize leaf (-1);
      pid ← GetPageId leaf;
      root' ← get_root;
      if decide (pid = root') then
        size' ← GetSize leaf;
        if decide (size' = 0)%Z then
          _ ← DeletePage root';
          pure tt
        else pure tt
      else
        size' ← GetSize leaf;
        min ← GetMinSizeOf leaf;
        (** [node] is declared without a value and set on this branch only. *)
        node ←
          (if decide (size' < min)%Z then
             _ ← SolveOverflow leaf;
             parent_pid ← GetParentPageId leaf;
             node ← fetch parent_pid;
             last ← solve_up fuel node;
             pure (Some last)
           else pure None);
        n ← deref node;
        nid ← GetPageId n;
        _ ← UnpinPage nid true;
        pure tt
    else
      pid ← GetPageId leaf;
      _ ← UnpinPage pid true;
      pure tt.

End Tree.
End BPlusTree.

(** * include/primer/p0_trie.h *)
Module Trie.
Section Trie.

(** [Ty] names the types [T] a value can have and [V] is the universe the
    values live in: a [TrieNodeWithValue<T>] holding [v] is a node whose
    [value_] is [Some (T, v)], a plain [TrieNode] has [value_ = None]. The
    test [dynamic_cast<TrieNodeWithValue<T> *>] is the test on this tag. *)
Context {Ty V : Type} `{EqDecision Ty}.

(** [children_] is the [unordered_map] from key chars to the owned child
    nodes. The nodes are owned through [unique_ptr], so a node is the value
    of its subtree. *)
Inductive TrieNode : Type := mkNode {
  key_char_ : ascii;
  is_end_ : bool;
  value_ : option (Ty * V);
  children_ : gmap ascii TrieNode
}.

(** [TrieNode(char key_char)] *)
Definition TrieNode_new (key_char : ascii) : TrieNode :=
  mkNode key_char false None ∅.

(** [TrieNodeWithValue(char key_char, T value)] *)
Definition TrieNodeWithValue_new (key_char : ascii) (T : Ty) (value : V) : TrieNode :=
  mkNode key_char true (Some (T, value)) ∅.

(** [TrieNodeWithValue(TrieNode &&trieNode, T value)]: the move constructor of
    [TrieNode] takes the key char, the flag and the children; the value is the
    new one and the flag is set. *)
Definition TrieNodeWithValue_from (trieNode : TrieNode) (T : Ty) (value : V) : TrieNode :=
  mkNode (key_char_ trieNode) true (Some (T, value)) (children_ trieNode).

Definition HasChild (n : TrieNode) (key_char : ascii) : bool :=
  bool_decide (is_Some (children_ n !! key_char)).

Definition HasChildren (n : TrieNode) : bool := bool_decide (children_ n ≠ ∅).

Definition IsEndNode (n : TrieNode) : bool := is_end_ n.

Definition GetKeyChar (n : TrieNode) : ascii := key_char_ n.

Definition set_children (n : TrieNode) (m : gmap ascii TrieNode) : TrieNode :=
  mkNode (key_char_ n) (is_end_ n) (value_ n) m.

(** [InsertChildNode]: the node after the call, and whether the returned
    pointer is non-null. *)
Definition InsertChildNode (n : TrieNode) (key_char : ascii) (child : TrieNode)
  : TrieNode * bool :=
  if decide (key_char = GetKeyChar child ∧ children_ n !! key_char = None)
  then (set_children n (<[key_char := child]> (children_ n)), true)
  else (n, false).

(** [GetChildNode]: [None] is the null pointer. *)
Definition GetChildNode (n : TrieNode) (key_char : ascii) : option TrieNode :=
  children_ n !! key_char.

(** A write through the pointer [GetChildNode] returned. *)
Definition set_child (n : TrieNode) (key_char : ascii) (child : TrieNode) : TrieNode :=
  set_children n (<[key_char := child]> (children_ n)).

Definition RemoveChildNode (n : TrieNode) (key_char : ascii) : TrieNode :=
  if decide (is_Some (children_ n !! key_char))
  then set_children n (delete key_char (children_ n))
  else n.

Definition SetEndNode (n : TrieNode) (is_end : bool) : TrieNode :=
  mkNode (key_char_ n) is_end (value_ n) (children_ n).

(** The trie owns its root. The latch is not modelled: one call runs at a time. *)
Record Trie := mkTrie { root_ : TrieNode }.

(** [Trie()] *)
Definition new : Trie := mkTrie (TrieNode_new zero).

(** The body of [Insert] from loop index [i] on: [node] is [*node],
    [c] is [key[i]] and [rest] holds the characters after it. The result is
    the return value and the subtree of [node] after the call; [None] is a
    null pointer dereferenced. *)
Fixpoint Insert_from (rest : string) (c : ascii) (node : TrieNode) (T : Ty) (value : V)
  {struct rest} : option (bool * TrieNode) :=
  match rest with
  | EmptyString =>
      match GetChildNode node c with
      | None =>
          let node1 := fst (InsertChildNode node c (TrieNodeWithValue_new c T value)) in
          Some (true, SetEndNode node1 false)
      | Some terminal_node =>
          if negb (IsEndNode terminal_node)
          then Some (true, set_child node c (TrieNodeWithValue_from terminal_node T value))
          else Some (false, node)
      end
  | String c' rest' =>
      let node1 :=
        match GetChildNode node c with
        | None => fst (InsertChildNode node c (TrieNode_new c))
        | Some _ => node
        end in
      child ← GetChildNode node1 c;
      '(ret, child') ← Insert_from rest' c' child T value;
      Some (ret, set_child node1 c child')
  end.

(** [Insert<T>(key, value)] *)
Definition Insert (t : Trie) (key : string) (T : Ty) (value : V) : option (bool * Trie) :=
  match key with
  | EmptyString => Some (false, t)
  | String c rest =>
      '(ret, root) ← Insert_from rest c (root_ t) T value;
      Some (ret, mkTrie root)
  end.

(** The lambda [dfs] of [Remove], called with a non-null [node]; [rest] holds
    the characters of its [key] after the first, so [key.size() == 1] is
    [rest] being empty and [key[1]] is the head of [rest]. *)
Fixpoint dfs (rest : string) (node : TrieNode) {struct rest} : bool * TrieNode :=
  match rest with
  | EmptyString =>
      (true, if IsEndNode node then SetEndNode node false else node)
  | String c1 rest' =>
      match GetChildNode node c1 with
      | None => (false, node)
      | Some child =>
          let '(ret, child') := dfs rest' child in
          let node1 := set_child node c1 child' in
          if negb ret then (false, node1)
          else
            match GetChildNode node1 c1 with
            | Some subnode =>
                if negb (HasChildren subnode) && negb (IsEndNode subnode)
                then (true, RemoveChildNode node1 c1)
                else (true, node1)
            | None => (true, node1)
            end
      end
  end.

(** [Remove(key)] *)
Definition Remove (t : Trie) (key : string) : bool * Trie :=
  match key with
  | EmptyString => (false, t)
  | String c rest =>
      match GetChildNode (root_ t) c with
      | None => (false, t)
      | Some child =>
          let '(ret, child') := dfs rest child in
          (ret, mkTrie (set_child (root_ t) c child'))
      end
  end.

(** The walk of [GetValue] over the characters of the key. *)
Fixpoint find_node (key : string) (node : TrieNode) {struct key} : option TrieNode :=
  match key with
  | EmptyString => Some node
  | String c rest => child ← GetChildNode node c; find_node rest child
  end.

(** [dynamic_cast<TrieNodeWithValue<T> *>(node)] followed by [GetValue()] on
    the result: [None] when the cast gives null. *)
Definition dynamic_cast (T : Ty) (node : TrieNode) : option V :=
  match value_ node with
  | Some (T', v) => if decide (T' = T) then Some v else None
  | None => None
  end.

(** [GetValue<T>(key, &success)]: [Some v] is success with [v] returned. *)
Definition GetValue (t : Trie) (key : string) (T : Ty) : option V :=
  match key with
  | EmptyString => None
  | _ => node ← find_node key (root_ t); dynamic_cast T node
  end.

End Trie.
End Trie.

(** * The extendible hash table: what its bucket count stands for *)
Module ExtHashInv.
Import ExtHash.
Section Table.
Context {K V : Type}.

(** Every bucket made is in use: [num_buckets_] counts the buckets of the
    heap, and each of them is the target of some directory slot. *)
Definition all_used (t : @ExtendibleHashTable K V) : Prop :=
  num_buckets_ t = length (heap_ t) ∧ ∀ h, h < length (heap_ t) -> h ∈ dir_ t.

End Table.
End ExtHashInv.

(** * The replacer as two lists

    What the pointer structure of the replacer stands for: the evictable
    frames with fewer than [k_] accesses in the order of the ring from
    [dummy_history_] to [dummy_buffer_] (the history list [hs]), and the
    evictable frames with [k_] accesses or more from [dummy_buffer_] back to
    [dummy_history_] (the buffer list [bs]). *)
Module ReplacerInv.
Import LRUK.

(** [p->next_] and [p->prev_] *)
Definition nx (r : LRUKReplacer) (p : node_id) : option node_id := read r p ≫= next_.
Definition pv (r : LRUKReplacer) (p : node_id) : option node_id := read r p ≫= prev_.

(** What a node holds besides its links: [key_], [value_], [evictable_]. *)
Definition attrs (r : LRUKReplacer) (p : node_id) : option (Z * Z * bool) :=
  (fun n => (key_ n, value_ n, evictable_ n)) <$> read r p.

(** The nodes of [l] are linked in both directions between [a] and [b]. *)
Fixpoint seg (r : LRUKReplacer) (a : node_id) (l : list node_id) (b : node_id) : Prop :=
  match l with
  | [] => nx r a = Some b ∧ pv r b = Some a
  | x :: l' => nx r a = Some x ∧ pv r x = Some a ∧ seg r x l' b
  end.

(** [l] with the frame [f] taken out. *)
Definition without (f : Z) (l : list Z) : list Z := filter (fun x => x ≠ f) l.

(** The ring holds the frames of [hs] and [bs] and no other node has links. *)
Definition linked (r : LRUKReplacer) (hs bs : list Z) : Prop :=
  NoDup (hs ++ bs) ∧
  seg r DummyHistory (Entry <$> hs) DummyBuffer ∧
  seg r DummyBuffer (Entry <$> bs) DummyHistory ∧
  ∀ f, f ∉ hs ++ bs -> nx r (Entry f) = None ∧ pv r (Entry f) = None.

(** The counters are the lengths of the lists, within the capacity. *)
Definition counted (r : LRUKReplacer) (hs bs : list Z) : Prop :=
  curr_history_size_ r = Z.of_nat (length hs) ∧
  curr_buffer_size_ r = Z.of_nat (length bs) ∧
  (Z.of_nat (length hs + length bs) ≤ replacer_size_ r)%Z ∧
  (replacer_size_ r < 2 ^ 64)%Z.

(** A node carries the frame it is stored under; the frames of the lists are
    the evictable ones, and the access count tells the two lists apart. *)
Definition tagged (r : LRUKReplacer) (hs bs : list Z) : Prop :=
  ∀ f key value ev, attrs r (Entry f) = Some (key, value, ev) ->
    key = f ∧ (0 ≤ value < 2 ^ 64)%Z ∧
    (f ∈ hs -> ev = true ∧ (value < k_ r)%Z) ∧
    (f ∈ bs -> ev = true ∧ (k_ r ≤ value)%Z) ∧
    (f ∉ hs ++ bs -> ev = false).

Definition replacer_ok (r : LRUKReplacer) (hs bs : list Z) : Prop :=
  linked r hs bs ∧ counted r hs bs ∧ tagged r hs bs.

(** The counters, the capacity and [k_] are the same. *)
Definition same_scalars (r' r : LRUKReplacer) : Prop :=
  curr_history_size_ r' = curr_history_size_ r ∧
  curr_buffer_size_ r' = curr_buffer_size_ r ∧
  replacer_size_ r' = replacer_size_ r ∧
  k_ r' = k_ r.

(** The frame [Evict] takes and the lists it leaves: the last frame of the
    history list, or of the buffer list when the history list is empty. *)
Definition victim (hs bs : list Z) : option Z :=
  match last hs with
  | Some f => Some f
  | None => last bs
  end.

Definition after_evict (hs bs : list Z) : list Z * list Z :=
  match last hs with
  | Some _ => (removelast hs, bs)
  | None => (hs, removelast bs)
  end.

(** The lists after [RecordAccess] of a frame that had [v] accesses: a frame
    of the history list that reaches [k] accesses goes to the front of the
    buffer list, a frame of the buffer list goes to its front, and nothing
    else moves. *)
Definition after_access (k v f : Z) (hs bs : list Z) : list Z * list Z :=
  if decide (f ∈ hs) then
    if decide (v + 1 = k)%Z then (without f hs, f :: bs) else (hs, bs)
  else if decide (f ∈ bs) then (hs, f :: without f bs)
  else (hs, bs).

(** The lists after [SetEvictable(f, true)] of a tracked frame with [v]
    accesses that was not evictable. *)
Definition after_enlist (k v f : Z) (hs bs : list Z) : list Z * list Z :=
  if decide (k ≤ v)%Z then (hs, f :: bs) else (f :: hs, bs).

(** No access count is at the limit of [size_t]. *)
Definition counts_below_limit (r : LRUKReplacer) : Prop :=
  map_Forall (fun _ n => (value_ n + 1 < 2 ^ 64)%Z) (entries_ r).

#[global] Instance counts_below_limit_dec r : Decision (counts_below_limit r).
Proof. unfold counts_below_limit. apply _. Defined.

(** The replacers the program can build, as long as no access count
    overflows [size_t]. *)
Inductive built : LRUKReplacer -> Prop :=
| built_new num_frames k :
    (0 ≤ num_frames < 2 ^ 64)%Z -> built (new num_frames k)
| built_RecordAccess r frame_id r' :
    built r ->
    (∀ n, entries_ r !! frame_id = Some n -> (value_ n + 1 < 2 ^ 64)%Z) ->
    RecordAccess r frame_id = Some r' -> built r'
| built_SetEvictable r fuel frame_id set_evictable_ r' :
    built r -> SetEvictable fuel r frame_id set_evictable_ = Ok r' -> built r'
| built_Evict r fuel r' frame_id :
    built r -> Evict fuel r = Ok (r', frame_id) -> built r'
| built_Remove r frame_id r' :
    built r -> Remove r frame_id = Some r' -> built r'.

End ReplacerInv.

(** * The buffer pool: what its frames, page table and free list keep *)
Module BufferPoolInv.
Import TreePage BufferPool.

#[local] Open Scope Z_scope.

Section Pool.
Variable hash : Z -> nat.

(** The page table and the frames agree. A frame that holds a page has it
    bound to itself in the page table, under an id below [next_page_id_]; a
    page id bound in the page table is bound to a frame that holds that page
    and is not in the free list; the free list names no frame twice. *)
Definition pool_ok (bpm : BufferPoolManagerInstance) : Prop :=
  ExtHash.wf hash (page_table_ bpm) ∧
  length (pages_ bpm) = pool_size_ bpm ∧
  NoDup (free_list_ bpm) ∧
  0 ≤ next_page_id_ bpm ∧
  (∀ f p, frame bpm f = Some p -> page_id_ p ≠ INVALID_PAGE_ID ->
     page_id_ p < next_page_id_ bpm ∧ table_find hash bpm (page_id_ p) = Some (Some f)) ∧
  (∀ q f, table_find hash bpm q = Some (Some f) ->
     q ≠ INVALID_PAGE_ID ∧ (f ∉ free_list_ bpm) ∧
     ∃ p, frame bpm f = Some p ∧ page_id_ p = q).

(** The frames the replacer may evict are frames of unpinned pages: the
    replacer stands for two lists of evictable frames, and each frame in them
    is outside the free list and holds a page with pin count 0. *)
Definition pins_ok (bpm : BufferPoolManagerInstance) : Prop :=
  ∃ hs bs, ReplacerInv.replacer_ok (replacer_ bpm) hs bs ∧
    ∀ f, f ∈ hs ++ bs ->
      (f ∉ free_list_ bpm) ∧ ∃ p, frame bpm f = Some p ∧ pin_count_ p = 0.

(** The free list names frames of the pool. *)
Definition free_frames_valid (bpm : BufferPoolManagerInstance) : Prop :=
  ∀ f, f ∈ free_list_ bpm -> is_Some (frame bpm f).

(** How a call that put the page [page_id] in the frame [f] came by the
    frame. Either [f] was the front of the free list: it is popped, nothing
    is written to the disk and no binding of another page id changes. Or the
    free list was empty and [f] is the frame [Evict] gave: the page [p] it
    held was written to the disk if and only if it was dirty, and its page
    id is no longer bound. In both cases the replacer is then told of the
    access and that the frame is not evictable. *)
Definition frame_taken (fuel : nat) (bpm bpm' : BufferPoolManagerInstance) (f page_id : Z)
  : Prop :=
  match free_list_ bpm with
  | f0 :: rest =>
      f = f0 ∧ free_list_ bpm' = rest ∧
      disk_manager_ bpm' = disk_manager_ bpm ∧
      (∀ q, q ≠ page_id -> table_find hash bpm' q = table_find hash bpm q) ∧
      ∃ r1, LRUK.RecordAccess (replacer_ bpm) f = Some r1 ∧
            LRUK.SetEvictable fuel r1 f false = Ok (replacer_ bpm')
  | [] =>
      ∃ r p, LRUK.Evict fuel (replacer_ bpm) = Ok (r, Some f) ∧
        frame bpm f = Some p ∧
        free_list_ bpm' = [] ∧
        disk_manager_ bpm' =
          (if is_dirty_ p then WritePage (disk_manager_ bpm) (page_id_ p) (data_ p)
           else disk_manager_ bpm) ∧
        (∀ q, q ≠ page_id ->
           table_find hash bpm' q =
             if decide (q = page_id_ p) then Some None else table_find hash bpm q) ∧
        ∃ r1, LRUK.RecordAccess r f = Some r1 ∧
              LRUK.SetEvictable fuel r1 f false = Ok (replacer_ bpm')
  end.

(** No dirty page was discarded without a disk write: every page that was
    dirty in a frame of [bpm] is still in that frame of [bpm'], with its
    data and still dirty, or the disk of [bpm'] has its data. *)
Definition dirty_pages_safe (bpm bpm' : BufferPoolManagerInstance) : Prop :=
  ∀ g p, frame bpm g = Some p -> page_id_ p ≠ INVALID_PAGE_ID -> is_dirty_ p = true ->
    (∃ p', frame bpm' g = Some p' ∧ page_id_ p' = page_id_ p ∧
           data_ p' = data_ p ∧ is_dirty_ p' = true) ∨
    ReadPage (disk_manager_ bpm') (page_id_ p) = data_ p.

(** A write to the data of the page in a frame, through the [Page *] that
    [NewPgImp] or [FetchPgImp] returned. *)
Definition write_data (bpm : BufferPoolManagerInstance) (frame_id : Z) (data : PageData)
  : option BufferPoolManagerInstance :=
  p ← frame bpm frame_id;
  Some (set_frame bpm frame_id (mkPage (page_id_ p) (pin_count_ p) (is_dirty_ p) data)).

(** The pools the program can build: a new pool, then calls that return. A
    page is fetched under an id that [NewPgImp] has returned before, and no
    access count of the replacer is at the limit of [size_t] when a frame is
    pinned. *)
Inductive pool_built : BufferPoolManagerInstance -> Prop :=
| pool_built_new pool_size replacer_k bucket_size :
    Z.of_nat pool_size < 2 ^ 64 ->
    pool_built (BufferPool.new pool_size replacer_k bucket_size)
| pool_built_NewPgImp fuel bpm bpm' r :
    pool_built bpm -> ReplacerInv.counts_below_limit (replacer_ bpm) ->
    NewPgImp hash fuel bpm = Ok (bpm', r) -> pool_built bpm'
| pool_built_FetchPgImp fuel bpm page_id bpm' r :
    pool_built bpm -> ReplacerInv.counts_below_limit (replacer_ bpm) ->
    0 ≤ page_id < next_page_id_ bpm ->
    FetchPgImp hash fuel bpm page_id = Ok (bpm', r) -> pool_built bpm'
| pool_built_UnpinPgImp fuel bpm page_id is_dirty bpm' r :
    pool_built bpm -> UnpinPgImp hash fuel bpm page_id is_dirty = Ok (bpm', r) -> pool_built bpm'
| pool_built_FlushPgImp bpm page_id bpm' r :
    pool_built bpm -> FlushPgImp hash bpm page_id = Some (bpm', r) -> pool_built bpm'
| pool_built_FlushAllPgsImp bpm bpm' :
    pool_built bpm -> FlushAllPgsImp hash bpm = Some bpm' -> pool_built bpm'
| pool_built_DeletePgImp bpm page_id bpm' r :
    pool_built bpm -> DeletePgImp hash bpm page_id = Some (bpm', r) -> pool_built bpm'
| pool_built_write_data bpm frame_id data bpm' :
    pool_built bpm -> write_data bpm frame_id data = Some bpm' -> pool_built bpm'.

End Pool.
End BufferPoolInv.
(** * Concrete runs used by the theorems below *)
Module Scenario.
Import TreePage BufferPool BPlusTree.

(** [std::hash<int>]: the value converted to [size_t] (libstdc++, libc++). *)
Definition hash_int (x : Z) : nat := Z.to_nat (x mod 2 ^ 64).

(** A hash that sends every key to the same value. *)
Definition hash_same (x : Z) : nat := 0.

(** Fuel for every loop of a run. *)
Definition fuel : nat := 60.

(** ** Extendible hash table *)

(** The runs are on [ExtendibleHashTable<int, int>]. *)
Definition table_insert (t : result (@ExtHash.ExtendibleHashTable Z Z)) (kv : Z * Z)
  : result (@ExtHash.ExtendibleHashTable Z Z) :=
  rbind t (fun t => ExtHash.Insert hash_int fuel t kv.1 kv.2).

(** Bucket size 2; the keys 0 and 1 fill the only bucket. *)
Definition full_bucket : @ExtHash.ExtendibleHashTable Z Z :=
  ExtHash.mkTable 0 2 1 [0] [ExtHash.mkBucket 2 0 [(0, 10); (1, 11)]%Z].

(** Bucket size 1; the key 0 fills the only bucket. *)
Definition single_slot : @ExtHash.ExtendibleHashTable Z Z :=
  ExtHash.mkTable 0 1 1 [0] [ExtHash.mkBucket 1 0 [(0, 10)]%Z].

(** ** LRU-K replacer *)
Inductive ReplacerCall : Type :=
| DoRecordAccess (frame_id : Z)
| DoSetEvictable (frame_id : Z) (set_evictable : bool)
| DoRemove (frame_id : Z)
| DoEvict.

(** The calls made in order on a replacer; the frames the [Evict] calls
    returned are collected, [None] for a call that returned false. *)
Fixpoint replacer_run (calls : list ReplacerCall) (r : LRUK.LRUKReplacer)
  (evicted : list (option Z)) : result (LRUK.LRUKReplacer * list (option Z)) :=
  match calls with
  | [] => Ok (r, evicted)
  | DoRecordAccess f :: rest =>
      rbind (of_option (LRUK.RecordAccess r f)) (fun r' => replacer_run rest r' evicted)
  | DoSetEvictable f b :: rest =>
      rbind (LRUK.SetEvictable fuel r f b) (fun r' => replacer_run rest r' evicted)
  | DoRemove f :: rest =>
      rbind (of_option (LRUK.Remove r f)) (fun r' => replacer_run rest r' evicted)
  | DoEvict :: rest =>
      rbind (LRUK.Evict fuel r) (fun '(r', f) => replacer_run rest r' (evicted ++ [f]))
  end.

Definition evictions (calls : list ReplacerCall) (num_frames k : Z) : result (list (option Z)) :=
  rbind (replacer_run calls (LRUK.new num_frames k) []) (fun '(_, evicted) => Ok evicted).

(** A replacer that tracks frame 3, pinned, with one access. *)
Definition one_pinned : LRUK.LRUKReplacer :=
  LRUK.mkReplacer 0 0 7 2 (LRUK.dummy_history_ (LRUK.new 7 2)) (LRUK.dummy_buffer_ (LRUK.new 7 2))
                  {[ 3%Z := LRUK.mkNode 3 1 false None None ]}.

(** ** Buffer pool *)

(** The pool as the tests set it up: the first page made is the header page,
    page 0, which stays pinned. *)
Definition pool_with_header (pool_size : nat) : result BufferPoolManagerInstance :=
  rbind (NewPgImp hash_int fuel (BufferPool.new pool_size 2 4)) (fun '(bpm, _) => Ok bpm).

(** A pool of one frame whose page 0 is unpinned and dirty. *)
Definition one_dirty_frame : result BufferPoolManagerInstance :=
  rbind (NewPgImp hash_int fuel (BufferPool.new 1 2 4)) (fun '(bpm, _) =>
  rbind (UnpinPgImp hash_int fuel bpm 0 true) (fun '(bpm', _) => Ok bpm')).

(** A pool of one frame whose page 0 is pinned. *)
Definition one_pinned_frame : result BufferPoolManagerInstance :=
  rbind (NewPgImp hash_int fuel (BufferPool.new 1 2 4)) (fun '(bpm, _) => Ok bpm).

Definition or_empty (bpm : result BufferPoolManagerInstance) : BufferPoolManagerInstance :=
  match bpm with
  | Ok b => b
  | _ => BufferPool.new 0 2 4
  end.

(** ** B+ tree *)

(** An empty tree with [leaf_max_size] 3 and [internal_max_size] 3 on a pool
    of 40 frames. *)
Definition empty_tree : result BPlusTree :=
  rbind (pool_with_header 40) (fun bpm => Ok (BPlusTree.new "index" bpm 3 3)).

(** One call on the tree; its result is kept with the tree. *)
Definition call {A} (m : M A) (t : result BPlusTree) : result (A * BPlusTree) :=
  rbind t m.

Definition after {A} (m : M A) (t : result BPlusTree) : result BPlusTree :=
  rbind (call m t) (fun '(_, t') => Ok t').

(** [Insert(k, 10 k)] for the keys in order; the results of the calls. *)
Fixpoint insert_keys (keys : list Z) (t : result BPlusTree) (results : list bool)
  : result (list bool * BPlusTree) :=
  match keys with
  | [] => rbind t (fun t => Ok (results, t))
  | k :: rest =>
      rbind (call (Insert hash_int fuel k (10 * k)%Z) t) (fun '(r, t') =>
      insert_keys rest (Ok t') (results ++ [r]))
  end.

Definition tree_of (keys : list Z) : result BPlusTree :=
  rbind (insert_keys keys empty_tree []) (fun '(_, t) => Ok t).

(** [GetValue] for the keys in order; the values found. *)
Fixpoint lookup_keys (keys : list Z) (t : result BPlusTree) : result (list (option Z)) :=
  match keys with
  | [] => rbind t (fun _ => Ok [])
  | k :: rest =>
      rbind (call (GetValue hash_int fuel k) t) (fun '(r, t') =>
      rbind (lookup_keys rest (Ok t')) (fun rs => Ok (r :: rs)))
  end.

(** The frame that holds a page, through the page table. *)
Definition frame_of (t : BPlusTree) (page_id : Z) : option Page :=
  found ← table_find hash_int (buffer_pool_manager_ t) page_id;
  f ← found;
  frame (buffer_pool_manager_ t) f.

(** The tree page stored in a resident page. *)
Definition tree_page (t : BPlusTree) (page_id : Z) : option BPlusTreePage :=
  p ← frame_of t page_id;
  match data_ p with
  | TreeData tp => Some tp
  | _ => None
  end.

(** The entries of a tree page: the first [size_] slots of the array. *)
Definition entries (tp : BPlusTreePage) : list (Z * Z) :=
  map (arr_get (array_ tp)) (seq 0 (Z.to_nat (size_ tp))).

(** The calls a tree operation added to the log. *)
Definition new_calls (before after : BPlusTree) : list Call :=
  drop (length (calls_ before)) (calls_ after).

(** Pins and unpins of a page among logged calls. *)
Definition pins (page_id : Z) (calls : list Call) : nat :=
  length (filter (fun c => match c with
                           | CallFetch p | CallNew p => bool_decide (p = page_id)
                           | _ => false
                           end = true) calls).

Definition unpins (page_id : Z) (calls : list Call) : nat :=
  length (filter (fun c => match c with
                           | CallUnpin p _ true => bool_decide (p = page_id)
                           | _ => false
                           end = true) calls).

(** ** More tables *)

(** Bucket size 2; the key 0 is in the only bucket, which has room. *)
Definition half_bucket : @ExtHash.ExtendibleHashTable Z Z :=
  ExtHash.mkTable 0 2 1 [0] [ExtHash.mkBucket 2 0 [(0, 10)]%Z].

(** The table after [Insert(2, 12)] on [full_bucket]: the bucket was split. *)
Definition three_keys : @ExtHash.ExtendibleHashTable Z Z :=
  match ExtHash.Insert hash_int fuel full_bucket 2%Z 12%Z with
  | Ok t => t
  | _ => full_bucket
  end.

(** ** More replacers *)

(** The replacer the calls leave, made on a new replacer for 7 frames, k = 2. *)
Definition replacer_after (calls : list ReplacerCall) : LRUK.LRUKReplacer :=
  match replacer_run calls (LRUK.new 7 2) [] with
  | Ok (r, _) => r
  | _ => LRUK.new 7 2
  end.

(** Frames 1 and 2 were accessed once each and made evictable, 2 first. *)
Definition two_waiting : LRUK.LRUKReplacer :=
  replacer_after [DoRecordAccess 1; DoRecordAccess 2;
                  DoSetEvictable 2 true; DoSetEvictable 1 true].

(** A replacer for no frame at all that tracks frame 1, accessed once. *)
Definition no_room : LRUK.LRUKReplacer :=
  match LRUK.RecordAccess (LRUK.new 0 2) 1 with
  | Some r => r
  | None => LRUK.new 0 2
  end.

(** ** More pools *)

(** The pool a call leaves. *)
Definition pool_of {A} (r : result (BufferPoolManagerInstance * A)) : BufferPoolManagerInstance :=
  match r with
  | Ok (bpm, _) => bpm
  | _ => BufferPool.new 0 2 4
  end.

(** A pool of one frame: page 0 is made, written through its pointer and
    unpinned dirty. *)
Definition one_written_page : BufferPoolManagerInstance :=
  let bpm1 := pool_of (NewPgImp hash_int fuel (BufferPool.new 1 2 4)) in
  let bpm2 := default bpm1 (BufferPoolInv.write_data bpm1 0 (HeaderData [("index", 7%Z)])) in
  pool_of (UnpinPgImp hash_int fuel bpm2 0 true).

(** Then page 1 is made, which takes the frame of page 0, and unpinned. *)
Definition page_swapped : BufferPoolManagerInstance :=
  let bpm1 := pool_of (NewPgImp hash_int fuel one_written_page) in
  pool_of (UnpinPgImp hash_int fuel bpm1 1 false).

(** As [page_swapped], but page 1 is written through its pointer and
    unpinned dirty. *)
Definition both_written : BufferPoolManagerInstance :=
  let bpm1 := pool_of (NewPgImp hash_int fuel one_written_page) in
  let bpm2 := default bpm1 (BufferPoolInv.write_data bpm1 0 (HeaderData [("index", 9%Z)])) in
  pool_of (UnpinPgImp hash_int fuel bpm2 1 true).

(** A pool of two frames: page 0 is in frame 0 and stays pinned, page 1 is
    in frame 1 and was unpinned. *)
Definition pinned_and_waiting : BufferPoolManagerInstance :=
  let bpm1 := pool_of (NewPgImp hash_int fuel (BufferPool.new 2 2 4)) in
  let bpm2 := pool_of (NewPgImp hash_int fuel bpm1) in
  pool_of (UnpinPgImp hash_int fuel bpm2 1 false).

(** ** Trie *)

(** The types of the values of the runs, [int] and [std::string], and the
    values. *)
Inductive CType : Type := TInt | TString.

#[global] Instance CType_eq_dec : EqDecision CType.
Proof. solve_decision. Defined.

Inductive CValue : Type :=
| VInt (z : Z)
| VString (s : string).

(** The pairs inserted in order as [int] values; a call that fails on a null
    pointer ends the run. *)
Fixpoint trie_insert_all (kvs : list (string * Z)) (t : @Trie.Trie CType CValue)
  : @Trie.Trie CType CValue :=
  match kvs with
  | [] => t
  | (key, v) :: rest =>
      match Trie.Insert t key TInt (VInt v) with
      | Some (_, t') => trie_insert_all rest t'
      | None => t
      end
  end.

Definition trie_of (kvs : list (string * Z)) : @Trie.Trie CType CValue :=
  trie_insert_all kvs Trie.new.

End Scenario.

(** * Facts: the extendible hash table *)
Module ExtHashFacts.
Import ExtHash.

Section Facts.
Context {K V : Type} `{EqDecision K}.
Variable hash : K -> nat.

#[local] Abbreviation Table := (@ExtendibleHashTable K V).
#[local] Abbreviation Bucket := (@ExtHash.Bucket K V).
#[local] Abbreviation slot_ok := (ExtHash.slot_ok hash).
#[local] Abbreviation wf := (ExtHash.wf hash).
#[local] Abbreviation targets := (ExtHash.targets hash).
#[local] Abbreviation target_keys := (ExtHash.target_keys hash).
#[local] Abbreviation agreeing := (ExtHash.agreeing hash).
#[local] Abbreviation reachable := (ExtHash.reachable hash).

Lemma pow2_pos d : 0 < 2 ^ d.
Proof. apply Nat.neq_0_lt_0, Nat.pow_nonzero. lia. Qed.

Lemma land_mask x d : Nat.land x (mask d) = x mod 2 ^ d.
Proof.
  unfold mask. rewrite <- Nat.land_ones. f_equal.
  unfold Nat.ones. lia.
Qed.

Lemma low_lt x d : x mod 2 ^ d < 2 ^ d.
Proof. apply Nat.mod_upper_bound, Nat.pow_nonzero. lia. Qed.

Lemma low_low x d g : d ≤ g -> (x mod 2 ^ g) mod 2 ^ d = x mod 2 ^ d.
Proof.
  intros Hdg. replace g with (d + (g - d)) by lia.
  rewrite Nat.pow_add_r, Nat.Div0.mod_mul_r.
  rewrite (Nat.mul_comm (2 ^ d)), Nat.Div0.mod_add. apply Nat.Div0.mod_mod.
Qed.

Lemma low_S x d :
  x mod 2 ^ S d = x mod 2 ^ d ∨ x mod 2 ^ S d = x mod 2 ^ d + 2 ^ d.
Proof.
  rewrite Nat.pow_succ_r', (Nat.mul_comm 2), Nat.Div0.mod_mul_r.
  pose proof (Nat.mod_upper_bound (x / 2 ^ d) 2 ltac:(lia)) as Hb.
  destruct (decide ((x / 2 ^ d) mod 2 = 0)) as [->| ]; [left; lia|right].
  replace ((x / 2 ^ d) mod 2) with 1 by lia. lia.
Qed.

Lemma low_eq_weaken x y d g :
  d ≤ g -> x mod 2 ^ g = y mod 2 ^ g -> x mod 2 ^ d = y mod 2 ^ d.
Proof.
  intros Hdg Heq. rewrite <- (low_low x d g), <- (low_low y d g) by done. by rewrite Heq.
Qed.

(** ** Lists of pairs *)
Lemma list_find_key_None key (l : list (K * V)) :
  list_find_key key l = None <-> key ∉ l.*1.
Proof.
  induction l as [|[k v] l IH]; simpl.
  - split; [intros _; apply not_elem_of_nil|done].
  - rewrite not_elem_of_cons. destruct (decide (k = key)) as [->|Hne]; naive_solver.
Qed.

Lemma list_find_key_app key (l1 l2 : list (K * V)) :
  list_find_key key (l1 ++ l2) =
  match list_find_key key l1 with Some v => Some v | None => list_find_key key l2 end.
Proof.
  induction l1 as [|[k v] l1 IH]; simpl; [done|].
  destruct (decide (k = key)); done.
Qed.

Lemma list_overwrite_None key value (l : list (K * V)) :
  list_overwrite key value l = None <-> key ∉ l.*1.
Proof.
  induction l as [|[k v] l IH]; simpl.
  - split; [intros _; apply not_elem_of_nil|done].
  - rewrite not_elem_of_cons. destruct (decide (k = key)) as [->|Hne]; [naive_solver|].
    destruct (list_overwrite key value l); naive_solver.
Qed.

Lemma list_overwrite_Some key value (l l' : list (K * V)) :
  list_overwrite key value l = Some l' ->
  l'.*1 = l.*1 ∧ list_find_key key l' = Some value ∧
  ∀ k', k' ≠ key -> list_find_key k' l' = list_find_key k' l.
Proof.
  revert l'. induction l as [|[k v] l IH]; simpl; intros l' Hl; [done|].
  destruct (decide (k = key)) as [->|Hne].
  - inversion Hl; subst; simpl. rewrite decide_True by done.
    split_and!; [done..|]. intros k' Hk'. by rewrite !decide_False by done.
  - destruct (list_overwrite key value l) as [r|] eqn:Hr; [|done].
    inversion Hl; subst; simpl. destruct (IH r eq_refl) as (IH1 & IH2 & IH3).
    rewrite decide_False by done. split_and!; [by f_equal|done|].
    intros k' Hk'. destruct (decide (k = k')); [done|by apply IH3].
Qed.

Lemma list_erase_key_None key (l : list (K * V)) :
  list_erase_key key l = None <-> key ∉ l.*1.
Proof.
  induction l as [|[k v] l IH]; simpl.
  - split; [intros _; apply not_elem_of_nil|done].
  - rewrite not_elem_of_cons. destruct (decide (k = key)) as [->|Hne]; [naive_solver|].
    destruct (list_erase_key key l); naive_solver.
Qed.

Lemma list_erase_key_Some key (l l' : list (K * V)) :
  NoDup l.*1 -> list_erase_key key l = Some l' ->
  NoDup l'.*1 ∧ l'.*1 ⊆ l.*1 ∧ length l' < length l ∧ list_find_key key l' = None ∧
  ∀ k', k' ≠ key -> list_find_key k' l' = list_find_key k' l.
Proof.
  revert l'. induction l as [|[k v] l IH]; simpl; intros l' Hnd Hl; [done|].
  apply NoDup_cons in Hnd as [Hk Hnd].
  destruct (decide (k = key)) as [->|Hne].
  - inversion Hl; subst. split_and!; [done|set_solver|lia|by apply list_find_key_None|].
    intros k' Hk'. by rewrite decide_False.
  - destruct (list_erase_key key l) as [r|] eqn:Hr; [|done].
    inversion Hl; subst; simpl. destruct (IH r Hnd eq_refl) as (IH1 & IH2 & IH3 & IH4 & IH5).
    rewrite decide_False by done. split_and!; [|set_solver|lia|done|].
    + apply NoDup_cons. split; [set_solver|done].
    + intros k' Hk'. destruct (decide (k = k')); [done|by apply IH5].
Qed.

(** ** [Bucket::Insert] on a bucket that is not full *)
Lemma Bucket_Insert_full (b : Bucket) key value :
  IsFull b = true -> Bucket_Insert b key value = (false, b).
Proof. unfold Bucket_Insert. by intros ->. Qed.

Lemma Bucket_Insert_not_full (b : Bucket) key value :
  IsFull b = false ->
  ∃ b', Bucket_Insert b key value = (true, b') ∧
    size_ b' = size_ b ∧ depth_ b' = depth_ b ∧
    Bucket_Find b' key = Some value ∧
    (∀ k', k' ≠ key -> Bucket_Find b' k' = Bucket_Find b k') ∧
    ((key ∈ (list_ b).*1 ∧ (list_ b').*1 = (list_ b).*1) ∨
     (key ∉ (list_ b).*1 ∧ (list_ b').*1 = (list_ b).*1 ++ [key])).
Proof.
  intros Hfull. unfold Bucket_Insert, Bucket_Find. rewrite Hfull.
  destruct (list_overwrite key value (list_ b)) as [l'|] eqn:Hl.
  - eexists; split; [done|]. simpl.
    destruct (list_overwrite_Some _ _ _ _ Hl) as (H1 & H2 & H3).
    split_and!; [done..|]. left. split; [|done].
    destruct (decide (key ∈ (list_ b).*1)) as [|Hn]; [done|].
    apply list_overwrite_None with (value := value) in Hn. congruence.
  - apply list_overwrite_None in Hl.
    eexists; split; [done|]. simpl. split_and!; [done..| | |].
    + rewrite list_find_key_app. apply list_find_key_None in Hl as ->.
      simpl. by rewrite decide_True.
    + intros k' Hk'. rewrite list_find_key_app. simpl. rewrite decide_False by done.
      by destruct (list_find_key k' _).
    + right. split; [done|]. by rewrite fmap_app.
Qed.

Lemma wf_new bucket_size : wf (new bucket_size : Table).
Proof.
  split; [done|]. intros i h Hi.
  destruct i as [|i]; [|done]. simpl in Hi. inversion Hi; subst h.
  eexists; split; [done|]. unfold slot_ok; simpl.
  split_and!; [lia|done|lia|constructor|constructor|].
  intros j Hj. destruct j; [done|lia].
Qed.

Lemma IndexOf_spec (t : Table) key : IndexOf hash t key = hash key mod 2 ^ global_depth_ t.
Proof. apply land_mask. Qed.

Lemma IndexOf_lt (t : Table) key : wf t -> IndexOf hash t key < length (dir_ t).
Proof. intros [Hlen _]. rewrite IndexOf_spec, Hlen. apply low_lt. Qed.

Lemma wf_slot (t : Table) key :
  wf t -> ∃ h b, dir_ t !! IndexOf hash t key = Some h ∧ heap_ t !! h = Some b ∧
                 slot_ok t (IndexOf hash t key) h b.
Proof.
  intros Hwf. destruct (lookup_lt_is_Some_2 _ _ (IndexOf_lt t key Hwf)) as [h Hh].
  destruct Hwf as [_ Hs]. destruct (Hs _ _ Hh) as (b & Hb & Hok). eauto 6.
Qed.

Lemma Find_slot (t : Table) key h b :
  dir_ t !! IndexOf hash t key = Some h -> heap_ t !! h = Some b ->
  Find hash t key = Some (Bucket_Find b key).
Proof. intros Hh Hb. unfold Find, GetIndexBucket, bucket_at. by rewrite Hh; simpl; rewrite Hb. Qed.

(** Two slots that hold the same bucket agree on the low [depth_] bits. *)
Lemma slot_ok_same (t : Table) i j h b :
  slot_ok t i h b -> dir_ t !! j = Some h -> j mod 2 ^ depth_ b = i mod 2 ^ depth_ b.
Proof.
  intros (_ & _ & _ & _ & _ & Hsh) Hj. apply Hsh; [|done]. by eapply lookup_lt_Some.
Qed.

Lemma slot_ok_move (t : Table) i j h b :
  slot_ok t i h b -> dir_ t !! j = Some h -> slot_ok t j h b.
Proof.
  intros Hok Hj. pose proof (slot_ok_same _ _ _ _ _ Hok Hj) as Heq.
  destruct Hok as (H1 & H2 & H3 & H4 & H5 & H6).
  split_and!; [done..| |].
  - eapply Forall_impl; [exact H5|]. simpl. intros k Hk. congruence.
  - intros j' Hj'. rewrite (H6 j' Hj'). by rewrite Heq.
Qed.

(** The key of a stored pair hashes to a slot that holds its bucket. *)
Lemma slot_ok_key_slot (t : Table) i h b k :
  wf t -> dir_ t !! i = Some h -> slot_ok t i h b -> k ∈ (list_ b).*1 ->
  dir_ t !! IndexOf hash t k = Some h.
Proof.
  intros Hwf Hi Hok Hk. pose proof Hok as (Hd & _ & _ & _ & Hall & Hsh).
  apply Hsh; [by apply IndexOf_lt|]. 
  rewrite IndexOf_spec, low_low by done.
  by eapply Forall_forall in Hall.
Qed.

(** A bucket written back with the same depth and capacity. *)
Lemma wf_set_bucket (t : Table) h b b' :
  wf t -> heap_ t !! h = Some b ->
  depth_ b' = depth_ b -> size_ b' = size_ b ->
  length (list_ b') ≤ size_ b' -> NoDup (list_ b').*1 ->
  (∀ i, dir_ t !! i = Some h ->
        Forall (fun k => hash k mod 2 ^ depth_ b = i mod 2 ^ depth_ b) (list_ b').*1) ->
  wf (set_bucket t h b').
Proof.
  intros [Hlen Hs] Hb Hd Hsz Hl Hnd Hall. split; [done|].
  intros i h' Hi. simpl in Hi. destruct (Hs _ _ Hi) as (b0 & Hb0 & Hok).
  destruct (decide (h' = h)) as [->|Hne].
  - exists b'. simpl. split.
    + apply list_lookup_insert_eq. by eapply lookup_lt_Some.
    + assert (b0 = b) by congruence. subst b0.
      destruct Hok as (H1 & H2 & H3 & H4 & H5 & H6).
      unfold slot_ok; simpl. rewrite Hd, Hsz. split_and!; [done|done|lia|done|by apply Hall|done].
  - exists b0. simpl. split; [by rewrite list_lookup_insert_ne|done].
Qed.

Lemma Find_set_bucket_other (t : Table) h b' key h' :
  dir_ t !! IndexOf hash t key = Some h' -> h' ≠ h ->
  Find hash (set_bucket t h b') key = Find hash t key.
Proof.
  intros Hh Hne. unfold Find, GetIndexBucket, bucket_at, IndexOf. simpl.
  unfold IndexOf in Hh. rewrite Hh. simpl. by rewrite list_lookup_insert_ne.
Qed.

Lemma Find_set_bucket_same (t : Table) h b b' key :
  dir_ t !! IndexOf hash t key = Some h -> heap_ t !! h = Some b ->
  Find hash (set_bucket t h b') key = Some (Bucket_Find b' key).
Proof.
  intros Hh Hb. apply (Find_slot _ _ h); [done|]. simpl.
  apply list_lookup_insert_eq. by eapply lookup_lt_Some.
Qed.


Lemma IsFull_false (b : Bucket) :
  length (list_ b) ≤ size_ b -> IsFull b = false -> length (list_ b) < size_ b.
Proof. unfold IsFull. intros Hle Hf. apply bool_decide_eq_false in Hf. lia. Qed.

Lemma hash_slot (t : Table) key i h b :
  wf t -> dir_ t !! IndexOf hash t key = Some h -> dir_ t !! i = Some h ->
  slot_ok t i h b -> hash key mod 2 ^ depth_ b = i mod 2 ^ depth_ b.
Proof.
  intros Hwf Hk Hi Hok. rewrite <- (slot_ok_same _ _ _ _ _ Hok Hk).
  rewrite IndexOf_spec, low_low; [done|]. by destruct Hok.
Qed.

(** The pair goes into the bucket of its slot when that bucket accepts it. *)
Lemma insert_accepted (t : Table) key value h b b' :
  wf t -> dir_ t !! IndexOf hash t key = Some h -> heap_ t !! h = Some b ->
  Bucket_Insert b key value = (true, b') ->
  wf (set_bucket t h b') ∧
  Find hash (set_bucket t h b') key = Some (Some value) ∧
  ∀ k', k' ≠ key -> Find hash (set_bucket t h b') k' = Find hash t k'.
Proof.
  intros Hwf Hh Hb Hins.
  assert (IsFull b = false) as Hnf.
  { destruct (IsFull b) eqn:Hf; [|done]. rewrite Bucket_Insert_full in Hins; done. }
  destruct (Bucket_Insert_not_full b key value Hnf) as (b2 & Hins2 & Hsz & Hd & Hfk & Hfo & Hkeys).
  rewrite Hins in Hins2. inversion Hins2; subst b2; clear Hins2.
  pose proof Hwf as [_ Hs]. destruct (Hs _ _ Hh) as (b0 & Hb0 & Hok).
  assert (b0 = b) by congruence; subst b0. pose proof Hok as (H1 & H2 & H3 & H4 & H5 & H6).
  pose proof (IsFull_false b H3 Hnf) as Hlt.
  split_and!.
  - apply (wf_set_bucket t h b b'); [done..| | |].
    + rewrite <- (length_fmap fst). destruct Hkeys as [[_ ->]|[_ ->]];
        rewrite ?length_app, !length_fmap; simpl; lia.
    + destruct Hkeys as [[_ ->]|[Hn ->]]; [done|].
      apply NoDup_app. split_and!; [done| |apply NoDup_singleton].
      intros x Hx Hx2. apply list_elem_of_singleton in Hx2. by subst.
    + intros i Hi. pose proof (slot_ok_move _ _ _ _ _ Hok Hi) as (_ & _ & _ & _ & Hall & _).
      destruct Hkeys as [[_ ->]|[Hn ->]]; [done|].
      apply Forall_app. split; [done|]. apply Forall_singleton.
      eapply hash_slot; [done..|]. by eapply slot_ok_move.
  - by rewrite (Find_set_bucket_same t h b b' key), Hfk.
  - intros k' Hk'. destruct (wf_slot t k' Hwf) as (h' & b1 & Hh' & Hb1 & _).
    destruct (decide (h' = h)) as [->|Hne].
    + rewrite (Find_set_bucket_same t h b b' k') by done.
      rewrite (Find_slot t k' h b) by done. by rewrite Hfo.
    + by apply (Find_set_bucket_other t h b' k' h').
Qed.

(** [Remove] takes the binding of the key away and nothing else. *)
Lemma Remove_spec (t : Table) key :
  wf t ->
  ∃ r t', Remove hash t key = Some (r, t') ∧ wf t' ∧
          Find hash t' key = Some None ∧
          ∀ k', k' ≠ key -> Find hash t' k' = Find hash t k'.
Proof.
  intros Hwf. destruct (wf_slot t key Hwf) as (h & b & Hh & Hb & Hok).
  pose proof Hok as (H1 & H2 & H3 & H4 & H5 & H6).
  unfold Remove, GetIndexBucket, bucket_at. rewrite Hh. simpl. rewrite Hb. simpl.
  unfold Bucket_Remove. destruct (list_erase_key key (list_ b)) as [l'|] eqn:Hl.
  - destruct (list_erase_key_Some _ _ _ H4 Hl) as (E1 & E2 & E3 & E4 & E5).
    eexists _, _. split; [done|]. split_and!.
    + apply (wf_set_bucket t h b); simpl; [done..|lia|done|].
      intros i Hi. pose proof (slot_ok_move _ _ _ _ _ Hok Hi) as (_ & _ & _ & _ & Hall & _).
      rewrite Forall_forall in Hall |- *. intros x Hx. apply Hall. by apply E2.
    + rewrite (Find_set_bucket_same t h b _ key) by done. unfold Bucket_Find. simpl. by rewrite E4.
    + intros k' Hk'. destruct (wf_slot t k' Hwf) as (h' & b1 & Hh' & Hb1 & _).
      destruct (decide (h' = h)) as [->|Hne].
      * rewrite (Find_set_bucket_same t h b _ k') by done.
        rewrite (Find_slot t k' h b) by done. unfold Bucket_Find. simpl. by rewrite E5.
      * by apply (Find_set_bucket_other t h _ k' h').
  - apply list_erase_key_None in Hl.
    assert (set_bucket t h b = t) as Hid.
    { destruct t. unfold set_bucket. simpl in *. f_equal. by apply list_insert_id. }
    eexists _, _. split; [done|]. rewrite Hid. split_and!; [done| |done].
    rewrite (Find_slot t key h b) by done. unfold Bucket_Find.
    by apply list_find_key_None in Hl as ->.
Qed.

(** ** Directory doubling *)
Lemma grow_lookup (t : Table) j :
  length (dir_ t) = 2 ^ global_depth_ t -> j < 2 ^ S (global_depth_ t) ->
  dir_ (grow t) !! j = dir_ t !! (j mod 2 ^ global_depth_ t).
Proof.
  intros Hlen Hj. simpl. rewrite Nat.pow_succ_r' in Hj.
  destruct (decide (j < 2 ^ global_depth_ t)) as [Hlt|Hge].
  - rewrite lookup_app_l by lia. by rewrite Nat.mod_small.
  - rewrite lookup_app_r by lia. f_equal. rewrite Hlen.
    apply (Nat.mod_unique j (2 ^ global_depth_ t) 1); lia.
Qed.

Lemma wf_grow (t : Table) : wf t -> wf (grow t).
Proof.
  intros [Hlen Hs]. split.
  { simpl. rewrite length_app, Hlen. lia. }
  intros i h Hi.
  assert (i < 2 ^ S (global_depth_ t)) as Hilt.
  { apply lookup_lt_Some in Hi. simpl in Hi. rewrite length_app, Hlen in Hi. simpl. lia. }
  rewrite grow_lookup in Hi by done.
  destruct (Hs _ _ Hi) as (b & Hb & H1 & H2 & H3 & H4 & H5 & H6).
  exists b. split; [done|]. unfold slot_ok.
  rewrite low_low in H5, H6 by done.
  split_and!; [simpl; lia|done..|].
  intros j Hj. assert (j < 2 ^ S (global_depth_ t)) as Hjlt.
  { simpl in Hj. rewrite length_app, Hlen in Hj. simpl. lia. }
  rewrite grow_lookup by done. rewrite H6 by (rewrite Hlen; apply low_lt).
  by rewrite low_low.
Qed.

Lemma IndexOf_grow (t : Table) key :
  length (dir_ t) = 2 ^ global_depth_ t ->
  dir_ (grow t) !! IndexOf hash (grow t) key = dir_ t !! IndexOf hash t key.
Proof.
  intros Hlen. rewrite grow_lookup; [|done|].
  - rewrite !IndexOf_spec. simpl global_depth_. by rewrite low_low by lia.
  - rewrite IndexOf_spec. apply low_lt.
Qed.

Lemma Find_grow (t : Table) key :
  length (dir_ t) = 2 ^ global_depth_ t -> Find hash (grow t) key = Find hash t key.
Proof.
  intros Hlen. unfold Find, GetIndexBucket. by rewrite IndexOf_grow.
Qed.


(** ** The re-pointing loop *)

Lemma repointed_lookup first d nb js dir j :
  repointed first d nb js dir !! j =
  (fun x => if decide (j ∈ js ∧ moved first d j) then nb else x) <$> dir !! j.
Proof. unfold repointed. by rewrite list_lookup_imap. Qed.

Lemma repoint_moved first d build (t : Table) i :
  moved first d i ->
  repoint first (S d) (build, t) i =
  match build with
  | Some nb => (Some nb, set_dir t (<[i := nb]> (dir_ t)))
  | None =>
      (Some (length (heap_ t)),
       mkTable (global_depth_ t) (bucket_size_ t) (S (num_buckets_ t))
               (<[i := length (heap_ t)]> (dir_ t))
               (heap_ t ++ [mkBucket (bucket_size_ t) (S d) []]))
  end.
Proof.
  intros [Hm1 Hm2]. unfold repoint. simpl. rewrite Nat.sub_0_r, !land_mask.
  rewrite decide_True by done. rewrite decide_False by congruence.
  by destruct build.
Qed.

Lemma repoint_not_moved first d build (t : Table) i :
  ¬ moved first d i -> repoint first (S d) (build, t) i = (build, t).
Proof.
  intros Hn. unfold repoint. simpl. rewrite Nat.sub_0_r, !land_mask.
  destruct (decide (i mod 2 ^ d = first)) as [Heq|]; [|done].
  destruct (decide (first = i mod 2 ^ S d)) as [|Hne]; [done|].
  exfalso. apply Hn. split; [done|congruence].
Qed.

Lemma set_dir_id (t : Table) : set_dir t (dir_ t) = t.
Proof. by destruct t. Qed.

Lemma repointed_nil first d nb dir : repointed first d nb [] dir = dir.
Proof.
  apply list_eq. intros j. rewrite repointed_lookup.
  by destruct (dir !! j).
Qed.

Lemma repointed_cons_moved first d nb i js dir :
  moved first d i ->
  repointed first d nb js (<[i := nb]> dir) = repointed first d nb (i :: js) dir.
Proof.
  intros Hm. apply list_eq. intros j. rewrite !repointed_lookup.
  destruct (decide (j = i)) as [->|Hne].
  - destruct (decide (i < length dir)) as [Hlt|Hge].
    + rewrite list_lookup_insert_eq by done.
      destruct (lookup_lt_is_Some_2 dir i Hlt) as [x ->]. simpl.
      rewrite (decide_True (P := i ∈ i :: js ∧ _)) by (split; [left|done]).
      by destruct (decide _).
    + rewrite list_insert_ge by lia. by rewrite (lookup_ge_None_2 dir i) by lia.
  - rewrite list_lookup_insert_ne by done. destruct (dir !! j); simpl; [|done].
    f_equal. apply decide_ext. rewrite elem_of_cons. naive_solver.
Qed.

Lemma repointed_cons_not_moved first d nb i js dir :
  ¬ moved first d i ->
  repointed first d nb js dir = repointed first d nb (i :: js) dir.
Proof.
  intros Hm. apply list_eq. intros j. rewrite !repointed_lookup.
  destruct (dir !! j); simpl; [|done].
  f_equal. apply decide_ext. rewrite elem_of_cons. naive_solver.
Qed.

Lemma fold_repoint_built first d nb js (t : Table) :
  fold_left (repoint first (S d)) js (Some nb, t) =
  (Some nb, set_dir t (repointed first d nb js (dir_ t))).
Proof.
  revert t. induction js as [|i js IH]; intros t; cbn [fold_left].
  - by rewrite repointed_nil, set_dir_id.
  - destruct (decide (moved first d i)) as [Hm|Hm].
    + rewrite repoint_moved by done. rewrite IH. simpl.
      by rewrite repointed_cons_moved.
    + rewrite repoint_not_moved by done. rewrite IH.
      by rewrite <- repointed_cons_not_moved.
Qed.

Lemma fold_repoint_unbuilt first d js (t : Table) :
  fold_left (repoint first (S d)) js (None, t) =
  if decide (Exists (moved first d) js) then
    (Some (length (heap_ t)),
     mkTable (global_depth_ t) (bucket_size_ t) (S (num_buckets_ t))
             (repointed first d (length (heap_ t)) js (dir_ t))
             (heap_ t ++ [mkBucket (bucket_size_ t) (S d) []]))
  else (None, t).
Proof.
  revert t. induction js as [|i js IH]; intros t; cbn [fold_left].
  - rewrite decide_False; [done|]. by intros ?%Exists_nil.
  - destruct (decide (moved first d i)) as [Hm|Hm].
    + rewrite repoint_moved by done. rewrite fold_repoint_built. simpl.
      rewrite decide_True by (by left). unfold set_dir. simpl.
      by rewrite repointed_cons_moved.
    + rewrite repoint_not_moved by done. rewrite IH.
      destruct (decide (Exists (moved first d) js)) as [He|He].
      * rewrite decide_True by (by right). by rewrite <- repointed_cons_not_moved.
      * rewrite decide_False; [done|]. intros [?|?]%Exists_cons; done.
Qed.


Lemma moved_first_plus first d : first < 2 ^ d -> moved first d (first + 2 ^ d).
Proof.
  intros Hlt. split.
  - rewrite <- (Nat.mul_1_l (2 ^ d)) at 1. rewrite Nat.Div0.mod_add. by apply Nat.mod_small.
  - rewrite Nat.mod_small; [pose proof (pow2_pos d); lia|].
    rewrite Nat.pow_succ_r'. lia.
Qed.

Lemma moved_gt first d j : first < 2 ^ d -> moved first d j -> first < j.
Proof.
  intros Hlt [Hm1 Hm2]. pose proof (Nat.Div0.mod_le j (2 ^ d)) as Hle.
  destruct (decide (j = first)) as [->|]; [|lia].
  exfalso. apply Hm2. apply Nat.mod_small. rewrite Nat.pow_succ_r'. lia.
Qed.

Lemma moved_low first d j : first < 2 ^ d -> moved first d j -> j mod 2 ^ S d = first + 2 ^ d.
Proof. intros Hlt [Hm1 Hm2]. destruct (low_S j d); lia. Qed.

Lemma not_moved_low first d j :
  j mod 2 ^ d = first -> ¬ moved first d j -> j mod 2 ^ S d = first.
Proof.
  intros Hm1 Hn. destruct (decide (j mod 2 ^ S d = first)); [done|].
  exfalso. by apply Hn.
Qed.

Lemma repoint_loop (t : Table) h b key :
  wf t -> heap_ t !! h = Some b -> depth_ b < global_depth_ t ->
  let first := hash key mod 2 ^ depth_ b in
  let t3 := set_bucket t h (mkBucket (size_ b) (S (depth_ b)) (list_ b)) in
  snd (fold_left (repoint first (S (depth_ b)))
                 (seq (first + 1) (length (dir_ t3) - (first + 1))) (None, t3))
  = repointed_table t h b first.
Proof.
  intros [Hlen Hs] Hb Hd first t3.
  assert (first < 2 ^ depth_ b) as Hfirst by apply low_lt.
  assert (2 ^ S (depth_ b) ≤ 2 ^ global_depth_ t) as Hpow
    by (apply Nat.pow_le_mono_r; lia).
  rewrite Nat.pow_succ_r' in Hpow.
  rewrite fold_repoint_unbuilt. rewrite decide_True.
  2:{ apply Exists_exists. exists (first + 2 ^ depth_ b). split; [|by apply moved_first_plus].
      apply elem_of_seq. subst t3. simpl. rewrite Hlen. lia. }
  subst t3. unfold repointed_table. simpl. rewrite length_insert. f_equal.
  apply list_eq. intros j. rewrite repointed_lookup, list_lookup_imap.
  destruct (dir_ t !! j) as [x|] eqn:Hj; [|done]. cbn [fmap option_fmap option_map].
  f_equal. apply decide_ext. split; [naive_solver|]. intros Hm. split; [|done].
  apply elem_of_seq. apply lookup_lt_Some in Hj. pose proof (moved_gt _ _ _ Hfirst Hm). lia.
Qed.

Lemma repointed_table_lookup (t : Table) h b first j :
  dir_ (repointed_table t h b first) !! j =
  (fun x => if decide (moved first (depth_ b) j) then length (heap_ t) else x) <$> dir_ t !! j.
Proof. unfold repointed_table. simpl. by rewrite list_lookup_imap. Qed.

Lemma wf_handle_lt (t : Table) i h : wf t -> dir_ t !! i = Some h -> h < length (heap_ t).
Proof. intros [_ Hs] Hi. destruct (Hs _ _ Hi) as (b & Hb & _). by eapply lookup_lt_Some. Qed.

Lemma wf_repointed (t : Table) h b key :
  wf t -> dir_ t !! IndexOf hash t key = Some h -> heap_ t !! h = Some b ->
  list_ b = [] -> depth_ b < global_depth_ t ->
  wf (repointed_table t h b (hash key mod 2 ^ depth_ b)).
Proof.
  intros Hwf Hkey Hb Hnil Hd. set (first := hash key mod 2 ^ depth_ b).
  set (d := depth_ b). set (nb := length (heap_ t)).
  assert (first < 2 ^ d) as Hfirst by apply low_lt.
  pose proof Hwf as [Hlen Hs].
  destruct (Hs _ _ Hkey) as (b0 & Hb0 & Hokk).
  assert (b0 = b) by congruence; subst b0.
  assert (h < nb) as Hh by (by eapply lookup_lt_Some).
  assert (∀ j, j < length (dir_ t) -> dir_ t !! j = Some h <-> j mod 2 ^ d = first) as Hshare.
  { intros j Hj. destruct Hokk as (_ & _ & _ & _ & _ & Hsh). rewrite (Hsh j Hj).
    subst first d. rewrite IndexOf_spec, low_low by lia. done. }
  split.
  { unfold repointed_table. simpl. by rewrite length_imap. }
  intros i h' Hi. rewrite repointed_table_lookup in Hi.
  destruct (dir_ t !! i) as [x|] eqn:Hix; [|done]. cbn [fmap option_fmap option_map] in Hi.
  assert (i < length (dir_ t)) as Hilt by (by eapply lookup_lt_Some).
  assert (∀ (f : nat -> nat -> nat) j, j < length (imap f (dir_ t)) -> j < length (dir_ t))
    as dir_bound by (intros f j; by rewrite length_imap).
  fold d in Hi. fold nb in Hi.
  destruct (decide (moved first d i)) as [Hm|Hm].
  - (* the slot holds the new bucket *)
    inversion Hi; subst h'. eexists. split.
    { unfold repointed_table. simpl. rewrite lookup_app_r by (rewrite length_insert; fold nb; lia).
      rewrite length_insert. fold nb. by rewrite Nat.sub_diag. }
    unfold slot_ok. cbn [depth_ size_ list_ global_depth_ bucket_size_ dir_ repointed_table length fmap list_fmap].
    split_and!; [fold d; lia|done|lia|constructor|constructor|].
    intros j Hj. apply dir_bound in Hj. rewrite list_lookup_imap.
    destruct (lookup_lt_is_Some_2 _ _ Hj) as [y Hy]. rewrite Hy.
    cbn [fmap option_fmap option_map]. fold d nb.
    rewrite (moved_low first d i) by done.
    destruct (decide (moved first d j)) as [Hmj|Hmj].
    + rewrite (moved_low first d j) by done. done.
    + split.
      * intros Heq. inversion Heq; subst y. pose proof (wf_handle_lt t j nb Hwf Hy). lia.
      * intros Heq. exfalso. apply Hmj. split; [|lia].
        rewrite <- (low_low j d (S d)) by lia. rewrite Heq.
        rewrite <- (Nat.mul_1_l (2 ^ d)) at 1. rewrite Nat.Div0.mod_add. by apply Nat.mod_small.
  - (* the slot keeps its bucket *)
    inversion Hi; subst x. destruct (Hs _ _ Hix) as (b1 & Hb1 & Hok1).
    destruct (decide (h' = h)) as [->|Hne].
    + assert (b1 = b) by congruence; subst b1.
      assert (i mod 2 ^ d = first) as Hi1 by (by apply Hshare).
      pose proof (not_moved_low first d i Hi1 Hm) as Hi2.
      eexists. split.
      { unfold repointed_table. simpl. rewrite lookup_app_l by (rewrite length_insert; fold nb; lia).
        apply list_lookup_insert_eq. fold nb. lia. }
      destruct Hok1 as (H1 & H2 & H3 & H4 & H5 & H6).
      unfold slot_ok. rewrite Hnil.
      cbn [depth_ size_ list_ global_depth_ bucket_size_ dir_ repointed_table length fmap list_fmap].
      split_and!; [fold d; lia|done|lia|constructor|constructor|].
      intros j Hj. apply dir_bound in Hj. rewrite list_lookup_imap.
      destruct (lookup_lt_is_Some_2 _ _ Hj) as [y Hy]. rewrite Hy.
      cbn [fmap option_fmap option_map]. fold d nb. rewrite Hi2.
      destruct (decide (moved first d j)) as [Hmj|Hmj].
      * rewrite (moved_low first d j) by done. split; [|pose proof (pow2_pos d); lia].
        intros Heq. inversion Heq. lia.
      * split.
        -- intros Heq. inversion Heq; subst y. apply not_moved_low; [|done]. by apply Hshare.
        -- intros Heq. f_equal. assert (dir_ t !! j = Some h) as Hjh; [|congruence].
           apply Hshare; [done|]. rewrite <- (low_low j d (S d)) by lia. rewrite Heq.
           by apply Nat.mod_small.
    + eexists. split.
      { unfold repointed_table. simpl. pose proof (lookup_lt_Some _ _ _ Hb1).
        rewrite lookup_app_l by (rewrite length_insert; lia).
        rewrite list_lookup_insert_ne by done. exact Hb1. }
      destruct Hok1 as (H1 & H2 & H3 & H4 & H5 & H6).
      unfold slot_ok. split_and!; [done..|].
      intros j Hj. apply dir_bound in Hj. rewrite repointed_table_lookup.
      destruct (lookup_lt_is_Some_2 _ _ Hj) as [y Hy]. rewrite Hy.
      cbn [fmap option_fmap option_map]. fold d nb. rewrite <- (H6 j Hj).
      destruct (decide (moved first d j)) as [Hmj|Hmj]; [|by rewrite Hy].
      destruct Hmj as [Hmj _]. apply Hshare in Hmj; [|done].
      split.
      * intros Heq. inversion Heq. pose proof (lookup_lt_Some _ _ _ Hb1). lia.
      * intros Heq. congruence.
Qed.


(** Every key with the pattern of the split bucket now finds an empty bucket
    of depth [S d]. *)
Lemma repointed_target (t : Table) h b key k :
  wf t -> dir_ t !! IndexOf hash t key = Some h -> heap_ t !! h = Some b ->
  list_ b = [] -> depth_ b < global_depth_ t ->
  hash k mod 2 ^ depth_ b = hash key mod 2 ^ depth_ b ->
  let t4 := repointed_table t h b (hash key mod 2 ^ depth_ b) in
  ∃ h4 b4, dir_ t4 !! IndexOf hash t4 k = Some h4 ∧ heap_ t4 !! h4 = Some b4 ∧
           list_ b4 = [] ∧ depth_ b4 = S (depth_ b).
Proof.
  intros Hwf Hkey Hb Hnil Hd Hk t4. set (first := hash key mod 2 ^ depth_ b) in *.
  pose proof Hwf as [Hlen Hs]. destruct (Hs _ _ Hkey) as (b0 & Hb0 & Hokk).
  assert (b0 = b) by congruence; subst b0.
  assert (dir_ t !! IndexOf hash t k = Some h) as Hkh.
  { destruct Hokk as (_ & _ & _ & _ & _ & Hsh). apply Hsh; [by apply IndexOf_lt|].
    rewrite !IndexOf_spec, !low_low by lia. done. }
  assert (IndexOf hash t4 k = IndexOf hash t k) as -> by done.
  subst t4. rewrite repointed_table_lookup, Hkh. cbn [fmap option_fmap option_map].
  pose proof (lookup_lt_Some _ _ _ Hb) as Hh.
  destruct (decide (moved first (depth_ b) (IndexOf hash t k))) as [Hm|Hm].
  - eexists _, _. split; [done|]. unfold repointed_table. cbn [heap_].
    rewrite lookup_app_r by (rewrite length_insert; lia).
    rewrite length_insert, Nat.sub_diag. done.
  - eexists _, _. split; [done|]. unfold repointed_table. cbn [heap_].
    rewrite lookup_app_l by (rewrite length_insert; lia).
    rewrite list_lookup_insert_eq by done. done.
Qed.

Lemma Find_repointed (t : Table) h b key k :
  wf t -> dir_ t !! IndexOf hash t key = Some h -> heap_ t !! h = Some b ->
  list_ b = [] -> depth_ b < global_depth_ t ->
  Find hash (repointed_table t h b (hash key mod 2 ^ depth_ b)) k = Find hash t k.
Proof.
  intros Hwf Hkey Hb Hnil Hd.
  pose proof Hwf as [Hlen Hs]. destruct (Hs _ _ Hkey) as (b0 & Hb0 & Hokk).
  assert (b0 = b) by congruence; subst b0.
  destruct (decide (hash k mod 2 ^ depth_ b = hash key mod 2 ^ depth_ b)) as [Hk|Hk].
  - destruct (repointed_target t h b key k Hwf Hkey Hb Hnil Hd Hk) as (h4 & b4 & H1 & H2 & H3 & _).
    rewrite (Find_slot _ _ _ _ H1 H2). unfold Bucket_Find. rewrite H3.
    assert (dir_ t !! IndexOf hash t k = Some h) as Hkh.
    { destruct Hokk as (_ & _ & _ & _ & _ & Hsh). apply Hsh; [by apply IndexOf_lt|].
      rewrite !IndexOf_spec, !low_low by lia. done. }
    rewrite (Find_slot _ _ _ _ Hkh Hb). unfold Bucket_Find. by rewrite Hnil.
  - destruct (wf_slot t k Hwf) as (h' & b' & Hh' & Hb' & Hok').
    assert (h' ≠ h) as Hne.
    { intros ->. apply Hk.
      rewrite (hash_slot t k _ h b Hwf Hh' Hkey Hokk).
      rewrite IndexOf_spec, low_low by lia. done. }
    assert (¬ moved (hash key mod 2 ^ depth_ b) (depth_ b) (IndexOf hash t k)) as Hnm.
    { intros [Hm _]. apply Hk. rewrite IndexOf_spec, low_low in Hm by lia. done. }
    rewrite (Find_slot t k h' b' Hh' Hb'). apply (Find_slot _ _ h').
    + assert (∀ x, IndexOf hash (repointed_table t h b x) k = IndexOf hash t k) as -> by done.
      rewrite repointed_table_lookup, Hh'. cbn [fmap option_fmap option_map].
      by rewrite decide_False.
    + unfold repointed_table. cbn [heap_]. pose proof (lookup_lt_Some _ _ _ Hb').
      rewrite lookup_app_l by (rewrite length_insert; lia).
      by rewrite list_lookup_insert_ne.
Qed.

(** ** The redistribution loop *)
Lemma redistribute_spec (l : list (K * V)) :
  ∀ t : Table,
  wf t -> NoDup l.*1 ->
  (∀ k, k ∈ l.*1 -> Find hash t k = Some None) ->
  (∀ i h b, dir_ t !! i = Some h -> heap_ t !! h = Some b ->
            length (list_ b) + length (filter (targets t h) l) ≤ bucket_size_ t) ->
  ∃ t', redistribute hash l t = Some t' ∧ wf t' ∧
        global_depth_ t' = global_depth_ t ∧ dir_ t' = dir_ t ∧
        num_buckets_ t' = num_buckets_ t ∧ bucket_size_ t' = bucket_size_ t ∧
        (∀ k, Find hash t' k =
              match list_find_key k l with Some v => Some (Some v) | None => Find hash t k end) ∧
        (∀ h b, heap_ t !! h = Some b ->
                ∃ b', heap_ t' !! h = Some b' ∧ depth_ b' = depth_ b ∧
                      (list_ b').*1 ⊆ (list_ b).*1 ++ l.*1).
Proof.
  induction l as [|[k v] l IH]; intros t Hwf Hnd Hfresh Hcap.
  - exists t. simpl. split_and!; [done..|]. intros h b Hb. exists b.
    split_and!; [done..|]. by rewrite app_nil_r.
  - destruct (wf_slot t k Hwf) as (h & b & Hh & Hb & Hok).
    pose proof Hok as (H1 & H2 & H3 & H4 & H5 & H6).
    apply NoDup_cons in Hnd as [Hk Hnd]. simpl in Hk.
    assert (IsFull b = false) as Hnf.
    { pose proof (Hcap _ _ _ Hh Hb) as Hc. rewrite filter_cons_True in Hc by done.
      simpl in Hc. unfold IsFull. apply bool_decide_eq_false. lia. }
    destruct (Bucket_Insert_not_full b k v Hnf) as (b' & Hins & Hsz & Hd & Hfk & Hfo & Hkeys).
    destruct (insert_accepted t k v h b b' Hwf Hh Hb Hins) as (Hwf1 & Hf1 & Hf2).
    assert (k ∉ (list_ b).*1) as Hkb.
    { apply list_find_key_None. specialize (Hfresh k ltac:(left)).
      rewrite (Find_slot t k h b Hh Hb) in Hfresh. by inversion Hfresh. }
    destruct Hkeys as [[? _]|[_ Hkeys]]; [done|].
    set (t1 := set_bucket t h b') in *.
    destruct (IH t1) as (t' & Hr & Hwf' & G1 & G2 & G3 & G4 & G5 & G6); [done|done| | |].
    + intros k2 Hk2. rewrite Hf2 by (intros ->; done). apply Hfresh. by right.
    + intros i h2 b2 Hi Hb2. simpl in Hi |- *.
      assert (filter (targets t1 h2) l = filter (targets t h2) l) as -> by done.
      destruct (decide (h2 = h)) as [->|Hne].
      * simpl in Hb2. rewrite list_lookup_insert_eq in Hb2 by (by eapply lookup_lt_Some).
        inversion Hb2; subst b2. pose proof (Hcap _ _ _ Hh Hb) as Hc.
        rewrite filter_cons_True in Hc by done. simpl in Hc.
        rewrite <- (length_fmap fst (list_ b')), Hkeys, length_app, length_fmap. simpl. lia.
      * simpl in Hb2. rewrite list_lookup_insert_ne in Hb2 by done.
        pose proof (Hcap _ _ _ Hi Hb2) as Hc.
        destruct (decide (targets t h2 (k, v))).
        -- rewrite filter_cons_True in Hc by done. simpl in Hc. lia.
        -- by rewrite filter_cons_False in Hc by done.
    + exists t'. split.
      { simpl. unfold GetIndexBucket, bucket_at. rewrite Hh. simpl. rewrite Hb. simpl.
        by rewrite Hins. }
      split_and!; [done..| |].
      * intros k0. rewrite G5. simpl. destruct (decide (k = k0)) as [->|Hne].
        -- apply list_find_key_None in Hk as ->. done.
        -- by rewrite Hf2 by done.
      * intros h2 b2 Hb2. destruct (decide (h2 = h)) as [->|Hne].
        -- assert (b2 = b) by congruence; subst b2.
           destruct (G6 h b') as (b'' & E1 & E2 & E3).
           { simpl. apply list_lookup_insert_eq. by eapply lookup_lt_Some. }
           exists b''. split_and!; [done|congruence|].
           rewrite Hkeys in E3. rewrite fmap_cons. simpl. set_solver.
        -- destruct (G6 h2 b2) as (b'' & E1 & E2 & E3).
           { simpl. by rewrite list_lookup_insert_ne. }
           exists b''. split_and!; [done..|]. rewrite fmap_cons. simpl. set_solver.
Qed.


(** ** One round of the loop of [Insert] *)
Lemma split_spec (t : Table) key h b :
  wf t -> dir_ t !! IndexOf hash t key = Some h -> heap_ t !! h = Some b ->
  ∃ t', split hash t key h = Some t' ∧ wf t' ∧
        (∀ k, Find hash t' k = Find hash t k) ∧
        bucket_size_ t' = bucket_size_ t ∧
        global_depth_ t' =
          (if decide (depth_ b = global_depth_ t) then S (global_depth_ t) else global_depth_ t) ∧
        num_buckets_ t' = S (num_buckets_ t) ∧
        ∃ h' b', dir_ t' !! IndexOf hash t' key = Some h' ∧ heap_ t' !! h' = Some b' ∧
                 depth_ b' = S (depth_ b) ∧ (list_ b').*1 ⊆ (list_ b).*1.
Proof.
  intros Hwf Hh Hb. pose proof Hwf as [Hlen Hs].
  destruct (Hs _ _ Hh) as (b0 & Hb0 & Hok). assert (b0 = b) by congruence; subst b0.
  pose proof Hok as (H1 & H2 & H3 & H4 & H5 & H6).
  pose proof (lookup_lt_Some _ _ _ Hb) as Hhlt.
  set (b1 := mkBucket (size_ b) (depth_ b) ([] : list (K * V))).
  set (t1 := set_bucket t h b1).
  assert (wf t1) as Hwf1.
  { apply (wf_set_bucket t h b b1); [done..|simpl; lia|constructor|]. intros; constructor. }
  assert (heap_ t1 !! h = Some b1) as Hb1 by (simpl; by apply list_lookup_insert_eq).
  assert (∀ k, Find hash t1 k =
               if decide (dir_ t !! IndexOf hash t k = Some h) then Some None
               else Find hash t k) as HF1.
  { intros k. destruct (wf_slot t k Hwf) as (h' & b' & Hh' & Hb' & _). unfold t1.
    destruct (decide (dir_ t !! IndexOf hash t k = Some h)) as [Hk|Hk].
    - by rewrite (Find_set_bucket_same t h b b1 k).
    - apply (Find_set_bucket_other t h b1 k h'); [done|]. intros ->. done. }
  set (t2 := if decide (depth_ b = global_depth_ t1) then grow t1 else t1).
  assert (wf t2 ∧ dir_ t2 !! IndexOf hash t2 key = Some h ∧ heap_ t2 !! h = Some b1 ∧
          depth_ b1 < global_depth_ t2 ∧ (∀ k, Find hash t2 k = Find hash t1 k) ∧
          bucket_size_ t2 = bucket_size_ t ∧ num_buckets_ t2 = num_buckets_ t ∧
          global_depth_ t2 =
            (if decide (depth_ b = global_depth_ t) then S (global_depth_ t) else global_depth_ t))
    as (Hwf2 & Hh2 & Hb2 & Hd2 & HF2 & Hbs2 & Hnb2 & Hg2).
  { subst t2. change (global_depth_ t1) with (global_depth_ t).
    destruct (decide (depth_ b = global_depth_ t)) as [Heq|Hne].
    - split_and!; [by apply wf_grow| |done|simpl; lia| |done..].
      + rewrite IndexOf_grow by apply Hwf1. done.
      + intros k. apply Find_grow. apply Hwf1.
    - split_and!; try done. simpl. lia. }
  destruct (repointed_target t2 h b1 key key Hwf2 Hh2 Hb2 eq_refl Hd2 eq_refl)
    as (h4 & b4 & Hh4 & Hb4 & Hnil4 & Hd4).
  pose proof (wf_repointed t2 h b1 key Hwf2 Hh2 Hb2 eq_refl Hd2) as Hwf4.
  set (t4 := repointed_table t2 h b1 (hash key mod 2 ^ depth_ b1)) in *.
  assert (∀ k, k ∈ (list_ b).*1 -> hash k mod 2 ^ depth_ b = hash key mod 2 ^ depth_ b) as Hpat.
  { intros k Hk. rewrite Forall_forall in H5. rewrite (H5 k Hk).
    rewrite IndexOf_spec, low_low by lia. done. }
  destruct (redistribute_spec (list_ b) t4) as (t5 & Hr & Hwf5 & G1 & G2 & G3 & G4 & G5 & G6);
    [done|done| | |].
  { intros k Hk.
    destruct (repointed_target t2 h b1 key k Hwf2 Hh2 Hb2 eq_refl Hd2 (Hpat k Hk))
      as (hk & bk & E1 & E2 & E3 & _).
    fold t4 in E1, E2. rewrite (Find_slot t4 k hk bk E1 E2). unfold Bucket_Find. by rewrite E3. }
  { intros i h' b' Hi Hb'. destruct Hwf4 as [_ Hs4].
    destruct (Hs4 _ _ Hi) as (b'' & Hb'' & Hok''). assert (b'' = b') by congruence; subst b''.
    destruct Hok'' as (_ & Hsz'' & Hl'' & _).
    assert (bucket_size_ t4 = bucket_size_ t) as Hbs4 by (unfold t4; simpl; by rewrite Hbs2).
    rewrite Hbs4 in *.
    destruct (filter (targets t4 h') (list_ b)) as [|kv rest] eqn:Hfil; [simpl; lia|].
    assert (kv ∈ filter (targets t4 h') (list_ b)) as Hin by (rewrite Hfil; left).
    apply list_elem_of_filter in Hin as [Htg Hin].
    assert (kv.1 ∈ (list_ b).*1) as Hk by (by apply list_elem_of_fmap_2).
    destruct (repointed_target t2 h b1 key kv.1 Hwf2 Hh2 Hb2 eq_refl Hd2 (Hpat _ Hk))
      as (hk & bk & E1 & E2 & E3 & _).
    fold t4 in E1, E2. unfold targets in Htg. assert (hk = h') by congruence; subst hk.
    assert (bk = b') by congruence; subst bk. rewrite E3. simpl.
    pose proof (length_filter (targets t4 h') (list_ b)) as Hlf. rewrite Hfil in Hlf.
    simpl in Hlf |- *. lia. }
  exists t5. split.
  { unfold split, bucket_at. rewrite Hb. cbn [mbind option_bind].
    fold b1. fold t1. unfold GetLocalDepthInternal, GetIndexBucket, bucket_at.
    assert (dir_ t1 !! IndexOf hash t1 key = Some h) as -> by done.
    cbn [mbind option_bind]. rewrite Hb1. cbn [mbind option_bind]. fold t2.
    change (depth_ b1) with (depth_ b). fold t2. rewrite Hb2. cbn [mbind option_bind].
    rewrite land_mask. rewrite (repoint_loop t2 h b1 key Hwf2 Hb2 Hd2). exact Hr. }
  split_and!; [done| |by rewrite G4|by rewrite G1|by rewrite G3; simpl; rewrite Hnb2|].
  - intros k. rewrite G5. unfold t4. rewrite (Find_repointed t2 h b1 key k Hwf2 Hh2 Hb2 eq_refl Hd2).
    rewrite HF2, HF1. destruct (wf_slot t k Hwf) as (h' & b' & Hh' & Hb' & _).
    destruct (decide (dir_ t !! IndexOf hash t k = Some h)) as [Hk|Hk].
    + rewrite (Find_slot t k h b Hk Hb). unfold Bucket_Find.
      by destruct (list_find_key k (list_ b)).
    + destruct (list_find_key k (list_ b)) as [v|] eqn:Hv; [|done].
      exfalso. apply Hk. apply (slot_ok_key_slot t _ h b k Hwf Hh Hok).
      destruct (decide (k ∈ (list_ b).*1)) as [|Hn]; [done|].
      apply list_find_key_None in Hn. congruence.
  - destruct (G6 h4 b4 Hb4) as (b5 & E1 & E2 & E3).
    exists h4, b5. split_and!; [|done|by rewrite E2, Hd4|].
    + rewrite G2. assert (IndexOf hash t5 key = IndexOf hash t4 key) as ->; [|done].
      unfold IndexOf. by rewrite G1.
    + rewrite Hnil4 in E3. simpl in E3. done.
Qed.


(** ** [Insert] *)
Lemma Insert_unfold n (t : Table) key value h b :
  dir_ t !! IndexOf hash t key = Some h -> heap_ t !! h = Some b ->
  Insert hash (S n) t key value =
  match Bucket_Insert b key value with
  | (true, b') => Ok (set_bucket t h b')
  | (false, _) =>
      match split hash t key h with
      | None => Fault
      | Some t' => Insert hash n t' key value
      end
  end.
Proof. intros Hh Hb. simpl. unfold GetIndexBucket, bucket_at. by rewrite Hh, Hb. Qed.

(** What a call that returns has done. *)
Lemma Insert_Ok_spec n : ∀ (t t' : Table) key value,
  wf t -> Insert hash n t key value = Ok t' ->
  wf t' ∧ Find hash t' key = Some (Some value) ∧
  (∀ k, k ≠ key -> Find hash t' k = Find hash t k) ∧
  bucket_size_ t' = bucket_size_ t ∧
  num_buckets_ t ≤ num_buckets_ t' ∧ global_depth_ t ≤ global_depth_ t'.
Proof.
  induction n as [|n IH]; intros t t' key value Hwf Hins; [done|].
  destruct (wf_slot t key Hwf) as (h & b & Hh & Hb & Hok).
  rewrite (Insert_unfold n t key value h b Hh Hb) in Hins.
  destruct (Bucket_Insert b key value) as [[] b'] eqn:Hbi.
  - inversion Hins; subst t'.
    destruct (insert_accepted t key value h b b' Hwf Hh Hb Hbi) as (G1 & G2 & G3).
    split_and!; done.
  - destruct (split_spec t key h b Hwf Hh Hb) as (t1 & Hsp & Hwf1 & HF & Hbs & Hg & Hn & _).
    rewrite Hsp in Hins. destruct (IH t1 t' key value Hwf1 Hins) as (G1 & G2 & G3 & G4 & G5 & G6).
    split_and!; [done|done| |congruence|lia|].
    + intros k Hk. by rewrite G3, HF.
    + rewrite Hg in G6. destruct (decide (depth_ b = global_depth_ t)); lia.
Qed.

(** The model of [Insert] never runs into an access outside the directory or
    the heap on a well-formed table: it returns or it is still splitting. *)
Lemma Insert_no_fault n : ∀ (t : Table) key value,
  wf t -> Insert hash n t key value ≠ Fault.
Proof.
  induction n as [|n IH]; intros t key value Hwf; [done|].
  destruct (wf_slot t key Hwf) as (h & b & Hh & Hb & Hok).
  rewrite (Insert_unfold n t key value h b Hh Hb).
  destruct (Bucket_Insert b key value) as [[] b'] eqn:Hbi; [done|].
  destruct (split_spec t key h b Hwf Hh Hb) as (t1 & Hsp & Hwf1 & _).
  rewrite Hsp. by apply IH.
Qed.

Lemma agreeing_all D key (l : list K) d :
  D ≤ d -> Forall (fun k => hash k mod 2 ^ d = hash key mod 2 ^ d) l ->
  agreeing D key l = l.
Proof.
  intros HD Hall. unfold agreeing. induction Hall as [|k l Hk Hall IH]; [done|].
  rewrite filter_cons_True by (by eapply low_eq_weaken). by rewrite IH.
Qed.

Lemma agreeing_mono D key (l l' : list K) :
  NoDup l' -> l' ⊆ l -> length (agreeing D key l') ≤ length (agreeing D key l).
Proof.
  intros Hnd Hsub. apply submseteq_length. apply NoDup_submseteq.
  - by apply NoDup_filter.
  - intros x. unfold agreeing. rewrite !list_elem_of_filter. set_solver.
Qed.

Lemma target_keys_slot (t : Table) key h b :
  dir_ t !! IndexOf hash t key = Some h -> heap_ t !! h = Some b ->
  target_keys t key = (list_ b).*1.
Proof.
  intros Hh Hb. unfold target_keys, GetIndexBucket, bucket_at. rewrite Hh. simpl. by rewrite Hb.
Qed.

(** The loop stops: every round deepens the bucket of the key, and at depth
    [D] that bucket holds fewer than [bucket_size_] pairs. *)
Lemma Insert_returns D key value m : ∀ (t : Table) h b,
  wf t -> dir_ t !! IndexOf hash t key = Some h -> heap_ t !! h = Some b ->
  D - depth_ b ≤ m ->
  length (agreeing D key (list_ b).*1) < bucket_size_ t ->
  ∃ t', Insert hash (S m) t key value = Ok t' ∧
        global_depth_ t' ≤ Nat.max (global_depth_ t) D.
Proof.
  induction m as [|m IH]; intros t h b Hwf Hh Hb Hm Hcnt;
    rewrite (Insert_unfold _ t key value h b Hh Hb);
    destruct (Bucket_Insert b key value) as [[] b'] eqn:Hbi;
    try (eexists; split; [done|simpl; lia]).
  - exfalso. pose proof Hwf as [_ Hs]. destruct (Hs _ _ Hh) as (b0 & Hb0 & Hok).
    assert (b0 = b) by congruence; subst b0.
    pose proof Hok as (H1 & H2 & H3 & H4 & H5 & H6).
    rewrite (agreeing_all D key _ (depth_ b)) in Hcnt; [|lia|].
    + rewrite length_fmap in Hcnt.
      destruct (IsFull b) eqn:Hf.
      * unfold IsFull in Hf. apply bool_decide_eq_true in Hf. lia.
      * destruct (Bucket_Insert_not_full b key value Hf) as (? & ? & _). congruence.
    + eapply Forall_impl; [exact H5|]. intros k Hk. simpl in Hk. rewrite Hk.
      rewrite IndexOf_spec, low_low by lia. done.
  - pose proof Hwf as [_ Hs]. destruct (Hs _ _ Hh) as (b0 & Hb0 & Hok).
    assert (b0 = b) by congruence; subst b0.
    pose proof Hok as (H1 & H2 & H3 & H4 & H5 & H6).
    destruct (split_spec t key h b Hwf Hh Hb)
      as (t1 & Hsp & Hwf1 & HF & Hbs & Hg & Hn & h1 & b1 & Hh1 & Hb1 & Hd1 & Hsub).
    rewrite Hsp.
    assert (depth_ b < D) as HdD.
    { destruct (decide (depth_ b < D)) as [|Hge]; [done|]. exfalso.
      rewrite (agreeing_all D key _ (depth_ b)) in Hcnt; [|lia|].
      - rewrite length_fmap in Hcnt. destruct (IsFull b) eqn:Hf.
        + unfold IsFull in Hf. apply bool_decide_eq_true in Hf. lia.
        + destruct (Bucket_Insert_not_full b key value Hf) as (? & ? & _). congruence.
      - eapply Forall_impl; [exact H5|]. intros k Hk. simpl in Hk. rewrite Hk.
        rewrite IndexOf_spec, low_low by lia. done. }
    destruct (IH t1 h1 b1 Hwf1 Hh1 Hb1) as (t' & Hins & Hgd); [lia| |].
    + rewrite Hbs. eapply Nat.le_lt_trans; [|exact Hcnt]. apply agreeing_mono; [|done].
      destruct Hwf1 as [_ Hs1]. destruct (Hs1 _ _ Hh1) as (b2 & Hb2 & Hok2).
      assert (b2 = b1) by congruence; subst b2. by destruct Hok2 as (_ & _ & _ & ? & _).
    + exists t'. split; [done|]. rewrite Hg in Hgd.
      destruct (decide (depth_ b = global_depth_ t)); lia.
Qed.

(** A call on a full bucket splits at least once before it returns, whether
    or not the key is in the bucket: [Bucket::Insert] tests fullness first. *)
Lemma Insert_full_bucket_splits n (t t' : Table) key value h b :
  wf t -> dir_ t !! IndexOf hash t key = Some h -> heap_ t !! h = Some b ->
  IsFull b = true ->
  Insert hash n t key value = Ok t' ->
  num_buckets_ t < num_buckets_ t'.
Proof.
  intros Hwf Hh Hb Hfull Hins. destruct n as [|n]; [done|].
  rewrite (Insert_unfold n t key value h b Hh Hb), Bucket_Insert_full in Hins by done.
  destruct (split_spec t key h b Hwf Hh Hb) as (t1 & Hsp & Hwf1 & _ & _ & _ & Hn & _).
  rewrite Hsp in Hins.
  destruct (Insert_Ok_spec _ t1 t' key value Hwf1 Hins) as (_ & _ & _ & _ & Hnb & _). lia.
Qed.

(** The loop cannot end when [bucket_size_] stored keys have the very hash
    of [key]: they all sit in the bucket of [key], which is full at every
    depth. *)
Lemma Insert_stuck (ks : list K) n : ∀ (t : Table) key value,
  wf t -> NoDup ks -> length ks = bucket_size_ t ->
  (∀ k, k ∈ ks -> hash k = hash key ∧ ∃ v, Find hash t k = Some (Some v)) ->
  Insert hash n t key value = Timeout.
Proof.
  induction n as [|n IH]; intros t key value Hwf Hnd Hlen Hks; [done|].
  destruct (wf_slot t key Hwf) as (h & b & Hh & Hb & Hok).
  pose proof Hok as (H1 & H2 & H3 & H4 & H5 & H6).
  rewrite (Insert_unfold n t key value h b Hh Hb).
  assert (ks ⊆ (list_ b).*1) as Hsub.
  { intros k Hk. destruct (Hks k Hk) as (Hhash & v & Hf).
    assert (IndexOf hash t k = IndexOf hash t key) as Hidx
      by (unfold IndexOf; by rewrite Hhash).
    assert (dir_ t !! IndexOf hash t k = Some h) as Hkh by (by rewrite Hidx).
    rewrite (Find_slot t k h b Hkh Hb) in Hf.
    destruct (decide (k ∈ (list_ b).*1)) as [|Hn]; [done|].
    apply list_find_key_None in Hn. unfold Bucket_Find in Hf. congruence. }
  assert (IsFull b = true) as Hfull.
  { unfold IsFull. apply bool_decide_eq_true.
    pose proof (submseteq_length _ _ (NoDup_submseteq _ _ Hnd Hsub)) as Hle.
    rewrite length_fmap in Hle. lia. }
  rewrite Bucket_Insert_full by done.
  destruct (split_spec t key h b Hwf Hh Hb) as (t1 & Hsp & Hwf1 & HF & Hbs1 & _).
  rewrite Hsp. apply IH; [done|done|congruence|].
  intros k Hk. rewrite HF. by apply Hks.
Qed.

(** ** Tables the program can build *)
Lemma reachable_wf (t : Table) : reachable t -> wf t.
Proof.
  induction 1 as [B|t fuel key value t' _ IH Hins|t key r t' _ IH Hrm].
  - apply wf_new.
  - by destruct (Insert_Ok_spec fuel t t' key value IH Hins).
  - destruct (Remove_spec t key IH) as (r' & t'' & Hr & Hwf & _). congruence.
Qed.


End Facts.

Import Scenario.

Lemma full_bucket_reachable : ExtHash.reachable hash_int full_bucket.
Proof.
  apply (reachable_Insert hash_int
           (mkTable 0 2 1 [0] [mkBucket 2 0 [(0, 10)]%Z]) 1 1%Z 11%Z);
    [|vm_compute; reflexivity].
  apply (reachable_Insert hash_int (ExtHash.new 2) 1 0%Z 10%Z); [|vm_compute; reflexivity].
  apply reachable_new.
Qed.

Lemma single_slot_reachable : ExtHash.reachable hash_int single_slot.
Proof.
  apply (reachable_Insert hash_int (ExtHash.new 1) 1 0%Z 10%Z); [|vm_compute; reflexivity].
  apply reachable_new.
Qed.

Lemma single_slot_reachable_same : ExtHash.reachable hash_same single_slot.
Proof.
  apply (reachable_Insert hash_same (ExtHash.new 1) 1 0%Z 10%Z); [|vm_compute; reflexivity].
  apply reachable_new.
Qed.

(** C6: bucket size 1 and the hash of [int]. [Insert(0, 10)] returns and
    [Find(0)] gives 10. [Insert(0, 20)] then does not return, whatever fuel
    the loop is given: the bucket is full, [Bucket::Insert] refuses before
    it looks for the key, and every split leaves the key 0 in a full bucket.
    So [Find(0)] never gets to give 20. *)
Theorem Insert_same_key_does_not_return :
  Insert hash_int 1 (ExtHash.new 1) 0%Z 10%Z = Ok single_slot ∧
  Find hash_int single_slot 0%Z = Some (Some 10%Z) ∧
  ∀ fuel, Insert hash_int fuel single_slot 0%Z 20%Z = Timeout.
Proof.
  split; [vm_compute; reflexivity|]. split; [vm_compute; reflexivity|]. intros fuel.
  apply (Insert_stuck hash_int [0%Z] fuel single_slot 0%Z 20%Z).
  - apply reachable_wf, single_slot_reachable.
  - apply NoDup_singleton.
  - reflexivity.
  - intros k ->%list_elem_of_singleton. split; [reflexivity|]. exists 10%Z.
    vm_compute. reflexivity.
Qed.

(** C7: the key 0 is in its bucket and the bucket is full; [Insert(0, 20)]
    splits the bucket and doubles the directory before it overwrites: the
    bucket count goes from 1 to 2 and the global depth from 0 to 1. *)
Theorem Insert_present_key_splits_full_bucket :
  table_insert (table_insert (Ok (ExtHash.new 2)) (0, 10)%Z) (1, 11)%Z = Ok full_bucket ∧
  Find hash_int full_bucket 0%Z = Some (Some 10%Z) ∧
  GetNumBuckets full_bucket = 1 ∧
  GetGlobalDepth full_bucket = 0 ∧
  ∃ t', Insert hash_int fuel full_bucket 0%Z 20%Z = Ok t' ∧
        Find hash_int t' 0%Z = Some (Some 20%Z) ∧
        GetNumBuckets t' = 2 ∧
        GetGlobalDepth t' = 1.
Proof.
  split_and!; [vm_compute; reflexivity..|]. eexists. split; [vm_compute; reflexivity|].
  split_and!; vm_compute; reflexivity.
Qed.

End ExtHashFacts.

(** * Facts: the LRU-K replacer *)
Module LRUKFacts.
Import LRUK Scenario.

Lemma EvictInternal_None fuel r r' :
  EvictInternal fuel r = Ok (r', None) -> r' = r ∧ Size r = 0%Z.
Proof.
  unfold EvictInternal. destruct (decide (Size r = 0%Z)) as [Hs|Hs].
  - intros H. inversion H; subst. by split.
  - destruct (walk fuel r _); simpl; [|done..].
    destruct (decide (curr_history_size_ r ≠ 0%Z)).
    + destruct (prev_ (dummy_buffer_ r)) as [node|]; simpl; [|done].
      destruct (RemoveFromPool _ node) as [r2|]; simpl; [|done].
      destruct (update r2 node _) as [r3|]; simpl; [|done].
      destruct (update r3 node _) as [r4|]; simpl; [|done].
      destruct (read r4 node); simpl; done.
    + destruct (prev_ (dummy_history_ r)) as [node|]; simpl; [|done].
      destruct (RemoveFromPool _ node) as [r2|]; simpl; [|done].
      destruct (update r2 node _) as [r3|]; simpl; [|done].
      destruct (update r3 node _) as [r4|]; simpl; [|done].
      destruct (read r4 node); simpl; done.
Qed.

Lemma EvictInternal_empty fuel r : Size r = 0%Z -> EvictInternal fuel r = Ok (r, None).
Proof. intros Hs. unfold EvictInternal. by rewrite decide_True. Qed.

(** C5: with K = 2. First run: frames 1 and 2 are accessed once each, 1
    before 2, and then made evictable, 2 before 1; [Evict] returns 2 first,
    the frame accessed later. Second run: frame 1 is accessed at times 1, 2
    and 5 and frame 2 at times 3 and 4, so the second most recent access of
    frame 1 is the earlier one; [Evict] returns 2 first. *)
Theorem Evict_follows_list_order :
  evictions [DoRecordAccess 1; DoRecordAccess 2;
             DoSetEvictable 2 true; DoSetEvictable 1 true;
             DoEvict; DoEvict] 7 2
    = Ok [Some 2%Z; Some 1%Z] ∧
  evictions [DoRecordAccess 1; DoRecordAccess 1; DoSetEvictable 1 true;
             DoRecordAccess 2; DoRecordAccess 2; DoSetEvictable 2 true;
             DoRecordAccess 1;
             DoEvict; DoEvict] 7 2
    = Ok [Some 2%Z; Some 1%Z].
Proof. split; vm_compute; reflexivity. Qed.

(** C10: [Remove] of a frame that is tracked and not evictable returns
    without a fault; the node of the frame is gone from [entries_], the other
    nodes and [Size()] are as before, and a [RecordAccess] of the frame that
    follows makes a fresh node with one access. *)
Theorem Remove_non_evictable (r : LRUKReplacer) (frame_id : Z) (n : Node) :
  entries_ r !! frame_id = Some n ->
  evictable_ n = false ->
  ∃ r', Remove r frame_id = Some r' ∧
        entries_ r' !! frame_id = None ∧
        (∀ f, f ≠ frame_id -> entries_ r' !! f = entries_ r !! f) ∧
        Size r' = Size r ∧
        ∃ r'', RecordAccess r' frame_id = Some r'' ∧
               entries_ r'' !! frame_id = Some (mkNode frame_id 1 false None None) ∧
               Size r'' = Size r.
Proof.
  intros Hn He. exists (erase r frame_id). unfold Remove. rewrite Hn, He. simpl.
  split_and!; [done|apply lookup_delete_eq| |done|].
  - intros f Hf. by apply lookup_delete_ne.
  - unfold RecordAccess. simpl. rewrite lookup_delete_eq. unfold update, read, write. simpl.
    rewrite lookup_insert_eq. simpl. eexists. split; [done|]. simpl.
    rewrite lookup_insert_eq. done.
Qed.

(** C10, witness: frame 3 is tracked with one access and pinned. *)
Lemma Remove_non_evictable_witness :
  ∃ r', Remove one_pinned 3 = Some r' ∧
        entries_ r' !! 3%Z = None ∧
        (∀ f, f ≠ 3%Z -> entries_ r' !! f = entries_ one_pinned !! f) ∧
        Size r' = Size one_pinned ∧
        ∃ r'', RecordAccess r' 3 = Some r'' ∧
               entries_ r'' !! 3%Z = Some (mkNode 3 1 false None None) ∧
               Size r'' = Size one_pinned.
Proof.
  apply (Remove_non_evictable one_pinned 3 (mkNode 3 1 false None None)); reflexivity.
Defined.

End LRUKFacts.

(** * Facts: the buffer pool manager *)
Module BufferPoolFacts.
Import TreePage BufferPool Scenario.

Section Pool.
Variable hash : Z -> nat.

Lemma set_replacer_id bpm : set_replacer bpm (replacer_ bpm) = bpm.
Proof. by destruct bpm. Qed.

Lemma GetAvailableFrame_None fuel bpm bpm' :
  GetAvailableFrame hash fuel bpm = Ok (bpm', None) ->
  bpm' = bpm ∧ free_list_ bpm = [] ∧ LRUK.Size (replacer_ bpm) = 0%Z.
Proof.
  unfold GetAvailableFrame. destruct (free_list_ bpm) as [|f rest]; [|done].
  unfold LRUK.Evict.
  destruct (LRUK.EvictInternal fuel (replacer_ bpm)) as [[r victim]| |] eqn:He;
    simpl; [|done..].
  destruct victim as [f|].
  - destruct (reclaim hash (set_replacer bpm r) f); simpl; done.
  - intros H. inversion H; subst. apply LRUKFacts.EvictInternal_None in He as [-> Hs].
    by rewrite set_replacer_id.
Qed.

Lemma GetAvailableFrame_empty fuel bpm :
  free_list_ bpm = [] -> LRUK.Size (replacer_ bpm) = 0%Z ->
  GetAvailableFrame hash fuel bpm = Ok (bpm, None).
Proof.
  intros Hf Hs. unfold GetAvailableFrame, LRUK.Evict.
  rewrite Hf, LRUKFacts.EvictInternal_empty by done.
  simpl. by rewrite set_replacer_id.
Qed.

Lemma NewPgImp_None fuel bpm bpm' :
  NewPgImp hash fuel bpm = Ok (bpm', None) ->
  bpm' = bpm ∧ free_list_ bpm = [] ∧ LRUK.Size (replacer_ bpm) = 0%Z.
Proof.
  unfold NewPgImp. destruct (GetAvailableFrame hash fuel bpm) as [[bpm1 avail]| |] eqn:Hg;
    simpl; [|done..].
  destruct avail as [f|].
  - destruct (frame _ f); simpl; [|done].
    destruct (ExtHash.Insert _ _ _ _ _); simpl; [|done..].
    destruct (pin _ _ _); simpl; done.
  - intros H. inversion H; subst. by apply GetAvailableFrame_None in Hg.
Qed.

Lemma NewPgImp_empty fuel bpm :
  free_list_ bpm = [] -> LRUK.Size (replacer_ bpm) = 0%Z ->
  NewPgImp hash fuel bpm = Ok (bpm, None).
Proof.
  intros Hf Hs. unfold NewPgImp. by rewrite GetAvailableFrame_empty.
Qed.

(** C9: when the free list is empty and the replacer has no evictable frame,
    [NewPgImp] returns null and the pool it leaves is the pool it was given:
    [next_page_id_], page table, free list, replacer, frames and disk are
    all unchanged. *)
Theorem NewPgImp_no_frame_unchanged fuel bpm :
  free_list_ bpm = [] ->
  LRUK.Size (replacer_ bpm) = 0%Z ->
  NewPgImp hash fuel bpm = Ok (bpm, None).
Proof.
  intros Hf Hs. by apply NewPgImp_empty.
Qed.

Lemma FetchPgImp_None fuel bpm page_id bpm' :
  table_find hash bpm page_id = Some None ->
  FetchPgImp hash fuel bpm page_id = Ok (bpm', None) ->
  bpm' = bpm ∧ free_list_ bpm = [] ∧ LRUK.Size (replacer_ bpm) = 0%Z.
Proof.
  intros Ht. unfold FetchPgImp. rewrite Ht. simpl.
  destruct (GetAvailableFrame hash fuel bpm) as [[bpm1 avail]| |] eqn:Hg; simpl; [|done..].
  destruct avail as [f|].
  - destruct (frame _ f); simpl; [|done].
    destruct (ExtHash.Insert _ _ _ _ _); simpl; [|done..].
    destruct (pin _ _ _); simpl; done.
  - intros H. inversion H; subst. by apply GetAvailableFrame_None in Hg.
Qed.

Lemma frame_set_frame bpm f p q :
  frame bpm f = Some p -> frame (set_frame bpm f q) f = Some q.
Proof.
  unfold frame. destruct (decide (0 ≤ f)%Z); [|done]. intros H. simpl.
  apply list_lookup_insert_eq. by eapply lookup_lt_Some.
Qed.

Lemma Page_eta p : mkPage (page_id_ p) (pin_count_ p) (is_dirty_ p) (data_ p) = p.
Proof. by destruct p. Qed.

(** What [GetAvailableFrame] does, on a pool whose page table is well
    formed, and when [NewPgImp] and [FetchPgImp] return null.
    - With a non-empty free list, [GetAvailableFrame] pops its front and
      touches nothing else.
    - With an empty free list and a replacer that evicts frame [f], it
      returns [f]; the disk got one [WritePage] of the victim's page id and
      data if the frame was dirty and no write otherwise, so the data of a
      dirty victim can be read back from the disk; the frame is clean; the
      page table no longer binds the victim's page id and binds every other
      page id as before.
    - [NewPgImp] returns null exactly when the free list is empty and the
      replacer has no evictable frame, and so does [FetchPgImp] for a page
      that is not resident, the case in which it needs a frame. *)
Lemma GetAvailableFrame_cases fuel bpm :
  ExtHash.wf hash (page_table_ bpm) ->
  (∀ f rest, free_list_ bpm = f :: rest ->
     GetAvailableFrame hash fuel bpm = Ok (set_free_list bpm rest, Some f)) ∧
  (∀ r f p, free_list_ bpm = [] ->
     LRUK.Evict fuel (replacer_ bpm) = Ok (r, Some f) ->
     frame bpm f = Some p ->
     ∃ bpm', GetAvailableFrame hash fuel bpm = Ok (bpm', Some f) ∧
       disk_manager_ bpm' =
         (if is_dirty_ p then WritePage (disk_manager_ bpm) (page_id_ p) (data_ p)
          else disk_manager_ bpm) ∧
       (is_dirty_ p = true -> ReadPage (disk_manager_ bpm') (page_id_ p) = data_ p) ∧
       frame bpm' f = Some (mkPage (page_id_ p) (pin_count_ p) false (data_ p)) ∧
       table_find hash bpm' (page_id_ p) = Some None ∧
       (∀ q, q ≠ page_id_ p -> table_find hash bpm' q = table_find hash bpm q) ∧
       replacer_ bpm' = r ∧ free_list_ bpm' = []) ∧
  ((∃ bpm', NewPgImp hash fuel bpm = Ok (bpm', None)) <->
     free_list_ bpm = [] ∧ LRUK.Size (replacer_ bpm) = 0%Z) ∧
  (∀ page_id, table_find hash bpm page_id = Some None ->
     ((∃ bpm', FetchPgImp hash fuel bpm page_id = Ok (bpm', None)) <->
        free_list_ bpm = [] ∧ LRUK.Size (replacer_ bpm) = 0%Z)).
Proof.
  intros Hwf. split_and!.
  - intros f rest Hf. unfold GetAvailableFrame. by rewrite Hf.
  - intros r f p Hf He Hp. unfold GetAvailableFrame. rewrite Hf, He. simpl.
    unfold reclaim.
    assert (frame (set_replacer bpm r) f = Some p) as -> by done. simpl.
    set (bpm1 := if is_dirty_ p then _ else _).
    assert (frame bpm1 f = Some (mkPage (page_id_ p) (pin_count_ p) false (data_ p))) as Hp1.
    { subst bpm1. destruct (is_dirty_ p) eqn:Hd.
      - by apply (frame_set_frame _ f p).
      - rewrite <- Hd, Page_eta. done. }
    assert (page_table_ bpm1 = page_table_ bpm) as Hpt by (subst bpm1; by destruct (is_dirty_ p)).
    rewrite Hp1. simpl. unfold table_remove. rewrite Hpt.
    destruct (ExtHashFacts.Remove_spec hash (page_table_ bpm) (page_id_ p) Hwf)
      as (b & t' & Hr & _ & Hfk & Hfo).
    rewrite Hr. simpl. eexists. split; [done|].
    split_and!.
    + subst bpm1. by destruct (is_dirty_ p).
    + intros Hd. subst bpm1. rewrite Hd. simpl. by rewrite decide_True.
    + done.
    + done.
    + intros q Hq. unfold table_find. simpl. by apply Hfo.
    + subst bpm1. by destruct (is_dirty_ p).
    + subst bpm1. simpl. by destruct (is_dirty_ p).
  - split.
    + intros [bpm' H]. by apply NewPgImp_None in H as (_ & ? & ?).
    + intros [Hf Hs]. exists bpm. by apply NewPgImp_empty.
  - intros page_id Ht. split.
    + intros [bpm' H]. by apply (FetchPgImp_None _ _ _ _ Ht) in H as (_ & ? & ?).
    + intros [Hf Hs]. exists bpm. unfold FetchPgImp. rewrite Ht. simpl.
      by rewrite GetAvailableFrame_empty.
Qed.

End Pool.

(** C9, witness: a pool of one frame whose only page is pinned. *)
Lemma NewPgImp_no_frame_unchanged_witness :
  NewPgImp hash_int fuel (or_empty one_pinned_frame) = Ok (or_empty one_pinned_frame, None).
Proof.
  apply (NewPgImp_no_frame_unchanged hash_int fuel (or_empty one_pinned_frame));
    vm_compute; reflexivity.
Defined.

End BufferPoolFacts.

(** * Facts: the B+ tree *)
Module BPlusTreeFacts.
Import TreePage BufferPool BPlusTree Scenario.

(** C1: leaf and internal pages of at most 3 entries, keys 1 to 10 inserted
    in order. Every [Insert] returns true; afterwards [GetValue(8)] finds
    the value of 8, and [GetValue(9)] and [GetValue(10)] return false. *)
Theorem GetValue_misses_inserted_keys :
  rbind (insert_keys [1; 2; 3; 4; 5; 6; 7; 8; 9; 10]%Z empty_tree []) (fun '(results, t) =>
  rbind (lookup_keys [8; 9; 10]%Z (Ok t)) (fun found => Ok (results, found)))
  = Ok ([true; true; true; true; true; true; true; true; true; true],
        [Some 80%Z; None; None]).
Proof. vm_compute. reflexivity. Qed.

(** C2: the tree holds the key 1 alone, in the root leaf, page 1.
    [Remove(1)] fetches the leaf and calls [DeletePage(1)], which returns
    false because the page is pinned; the call then returns. Afterwards
    [IsEmpty()] is false, [root_page_id_] is still 1, and page 1 is
    resident with no entries and one pin. *)
Theorem Remove_last_key_keeps_root :
  ∃ t t', tree_of [1%Z] = Ok t ∧
          call (Remove hash_int fuel 1) (Ok t) = Ok (tt, t') ∧
          root_page_id_ t = 1%Z ∧
          entries <$> tree_page t 1 = Some [(1%Z, 10%Z)] ∧
          new_calls t t' = [CallFetch 1; CallDelete 1 false] ∧
          IsEmpty t' = false ∧
          root_page_id_ t' = 1%Z ∧
          entries <$> tree_page t' 1 = Some [] ∧
          pin_count_ <$> frame_of t' 1 = Some 1%Z ∧
          free_list_ (buffer_pool_manager_ t') = free_list_ (buffer_pool_manager_ t).
Proof.
  eexists _, _. split; [vm_compute; reflexivity|].
  split; [vm_compute; reflexivity|].
  split_and!; vm_compute; reflexivity.
Qed.

(** C3: the tree holds the keys 1 to 4: the left leaf, page 1, holds 1 and 2,
    the right leaf, page 2, holds 3 and 4, and the root, page 3, has two
    entries. [Remove(1)] makes the left leaf underflow and coalesces it with
    the right leaf. Afterwards the left leaf has size 3 and holds 2, 3 and a
    stale copy of 3: the entry 4 of the right leaf was not appended. The
    root still has two entries, the right leaf is still resident, and
    [DeletePage(2)] returned false. *)
Theorem Coalesce_drops_entries :
  ∃ t t', tree_of [1; 2; 3; 4]%Z = Ok t ∧
          call (Remove hash_int fuel 1) (Ok t) = Ok (tt, t') ∧
          entries <$> tree_page t 1 = Some [(1, 10); (2, 20)]%Z ∧
          entries <$> tree_page t 2 = Some [(3, 30); (4, 40)]%Z ∧
          entries <$> tree_page t 3 = Some [(0, 1); (3, 2)]%Z ∧
          entries <$> tree_page t' 1 = Some [(2, 20); (3, 30); (3, 30)]%Z ∧
          TreePage.next_page_id_ <$> tree_page t' 1 = Some INVALID_PAGE_ID ∧
          entries <$> tree_page t' 2 = Some [(3, 30); (4, 40)]%Z ∧
          entries <$> tree_page t' 3 = Some [(0, 1); (3, 2)]%Z ∧
          new_calls t t' =
            [CallFetch 3; CallFetch 1; CallUnpin 3 false true;
             CallFetch 3; CallFetch 2; CallUnpin 2 true true;
             CallFetch 2; CallDelete 2 false; CallUnpin 3 true true;
             CallFetch 3; CallUnpin 3 true true].
Proof.
  eexists _, _. split; [vm_compute; reflexivity|].
  split; [vm_compute; reflexivity|].
  split_and!; vm_compute; reflexivity.
Qed.

(** C4: the tree holds the key 1 alone, in the root leaf, page 1, which no
    one has pinned. [GetValue(2)] returns false; the only call it has made
    on the buffer pool is [FetchPage(1)], so page 1 was pinned once and
    unpinned zero times and its pin count is 1 after the call. [Remove(2)],
    which changes no page, unpins the leaf with the dirty flag set. *)
Theorem GetValue_miss_leaves_leaf_pinned :
  ∃ t t' t'', tree_of [1%Z] = Ok t ∧
          call (GetValue hash_int fuel 2) (Ok t) = Ok (None, t') ∧
          call (Remove hash_int fuel 2) (Ok t) = Ok (tt, t'') ∧
          pin_count_ <$> frame_of t 1 = Some 0%Z ∧
          new_calls t t' = [CallFetch 1] ∧
          pins 1 (new_calls t t') = 1 ∧
          unpins 1 (new_calls t t') = 0 ∧
          pin_count_ <$> frame_of t' 1 = Some 1%Z ∧
          new_calls t t'' = [CallFetch 1; CallUnpin 1 true true] ∧
          tree_page t'' 1 = tree_page t 1.
Proof.
  eexists _, _, _. split; [vm_compute; reflexivity|].
  split; [vm_compute; reflexivity|].
  split; [vm_compute; reflexivity|].
  split_and!; vm_compute; reflexivity.
Qed.

End BPlusTreeFacts.

(** * Facts about the trie *)
Module TrieFacts.
Import Trie.

Section Facts.
Context {Ty V : Type} `{EqDecision Ty}.

#[local] Abbreviation Node := (@TrieNode Ty V).
#[local] Abbreviation Tree := (@Trie.Trie Ty V).

Lemma set_child_id (n child : Node) c :
  children_ n !! c = Some child -> set_child n c child = n.
Proof.
  intros Hc. destruct n as [kc e v m]. unfold set_child, set_children. simpl in *.
  by rewrite insert_id.
Qed.

Lemma find_node_children key (n n' : Node) :
  key ≠ EmptyString -> children_ n' = children_ n -> find_node key n' = find_node key n.
Proof.
  intros Hk Hc. destruct key as [|c rest]; [done|]. simpl. unfold GetChildNode. by rewrite Hc.
Qed.

Lemma find_node_leaf key (n : Node) :
  key ≠ EmptyString -> children_ n = ∅ -> find_node key n = None.
Proof.
  intros Hk Hc. destruct key as [|c rest]; [done|]. simpl. unfold GetChildNode.
  by rewrite Hc, lookup_empty.
Qed.

(** What [Insert_from] does to the subtree of [node]. *)
Lemma Insert_from_spec rest : ∀ c (node : Node) T v,
  ∃ b node',
    Insert_from rest c node T v = Some (b, node') ∧
    value_ node' = value_ node ∧
    key_char_ node' = key_char_ node ∧
    (∀ key', key' ≠ String c rest ->
       find_node key' node' ≫= value_ = find_node key' node ≫= value_) ∧
    (b = true -> ∃ n, find_node (String c rest) node' = Some n ∧
                      value_ n = Some (T, v) ∧ is_end_ n = true) ∧
    (b = false -> node' = node) ∧
    (b = false <-> ∃ n, find_node (String c rest) node = Some n ∧ is_end_ n = true).
Proof.
  induction rest as [|c' rest' IH]; intros c node T v.
  - cbn [Insert_from]. unfold GetChildNode.
    destruct (children_ node !! c) as [term|] eqn:Hc.
    + destruct (IsEndNode term) eqn:He; cbn [negb].
      * exists false, node. split_and!; try done.
        split; [|done]. intros _. exists term. simpl. unfold GetChildNode. by rewrite Hc.
      * eexists true, _. split_and!; try done.
        -- intros key' Hk. destruct key' as [|c0 r0]; [done|].
           cbn [find_node]. unfold GetChildNode, set_child, set_children. cbn [children_].
           destruct (decide (c0 = c)) as [->|Hne].
           ++ rewrite lookup_insert_eq, Hc. simpl.
              assert (r0 ≠ EmptyString) as Hr by congruence.
              by rewrite (find_node_children r0 term (TrieNodeWithValue_from term T v)).
           ++ by rewrite lookup_insert_ne.
        -- intros _. eexists. cbn [find_node]. unfold GetChildNode, set_child, set_children.
           cbn [children_]. rewrite lookup_insert_eq. simpl. done.
        -- split; [done|]. intros (n & Hn & Hend). simpl in Hn. unfold GetChildNode in Hn.
           rewrite Hc in Hn. simpl in Hn. unfold IsEndNode in He. congruence.
    + unfold InsertChildNode. cbn [GetKeyChar TrieNodeWithValue_new key_char_].
      rewrite decide_True by done. cbn [fst].
      eexists true, _. split_and!; try done.
      * intros key' Hk. destruct key' as [|c0 r0]; [done|].
        cbn [find_node]. unfold GetChildNode, SetEndNode, set_children. cbn [children_].
        destruct (decide (c0 = c)) as [->|Hne].
        -- rewrite lookup_insert_eq, Hc. simpl.
           assert (r0 ≠ EmptyString) as Hr by congruence.
           by rewrite find_node_leaf.
        -- by rewrite lookup_insert_ne.
      * intros _. eexists. cbn [find_node]. unfold GetChildNode, SetEndNode, set_children.
        cbn [children_]. rewrite lookup_insert_eq. simpl. done.
      * split; [done|]. intros (n & Hn & _). simpl in Hn. unfold GetChildNode in Hn.
        by rewrite Hc in Hn.
  - cbn [Insert_from].
    set (node1 := match GetChildNode node c with
                  | None => fst (InsertChildNode node c (TrieNode_new c))
                  | Some _ => node
                  end).
    assert (∃ child, GetChildNode node1 c = Some child ∧
                     value_ node1 = value_ node ∧ key_char_ node1 = key_char_ node ∧
                     (∀ c0, c0 ≠ c -> children_ node1 !! c0 = children_ node !! c0) ∧
                     match children_ node !! c with
                     | Some ch => child = ch ∧ node1 = node
                     | None => child = TrieNode_new c
                     end) as (child & Hchild & Hv1 & Hk1 & Hother & Hwas).
    { subst node1. unfold GetChildNode.
      destruct (children_ node !! c) as [ch|] eqn:Hc.
      - exists ch. by rewrite Hc.
      - unfold InsertChildNode. cbn [GetKeyChar TrieNode_new key_char_].
        rewrite decide_True by done. cbn [fst set_children children_ value_ key_char_].
        exists (TrieNode_new c). rewrite lookup_insert_eq. split_and!; try done.
        intros c0 Hne. by rewrite lookup_insert_ne. }
    rewrite Hchild. cbn [mbind option_bind].
    destruct (IH c' child T v) as (b & child' & HI & Hv & Hkc & Hframe & Htrue & Hfalse & Hiff).
    rewrite HI. cbn [mbind option_bind].
    exists b, (set_child node1 c child'). split_and!; try done.
    + intros key' Hk. destruct key' as [|c0 r0]; [simpl; by rewrite Hv1|].
      cbn [find_node]. unfold GetChildNode, set_child, set_children. cbn [children_].
      destruct (decide (c0 = c)) as [->|Hne].
      * rewrite lookup_insert_eq. cbn [mbind option_bind].
        assert (r0 ≠ String c' rest') as Hr by congruence.
        rewrite (Hframe r0 Hr).
        destruct (children_ node !! c) as [ch|] eqn:Hc.
        -- destruct Hwas as [-> _]. done.
        -- subst child. simpl. destruct r0 as [|c2 r2]; [done|].
           by rewrite find_node_leaf.
      * rewrite lookup_insert_ne by done. by rewrite Hother.
    + intros Hb. destruct (Htrue Hb) as (n & Hn & Hval & Hend). exists n.
      split; [|done]. cbn [find_node]. unfold GetChildNode, set_child, set_children.
      cbn [children_]. rewrite lookup_insert_eq. done.
    + intros Hb. rewrite (Hfalse Hb).
      destruct (proj1 Hiff Hb) as (n & Hn & _).
      destruct (children_ node !! c) as [ch|] eqn:Hc.
      * destruct Hwas as [-> ->]. by apply set_child_id.
      * subst child. by rewrite find_node_leaf in Hn.
    + rewrite Hiff.
      destruct (children_ node !! c) as [ch|] eqn:Hc.
      * destruct Hwas as [-> _]. cbn [find_node]. unfold GetChildNode. by rewrite Hc.
      * subst child. split.
        -- intros (n & Hn & _). by rewrite find_node_leaf in Hn.
        -- intros (n & Hn & _). cbn [find_node] in Hn. unfold GetChildNode in Hn.
           by rewrite Hc in Hn.
Qed.

(** [Insert_from] for a key that ends one character below the node of
    [String c0 rest0], where no node exists yet. *)
Lemma Insert_from_child rest0 : ∀ c0 (node : Node) c T v,
  find_node (String c0 (rest0 +:+ String c EmptyString)) node = None ->
  ∃ node',
    Insert_from (rest0 +:+ String c EmptyString) c0 node T v = Some (true, node') ∧
    ∃ n, find_node (String c0 rest0) node' = Some n ∧ is_end_ n = false.
Proof.
  induction rest0 as [|c1 rest1 IH]; intros c0 node c T v Hnone.
  - change (EmptyString +:+ String c EmptyString) with (String c EmptyString) in *.
    cbn [Insert_from].
    set (node1 := match GetChildNode node c0 with
                  | None => fst (InsertChildNode node c0 (TrieNode_new c0))
                  | Some _ => node
                  end).
    assert (∃ child, GetChildNode node1 c0 = Some child ∧ children_ child !! c = None)
      as (child & Hchild & Hc).
    { subst node1. cbn [find_node] in Hnone. unfold GetChildNode in *.
      destruct (children_ node !! c0) as [ch|] eqn:Hc0.
      - exists ch. split; [by simpl|]. simpl in Hnone. unfold GetChildNode in Hnone.
        by destruct (children_ ch !! c).
      - unfold InsertChildNode. cbn [GetKeyChar TrieNode_new key_char_].
        rewrite decide_True by done. cbn [fst set_children children_].
        exists (TrieNode_new c0). by rewrite lookup_insert_eq. }
    rewrite Hchild. cbn [mbind option_bind]. unfold GetChildNode at 1. rewrite Hc.
    unfold InsertChildNode. cbn [GetKeyChar TrieNodeWithValue_new key_char_].
    rewrite decide_True by done. cbn [fst].
    eexists. split; [done|]. eexists. cbn [find_node]. unfold GetChildNode, set_child, set_children.
    cbn [children_]. rewrite lookup_insert_eq. simpl. done.
  - change (String c1 rest1 +:+ String c EmptyString)
      with (String c1 (rest1 +:+ String c EmptyString)) in *.
    cbn [Insert_from].
    set (node1 := match GetChildNode node c0 with
                  | None => fst (InsertChildNode node c0 (TrieNode_new c0))
                  | Some _ => node
                  end).
    assert (∃ child, GetChildNode node1 c0 = Some child ∧
                     find_node (String c1 (rest1 +:+ String c EmptyString)) child = None)
      as (child & Hchild & Hc).
    { subst node1.
      change (find_node (String c0 ?k) node) with (GetChildNode node c0 ≫= find_node k) in Hnone.
      unfold GetChildNode in *.
      destruct (children_ node !! c0) as [ch|] eqn:Hc0.
      - exists ch. split; [by simpl|]. by simpl in Hnone.
      - unfold InsertChildNode. cbn [GetKeyChar TrieNode_new key_char_].
        rewrite decide_True by done. cbn [fst set_children children_].
        exists (TrieNode_new c0). rewrite lookup_insert_eq. split; [done|].
        by apply find_node_leaf. }
    rewrite Hchild. cbn [mbind option_bind].
    destruct (IH c1 child c T v Hc) as (child' & HI & n & Hn & Hend).
    rewrite HI. cbn [mbind option_bind].
    eexists. split; [done|]. exists n. split; [|done].
    change (find_node (String c0 ?k) ?x) with (GetChildNode x c0 ≫= find_node k).
    unfold GetChildNode, set_child, set_children. cbn [children_].
    by rewrite lookup_insert_eq.
Qed.

(** What [dfs] does to the subtree of [node]. *)
Lemma dfs_spec rest : ∀ node : Node,
  ∃ b node',
    dfs rest node = (b, node') ∧
    value_ node' = value_ node ∧
    (b = true <-> is_Some (find_node rest node)) ∧
    (b = false -> node' = node) ∧
    (∀ key', String.prefix key' rest = false ->
       find_node key' node' ≫= value_ = find_node key' node ≫= value_) ∧
    (∀ n, find_node rest node = Some n ->
       find_node rest node' ≫= value_ =
       if bool_decide (rest ≠ EmptyString ∧ children_ n = ∅) then None else value_ n).
Proof.
  induction rest as [|c1 rest' IH]; intros node.
  - cbn [dfs]. eexists true, _. split; [done|]. split_and!.
    + by destruct (IsEndNode node).
    + done.
    + done.
    + intros key' Hp. destruct key' as [|c0 r0]; [done|].
      rewrite (find_node_children _ node); [done|done|by destruct (IsEndNode node)].
    + intros n [= <-]. rewrite bool_decide_eq_false_2 by naive_solver.
      simpl. by destruct (IsEndNode node).
  - cbn [dfs]. unfold GetChildNode at 1.
    destruct (children_ node !! c1) as [child|] eqn:Hc.
    2:{ exists false, node. split_and!; try done.
        - split; [done|]. cbn [find_node]. unfold GetChildNode. rewrite Hc. by intros [? ?].
        - intros n. cbn [find_node]. unfold GetChildNode. by rewrite Hc. }
    destruct (IH child) as (ret & child' & Hd & Hv & Hret & Hfalse & Hframe & Hself).
    rewrite Hd.
    assert (find_node (String c1 rest') node = find_node rest' child) as Hfind.
    { cbn [find_node]. unfold GetChildNode. by rewrite Hc. }
    destruct ret; cbn [negb].
    2:{ exists false, (set_child node c1 child'). split_and!; try done.
        - rewrite Hfind. split; [done|]. intros Hs. by apply Hret in Hs.
        - intros _. rewrite (Hfalse eq_refl). by apply set_child_id.
        - intros key' _. rewrite (Hfalse eq_refl). by rewrite set_child_id.
        - intros n Hn. rewrite Hfind in Hn. assert (is_Some (find_node rest' child)) as Hs by done.
          by apply Hret in Hs. }
    assert (GetChildNode (set_child node c1 child') c1 = Some child') as Hget.
    { unfold GetChildNode, set_child, set_children. cbn [children_]. by rewrite lookup_insert_eq. }
    rewrite Hget.
    set (gone := negb (HasChildren child') && negb (IsEndNode child')).
    exists true, (if gone then RemoveChildNode (set_child node c1 child') c1
                  else set_child node c1 child').
    split; [by destruct gone|].
    assert (children_ (RemoveChildNode (set_child node c1 child') c1)
            = delete c1 (children_ node)) as Hdel.
    { unfold RemoveChildNode. rewrite decide_True.
      - unfold set_child, set_children. cbn [children_]. by rewrite delete_insert_eq.
      - unfold set_child, set_children. cbn [children_]. by rewrite lookup_insert_eq. }
    assert (gone = true -> children_ child' = ∅) as Hgone.
    { subst gone. unfold HasChildren. intros Hg. apply andb_true_iff in Hg as [Hg _].
      apply negb_true_iff, bool_decide_eq_false in Hg. by apply dec_stable. }
    split_and!.
    + destruct gone; [|done]. unfold RemoveChildNode. by destruct (decide _).
    + rewrite Hfind. split; [|done]. intros _. by apply Hret.
    + done.
    + intros key' Hp. destruct key' as [|c0 r0]; [done|].
      cbn [String.prefix] in Hp.
      change (find_node (String c0 ?k) ?x) with (GetChildNode x c0 ≫= find_node k).
      unfold GetChildNode.
      destruct (ascii_dec c0 c1) as [->|Hne].
      * rewrite Hc. cbn [mbind option_bind]. rewrite <- (Hframe r0 Hp).
        destruct gone eqn:Hg.
        -- rewrite Hdel, lookup_delete_eq. cbn [mbind option_bind].
           destruct r0 as [|c2 r2]; [by destruct rest'|].
           by rewrite find_node_leaf by (done || by apply Hgone).
        -- unfold set_child, set_children. cbn [children_]. by rewrite lookup_insert_eq.
      * destruct gone.
        -- rewrite Hdel. by rewrite lookup_delete_ne.
        -- unfold set_child, set_children. cbn [children_]. by rewrite lookup_insert_ne.
    + intros n Hn. rewrite Hfind in Hn. specialize (Hself n Hn).
      change (find_node (String c1 ?k) ?x) with (GetChildNode x c1 ≫= find_node k).
      unfold GetChildNode.
      destruct gone eqn:Hg.
      * rewrite Hdel, lookup_delete_eq. cbn [mbind option_bind].
        destruct rest' as [|c2 r2].
        -- simpl in Hn. injection Hn as <-.
           rewrite bool_decide_eq_true_2; [done|]. split; [done|].
           cbn [dfs] in Hd. injection Hd as <-.
           specialize (Hgone eq_refl). by destruct (IsEndNode child).
        -- rewrite find_node_leaf in Hself by (done || by apply Hgone).
           cbn [mbind option_bind] in Hself.
           destruct (bool_decide (String c2 r2 ≠ EmptyString ∧ children_ n = ∅)) eqn:Hb.
           ++ rewrite bool_decide_eq_true_2; [done|].
              apply bool_decide_eq_true in Hb. naive_solver.
           ++ rewrite bool_decide_eq_false_2; [done|].
              apply bool_decide_eq_false in Hb. naive_solver.
      * unfold set_child, set_children. cbn [children_]. rewrite lookup_insert_eq.
        cbn [mbind option_bind].
        destruct rest' as [|c2 r2].
        -- simpl in Hn. injection Hn as <-.
           cbn [dfs] in Hd. injection Hd as <-. cbn [find_node mbind option_bind].
           assert (children_ child ≠ ∅) as Hne.
           { subst gone. unfold HasChildren, IsEndNode in Hg.
             destruct (is_end_ child) eqn:He; cbn [SetEndNode children_ is_end_] in Hg.
             - rewrite andb_true_r in Hg.
               by apply negb_false_iff, bool_decide_eq_true in Hg.
             - rewrite He, andb_true_r in Hg.
               by apply negb_false_iff, bool_decide_eq_true in Hg. }
           rewrite bool_decide_eq_false_2 by naive_solver.
           by destruct (IsEndNode child).
        -- rewrite Hself.
           destruct (bool_decide (String c2 r2 ≠ EmptyString ∧ children_ n = ∅)) eqn:Hb.
           ++ rewrite bool_decide_eq_true_2; [done|].
              apply bool_decide_eq_true in Hb. naive_solver.
           ++ rewrite bool_decide_eq_false_2; [done|].
              apply bool_decide_eq_false in Hb. naive_solver.
Qed.

(** [GetValue] reads the value slot of the node the key leads to. *)
Lemma GetValue_find (t : Tree) key T :
  key ≠ EmptyString -> GetValue t key T = find_node key (root_ t) ≫= dynamic_cast T.
Proof. intros Hk. by destruct key. Qed.

Lemma dynamic_cast_value (o o' : option Node) T :
  o ≫= value_ = o' ≫= value_ -> o ≫= dynamic_cast T = o' ≫= dynamic_cast T.
Proof.
  destruct o as [n|], o' as [n'|]; simpl; unfold dynamic_cast; intros Hv;
    rewrite <- ?Hv, ?Hv; done.
Qed.

Lemma append_ne key c : key ≠ key +:+ String c EmptyString.
Proof.
  induction key as [|a key IH]; [done|]. intros [= Heq]. by apply IH.
Qed.

(** X1: An [Insert] that returns true is seen by [GetValue]: the key then
    yields the inserted value at the type it was inserted with, and no value
    at any other type. [Insert] never dereferences a null pointer. *)
Theorem Insert_then_GetValue (t : Tree) key T v :
  ∃ b t', Insert t key T v = Some (b, t') ∧
    (b = true -> ∀ T', GetValue t' key T' = if decide (T = T') then Some v else None).
Proof.
  destruct key as [|c rest].
  { by exists false, t. }
  cbn [Insert].
  destruct (Insert_from_spec rest c (root_ t) T v)
    as (b & root & HI & _ & _ & _ & Htrue & _).
  rewrite HI. cbn [mbind option_bind]. eexists _, _. split; [done|].
  intros Hb T'. destruct (Htrue Hb) as (n & Hn & Hval & _).
  rewrite GetValue_find by done. cbn [root_]. rewrite Hn. cbn [mbind option_bind].
  unfold dynamic_cast. by rewrite Hval.
Qed.

(** X2: [Insert] leaves every other key as it was: whatever it returns,
    [GetValue] of a different key gives what it gave before. *)
Theorem Insert_keeps_other_keys (t : Tree) key T v key' T' :
  key' ≠ key ->
  ∃ b t', Insert t key T v = Some (b, t') ∧ GetValue t' key' T' = GetValue t key' T'.
Proof.
  intros Hne. destruct key as [|c rest].
  { by exists false, t. }
  cbn [Insert].
  destruct (Insert_from_spec rest c (root_ t) T v)
    as (b & root & HI & _ & _ & Hframe & _).
  rewrite HI. cbn [mbind option_bind]. eexists _, _. split; [done|].
  destruct key' as [|c0 r0]; [done|].
  rewrite !GetValue_find by done. cbn [root_].
  by apply dynamic_cast_value, Hframe.
Qed.

(** X3: [Insert] returns false exactly when the key is empty or the walk of
    the key ends in a node that is flagged as the end of a key; in that case
    the trie is not changed. *)
Theorem Insert_refused (t : Tree) key T v :
  ∃ b t', Insert t key T v = Some (b, t') ∧
    (b = false <->
       key = EmptyString ∨ ∃ n, find_node key (root_ t) = Some n ∧ IsEndNode n = true) ∧
    (b = false -> t' = t).
Proof.
  destruct key as [|c rest].
  { exists false, t. split_and!; try done. split; [by left|done]. }
  cbn [Insert].
  destruct (Insert_from_spec rest c (root_ t) T v)
    as (b & root & HI & _ & _ & _ & _ & Hfalse & Hiff).
  rewrite HI. cbn [mbind option_bind]. eexists _, _. split; [done|]. split.
  - rewrite Hiff. split; [by right|]. by intros [?|?].
  - intros Hb. rewrite (Hfalse Hb). by destruct t.
Qed.

(** X4: A key cannot be inserted twice in a row: whatever the first [Insert]
    returned, a second [Insert] of the same key right after it returns false
    and changes nothing, for any type and value. *)
Theorem Insert_twice (t : Tree) key T v T' v' :
  ∃ b t1, Insert t key T v = Some (b, t1) ∧ Insert t1 key T' v' = Some (false, t1).
Proof.
  destruct key as [|c rest].
  { by exists false, t. }
  cbn [Insert].
  destruct (Insert_from_spec rest c (root_ t) T v)
    as (b & root & HI & _ & _ & _ & Htrue & Hfalse & Hiff).
  rewrite HI. cbn [mbind option_bind root_]. eexists _, _. split; [done|].
  cbn [Insert root_].
  destruct (Insert_from_spec rest c root T' v')
    as (b2 & root2 & HI2 & _ & _ & _ & _ & Hfalse2 & Hiff2).
  rewrite HI2. cbn [mbind option_bind].
  assert (b2 = false) as ->.
  { apply Hiff2. destruct b.
    - destruct (Htrue eq_refl) as (n & Hn & _ & Hend). by exists n.
    - rewrite (Hfalse eq_refl). by apply Hiff. }
  by rewrite (Hfalse2 eq_refl).
Qed.

(** X5: A key that gets its first child is open again. When no node exists
    yet for [key] followed by [c], inserting that longer key succeeds and
    leaves what [GetValue] finds under [key] as it was; but any later
    [Insert] of [key] returns true and its value replaces the one stored
    under [key]. *)
Theorem Insert_child_reopens_key (t : Tree) key c T v :
  key ≠ EmptyString ->
  find_node (key +:+ String c EmptyString) (root_ t) = None ->
  ∃ t1, Insert t (key +:+ String c EmptyString) T v = Some (true, t1) ∧
        (∀ T0, GetValue t1 key T0 = GetValue t key T0) ∧
        ∀ T' v', ∃ t2, Insert t1 key T' v' = Some (true, t2) ∧
                       GetValue t2 key T' = Some v'.
Proof.
  intros Hk Hnone. destruct key as [|c0 rest0]; [done|].
  change (String c0 rest0 +:+ String c EmptyString)
    with (String c0 (rest0 +:+ String c EmptyString)) in *.
  cbn [Insert].
  destruct (Insert_from_child rest0 c0 (root_ t) c T v Hnone) as (root & HI & n & Hn & Hend).
  rewrite HI. cbn [mbind option_bind]. eexists. split; [done|]. split.
  - intros T0.
    destruct (Insert_from_spec (rest0 +:+ String c EmptyString) c0 (root_ t) T v)
      as (b & root' & HI' & _ & _ & Hframe & _).
    rewrite HI in HI'. injection HI' as <- <-.
    rewrite !GetValue_find by done. cbn [root_].
    apply dynamic_cast_value, Hframe.
    intros Heq. by apply (append_ne (String c0 rest0) c).
  - intros T' v'. cbn [Insert root_].
    destruct (Insert_from_spec rest0 c0 root T' v')
      as (b2 & root2 & HI2 & _ & _ & _ & Htrue2 & _ & Hiff2).
    rewrite HI2. cbn [mbind option_bind].
    assert (b2 = true) as ->.
    { destruct b2; [done|]. destruct (proj1 Hiff2 eq_refl) as (n' & Hn' & Hend').
      rewrite Hn in Hn'. injection Hn' as <-. congruence. }
    eexists. split; [done|].
    destruct (Htrue2 eq_refl) as (n2 & Hn2 & Hval2 & _).
    rewrite GetValue_find by done. cbn [root_]. rewrite Hn2. cbn [mbind option_bind].
    unfold dynamic_cast. rewrite Hval2. by rewrite decide_True.
Qed.

(** X6: [Remove] returns true exactly when the key is not empty and a node
    exists for every character of it, whether or not a value was inserted
    under the key; when it returns false the trie is not changed. *)
Theorem Remove_returns (t : Tree) key :
  ((Remove t key).1 = true <->
     key ≠ EmptyString ∧ is_Some (find_node key (root_ t))) ∧
  ((Remove t key).1 = false -> (Remove t key).2 = t).
Proof.
  destruct key as [|c rest].
  { split; [|done]. split; [done|]. by intros [? _]. }
  cbn [Remove find_node]. unfold GetChildNode.
  destruct (children_ (root_ t) !! c) as [child|] eqn:Hc.
  2:{ split; [|done]. split; [done|]. intros [_ [? ?]]. done. }
  destruct (dfs_spec rest child) as (b & child' & Hd & _ & Hret & Hfalse & _).
  rewrite Hd. cbn [fst snd mbind option_bind]. split.
  - rewrite Hret. naive_solver.
  - intros Hb. rewrite (Hfalse Hb), set_child_id by done. by destruct t.
Qed.

(** X7: [Remove] leaves alone every key that is not a prefix of the removed
    key: [GetValue] of such a key gives what it gave before. *)
Theorem Remove_keeps_other_keys (t : Tree) key key' T :
  String.prefix key' key = false ->
  GetValue (Remove t key).2 key' T = GetValue t key' T.
Proof.
  intros Hp. destruct key as [|c rest]; [done|].
  destruct key' as [|c0 r0]; [done|].
  cbn [Remove]. unfold GetChildNode.
  destruct (children_ (root_ t) !! c) as [child|] eqn:Hc; [|done].
  destruct (dfs_spec rest child) as (b & child' & Hd & _ & _ & _ & Hframe & _).
  rewrite Hd. cbn [snd]. rewrite !GetValue_find by done. cbn [root_].
  apply dynamic_cast_value.
  change (find_node (String c0 ?k) ?x) with (GetChildNode x c0 ≫= find_node k).
  unfold GetChildNode, set_child, set_children. cbn [children_].
  cbn [String.prefix] in Hp.
  destruct (ascii_dec c0 c) as [->|Hne].
  - rewrite lookup_insert_eq, Hc. cbn [mbind option_bind]. by apply Hframe.
  - by rewrite lookup_insert_ne.
Qed.

(** X8: What [GetValue] finds under a key after the key was removed. When
    the node [n] of the key has no children and the key has two characters
    or more, the node is gone and [GetValue] fails. Otherwise (a key of one
    character, or a node with children) the node stays and keeps its value:
    [GetValue] gives what it gave before the [Remove]. *)
Theorem Remove_then_GetValue (t : Tree) key n T :
  key ≠ EmptyString ->
  find_node key (root_ t) = Some n ->
  GetValue (Remove t key).2 key T =
  if bool_decide (2 ≤ String.length key ∧ children_ n = ∅) then None else GetValue t key T.
Proof.
  intros Hk Hn. destruct key as [|c rest]; [done|].
  rewrite !GetValue_find by done. rewrite Hn.
  cbn [Remove]. cbn [find_node] in Hn. unfold GetChildNode in *.
  destruct (children_ (root_ t) !! c) as [child|] eqn:Hc; [|done].
  cbn [mbind option_bind] in Hn.
  destruct (dfs_spec rest child) as (b & child' & Hd & _ & _ & _ & _ & Hself).
  rewrite Hd. cbn [snd root_].
  change (find_node (String c ?k) ?x) with (GetChildNode x c ≫= find_node k).
  unfold GetChildNode, set_child, set_children. cbn [children_].
  rewrite lookup_insert_eq. cbn [mbind option_bind].
  specialize (Hself n Hn).
  assert (bool_decide (2 ≤ String.length (String c rest) ∧ children_ n = ∅)
          = bool_decide (rest ≠ EmptyString ∧ children_ n = ∅)) as ->.
  { apply bool_decide_ext. destruct rest; simpl; [|split; intros [? ?]; split; (done || lia)].
    split; intros [? ?]; (done || lia). }
  destruct (find_node rest child') as [m|] eqn:Hm; cbn [mbind option_bind] in *.
  - unfold dynamic_cast. rewrite Hself.
    by destruct (bool_decide (rest ≠ EmptyString ∧ children_ n = ∅)).
  - destruct (bool_decide (rest ≠ EmptyString ∧ children_ n = ∅)); [done|].
    unfold dynamic_cast. by rewrite <- Hself.
Qed.

End Facts.

Import Scenario.

(** X2, witness: the trie holds ["ab"]; inserting ["ac"] leaves what
    [GetValue] gives for ["ab"]. *)
Lemma Insert_keeps_other_keys_witness :
  ∃ b t', Insert (trie_of [("ab", 1%Z)]) "ac" TInt (VInt 2) = Some (b, t') ∧
          GetValue t' "ab" TInt = GetValue (trie_of [("ab", 1%Z)]) "ab" TInt.
Proof.
  apply (Insert_keeps_other_keys (trie_of [("ab", 1%Z)]) "ac" TInt (VInt 2) "ab" TInt).
  discriminate.
Defined.

(** X5, witness: the trie holds ["a"]; after ["ab"] is inserted, ["a"] can be
    inserted again and gets the new value. *)
Lemma Insert_child_reopens_key_witness :
  ∃ t1, Insert (trie_of [("a", 1%Z)]) "ab" TInt (VInt 2) = Some (true, t1) ∧
        GetValue t1 "a" TInt = Some (VInt 1) ∧
        ∃ t2, Insert t1 "a" TString (VString "x") = Some (true, t2) ∧
              GetValue t2 "a" TString = Some (VString "x").
Proof.
  destruct (Insert_child_reopens_key (trie_of [("a", 1%Z)]) "a" "b"%char TInt (VInt 2))
    as (t1 & Hins & Hget & Hagain); [discriminate|vm_compute; reflexivity|].
  exists t1. split; [exact Hins|]. split; [rewrite Hget; vm_compute; reflexivity|].
  apply Hagain.
Defined.

(** X7, witness: the trie holds ["ab"] and ["ac"]; removing ["ab"] leaves
    what [GetValue] gives for ["ac"]. *)
Lemma Remove_keeps_other_keys_witness :
  GetValue (Remove (trie_of [("ab", 1%Z); ("ac", 2%Z)]) "ab").2 "ac" TInt
  = GetValue (trie_of [("ab", 1%Z); ("ac", 2%Z)]) "ac" TInt.
Proof.
  apply (Remove_keeps_other_keys (trie_of [("ab", 1%Z); ("ac", 2%Z)]) "ab" "ac" TInt).
  vm_compute. reflexivity.
Defined.

(** X8, witness: the trie holds ["ab"], whose node has no children; after
    [Remove] the key is gone. *)
Lemma Remove_then_GetValue_witness :
  GetValue (Remove (trie_of [("ab", 1%Z)]) "ab").2 "ab" TInt = None.
Proof.
  rewrite (Remove_then_GetValue (trie_of [("ab", 1%Z)]) "ab"
             (mkNode "b"%char true (Some (TInt, VInt 1)) ∅) TInt);
    [vm_compute; reflexivity|discriminate|vm_compute; reflexivity].
Defined.

End TrieFacts.

(** * More facts: the extendible hash table as its callers see it *)
Module ExtHashMore.
Import ExtHash ExtHashFacts.

Section Facts.
Context {K V : Type} `{EqDecision K}.
Variable hash : K -> nat.

#[local] Abbreviation Table := (@ExtendibleHashTable K V).
#[local] Abbreviation Bucket := (@ExtHash.Bucket K V).
#[local] Abbreviation wf := (ExtHash.wf hash).
#[local] Abbreviation reachable := (ExtHash.reachable hash).

(** X9: The shape of every table the program can build: the directory has
    [2 ^ global_depth] slots; every slot holds a bucket whose local depth is
    at most the global depth; two slots hold the same bucket exactly when
    they agree on the low local-depth bits; and [Find] never reads outside
    the directory. *)
Theorem reachable_shape (t : Table) :
  reachable t ->
  length (dir_ t) = 2 ^ GetGlobalDepth t ∧
  (∀ i, i < 2 ^ GetGlobalDepth t ->
     ∃ d, GetLocalDepthInternal t i = Some d ∧ d ≤ GetGlobalDepth t ∧
          ∀ j, j < 2 ^ GetGlobalDepth t ->
               GetIndexBucket t j = GetIndexBucket t i <-> j mod 2 ^ d = i mod 2 ^ d) ∧
  ∀ key, ∃ r, Find hash t key = Some r.
Proof.
  intros Hr. pose proof (reachable_wf hash t Hr) as Hwf. pose proof Hwf as [Hlen Hs].
  unfold GetGlobalDepth. split_and!; [done| |].
  - intros i Hi. rewrite <- Hlen in Hi.
    destruct (lookup_lt_is_Some_2 _ _ Hi) as [h Hh].
    destruct (Hs _ _ Hh) as (b & Hb & Hd & _ & _ & _ & _ & Hshare).
    exists (depth_ b). unfold GetLocalDepthInternal, GetIndexBucket, bucket_at.
    rewrite Hh. cbn [mbind option_bind]. rewrite Hb. split_and!; [done|done|].
    intros j Hj. rewrite <- Hlen in Hj. by apply Hshare.
  - intros key. destruct (wf_slot hash t key Hwf) as (h & b & Hh & Hb & _).
    rewrite (Find_slot hash t key h b Hh Hb). by eexists.
Qed.

(** X10: [Remove] on a table the program can build. It returns true exactly
    when [Find] found the key; afterwards [Find] of the key returns false and
    [Find] of every other key returns what it returned before. The directory,
    the global depth and the bucket count stay as they were: buckets are
    never merged and the directory never shrinks. *)
Theorem Remove_then_Find (t : Table) key :
  reachable t ->
  ∃ r t', Remove hash t key = Some (r, t') ∧
    (r = true <-> ∃ v, Find hash t key = Some (Some v)) ∧
    Find hash t' key = Some None ∧
    (∀ k, k ≠ key -> Find hash t' k = Find hash t k) ∧
    dir_ t' = dir_ t ∧
    GetGlobalDepth t' = GetGlobalDepth t ∧
    GetNumBuckets t' = GetNumBuckets t.
Proof.
  intros Hr. pose proof (reachable_wf hash t Hr) as Hwf.
  destruct (Remove_spec hash t key Hwf) as (r & t' & Hrm & _ & Hf & Hframe).
  exists r, t'. split_and!; [done| |done|done|..].
  - destruct (wf_slot hash t key Hwf) as (h & b & Hh & Hb & _).
    rewrite (Find_slot hash t key h b Hh Hb).
    unfold Remove, GetIndexBucket, bucket_at in Hrm. rewrite Hh in Hrm.
    cbn [mbind option_bind] in Hrm. rewrite Hb in Hrm. cbn [mbind option_bind] in Hrm.
    unfold Bucket_Remove in Hrm. unfold Bucket_Find.
    destruct (list_erase_key key (list_ b)) as [l'|] eqn:He.
    + injection Hrm as <- _. split; [intros _|done].
      destruct (list_find_key key (list_ b)) as [v|] eqn:Hv; [by exists v|].
      apply (list_find_key_None hash) in Hv. apply (list_erase_key_None hash) in Hv. congruence.
    + injection Hrm as <- _. split; [done|]. intros [v Hv].
      apply (list_erase_key_None hash) in He. apply (list_find_key_None hash) in He. congruence.
  - unfold Remove in Hrm.
    destruct (GetIndexBucket t (IndexOf hash t key)) as [h|]; [|done].
    cbn [mbind option_bind] in Hrm. destruct (bucket_at t h) as [b|]; [|done].
    cbn [mbind option_bind] in Hrm. destruct (Bucket_Remove b key) as [r0 b'].
    by injection Hrm as _ <-.
  - unfold Remove in Hrm.
    destruct (GetIndexBucket t (IndexOf hash t key)) as [h|]; [|done].
    cbn [mbind option_bind] in Hrm. destruct (bucket_at t h) as [b|]; [|done].
    cbn [mbind option_bind] in Hrm. destruct (Bucket_Remove b key) as [r0 b'].
    by injection Hrm as _ <-.
  - unfold Remove in Hrm.
    destruct (GetIndexBucket t (IndexOf hash t key)) as [h|]; [|done].
    cbn [mbind option_bind] in Hrm. destruct (bucket_at t h) as [b|]; [|done].
    cbn [mbind option_bind] in Hrm. destruct (Bucket_Remove b key) as [r0 b'].
    by injection Hrm as _ <-.
Qed.

(** X11: [Insert] on a table the program can build has two outcomes only: it is
    still splitting when the fuel runs out, or it returns. It never reads
    outside the directory or through a dangling bucket pointer. When it
    returns, [Find] of the key gives the value, [Find] of every other key
    gives what it gave before, the bucket capacity is unchanged, and neither
    the global depth nor the bucket count went down. *)
Theorem Insert_outcomes (t : Table) fuel key value :
  reachable t ->
  Insert hash fuel t key value = Timeout ∨
  ∃ t', Insert hash fuel t key value = Ok t' ∧
        Find hash t' key = Some (Some value) ∧
        (∀ k, k ≠ key -> Find hash t' k = Find hash t k) ∧
        bucket_size_ t' = bucket_size_ t ∧
        GetGlobalDepth t ≤ GetGlobalDepth t' ∧
        GetNumBuckets t ≤ GetNumBuckets t'.
Proof.
  intros Hr. pose proof (reachable_wf hash t Hr) as Hwf.
  destruct (Insert hash fuel t key value) as [t'| |] eqn:Hins.
  - right. exists t'. split; [done|].
    destruct (Insert_Ok_spec hash fuel t t' key value Hwf Hins) as (_ & G1 & G2 & G3 & G4 & G5).
    by split_and!.
  - by destruct (Insert_no_fault hash fuel t key value Hwf).
  - by left.
Qed.

(** X12: [Insert] splits only when it has to. When the bucket of the key holds
    fewer than [bucket_size_] pairs, one round of the loop stores the pair:
    the directory, the global depth and the bucket count are unchanged. A key
    already in the bucket keeps its place and the bucket its length; a new
    key is appended. *)
Theorem Insert_without_split (t : Table) fuel key value :
  reachable t ->
  length (target_keys hash t key) < bucket_size_ t ->
  ∃ t', Insert hash (S fuel) t key value = Ok t' ∧
        dir_ t' = dir_ t ∧
        GetGlobalDepth t' = GetGlobalDepth t ∧
        GetNumBuckets t' = GetNumBuckets t ∧
        target_keys hash t' key =
          (if decide (key ∈ target_keys hash t key) then target_keys hash t key
           else target_keys hash t key ++ [key]).
Proof.
  intros Hr Hlen. pose proof (reachable_wf hash t Hr) as Hwf.
  destruct (wf_slot hash t key Hwf) as (h & b & Hh & Hb & Hok).
  pose proof Hok as (_ & Hsz & _).
  rewrite (target_keys_slot hash t key h b Hh Hb) in *.
  rewrite length_fmap in Hlen.
  assert (IsFull b = false) as Hnf.
  { unfold IsFull. apply bool_decide_eq_false. lia. }
  destruct (Bucket_Insert_not_full hash b key value Hnf) as (b' & Hbi & _ & _ & _ & _ & Hkeys).
  rewrite (Insert_unfold hash fuel t key value h b Hh Hb), Hbi.
  eexists. split; [done|]. split_and!; [done..|].
  rewrite (target_keys_slot hash (set_bucket t h b') key h b').
  - destruct Hkeys as [[Hin ->]|[Hnin ->]].
    + by rewrite decide_True.
    + by rewrite decide_False.
  - done.
  - simpl. apply list_lookup_insert_eq. by eapply lookup_lt_Some.
Qed.

(** X13: When [Insert] cannot return. If [bucket_size_] distinct keys that are
    in the table all have the hash of [key], the bucket of [key] is full
    however often it is split, and [Insert(key, value)] is still splitting
    after any number of rounds. [key] may be one of these keys: a key that
    is present is not overwritten in a full bucket, it makes the call run
    for ever. *)
Theorem Insert_diverges (t : Table) (ks : list K) key value :
  reachable t ->
  NoDup ks -> length ks = bucket_size_ t ->
  (∀ k, k ∈ ks -> hash k = hash key ∧ ∃ v, Find hash t k = Some (Some v)) ->
  ∀ fuel, Insert hash fuel t key value = Timeout.
Proof.
  intros Hr Hnd Hlen Hks fuel. pose proof (reachable_wf hash t Hr) as Hwf.
  by apply (Insert_stuck hash ks).
Qed.

(** ** The bucket count *)
#[local] Abbreviation all_used := (@ExtHashInv.all_used K V).

Lemma redistribute_frame (l : list (K * V)) : ∀ t t' : Table,
  redistribute hash l t = Some t' ->
  length (heap_ t') = length (heap_ t) ∧ dir_ t' = dir_ t ∧ num_buckets_ t' = num_buckets_ t.
Proof.
  induction l as [|[k v] l IH]; intros t t' Hr; simpl in Hr.
  - by injection Hr as <-.
  - destruct (GetIndexBucket t (IndexOf hash t k)) as [h|]; [|done].
    cbn [mbind option_bind] in Hr. destruct (bucket_at t h) as [b|]; [|done].
    cbn [mbind option_bind] in Hr. destruct (IH _ _ Hr) as (G1 & G2 & G3).
    simpl in G1. rewrite length_insert in G1. done.
Qed.

(** The table one round of the loop of [Insert] leaves, before the saved
    pairs are put back. *)
Lemma split_all_used (t t' : Table) key h b :
  wf t -> all_used t ->
  dir_ t !! IndexOf hash t key = Some h -> heap_ t !! h = Some b ->
  split hash t key h = Some t' -> all_used t'.
Proof.
  intros Hwf [Hnum Huse] Hh Hb Hsp. pose proof Hwf as [Hlen Hs].
  destruct (Hs _ _ Hh) as (b0 & Hb0 & Hok). assert (b0 = b) by congruence; subst b0.
  pose proof Hok as (H1 & H2 & H3 & H4 & H5 & H6).
  pose proof (lookup_lt_Some _ _ _ Hb) as Hhlt.
  set (b1 := mkBucket (size_ b) (depth_ b) ([] : list (K * V))).
  set (t1 := set_bucket t h b1).
  assert (wf t1) as Hwf1.
  { apply (wf_set_bucket hash t h b b1); [done..|simpl; lia|constructor|]. intros; constructor. }
  assert (heap_ t1 !! h = Some b1) as Hb1 by (simpl; by apply list_lookup_insert_eq).
  set (t2 := if decide (depth_ b = global_depth_ t1) then grow t1 else t1).
  assert (wf t2 ∧ dir_ t2 !! IndexOf hash t2 key = Some h ∧ heap_ t2 !! h = Some b1 ∧
          depth_ b1 < global_depth_ t2 ∧ num_buckets_ t2 = num_buckets_ t ∧
          length (heap_ t2) = length (heap_ t) ∧
          (∀ i x, dir_ t !! i = Some x -> dir_ t2 !! i = Some x))
    as (Hwf2 & Hh2 & Hb2 & Hd2 & Hnb2 & Hhl2 & Hdir2).
  { subst t2. change (global_depth_ t1) with (global_depth_ t).
    destruct (decide (depth_ b = global_depth_ t)) as [Heq|Hne].
    - split_and!; [by apply wf_grow| |done|simpl; lia|done| |].
      + rewrite IndexOf_grow by apply Hwf1. done.
      + simpl. by rewrite length_insert.
      + intros i x Hi. simpl. by apply lookup_app_l_Some.
    - split_and!; try done.
      + simpl. lia.
      + simpl. by rewrite length_insert. }
  assert (split hash t key h =
          redistribute hash (list_ b) (repointed_table t2 h b1 (hash key mod 2 ^ depth_ b1)))
    as Hsplit.
  { unfold split, bucket_at. rewrite Hb. cbn [mbind option_bind].
    fold b1. fold t1. unfold GetLocalDepthInternal, GetIndexBucket, bucket_at.
    assert (dir_ t1 !! IndexOf hash t1 key = Some h) as -> by done.
    cbn [mbind option_bind]. rewrite Hb1. cbn [mbind option_bind]. fold t2.
    change (depth_ b1) with (depth_ b). fold t2. rewrite Hb2. cbn [mbind option_bind].
    rewrite land_mask. by rewrite (repoint_loop hash t2 h b1 key Hwf2 Hb2 Hd2). }
  rewrite Hsplit in Hsp. clear Hsplit.
  destruct (redistribute_frame _ _ _ Hsp) as (G1 & G2 & G3).
  set (first := hash key mod 2 ^ depth_ b1) in *. set (d := depth_ b1) in *.
  assert (first < 2 ^ d) as Hfirst by apply low_lt.
  pose proof Hwf2 as [Hlen2 Hs2].
  destruct (Hs2 _ _ Hh2) as (b2 & Hb2' & Hok2). assert (b2 = b1) by congruence; subst b2.
  assert (∀ j, j < length (dir_ t2) -> dir_ t2 !! j = Some h <-> j mod 2 ^ d = first) as Hshare.
  { intros j Hj. destruct Hok2 as (_ & _ & _ & _ & _ & Hsh). rewrite (Hsh j Hj).
    subst first d. rewrite IndexOf_spec, low_low by lia. done. }
  assert (2 ^ S d ≤ length (dir_ t2)) as Hpow.
  { rewrite Hlen2. apply Nat.pow_le_mono_r; lia. }
  rewrite Nat.pow_succ_r' in Hpow.
  split.
  { rewrite G3, G1. unfold repointed_table. simpl.
    rewrite length_app, length_insert. simpl. lia. }
  intros h' Hh'. rewrite G2. rewrite G1 in Hh'.
  unfold repointed_table in Hh'. simpl in Hh'.
  rewrite length_app, length_insert in Hh'. simpl in Hh'.
  apply list_elem_of_lookup.
  destruct (decide (h' = length (heap_ t2))) as [->|Hne].
  - exists (first + 2 ^ d). rewrite repointed_table_lookup.
    destruct (lookup_lt_is_Some_2 (dir_ t2) (first + 2 ^ d)) as [x Hx]; [lia|].
    rewrite Hx. cbn [fmap option_fmap option_map].
    rewrite decide_True; [done|]. by apply moved_first_plus.
  - assert (h' < length (heap_ t)) as Hlt by lia.
    destruct (decide (h' = h)) as [->|Hneh].
    + exists first. rewrite repointed_table_lookup.
      assert (dir_ t2 !! first = Some h) as ->.
      { apply Hshare; [lia|]. apply Nat.mod_small. lia. }
      cbn [fmap option_fmap option_map]. rewrite decide_False; [done|].
      intros [_ Hm]. apply Hm. apply Nat.mod_small. rewrite Nat.pow_succ_r'. fold d. lia.
    + apply Huse in Hlt. apply list_elem_of_lookup in Hlt as [i Hi].
      exists i. rewrite repointed_table_lookup. rewrite (Hdir2 _ _ Hi).
      cbn [fmap option_fmap option_map]. rewrite decide_False; [done|].
      intros [Hm _]. apply Hneh.
      assert (dir_ t2 !! i = Some h) as Hih.
      { apply Hshare; [|done]. apply (lookup_lt_Some _ _ h'). by apply Hdir2. }
      rewrite (Hdir2 _ _ Hi) in Hih. congruence.
Qed.

Lemma Insert_all_used n : ∀ (t t' : Table) key value,
  wf t -> all_used t -> Insert hash n t key value = Ok t' -> all_used t'.
Proof.
  induction n as [|n IH]; intros t t' key value Hwf Hu Hins; [done|].
  destruct (wf_slot hash t key Hwf) as (h & b & Hh & Hb & Hok).
  rewrite (Insert_unfold hash n t key value h b Hh Hb) in Hins.
  destruct (Bucket_Insert b key value) as [[] b'] eqn:Hbi.
  - injection Hins as <-. destruct Hu as [Hn Hu]. split; simpl.
    + by rewrite length_insert.
    + intros h'. rewrite length_insert. apply Hu.
  - destruct (split_spec hash t key h b Hwf Hh Hb) as (t1 & Hsp & Hwf1 & _).
    rewrite Hsp in Hins. apply (IH t1 t' key value); [done| |done].
    by apply (split_all_used t t1 key h b).
Qed.

Lemma reachable_all_used (t : Table) : reachable t -> all_used t.
Proof.
  induction 1 as [B|t fuel key value t' Hr IH Hins|t key r t' Hr IH Hrm].
  - split; [done|]. simpl. intros h Hh. assert (h = 0) as -> by lia. by left.
  - apply (Insert_all_used fuel t t' key value); [by apply reachable_wf|done|done].
  - unfold Remove in Hrm.
    destruct (GetIndexBucket t (IndexOf hash t key)) as [h|]; [|done].
    cbn [mbind option_bind] in Hrm. destruct (bucket_at t h) as [b|]; [|done].
    cbn [mbind option_bind] in Hrm. destruct (Bucket_Remove b key) as [r0 b'].
    injection Hrm as _ <-. destruct IH as [Hn Hu]. split; simpl.
    + by rewrite length_insert.
    + intros h'. rewrite length_insert. apply Hu.
Qed.

(** X14: [GetNumBuckets] is the number of distinct buckets the directory
    points to, on every table the program can build: each split adds one
    bucket and gives it a slot, and no bucket ever loses its last slot. *)
Theorem GetNumBuckets_counts_directory (t : Table) :
  reachable t -> GetNumBuckets t = length (remove_dups (dir_ t)).
Proof.
  intros Hr. pose proof (reachable_wf hash t Hr) as Hwf.
  destruct (reachable_all_used t Hr) as [Hn Hu]. unfold GetNumBuckets. rewrite Hn.
  assert (remove_dups (dir_ t) ≡ₚ seq 0 (length (heap_ t))) as Hp.
  { apply NoDup_Permutation.
    - apply NoDup_remove_dups.
    - apply NoDup_seq.
    - intros h. rewrite elem_of_remove_dups, elem_of_seq. split.
      + intros Hin. apply list_elem_of_lookup in Hin as [i Hi].
        pose proof (wf_handle_lt hash t i h Hwf Hi). lia.
      + intros [_ Hlt]. by apply Hu. }
  rewrite Hp. by rewrite length_seq.
Qed.

(** ** Room in a bucket *)

(** [Remove] leaves no bucket longer than it was. *)
Lemma Remove_room (t t' : Table) key r k :
  wf t -> Remove hash t key = Some (r, t') ->
  bucket_size_ t' = bucket_size_ t ∧
  length (target_keys hash t' k) ≤ length (target_keys hash t k).
Proof.
  intros Hwf. destruct (wf_slot hash t key Hwf) as (h & b & Hh & Hb & Hok).
  pose proof Hok as (_ & _ & _ & Hnd & _).
  unfold Remove, GetIndexBucket, bucket_at. rewrite Hh. simpl. rewrite Hb. simpl.
  destruct (Bucket_Remove b key) as [r0 b'] eqn:Hbr. intros [= <- <-]. split; [done|].
  destruct (wf_slot hash t k Hwf) as (h' & b1 & Hh' & Hb1 & _).
  rewrite (target_keys_slot hash t k h' b1 Hh' Hb1).
  destruct (decide (h' = h)) as [->|Hne].
  - assert (b1 = b) by congruence. subst b1.
    rewrite (target_keys_slot hash (set_bucket t h b') k h b'); [|done|].
    2:{ simpl. apply list_lookup_insert_eq. by eapply lookup_lt_Some. }
    rewrite !length_fmap. unfold Bucket_Remove in Hbr.
    destruct (list_erase_key key (list_ b)) as [l'|] eqn:Hl.
    + injection Hbr as <- <-. simpl.
      destruct (list_erase_key_Some hash key (list_ b) l' Hnd Hl) as (_ & _ & ? & _). lia.
    + by injection Hbr as <- <-.
  - rewrite (target_keys_slot hash (set_bucket t h b') k h' b1); [done|done|].
    simpl. by rewrite list_lookup_insert_ne.
Qed.

(** With room in the bucket of the key, one round of the loop is enough. *)
Lemma Insert_room_returns (t : Table) key value m :
  wf t -> length (target_keys hash t key) < bucket_size_ t ->
  ∃ t', Insert hash (S m) t key value = Ok t'.
Proof.
  intros Hwf Hroom. destruct (wf_slot hash t key Hwf) as (h & b & Hh & Hb & _).
  rewrite (target_keys_slot hash t key h b Hh Hb) in Hroom.
  destruct (Insert_returns hash (depth_ b) key value m t h b Hwf Hh Hb) as (t' & Hins & _).
  - lia.
  - eapply Nat.le_lt_trans; [|exact Hroom]. apply length_filter.
  - by exists t'.
Qed.

End Facts.

Import Scenario.

Lemma half_bucket_reachable : ExtHash.reachable hash_int half_bucket.
Proof.
  apply (reachable_Insert hash_int (ExtHash.new 2) 1 0%Z 10%Z); [|vm_compute; reflexivity].
  apply reachable_new.
Qed.

Lemma three_keys_reachable : ExtHash.reachable hash_int three_keys.
Proof.
  apply (reachable_Insert hash_int full_bucket fuel 2%Z 12%Z);
    [apply full_bucket_reachable|vm_compute; reflexivity].
Qed.

(** X9, witness: the table after a split, with global depth 1. *)
Lemma reachable_shape_witness :
  length (dir_ three_keys) = 2 ^ GetGlobalDepth three_keys ∧
  (∀ i, i < 2 ^ GetGlobalDepth three_keys ->
     ∃ d, GetLocalDepthInternal three_keys i = Some d ∧ d ≤ GetGlobalDepth three_keys ∧
          ∀ j, j < 2 ^ GetGlobalDepth three_keys ->
               GetIndexBucket three_keys j = GetIndexBucket three_keys i
               <-> j mod 2 ^ d = i mod 2 ^ d) ∧
  ∀ key, ∃ r, Find hash_int three_keys key = Some r.
Proof. apply (reachable_shape hash_int three_keys). exact three_keys_reachable. Defined.

(** X10, witness: the key 2 is removed from the table that holds 0, 1 and 2. *)
Lemma Remove_then_Find_witness :
  ∃ t', Remove hash_int three_keys 2%Z = Some (true, t') ∧
        Find hash_int t' 2%Z = Some None ∧
        Find hash_int t' 0%Z = Some (Some 10%Z) ∧
        GetNumBuckets t' = 2.
Proof.
  destruct (Remove_then_Find hash_int three_keys 2%Z three_keys_reachable)
    as (r & t' & Hrem & Hr & Hgone & Hother & _ & _ & Hnb).
  assert (r = true) as -> by (apply Hr; exists 12%Z; vm_compute; reflexivity).
  exists t'. split; [exact Hrem|]. split; [exact Hgone|]. split.
  - rewrite Hother by discriminate. vm_compute. reflexivity.
  - rewrite Hnb. vm_compute. reflexivity.
Defined.

(** X11, witness: [Insert(2, 12)] on the full bucket that holds 0 and 1. *)
Lemma Insert_outcomes_witness :
  ∃ t', Insert hash_int fuel full_bucket 2%Z 12%Z = Ok t' ∧
        Find hash_int t' 2%Z = Some (Some 12%Z) ∧
        Find hash_int t' 1%Z = Some (Some 11%Z).
Proof.
  destruct (Insert_outcomes hash_int full_bucket fuel 2%Z 12%Z full_bucket_reachable)
    as [Hout|(t' & Hins & Hfind & Hother & _)]; [vm_compute in Hout; discriminate|].
  exists t'. split; [exact Hins|]. split; [exact Hfind|].
  rewrite Hother by discriminate. vm_compute. reflexivity.
Defined.

(** X12, witness: the bucket holds the key 0 and has room for one more. *)
Lemma Insert_without_split_witness :
  ∃ t', Insert hash_int 1 half_bucket 1%Z 11%Z = Ok t' ∧
        dir_ t' = dir_ half_bucket ∧
        GetNumBuckets t' = 1 ∧
        target_keys hash_int t' 1%Z = [0%Z; 1%Z].
Proof.
  destruct (Insert_without_split hash_int half_bucket 0 1%Z 11%Z half_bucket_reachable)
    as (t' & Hins & Hdir & _ & Hnb & Hkeys); [vm_compute; lia|].
  exists t'. split; [exact Hins|]. split; [exact Hdir|]. split; [exact Hnb|].
  rewrite Hkeys. vm_compute. reflexivity.
Defined.

(** X13, witness: bucket size 1 and a hash that does not tell 0 and 1
    apart; the key 0 is stored and [Insert(1, 11)] does not return. *)
Lemma Insert_diverges_witness :
  Insert hash_same fuel single_slot 1%Z 11%Z = Timeout.
Proof.
  apply (Insert_diverges hash_same single_slot [0%Z] 1%Z 11%Z).
  - exact single_slot_reachable_same.
  - apply NoDup_singleton.
  - reflexivity.
  - intros k Hk. apply list_elem_of_singleton in Hk. subst k.
    split; [reflexivity|]. exists 10%Z. vm_compute. reflexivity.
Defined.

(** X14, witness: after the split the directory points to two buckets. *)
Lemma GetNumBuckets_counts_directory_witness :
  GetNumBuckets three_keys = length (remove_dups (dir_ three_keys)) ∧
  GetNumBuckets three_keys = 2.
Proof.
  split; [|vm_compute; reflexivity].
  apply (GetNumBuckets_counts_directory hash_int three_keys). exact three_keys_reachable.
Defined.

End ExtHashMore.

(** * More facts: the replacer as two lists *)
Module ReplacerFacts.
Import LRUK ReplacerInv.

#[local] Open Scope Z_scope.

(** ** Reads and writes through node pointers *)
Lemma read_write r p n q :
  read (write r p n) q = if decide (q = p) then Some n else read r q.
Proof.
  destruct (decide (q = p)) as [->|Hne].
  - destruct p; simpl; [done..|]. by rewrite lookup_insert_eq.
  - destruct p as [| |f], q as [| |g]; simpl; try done.
    rewrite lookup_insert_ne; [done|]. intros ->. done.
Qed.

Lemma write_scalars r p n :
  curr_history_size_ (write r p n) = curr_history_size_ r ∧
  curr_buffer_size_ (write r p n) = curr_buffer_size_ r ∧
  replacer_size_ (write r p n) = replacer_size_ r ∧
  k_ (write r p n) = k_ r.
Proof. by destruct p. Qed.

Lemma update_Some r p f n : read r p = Some n -> update r p f = Some (write r p (f n)).
Proof. intros Hr. unfold update. by rewrite Hr. Qed.

Lemma seg_ext r r' l : ∀ a b,
  (∀ q, q ∈ a :: l -> nx r' q = nx r q) ->
  (∀ q, q ∈ l ++ [b] -> pv r' q = pv r q) ->
  seg r a l b -> seg r' a l b.
Proof.
  induction l as [|x l IH]; intros a b Hnx Hpv; simpl.
  - intros [H1 H2]. rewrite Hnx, Hpv; [done|by left..].
  - intros (H1 & H2 & H3). rewrite Hnx by (by left). rewrite Hpv by (by left).
    split_and!; [done..|]. apply IH; [| |done].
    + intros q Hq. apply Hnx. by right.
    + intros q Hq. apply Hpv. by right.
Qed.

Lemma seg_app r l1 x l2 : ∀ a b,
  seg r a (l1 ++ x :: l2) b <-> seg r a l1 x ∧ seg r x l2 b.
Proof.
  induction l1 as [|y l1 IH]; intros a b; simpl.
  - tauto.
  - rewrite IH. tauto.
Qed.

Lemma last_default {A} (l : list A) y a b : List.last (y :: l) a = List.last (y :: l) b.
Proof.
  revert y. induction l as [|z l IH]; intros y; [done|].
  change (List.last (z :: l) a = List.last (z :: l) b). apply IH.
Qed.

Lemma last_cons {A} (l : list A) y a : List.last (y :: l) a = List.last l y.
Proof. destruct l as [|z l]; [done|]. apply (last_default l z a y). Qed.

Lemma last_in {A} (l : list A) : ∀ a, List.last l a ∈ a :: l.
Proof.
  induction l as [|x l IH]; intros a; [by left|].
  rewrite last_cons. right. apply IH.
Qed.

(** The last node before [b]. *)
Lemma seg_last r l : ∀ a b, seg r a l b -> pv r b = Some (List.last l a).
Proof.
  induction l as [|x l IH]; intros a b.
  - by intros [_ ?].
  - intros (_ & _ & Hs). rewrite (IH _ _ Hs). by rewrite last_cons.
Qed.

(** Taking [x] out of a segment. *)
Lemma seg_remove r r' x l2 b : ∀ l1 a p n,
  NoDup (a :: l1 ++ x :: l2) -> b ∉ l1 ++ x :: l2 ->
  seg r a (l1 ++ x :: l2) b ->
  p = List.last l1 a -> n = hd b l2 ->
  nx r' p = Some n -> pv r' n = Some p ->
  (∀ q, q ≠ x -> q ≠ p -> nx r' q = nx r q) ->
  (∀ q, q ≠ x -> q ≠ n -> pv r' q = pv r q) ->
  seg r' a (l1 ++ l2) b.
Proof.
  induction l1 as [|z l1 IH]; intros a p n Hnd Hb Hseg Hpe Hne Hp Hn Hnx Hpv.
  - simpl in *. destruct Hseg as (_ & _ & Hseg). subst p.
    apply NoDup_cons in Hnd as [Ha Hnd]. apply NoDup_cons in Hnd as [Hx Hnd].
    destruct l2 as [|y l2]; simpl in *; subst n; [done|].
    destruct Hseg as (_ & _ & Hseg). split_and!; [done..|].
    apply NoDup_cons in Hnd as [Hy Hnd].
    apply (seg_ext r); [| |done].
    + intros q Hq. apply Hnx.
      * intros Heq. apply Hx. by rewrite <- Heq.
      * intros Heq. apply Ha. rewrite <- Heq. by right.
    + intros q Hq. apply Hpv.
      * intros Heq. rewrite Heq in Hq. apply elem_of_app in Hq as [Hq|Hq].
        -- apply Hx. by right.
        -- apply list_elem_of_singleton in Hq. apply Hb. rewrite <- Hq. by left.
      * intros Heq. rewrite Heq in Hq. apply elem_of_app in Hq as [Hq|Hq]; [done|].
        apply list_elem_of_singleton in Hq. apply Hb. rewrite <- Hq. right. by left.
  - simpl in Hseg. destruct Hseg as (H1 & H2 & Hseg).
    change ((z :: l1) ++ l2) with (z :: (l1 ++ l2)). cbn [seg].
    change ((z :: l1) ++ x :: l2) with (z :: (l1 ++ x :: l2)) in *.
    rewrite last_cons in Hpe.
    apply NoDup_cons in Hnd as [Ha Hnd].
    pose proof Hnd as Hnd'. apply NoDup_cons in Hnd' as [Hz Hnd'].
    assert (p ∈ z :: l1) as Hpin by (rewrite Hpe; apply last_in).
    assert (n ∈ l2 ++ [b]) as Hnin.
    { rewrite Hne. destruct l2; simpl; by left. }
    split_and!.
    + rewrite Hnx; [done| |].
      * intros Heq. apply Ha. rewrite Heq. right. apply elem_of_app. right. by left.
      * intros Heq. apply Ha. rewrite Heq. rewrite app_comm_cons. apply elem_of_app. by left.
    + rewrite Hpv; [done| |].
      * intros Heq. apply Hz. rewrite Heq. apply elem_of_app. right. by left.
      * intros Heq. rewrite <- Heq in Hnin. apply elem_of_app in Hnin as [Hq|Hq].
        -- apply Hz. apply elem_of_app. right. by right.
        -- apply list_elem_of_singleton in Hq. apply Hb. rewrite <- Hq. by left.
    + apply (IH z p n); try done.
      intros Hq. apply Hb. by right.
Qed.

(** Putting [x] in front of a segment. *)
Lemma seg_push r r' x a l b first :
  NoDup (a :: l) -> b ∉ l -> x ∉ a :: l ++ [b] ->
  seg r a l b ->
  first = hd b l ->
  nx r' a = Some x -> nx r' x = Some first ->
  pv r' x = Some a -> pv r' first = Some x ->
  (∀ q, q ≠ a -> q ≠ x -> nx r' q = nx r q) ->
  (∀ q, q ≠ x -> q ≠ first -> pv r' q = pv r q) ->
  seg r' a (x :: l) b.
Proof.
  intros Hnd Hb Hx Hseg Hf H1 H2 H3 H4 Hnx Hpv.
  apply NoDup_cons in Hnd as [Ha Hnd].
  destruct l as [|y l]; simpl in *; subst first; [done|].
  destruct Hseg as (_ & _ & Hseg). split_and!; [done..|].
  apply NoDup_cons in Hnd as [Hy Hnd].
  apply (seg_ext r); [| |done].
  - intros q Hq. apply Hnx.
    + intros Heq. apply Ha. by rewrite <- Heq.
    + intros Heq. apply Hx. rewrite <- Heq. right. rewrite app_comm_cons.
      apply elem_of_app. by left.
  - intros q Hq. apply Hpv.
    + intros Heq. apply Hx. rewrite <- Heq. right. right. done.
    + intros Heq. rewrite Heq in Hq. apply elem_of_app in Hq as [Hq|Hq]; [done|].
      apply list_elem_of_singleton in Hq. apply Hb. rewrite <- Hq. by left.
Qed.

(** ** The views of a store after a write *)
Lemma nx_write r p m q : nx (write r p m) q = if decide (q = p) then next_ m else nx r q.
Proof. unfold nx. rewrite read_write. by destruct (decide (q = p)). Qed.

Lemma pv_write r p m q : pv (write r p m) q = if decide (q = p) then prev_ m else pv r q.
Proof. unfold pv. rewrite read_write. by destruct (decide (q = p)). Qed.

Lemma attrs_write r p m q :
  attrs (write r p m) q =
  if decide (q = p) then Some (key_ m, value_ m, evictable_ m) else attrs r q.
Proof. unfold attrs. rewrite read_write. by destruct (decide (q = p)). Qed.

Lemma same_scalars_refl r : same_scalars r r.
Proof. done. Qed.

Lemma same_scalars_trans r1 r2 r3 : same_scalars r1 r2 -> same_scalars r2 r3 -> same_scalars r1 r3.
Proof. intros (?&?&?&?) (?&?&?&?). split_and!; congruence. Qed.

Lemma same_scalars_write r p m : same_scalars (write r p m) r.
Proof. apply write_scalars. Qed.

Lemma nx_Some_read r p q : nx r p = Some q -> ∃ m, read r p = Some m ∧ next_ m = Some q.
Proof. unfold nx. destruct (read r p) as [m|]; [|done]. intros. by exists m. Qed.

Lemma pv_Some_read r p q : pv r p = Some q -> ∃ m, read r p = Some m ∧ prev_ m = Some q.
Proof. unfold pv. destruct (read r p) as [m|]; [|done]. intros. by exists m. Qed.

(** [RemoveFromPool] of a node that is linked between [p] and [n]. *)
Lemma RemoveFromPool_spec r x p n :
  pv r x = Some p -> nx r x = Some n ->
  is_Some (read r p) -> is_Some (read r n) ->
  p ≠ x -> n ≠ x -> p ≠ n ->
  ∃ r', RemoveFromPool r x = Some r' ∧ same_scalars r' r ∧
        (∀ q, attrs r' q = attrs r q) ∧
        nx r' x = None ∧ pv r' x = None ∧
        nx r' p = Some n ∧ pv r' n = Some p ∧
        (∀ q, q ≠ x -> q ≠ p -> nx r' q = nx r q) ∧
        (∀ q, q ≠ x -> q ≠ n -> pv r' q = pv r q).
Proof.
  intros Hpv Hnx [np Hp] [nn Hn] Hpx Hnx' Hpn.
  destruct (pv_Some_read _ _ _ Hpv) as (n0 & Hx & Hprev).
  destruct (nx_Some_read _ _ _ Hnx) as (n0' & Hx' & Hnext).
  assert (n0' = n0) by congruence; subst n0'.
  unfold RemoveFromPool. rewrite Hx. cbn [mbind option_bind]. rewrite Hprev, Hnext.
  rewrite (update_Some _ _ _ np Hp). cbn [mbind option_bind].
  set (r1 := write r p (set_next np (Some n))).
  assert (read r1 n = Some nn) as Hn1.
  { unfold r1. rewrite read_write. by rewrite decide_False. }
  rewrite (update_Some _ _ _ nn Hn1). cbn [mbind option_bind].
  set (r2 := write r1 n (set_prev nn (Some p))).
  assert (read r2 x = Some n0) as Hx2.
  { unfold r2, r1. rewrite !read_write. rewrite decide_False by congruence.
    by rewrite decide_False by congruence. }
  rewrite (update_Some _ _ _ n0 Hx2). cbn [mbind option_bind].
  set (r3 := write r2 x (set_prev n0 None)).
  assert (read r3 x = Some (set_prev n0 None)) as Hx3.
  { unfold r3. rewrite read_write. by rewrite decide_True. }
  rewrite (update_Some _ _ _ _ Hx3).
  eexists. split; [done|].
  split_and!.
  - repeat (eapply same_scalars_trans; [apply same_scalars_write|]). apply same_scalars_refl.
  - intros q. unfold r3, r2, r1. rewrite !attrs_write. unfold attrs.
    repeat case_decide; subst; rewrite ?Hx, ?Hn, ?Hp; done.
  - rewrite nx_write. by rewrite decide_True.
  - rewrite pv_write. by rewrite decide_True.
  - unfold r3, r2, r1. rewrite !nx_write.
    rewrite !(decide_False (P := p = x)) by done.
    rewrite (decide_False (P := p = n)) by done. by rewrite decide_True.
  - unfold r3, r2, r1. rewrite !pv_write.
    rewrite !(decide_False (P := n = x)) by done. by rewrite decide_True.
  - intros q Hq1 Hq2. unfold r3, r2, r1. rewrite !nx_write.
    rewrite !(decide_False (P := q = x)) by done.
    rewrite (decide_False (P := q = p)) by done.
    destruct (decide (q = n)) as [->|]; [|done]. unfold nx. by rewrite Hn.
  - intros q Hq1 Hq2. unfold r3, r2, r1. rewrite !pv_write.
    rewrite !(decide_False (P := q = x)) by done.
    rewrite (decide_False (P := q = n)) by done.
    destruct (decide (q = p)) as [->|]; [|done]. unfold pv. by rewrite Hp.
Qed.

(** [PushFrontHistoryPool] and [PushFrontBufferPool] of a node that is not
    in the ring. *)
Lemma PushFront_spec dummy r x first :
  nx r dummy = Some first ->
  is_Some (read r first) -> is_Some (read r x) ->
  x ≠ dummy -> x ≠ first -> first ≠ dummy ->
  ∃ r', PushFront dummy r x = Some r' ∧ same_scalars r' r ∧
        (∀ q, attrs r' q = attrs r q) ∧
        nx r' dummy = Some x ∧ nx r' x = Some first ∧
        pv r' x = Some dummy ∧ pv r' first = Some x ∧
        (∀ q, q ≠ dummy -> q ≠ x -> nx r' q = nx r q) ∧
        (∀ q, q ≠ x -> q ≠ first -> pv r' q = pv r q).
Proof.
  intros Hnx [nf Hf] [n0 Hx] Hxd Hxf Hfd.
  destruct (nx_Some_read _ _ _ Hnx) as (d & Hd & Hnext).
  unfold PushFront. rewrite Hd. cbn [mbind option_bind]. rewrite Hnext.
  cbn [mbind option_bind].
  rewrite (update_Some _ _ _ nf Hf). cbn [mbind option_bind].
  set (r1 := write r first (set_prev nf (Some x))).
  assert (read r1 dummy = Some d) as Hd1.
  { unfold r1. rewrite read_write. by rewrite decide_False by congruence. }
  rewrite Hd1. cbn [mbind option_bind].
  assert (read r1 x = Some n0) as Hx1.
  { unfold r1. rewrite read_write. by rewrite decide_False. }
  rewrite (update_Some _ _ _ n0 Hx1). cbn [mbind option_bind].
  set (r2 := write r1 x (set_next n0 (next_ d))).
  assert (read r2 dummy = Some d) as Hd2.
  { unfold r2. rewrite read_write. by rewrite decide_False by congruence. }
  rewrite (update_Some _ _ _ d Hd2). cbn [mbind option_bind].
  set (r3 := write r2 dummy (set_next d (Some x))).
  assert (read r3 x = Some (set_next n0 (next_ d))) as Hx3.
  { unfold r3, r2. rewrite !read_write. rewrite decide_False by done. by rewrite decide_True. }
  rewrite (update_Some _ _ _ _ Hx3).
  eexists. split; [done|].
  split_and!.
  - repeat (eapply same_scalars_trans; [apply same_scalars_write|]). apply same_scalars_refl.
  - intros q. unfold r3, r2, r1. rewrite !attrs_write. unfold attrs.
    repeat case_decide; subst; rewrite ?Hx, ?Hd, ?Hf; done.
  - unfold r3, r2, r1. rewrite !nx_write.
    rewrite (decide_False (P := dummy = x)) by congruence. by rewrite decide_True.
  - rewrite nx_write. rewrite decide_True by done. simpl. done.
  - rewrite pv_write. by rewrite decide_True.
  - unfold r3, r2, r1. rewrite !pv_write.
    rewrite !(decide_False (P := first = x)) by congruence.
    rewrite (decide_False (P := first = dummy)) by done. by rewrite decide_True.
  - intros q Hq1 Hq2. unfold r3, r2, r1. rewrite !nx_write.
    rewrite !(decide_False (P := q = x)) by done.
    rewrite (decide_False (P := q = dummy)) by done.
    destruct (decide (q = first)) as [->|]; [|done]. unfold nx. by rewrite Hf.
  - intros q Hq1 Hq2. unfold r3, r2, r1. rewrite !pv_write.
    rewrite !(decide_False (P := q = x)) by done.
    rewrite (decide_False (P := q = first)) by done.
    destruct (decide (q = dummy)) as [->|]; [|done]. unfold pv. by rewrite Hd.
Qed.

(** ** The ring *)
#[local] Instance Entry_inj : Inj (=) (=) Entry.
Proof. by intros f g [= ->]. Qed.

Lemma seg_reads r l : ∀ a b, seg r a l b ->
  (∀ q, q ∈ a :: l -> is_Some (read r q)) ∧ (∀ q, q ∈ l ++ [b] -> is_Some (read r q)).
Proof.
  induction l as [|x l IH]; intros a b; simpl.
  - intros [H1 H2]. split; intros q Hq; apply list_elem_of_singleton in Hq as ->.
    + destruct (nx_Some_read _ _ _ H1) as (m & -> & _). by eexists.
    + destruct (pv_Some_read _ _ _ H2) as (m & -> & _). by eexists.
  - intros (H1 & H2 & Hs). destruct (IH _ _ Hs) as [G1 G2]. split; intros q Hq.
    + apply elem_of_cons in Hq as [->|Hq]; [|by apply G1].
      destruct (nx_Some_read _ _ _ H1) as (m & -> & _). by eexists.
    + apply elem_of_cons in Hq as [->|Hq]; [|by apply G2].
      destruct (pv_Some_read _ _ _ H2) as (m & -> & _). by eexists.
Qed.

Lemma seg_next r l a b : seg r a l b -> nx r a = Some (hd b l).
Proof. destruct l; simpl; tauto. Qed.

Lemma ring_NoDup (hs bs : list Z) :
  NoDup (hs ++ bs) ->
  NoDup (DummyHistory :: (Entry <$> hs) ++ DummyBuffer :: (Entry <$> bs)).
Proof.
  intros Hnd.
  assert (NoDup (Entry <$> (hs ++ bs))) as Hnd' by (by apply (NoDup_fmap_2 Entry)).
  rewrite fmap_app in Hnd'. apply NoDup_app in Hnd' as (N1 & N2 & N3).
  apply NoDup_cons. split.
  - intros Hin. apply elem_of_app in Hin as [Hin|Hin].
    + apply list_elem_of_fmap in Hin as (? & ? & _). done.
    + apply elem_of_cons in Hin as [?|Hin]; [done|].
      apply list_elem_of_fmap in Hin as (? & ? & _). done.
  - apply NoDup_app. split_and!; [done| |].
    + intros q Hq Hq'. apply elem_of_cons in Hq' as [->|Hq'].
      * apply list_elem_of_fmap in Hq as (? & ? & _). done.
      * by apply (N2 q).
    + apply NoDup_cons. split; [|done]. intros Hin.
      apply list_elem_of_fmap in Hin as (? & ? & _). done.
Qed.

Lemma without_notin f (l : list Z) : f ∉ l -> without f l = l.
Proof.
  intros Hf. unfold without. induction l as [|x l IH]; [done|].
  rewrite filter_cons_True.
  - rewrite IH; [done|]. intros ?. apply Hf. by right.
  - intros ->. apply Hf. by left.
Qed.

Lemma without_split f (l1 l2 : list Z) :
  NoDup (l1 ++ f :: l2) -> without f (l1 ++ f :: l2) = l1 ++ l2.
Proof.
  intros Hnd. apply NoDup_app in Hnd as (N1 & N2 & N3).
  apply NoDup_cons in N3 as [N3 N4].
  unfold without. rewrite filter_app, filter_cons_False by naive_solver.
  fold (without f l1). fold (without f l2).
  rewrite !without_notin; [done|done|]. intros Hf. apply (N2 f Hf). by left.
Qed.

Lemma without_elem f g (l : list Z) : g ∈ without f l <-> g ∈ l ∧ g ≠ f.
Proof. unfold without. rewrite list_elem_of_filter. tauto. Qed.

Lemma without_NoDup f (l : list Z) : NoDup l -> NoDup (without f l).
Proof. apply NoDup_filter. Qed.

Lemma without_length f (l : list Z) :
  NoDup l -> f ∈ l -> (Z.of_nat (length (without f l)) = Z.of_nat (length l) - 1)%Z.
Proof.
  intros Hnd Hf. apply list_elem_of_split in Hf as (l1 & l2 & ->).
  rewrite without_split by done. rewrite !length_app. simpl. lia.
Qed.

(** Taking a frame out of the ring. *)
Lemma unlink_whole r W1 x W2 :
  NoDup (DummyHistory :: W1 ++ x :: W2) -> W1 ++ W2 ≠ [] ->
  seg r DummyHistory (W1 ++ x :: W2) DummyHistory ->
  ∃ r', RemoveFromPool r x = Some r' ∧ same_scalars r' r ∧
        (∀ q, attrs r' q = attrs r q) ∧
        seg r' DummyHistory (W1 ++ W2) DummyHistory ∧
        nx r' x = None ∧ pv r' x = None ∧
        (∀ q, q ∉ DummyHistory :: W1 ++ x :: W2 -> nx r' q = nx r q ∧ pv r' q = pv r q).
Proof.
  intros Hnd Hne Hseg.
  pose proof Hseg as Hseg'. apply seg_app in Hseg' as [Hs1 Hs2].
  set (p := List.last W1 DummyHistory). set (n := hd DummyHistory W2).
  pose proof (seg_last _ _ _ _ Hs1) as Hpv. fold p in Hpv.
  pose proof (seg_next _ _ _ _ Hs2) as Hnx. fold n in Hnx.
  destruct (seg_reads _ _ _ _ Hseg) as [R1 R2].
  pose proof Hnd as Hnd0. apply NoDup_cons in Hnd0 as [Hd Hnd1].
  pose proof Hnd1 as Hnd2. apply NoDup_app in Hnd2 as (N1 & N2 & N3).
  apply NoDup_cons in N3 as [N3 N4].
  assert (p ∈ DummyHistory :: W1) as Hpin by apply last_in.
  assert (n ∈ W2 ++ [DummyHistory]) as Hnin by (subst n; destruct W2; by left).
  assert (p ≠ x) as Hpx.
  { intros Heq. rewrite Heq in Hpin. apply elem_of_cons in Hpin as [Hx|Hx].
    - apply Hd. rewrite <- Hx. apply elem_of_app. right. by left.
    - apply (N2 x Hx). by left. }
  assert (n ≠ x) as Hnx'.
  { intros Heq. rewrite Heq in Hnin. apply elem_of_app in Hnin as [Hx|Hx]; [done|].
    apply list_elem_of_singleton in Hx. apply Hd. rewrite <- Hx.
    apply elem_of_app. right. by left. }
  assert (p ≠ n) as Hpn.
  { intros Heq. destruct W1 as [|w W1].
    - destruct W2 as [|w W2]; [done|]. subst p n. simpl in Heq, Hd.
      apply Hd. rewrite Heq. right. by left.
    - assert (p ∈ w :: W1) as Hp'.
      { subst p. rewrite last_cons. apply last_in. }
      rewrite Heq in Hp'. apply elem_of_app in Hnin as [Hx|Hx].
      + apply (N2 n Hp'). by right.
      + apply list_elem_of_singleton in Hx. apply Hd. rewrite <- Hx.
        apply elem_of_app. by left. }
  destruct (RemoveFromPool_spec r x p n Hpv Hnx)
    as (r' & Hr & Hsc & Hat & G1 & G2 & G3 & G4 & G5 & G6); [| |done|done|done|].
  { apply R1. rewrite app_comm_cons. apply elem_of_app. by left. }
  { apply R2. rewrite <- app_assoc. apply elem_of_app. right. by right. }
  exists r'. split_and!; [done..| |done|done|].
  - apply (seg_remove r r' x W2 DummyHistory W1 DummyHistory p n); try done.
  - intros q Hq. split.
    + apply G5.
      * intros ->. apply Hq. right. apply elem_of_app. right. by left.
      * intros ->. apply Hq. rewrite app_comm_cons. apply elem_of_app. by left.
    + apply G6.
      * intros ->. apply Hq. right. apply elem_of_app. right. by left.
      * intros ->. apply Hq. apply elem_of_app in Hnin as [Hx|Hx].
        -- right. apply elem_of_app. right. by right.
        -- apply list_elem_of_singleton in Hx. rewrite Hx. by left.
Qed.

Lemma linked_ring r hs bs :
  linked r hs bs ->
  seg r DummyHistory ((Entry <$> hs) ++ DummyBuffer :: (Entry <$> bs)) DummyHistory.
Proof. intros (_ & H1 & H2 & _). by apply seg_app. Qed.

Lemma unlink_linked r hs bs f :
  linked r hs bs -> f ∈ hs ++ bs ->
  ∃ r', RemoveFromPool r (Entry f) = Some r' ∧ same_scalars r' r ∧
        (∀ q, attrs r' q = attrs r q) ∧
        linked r' (without f hs) (without f bs).
Proof.
  intros Hl Hf. pose proof (linked_ring _ _ _ Hl) as Hring.
  destruct Hl as (Hnd & _ & _ & Hout).
  pose proof (ring_NoDup _ _ Hnd) as HND.
  assert (∃ W1 W2,
            (Entry <$> hs) ++ DummyBuffer :: (Entry <$> bs) = W1 ++ Entry f :: W2 ∧
            W1 ++ W2 = (Entry <$> without f hs) ++ DummyBuffer :: (Entry <$> without f bs))
    as (W1 & W2 & HW & HW').
  { pose proof Hnd as Hnd'. apply NoDup_app in Hnd' as (N1 & N2 & N3).
    apply elem_of_app in Hf as [Hf|Hf].
    - pose proof Hf as Hf'. apply list_elem_of_split in Hf' as (h1 & h2 & ->).
      exists (Entry <$> h1), ((Entry <$> h2) ++ DummyBuffer :: (Entry <$> bs)).
      rewrite without_split by done. rewrite (without_notin f bs) by (by apply N2).
      rewrite !fmap_app, fmap_cons, <- !app_assoc. done.
    - pose proof Hf as Hf'. apply list_elem_of_split in Hf' as (b1 & b2 & ->).
      exists ((Entry <$> hs) ++ DummyBuffer :: (Entry <$> b1)), (Entry <$> b2).
      rewrite without_split by done.
      rewrite (without_notin f hs) by (intros ?; by eapply N2).
      rewrite !fmap_app, fmap_cons, <- !app_assoc. done. }
  rewrite HW in Hring, HND.
  destruct (unlink_whole r W1 (Entry f) W2 HND) as (r' & Hr & Hsc & Hat & Hseg & G1 & G2 & G3);
    [|done|].
  { rewrite HW'. by destruct (Entry <$> without f hs). }
  exists r'. split_and!; [done..|].
  rewrite HW' in Hseg. apply seg_app in Hseg as [S1 S2].
  split_and!; [|done|done|].
  - apply NoDup_app in Hnd as (N1 & N2 & N3). apply NoDup_app. split_and!.
    + by apply without_NoDup.
    + intros g Hg Hg'. apply without_elem in Hg as [Hg _]. apply without_elem in Hg' as [Hg' _].
      by apply (N2 g).
    + by apply without_NoDup.
  - intros g Hg. destruct (decide (g = f)) as [->|Hne]; [done|].
    assert (g ∉ hs ++ bs) as Hg'.
    { intros Hin. apply Hg. apply elem_of_app in Hin as [Hin|Hin].
      - apply elem_of_app. left. by apply without_elem.
      - apply elem_of_app. right. by apply without_elem. }
    destruct (Hout g Hg') as [O1 O2].
    destruct (G3 (Entry g)) as [-> ->]; [|done].
    rewrite <- HW. intros Hin. apply elem_of_cons in Hin as [?|Hin]; [done|].
    apply Hg'. apply elem_of_app in Hin as [Hin|Hin].
    + apply elem_of_app. left. apply list_elem_of_fmap in Hin as (y & [= ->] & ?). done.
    + apply elem_of_cons in Hin as [?|Hin]; [done|].
      apply elem_of_app. right. apply list_elem_of_fmap in Hin as (y & [= ->] & ?). done.
Qed.

Lemma Entry_in g (l : list Z) : Entry g ∈ Entry <$> l <-> g ∈ l.
Proof.
  rewrite list_elem_of_fmap. split.
  - by intros (y & [= ->] & ?).
  - intros ?. by exists g.
Qed.

Lemma DummyHistory_notin (l : list Z) : DummyHistory ∉ Entry <$> l.
Proof. rewrite list_elem_of_fmap. by intros (y & ? & ?). Qed.

Lemma DummyBuffer_notin (l : list Z) : DummyBuffer ∉ Entry <$> l.
Proof. rewrite list_elem_of_fmap. by intros (y & ? & ?). Qed.

Lemma hd_in {A} (b : A) (l : list A) : hd b l ∈ l ++ [b].
Proof. destruct l; by left. Qed.

Lemma linked_ext r r' hs bs :
  (∀ q, nx r' q = nx r q) -> (∀ q, pv r' q = pv r q) ->
  linked r hs bs -> linked r' hs bs.
Proof.
  intros Hnx Hpv (Hnd & S1 & S2 & Hout). split_and!; [done| | |].
  - apply (seg_ext r); [..|done]; intros; [apply Hnx|apply Hpv].
  - apply (seg_ext r); [..|done]; intros; [apply Hnx|apply Hpv].
  - intros g Hg. rewrite Hnx, Hpv. by apply Hout.
Qed.

Lemma tagged_ext r r' hs bs :
  k_ r' = k_ r -> (∀ f, attrs r' (Entry f) = attrs r (Entry f)) ->
  tagged r hs bs -> tagged r' hs bs.
Proof. intros Hk Hat Ht f key value ev. rewrite Hat, Hk. apply Ht. Qed.

(** Putting a frame at the front of the history list. *)
Lemma enlist_history r hs bs f :
  linked r hs bs -> f ∉ hs ++ bs -> is_Some (read r (Entry f)) ->
  ∃ r', PushFrontHistoryPool r (Entry f) = Some r' ∧ same_scalars r' r ∧
        (∀ q, attrs r' q = attrs r q) ∧ linked r' (f :: hs) bs.
Proof.
  intros (Hnd & S1 & S2 & Hout) Hf Hread.
  pose proof Hnd as Hnd'. apply NoDup_app in Hnd' as (N1 & N2 & N3).
  assert ((f ∉ hs) ∧ (f ∉ bs)) as [Hfh Hfb].
  { split; intros ?; apply Hf; apply elem_of_app; [by left|by right]. }
  set (first := hd DummyBuffer (Entry <$> hs)).
  assert (first ∈ (Entry <$> hs) ++ [DummyBuffer]) as Hfin by apply hd_in.
  assert (first ∉ (Entry <$> bs) ++ [DummyHistory]) as Hfout.
  { intros Hin. apply elem_of_app in Hfin as [H1|H1]; apply elem_of_app in Hin as [H2|H2].
    - apply list_elem_of_fmap in H1 as (y & Hy & Hyin). rewrite Hy in H2.
      apply Entry_in in H2. by apply (N2 y).
    - apply list_elem_of_singleton in H2. rewrite H2 in H1. by apply DummyHistory_notin in H1.
    - apply list_elem_of_singleton in H1. rewrite H1 in H2. by apply DummyBuffer_notin in H2.
    - apply list_elem_of_singleton in H1. apply list_elem_of_singleton in H2. congruence. }
  assert (Entry f ≠ first) as Hxf.
  { intros Heq. rewrite <- Heq in Hfin. apply elem_of_app in Hfin as [H1|H1].
    - by apply Entry_in in H1.
    - by apply list_elem_of_singleton in H1. }
  assert (first ≠ DummyHistory) as Hfd.
  { intros Heq. rewrite Heq in Hfin. apply elem_of_app in Hfin as [H1|H1].
    - by apply DummyHistory_notin in H1.
    - by apply list_elem_of_singleton in H1. }
  destruct (seg_reads _ _ _ _ S1) as [_ R2].
  destruct (PushFront_spec DummyHistory r (Entry f) first)
    as (r' & Hr & Hsc & Hat & G1 & G2 & G3 & G4 & G5 & G6); [|by apply R2|done..|].
  { by apply seg_next. }
  exists r'. split_and!; [done..|]. split_and!.
  - simpl. apply NoDup_cons. split; [done|done].
  - rewrite fmap_cons.
    apply (seg_push r r' (Entry f) DummyHistory (Entry <$> hs) DummyBuffer first); try done.
    + apply NoDup_cons. split; [apply DummyHistory_notin|]. by apply (NoDup_fmap_2 Entry).
    + apply DummyBuffer_notin.
    + intros Hin. apply elem_of_cons in Hin as [?|Hin]; [done|].
      apply elem_of_app in Hin as [Hin|Hin]; [by apply Entry_in in Hin|].
      by apply list_elem_of_singleton in Hin.
  - apply (seg_ext r); [| |done].
    + intros q Hq. apply G5.
      * intros ->. apply elem_of_cons in Hq as [?|Hq]; [done|].
        by apply DummyHistory_notin in Hq.
      * intros ->. apply elem_of_cons in Hq as [?|Hq]; [done|]. by apply Entry_in in Hq.
    + intros q Hq. apply G6.
      * intros ->. apply elem_of_app in Hq as [Hq|Hq]; [by apply Entry_in in Hq|].
        by apply list_elem_of_singleton in Hq.
      * intros ->. done.
  - intros g Hg. assert (g ≠ f ∧ g ∉ hs ++ bs) as [Hgf Hg'].
    { split.
      - intros ->. apply Hg. by left.
      - intros Hin. apply Hg. by right. }
    destruct (Hout g Hg') as [O1 O2]. split.
    + rewrite G5; [done|done|]. intros [= ->]. done.
    + rewrite G6; [done| |].
      * intros [= ->]. done.
      * intros Heq. rewrite <- Heq in Hfin. apply elem_of_app in Hfin as [H1|H1].
        -- apply Entry_in in H1. apply Hg'. apply elem_of_app. by left.
        -- by apply list_elem_of_singleton in H1.
Qed.

(** Putting a frame at the front of the buffer list. *)
Lemma enlist_buffer r hs bs f :
  linked r hs bs -> f ∉ hs ++ bs -> is_Some (read r (Entry f)) ->
  ∃ r', PushFrontBufferPool r (Entry f) = Some r' ∧ same_scalars r' r ∧
        (∀ q, attrs r' q = attrs r q) ∧ linked r' hs (f :: bs).
Proof.
  intros (Hnd & S1 & S2 & Hout) Hf Hread.
  pose proof Hnd as Hnd'. apply NoDup_app in Hnd' as (N1 & N2 & N3).
  assert ((f ∉ hs) ∧ (f ∉ bs)) as [Hfh Hfb].
  { split; intros ?; apply Hf; apply elem_of_app; [by left|by right]. }
  set (first := hd DummyHistory (Entry <$> bs)).
  assert (first ∈ (Entry <$> bs) ++ [DummyHistory]) as Hfin by apply hd_in.
  assert (first ∉ (Entry <$> hs) ++ [DummyBuffer]) as Hfout.
  { intros Hin. apply elem_of_app in Hfin as [H1|H1]; apply elem_of_app in Hin as [H2|H2].
    - apply list_elem_of_fmap in H1 as (y & Hy & Hyin). rewrite Hy in H2.
      apply Entry_in in H2. by apply (N2 y).
    - apply list_elem_of_singleton in H2. rewrite H2 in H1. by apply DummyBuffer_notin in H1.
    - apply list_elem_of_singleton in H1. rewrite H1 in H2. by apply DummyHistory_notin in H2.
    - apply list_elem_of_singleton in H1. apply list_elem_of_singleton in H2. congruence. }
  assert (Entry f ≠ first) as Hxf.
  { intros Heq. rewrite <- Heq in Hfin. apply elem_of_app in Hfin as [H1|H1].
    - by apply Entry_in in H1.
    - by apply list_elem_of_singleton in H1. }
  assert (first ≠ DummyBuffer) as Hfd.
  { intros Heq. rewrite Heq in Hfin. apply elem_of_app in Hfin as [H1|H1].
    - by apply DummyBuffer_notin in H1.
    - by apply list_elem_of_singleton in H1. }
  destruct (seg_reads _ _ _ _ S2) as [_ R2].
  destruct (PushFront_spec DummyBuffer r (Entry f) first)
    as (r' & Hr & Hsc & Hat & G1 & G2 & G3 & G4 & G5 & G6); [|by apply R2|done..|].
  { by apply seg_next. }
  exists r'. split_and!; [done..|]. split_and!.
  - apply NoDup_app. split_and!; [done| |by apply NoDup_cons].
    intros g Hg Hg'. apply elem_of_cons in Hg' as [->|Hg']; [done|]. by apply (N2 g).
  - apply (seg_ext r); [| |done].
    + intros q Hq. apply G5.
      * intros ->. apply elem_of_cons in Hq as [?|Hq]; [done|].
        by apply DummyBuffer_notin in Hq.
      * intros ->. apply elem_of_cons in Hq as [?|Hq]; [done|]. by apply Entry_in in Hq.
    + intros q Hq. apply G6.
      * intros ->. apply elem_of_app in Hq as [Hq|Hq]; [by apply Entry_in in Hq|].
        by apply list_elem_of_singleton in Hq.
      * intros ->. done.
  - rewrite fmap_cons.
    apply (seg_push r r' (Entry f) DummyBuffer (Entry <$> bs) DummyHistory first); try done.
    + apply NoDup_cons. split; [apply DummyBuffer_notin|]. by apply (NoDup_fmap_2 Entry).
    + apply DummyHistory_notin.
    + intros Hin. apply elem_of_cons in Hin as [?|Hin]; [done|].
      apply elem_of_app in Hin as [Hin|Hin]; [by apply Entry_in in Hin|].
      by apply list_elem_of_singleton in Hin.
  - intros g Hg. assert (g ≠ f ∧ g ∉ hs ++ bs) as [Hgf Hg'].
    { split.
      - intros ->. apply Hg. apply elem_of_app. right. by left.
      - intros Hin. apply Hg. apply elem_of_app in Hin as [Hin|Hin]; apply elem_of_app.
        + by left.
        + right. by right. }
    destruct (Hout g Hg') as [O1 O2]. split.
    + rewrite G5; [done|done|]. intros [= ->]. done.
    + rewrite G6; [done| |].
      * intros [= ->]. done.
      * intros Heq. rewrite <- Heq in Hfin. apply elem_of_app in Hfin as [H1|H1].
        -- apply Entry_in in H1. apply Hg'. apply elem_of_app. by right.
        -- by apply list_elem_of_singleton in H1.
Qed.

(** ** The operations *)
Lemma read_set_sizes r a b q : read (set_sizes r a b) q = read r q.
Proof. by destruct q. Qed.

Lemma linked_set_sizes r a b hs bs : linked r hs bs -> linked (set_sizes r a b) hs bs.
Proof.
  apply linked_ext; intros q; unfold nx, pv; by rewrite read_set_sizes.
Qed.

Lemma attrs_set_sizes r a b q : attrs (set_sizes r a b) q = attrs r q.
Proof. unfold attrs. by rewrite read_set_sizes. Qed.

(** A write to [key_], [value_] or [evictable_] of a node. *)
Lemma update_attr r p g :
  (∀ n, next_ (g n) = next_ n ∧ prev_ (g n) = prev_ n) ->
  is_Some (read r p) ->
  ∃ r' n, read r p = Some n ∧ update r p g = Some r' ∧ same_scalars r' r ∧
          (∀ q, nx r' q = nx r q) ∧ (∀ q, pv r' q = pv r q) ∧
          read r' p = Some (g n) ∧
          (∀ q, q ≠ p -> attrs r' q = attrs r q).
Proof.
  intros Hg [n Hn]. exists (write r p (g n)), n.
  split_and!; [done|by apply update_Some|apply same_scalars_write|..].
  - intros q. rewrite nx_write. destruct (decide (q = p)) as [->|]; [|done].
    unfold nx. rewrite Hn. simpl. apply Hg.
  - intros q. rewrite pv_write. destruct (decide (q = p)) as [->|]; [|done].
    unfold pv. rewrite Hn. simpl. apply Hg.
  - rewrite read_write. by rewrite decide_True.
  - intros q Hq. rewrite attrs_write. by rewrite decide_False.
Qed.

Lemma attrs_read r p n : read r p = Some n -> attrs r p = Some (key_ n, value_ n, evictable_ n).
Proof. intros Hn. unfold attrs. by rewrite Hn. Qed.

Lemma listed_attrs r hs bs f :
  replacer_ok r hs bs -> f ∈ hs ++ bs ->
  ∃ v, attrs r (Entry f) = Some (f, v, true) ∧ (0 ≤ v < 2 ^ 64) ∧
       (f ∈ hs -> v < k_ r) ∧ (f ∈ bs -> k_ r ≤ v).
Proof.
  intros (Hl & _ & Ht) Hf. pose proof (linked_ring _ _ _ Hl) as Hring.
  destruct (seg_reads _ _ _ _ Hring) as [R1 _].
  destruct (R1 (Entry f)) as [n Hn].
  { right. apply elem_of_app in Hf as [Hf|Hf]; apply elem_of_app.
    - left. by apply Entry_in.
    - right. right. by apply Entry_in. }
  pose proof (attrs_read _ _ _ Hn) as Ha.
  destruct (Ht f _ _ _ Ha) as (Hk & Hv & T1 & T2 & _).
  exists (value_ n). rewrite Ha, Hk.
  assert (evictable_ n = true) as ->.
  { apply elem_of_app in Hf as [Hf|Hf]; [by apply T1|by apply T2]. }
  split; [done|]. split; [done|]. split; intros Hin; [by apply T1|by apply T2].
Qed.

Lemma Size_ok r hs bs :
  counted r hs bs -> Size r = Z.of_nat (length hs + length bs).
Proof.
  intros (H1 & H2 & H3 & H4). unfold Size, size_t_wrap. rewrite H1, H2.
  rewrite Z.mod_small; lia.
Qed.

(** The three steps that take an evictable frame out: unlink, clear the
    flag, reset the count. [r1] is [r] with the counter already lowered. *)
Lemma retire_ok r r1 hs bs f :
  replacer_ok r hs bs -> f ∈ hs ++ bs ->
  (∀ q, read r1 q = read r q) ->
  k_ r1 = k_ r -> replacer_size_ r1 = replacer_size_ r ->
  curr_history_size_ r1 = Z.of_nat (length (without f hs)) ->
  curr_buffer_size_ r1 = Z.of_nat (length (without f bs)) ->
  ∃ r2 r3 r4,
    RemoveFromPool r1 (Entry f) = Some r2 ∧
    update r2 (Entry f) (fun n => set_evictable n false) = Some r3 ∧
    update r3 (Entry f) (fun n => set_value n 0) = Some r4 ∧
    k_ r4 = k_ r ∧ replacer_size_ r4 = replacer_size_ r ∧
    (∃ n4, read r4 (Entry f) = Some n4 ∧ key_ n4 = f ∧ value_ n4 = 0 ∧ evictable_ n4 = false) ∧
    (∀ g, g ≠ f -> attrs r4 (Entry g) = attrs r (Entry g)) ∧
    replacer_ok r4 (without f hs) (without f bs).
Proof.
  intros Hok Hf Hread Hk Hcap Hh Hb.
  destruct (listed_attrs r hs bs f Hok Hf) as (v & Hat & Hv & _).
  destruct Hok as (Hl & Hc & Ht).
  assert (linked r1 hs bs) as Hl1.
  { revert Hl. apply linked_ext; intros q; unfold nx, pv; by rewrite Hread. }
  destruct (unlink_linked r1 hs bs f Hl1 Hf) as (r2 & Hr2 & Hsc2 & Hat2 & Hl2).
  assert (is_Some (read r2 (Entry f))) as Hs2.
  { specialize (Hat2 (Entry f)). unfold attrs in Hat2, Hat. rewrite Hread, Hat in Hat2.
    destruct (read r2 (Entry f)); [by eexists|done]. }
  destruct (update_attr r2 (Entry f) (fun n => set_evictable n false))
    as (r3 & n2 & Hn2 & Hr3 & Hsc3 & Hnx3 & Hpv3 & Hrd3 & Hat3); [done|done|].
  destruct (update_attr r3 (Entry f) (fun n => set_value n 0))
    as (r4 & n3 & Hn3 & Hr4 & Hsc4 & Hnx4 & Hpv4 & Hrd4 & Hat4); [done|by rewrite Hrd3|].
  rewrite Hrd3 in Hn3. injection Hn3 as <-.
  assert (key_ n2 = f) as Hkey.
  { specialize (Hat2 (Entry f)). unfold attrs in Hat2, Hat. rewrite Hread, Hn2 in Hat2.
    destruct (read r (Entry f)) as [n0|]; [|done]. simpl in Hat2, Hat. congruence. }
  assert (∀ g, g ≠ f -> attrs r4 (Entry g) = attrs r (Entry g)) as Hother.
  { intros g Hg. rewrite Hat4, Hat3, Hat2 by congruence. unfold attrs. by rewrite Hread. }
  destruct Hsc2 as (A1 & A2 & A3 & A4). destruct Hsc3 as (B1 & B2 & B3 & B4).
  destruct Hsc4 as (C1 & C2 & C3 & C4).
  exists r2, r3, r4. split_and!; [done|done|done|congruence|congruence| |done|].
  { eexists. split; [done|]. done. }
  split_and!.
  - revert Hl2. apply linked_ext; intros q; [by rewrite Hnx4, Hnx3|by rewrite Hpv4, Hpv3].
  - destruct Hc as (D1 & D2 & D3 & D4).
    split_and!; [congruence|congruence| |congruence].
    rewrite C3, B3, A3, Hcap.
    pose proof (length_filter (fun x => x ≠ f) hs) as L1.
    pose proof (length_filter (fun x => x ≠ f) bs) as L2.
    unfold without. lia.
  - intros g key value ev Hg. destruct (decide (g = f)) as [->|Hne].
    + rewrite (attrs_read _ _ _ Hrd4) in Hg. simpl in Hg. injection Hg as <- <- <-.
      split; [done|]. split; [lia|]. split_and!; [| |done].
      * intros Hin. by apply without_elem in Hin as [_ ?].
      * intros Hin. by apply without_elem in Hin as [_ ?].
    + rewrite Hother in Hg by done.
      destruct (Ht g _ _ _ Hg) as (T0 & T1 & T2 & T3 & T4).
      assert (k_ r4 = k_ r) as -> by congruence.
      split; [done|]. split; [done|]. split_and!.
      * intros Hin. apply without_elem in Hin as [Hin _]. by apply T2.
      * intros Hin. apply without_elem in Hin as [Hin _]. by apply T3.
      * intros Hin. apply T4. intros Hin'. apply Hin.
        apply elem_of_app in Hin' as [?|?]; apply elem_of_app; [left|right];
          by apply without_elem.
Qed.

(** The constructor. *)
Lemma new_ok num_frames k :
  0 ≤ num_frames < 2 ^ 64 -> replacer_ok (new num_frames k) [] [].
Proof.
  intros Hn. split_and!.
  - split_and!; [constructor|done|done|]. intros f _. done.
  - split_and!; simpl; lia.
  - intros f key value ev Hf. done.
Qed.

(** The logging loop of [EvictInternal] comes back to [dummy_history_]. *)
Lemma walk_ring r l : ∀ a fuel,
  seg r a l DummyHistory -> DummyHistory ∉ l ->
  (walk fuel r (nx r a) = Ok tt ∨ walk fuel r (nx r a) = Timeout) ∧
  ((length l ≤ fuel)%nat -> walk fuel r (nx r a) = Ok tt).
Proof.
  induction l as [|x l IH]; intros a fuel Hseg Hd.
  - destruct Hseg as [-> _]. destruct fuel; simpl; by split; [left|].
  - destruct Hseg as (Hnx & _ & Hseg). rewrite Hnx.
    assert (x ≠ DummyHistory) as Hx by (intros ->; apply Hd; by left).
    assert (DummyHistory ∉ l) as Hd' by (intros ?; apply Hd; by right).
    destruct (seg_reads _ _ _ _ Hseg) as [R1 _]. destruct (R1 x) as [m Hm]; [by left|].
    destruct fuel as [|fuel].
    + split; [right|simpl; lia]. by destruct x.
    + destruct (IH x fuel Hseg Hd') as [G1 G2].
      assert (walk (S fuel) r (Some x) = walk fuel r (nx r x)) as ->.
      { unfold nx. rewrite Hm. destruct x as [| |g]; [done|..]; simpl in Hm |- *.
        - by injection Hm as <-.
        - by rewrite Hm. }
      split; [done|]. intros Hlen. apply G2. simpl in Hlen. lia.
Qed.

Lemma last_snoc_Entry (l : list Z) f d : List.last (Entry <$> (l ++ [f])) d = Entry f.
Proof. rewrite fmap_app. simpl. apply last_last. Qed.

(** [Evict] takes the last frame of the history list, or of the buffer list
    when the history list is empty. The result does not depend on the fuel:
    with too little of it the logging loop has not come round. *)
Lemma Evict_ok r hs bs :
  replacer_ok r hs bs ->
  ∃ r', replacer_ok r' (after_evict hs bs).1 (after_evict hs bs).2 ∧
        k_ r' = k_ r ∧ replacer_size_ r' = replacer_size_ r ∧
        (∀ f, victim hs bs = Some f -> attrs r' (Entry f) = Some (f, 0, false)) ∧
        (∀ g, victim hs bs ≠ Some g -> attrs r' (Entry g) = attrs r (Entry g)) ∧
        ∀ fuel,
          (EvictInternal fuel r = Ok (r', victim hs bs) ∨ EvictInternal fuel r = Timeout) ∧
          ((length hs + length bs < fuel)%nat -> EvictInternal fuel r = Ok (r', victim hs bs)).
Proof.
  intros Hok. pose proof Hok as (Hl & Hc & Ht).
  pose proof (Size_ok _ _ _ Hc) as HS.
  pose proof Hc as (Hch & Hcb & Hcap & Hmax).
  pose proof Hl as (Hnd & S1 & S2 & Hout).
  pose proof (linked_ring _ _ _ Hl) as Hring.
  assert (∀ fuel,
            (walk fuel r (next_ (dummy_history_ r)) = Ok tt ∨
             walk fuel r (next_ (dummy_history_ r)) = Timeout) ∧
            ((length hs + length bs < fuel)%nat ->
             walk fuel r (next_ (dummy_history_ r)) = Ok tt)) as Hwalk.
  { intros fuel.
    destruct (walk_ring r _ DummyHistory fuel Hring) as [G1 G2].
    - intros Hin. apply elem_of_app in Hin as [Hin|Hin]; [by apply DummyHistory_notin in Hin|].
      apply elem_of_cons in Hin as [?|Hin]; [done|]. by apply DummyHistory_notin in Hin.
    - split; [exact G1|]. intros Hlen. apply G2.
      rewrite length_app, length_fmap. simpl. rewrite length_fmap. lia. }
  (* the frame the source picks, and the store it leaves *)
  assert (∀ f hs0 bs0,
            ((hs = hs0 ++ [f] ∧ bs0 = bs) ∨ (hs = [] ∧ hs0 = [] ∧ bs = bs0 ++ [f])) ->
            ∃ r', replacer_ok r' hs0 bs0 ∧ k_ r' = k_ r ∧ replacer_size_ r' = replacer_size_ r ∧
                  attrs r' (Entry f) = Some (f, 0, false) ∧
                  (∀ g, g ≠ f -> attrs r' (Entry g) = attrs r (Entry g)) ∧
                  ∀ fuel,
                    (EvictInternal fuel r = Ok (r', Some f) ∨ EvictInternal fuel r = Timeout) ∧
                    ((length hs + length bs < fuel)%nat ->
                     EvictInternal fuel r = Ok (r', Some f))) as Hmain.
  { intros f hs0 bs0 Hcase.
    assert (f ∈ hs ++ bs ∧ without f hs = hs0 ∧ without f bs = bs0) as (Hf & W1 & W2).
    { destruct Hcase as [[-> ->]|(-> & -> & ->)].
      - split_and!.
        + apply elem_of_app. left. apply elem_of_app. right. by left.
        + rewrite <- (app_nil_r hs0) at 2. apply without_split.
          by apply NoDup_app in Hnd as (? & _).
        + apply without_notin. intros Hin. apply NoDup_app in Hnd as (_ & N2 & _).
          apply (N2 f); [|done]. apply elem_of_app. right. by left.
      - split_and!.
        + apply elem_of_app. right. apply elem_of_app. right. by left.
        + done.
        + rewrite <- (app_nil_r bs0) at 2. by apply without_split. }
    assert (Size r ≠ 0) as HSne.
    { rewrite HS. destruct Hcase as [[-> ->]|(-> & -> & ->)]; rewrite ?length_app; simpl; lia. }
    assert (∃ r1,
              (if decide (curr_history_size_ r ≠ 0)
               then (prev_ (dummy_buffer_ r), dec_history r)
               else (prev_ (dummy_history_ r), dec_buffer r)) = (Some (Entry f), r1) ∧
              (∀ q, read r1 q = read r q) ∧ k_ r1 = k_ r ∧
              replacer_size_ r1 = replacer_size_ r ∧
              curr_history_size_ r1 = Z.of_nat (length hs0) ∧
              curr_buffer_size_ r1 = Z.of_nat (length bs0))
      as (r1 & Hpick & Hrd1 & Hk1 & Hcap1 & Hh1 & Hb1).
    { destruct Hcase as [[-> ->]|(-> & -> & ->)];
        destruct (decide (curr_history_size_ r ≠ 0)) as [Hd|Hd].
      - exists (dec_history r). split_and!; [|apply read_set_sizes|done|done| |done].
        + f_equal. change (prev_ (dummy_buffer_ r)) with (pv r DummyBuffer).
          rewrite (seg_last _ _ _ _ S1). by rewrite last_snoc_Entry.
        + simpl. rewrite Hch, length_app. simpl. unfold size_t_wrap.
          rewrite length_app in Hcap. simpl in Hcap. rewrite Z.mod_small; lia.
      - exfalso. apply Hd. rewrite Hch, length_app. simpl. lia.
      - exfalso. apply Hd. by rewrite Hch.
      - exists (dec_buffer r). split_and!; [|apply read_set_sizes|done|done|done|].
        + f_equal. change (prev_ (dummy_history_ r)) with (pv r DummyHistory).
          rewrite (seg_last _ _ _ _ S2). by rewrite last_snoc_Entry.
        + simpl. rewrite Hcb, length_app. simpl. unfold size_t_wrap.
          rewrite length_app in Hcap. simpl in Hcap. rewrite Z.mod_small; lia. }
    destruct (retire_ok r r1 hs bs f Hok Hf)
      as (r2 & r3 & r4 & E2 & E3 & E4 & Hk4 & Hcap4 & (n4 & Hn4 & Hkey4 & Hval4 & Hev4) & Hoth & Hok4);
      [done|done|done|by rewrite W1|by rewrite W2|].
    rewrite W1, W2 in Hok4. exists r4. split_and!; [done..| |done|].
      { rewrite (attrs_read _ _ _ Hn4). by rewrite Hkey4, Hval4, Hev4. }
      intros fuel.
      assert (EvictInternal fuel r =
              rbind (walk fuel r (next_ (dummy_history_ r))) (fun _ => Ok (r4, Some f))) as ->.
      { unfold EvictInternal. rewrite decide_False by done. rewrite Hpick.
        cbn [mbind option_bind]. rewrite E2. cbn [mbind option_bind]. rewrite E3.
        cbn [mbind option_bind]. rewrite E4. cbn [mbind option_bind]. rewrite Hn4.
        cbn [mbind option_bind of_option]. by rewrite Hkey4. }
      destruct (Hwalk fuel) as [[->| ->] Hw2].
      + split; [by left|done].
      + split; [by right|]. intros Hlen. by rewrite (Hw2 Hlen). }
  unfold victim, after_evict.
  destruct (last hs) as [f|] eqn:Hlast.
  - apply last_Some in Hlast as [hs0 ->]. rewrite removelast_last. simpl.
    destruct (Hmain f hs0 bs) as (r' & G1 & G2 & G3 & G4 & G5 & G6); [by left|].
    exists r'. split_and!; [done..| | |done].
    + by intros ? [= <-].
    + intros g Hg. apply G5. congruence.
  - apply last_None in Hlast. subst hs.
    destruct (last bs) as [f|] eqn:Hlastb.
    + apply last_Some in Hlastb as [bs0 ->]. rewrite removelast_last. simpl.
      destruct (Hmain f [] bs0) as (r' & G1 & G2 & G3 & G4 & G5 & G6); [by right|].
      exists r'. split_and!; [done..| | |done].
      * by intros ? [= <-].
      * intros g Hg. apply G5. congruence.
    + apply last_None in Hlastb. subst bs. simpl.
      exists r. split_and!; [done..| | |].
      * by intros.
      * done.
      * intros fuel. unfold EvictInternal. rewrite decide_True by (by rewrite HS).
        split; [by left|done].
Qed.

Lemma unlisted_attrs r hs bs f key v :
  replacer_ok r hs bs -> attrs r (Entry f) = Some (key, v, false) -> f ∉ hs ++ bs.
Proof.
  intros Hok Ha Hf. destruct (listed_attrs r hs bs f Hok Hf) as (v' & Ha' & _). congruence.
Qed.

Lemma attrs_Some_read r p key v ev :
  attrs r p = Some (key, v, ev) ->
  ∃ n, read r p = Some n ∧ key_ n = key ∧ value_ n = v ∧ evictable_ n = ev.
Proof.
  unfold attrs. destruct (read r p) as [n|]; [|done]. simpl. intros [= <- <- <-]. by exists n.
Qed.

(** [RecordAccess]. *)
Lemma RecordAccess_ok r hs bs f :
  replacer_ok r hs bs ->
  (∀ key v ev, attrs r (Entry f) = Some (key, v, ev) -> v + 1 < 2 ^ 64) ->
  ∃ r', RecordAccess r f = Some r' ∧ k_ r' = k_ r ∧ replacer_size_ r' = replacer_size_ r ∧
        (∀ g, g ≠ f -> attrs r' (Entry g) = attrs r (Entry g)) ∧
        match attrs r (Entry f) with
        | None => attrs r' (Entry f) = Some (f, 1, false) ∧ replacer_ok r' hs bs
        | Some (_, v, ev) =>
            attrs r' (Entry f) = Some (f, v + 1, ev) ∧
            replacer_ok r' (after_access (k_ r) v f hs bs).1 (after_access (k_ r) v f hs bs).2
        end.
Proof.
  intros Hok Hno. pose proof Hok as (Hl & Hc & Ht).
  pose proof Hl as (Hnd & S1 & S2 & Hout).
  pose proof Hnd as Hnd'. apply NoDup_app in Hnd' as (N1 & N2 & N3).
  unfold RecordAccess. change (entries_ r !! f) with (read r (Entry f)).
  destruct (attrs r (Entry f)) as [[[key v] ev]|] eqn:Ha.
  - destruct (attrs_Some_read _ _ _ _ _ Ha) as (n0 & Hn0 & Hkey & Hval & Hev).
    rewrite Hn0.
    destruct (Ht f _ _ _ Ha) as (-> & Hv & T1 & T2 & T3).
    specialize (Hno _ _ _ eq_refl).
    destruct (update_attr r (Entry f) (fun n => set_value n (size_t_wrap (value_ n + 1))))
      as (r1 & n0' & Hn0' & Hr1 & Hsc1 & Hnx1 & Hpv1 & Hrd1 & Hat1); [done|by eexists|].
    rewrite Hn0 in Hn0'. injection Hn0' as <-.
    rewrite Hr1. cbn [mbind option_bind]. rewrite Hrd1. cbn [mbind option_bind].
    destruct Hsc1 as (A1 & A2 & A3 & A4).
    assert (size_t_wrap (value_ n0 + 1) = v + 1) as Hw.
    { unfold size_t_wrap. rewrite Hval. rewrite Z.mod_small; lia. }
    cbn [set_value evictable_ value_]. rewrite Hw, Hev, A4.
    assert (attrs r1 (Entry f) = Some (f, v + 1, ev)) as Ha1.
    { rewrite (attrs_read _ _ _ Hrd1). simpl. by rewrite Hw, Hkey, Hev. }
    assert (linked r1 hs bs) as Hl1 by (revert Hl; by apply linked_ext).
    destruct (ev && bool_decide (k_ r ≤ v + 1)) eqn:Hcond.
    + apply andb_true_iff in Hcond as [-> Hle]. apply bool_decide_eq_true in Hle.
      assert (f ∈ hs ++ bs) as Hf.
      { destruct (decide (f ∈ hs ++ bs)) as [|Hn]; [done|]. by specialize (T3 Hn). }
      set (r2 := if decide (v + 1 = k_ r) then dec_history r1 else dec_buffer r1).
      assert (linked r2 hs bs) as Hl2.
      { subst r2. destruct (decide _); by apply linked_set_sizes. }
      destruct (unlink_linked r2 hs bs f Hl2 Hf) as (r3 & Hr3 & Hsc3 & Hat3 & Hl3).
      assert (f ∉ without f hs ++ without f bs) as Hf3.
      { intros Hin. apply elem_of_app in Hin as [Hin|Hin]; by apply without_elem in Hin as [_ ?]. }
      assert (∀ q, attrs r2 q = attrs r1 q) as Hat2.
      { intros q. subst r2. destruct (decide _); apply attrs_set_sizes. }
      assert (is_Some (read r3 (Entry f))) as Hs3.
      { specialize (Hat3 (Entry f)). rewrite Hat2, Ha1 in Hat3.
        unfold attrs in Hat3. destruct (read r3 (Entry f)); [by eexists|done]. }
      destruct (enlist_buffer r3 _ _ f Hl3 Hf3 Hs3) as (r4 & Hr4 & Hsc4 & Hat4 & Hl4).
      rewrite Hr3. cbn [mbind option_bind]. rewrite Hr4. cbn [mbind option_bind].
      assert (∀ q, attrs (inc_buffer r4) q = attrs r1 q) as Hat5.
      { intros q. unfold inc_buffer. by rewrite attrs_set_sizes, Hat4, Hat3, Hat2. }
      destruct Hsc3 as (B1 & B2 & B3 & B4). destruct Hsc4 as (C1 & C2 & C3 & C4).
      assert (k_ r2 = k_ r ∧ replacer_size_ r2 = replacer_size_ r) as [D1 D2].
      { subst r2. destruct (decide _); simpl; split; congruence. }
      eexists. split; [done|]. split_and!.
      * simpl. congruence.
      * simpl. congruence.
      * intros g Hg. rewrite Hat5. apply Hat1. congruence.
      * by rewrite Hat5.
      * assert ((after_access (k_ r) v f hs bs) = (without f hs, f :: without f bs) ∧
                curr_history_size_ r2 = Z.of_nat (length (without f hs)) ∧
                size_t_wrap (curr_buffer_size_ r2 + 1) = Z.of_nat (S (length (without f bs))))
          as (-> & Hh2 & Hb2).
        { destruct Hc as (E1 & E2 & E3 & E4). unfold after_access.
          apply elem_of_app in Hf as [Hf|Hf].
          - destruct (T1 Hf) as [_ Hlt]. assert (v + 1 = k_ r) as Heq by lia.
            assert (f ∉ bs) as Hfb by (by apply N2).
            rewrite decide_True by done. rewrite decide_True by done.
            rewrite (without_notin f bs) by done. subst r2. rewrite decide_True by done.
            pose proof (without_length f hs N1 Hf) as Hlen.
            assert (0 < length hs)%nat by (destruct hs; [by apply not_elem_of_nil in Hf|simpl; lia]).
            split_and!; [done| |].
            + simpl. rewrite A1, E1. unfold size_t_wrap. rewrite Z.mod_small; lia.
            + simpl. rewrite A2, E2. unfold size_t_wrap. rewrite Z.mod_small; lia.
          - destruct (T2 Hf) as [_ Hle']. assert (v + 1 ≠ k_ r) as Hne by lia.
            assert (f ∉ hs) as Hfh by (intros ?; by eapply N2).
            rewrite decide_False by done. rewrite decide_True by done.
            rewrite (without_notin f hs) by done. subst r2. rewrite decide_False by done.
            pose proof (without_length f bs N3 Hf) as Hlen.
            assert (0 < length bs)%nat by (destruct bs; [by apply not_elem_of_nil in Hf|simpl; lia]).
            split_and!; [done| |].
            + simpl. by rewrite A1, E1.
            + simpl. rewrite A2, E2. unfold size_t_wrap.
              rewrite (Z.mod_small (Z.of_nat (length bs) - 1)) by lia.
              rewrite Z.mod_small; lia. }
        cbn [fst snd]. split_and!.
        -- revert Hl4. apply linked_ext; intros q; unfold nx, pv, inc_buffer;
             by rewrite read_set_sizes.
        -- destruct Hc as (E1 & E2 & E3 & E4).
           split_and!; simpl.
           ++ congruence.
           ++ rewrite C2, B2. exact Hb2.
           ++ rewrite C3, B3, D2.
              pose proof (length_filter (fun x => x ≠ f) hs) as L1.
              pose proof (length_filter (fun x => x ≠ f) bs) as L2.
              unfold without in *.
              assert (length (filter (fun x => x ≠ f) hs) + length (filter (fun x => x ≠ f) bs)
                      < length hs + length bs)%nat; [|lia].
              apply elem_of_app in Hf as [Hf|Hf].
              ** pose proof (without_length f hs N1 Hf). unfold without in *. lia.
              ** pose proof (without_length f bs N3 Hf). unfold without in *. lia.
           ++ congruence.
        -- intros g key' v' ev' Hg. rewrite Hat5 in Hg.
           assert (k_ (inc_buffer r4) = k_ r) as -> by (simpl; congruence).
           destruct (decide (g = f)) as [->|Hne].
           ++ rewrite Ha1 in Hg. injection Hg as <- <- <-.
              split; [done|]. split; [lia|]. split_and!.
              ** intros Hin. by apply without_elem in Hin as [_ ?].
              ** done.
              ** intros Hin. exfalso. apply Hin. apply elem_of_app. right. by left.
           ++ rewrite Hat1 in Hg by congruence.
              destruct (Ht g _ _ _ Hg) as (U0 & U1 & U2 & U3 & U4).
              split; [done|]. split; [done|]. split_and!.
              ** intros Hin. apply without_elem in Hin as [Hin _]. by apply U2.
              ** intros Hin. apply elem_of_cons in Hin as [?|Hin]; [done|].
                 apply without_elem in Hin as [Hin _]. by apply U3.
              ** intros Hin. apply U4. intros Hin'. apply Hin.
                 apply elem_of_app in Hin' as [?|?]; apply elem_of_app.
                 --- left. by apply without_elem.
                 --- right. right. by apply without_elem.
    + eexists. split; [done|]. split_and!; [done|done| |done|].
      * intros g Hg. apply Hat1. congruence.
      * assert (after_access (k_ r) v f hs bs = (hs, bs)) as ->.
        { unfold after_access. destruct (decide (f ∈ hs)) as [Hf|Hf].
          - destruct (T1 Hf) as [-> Hlt]. simpl in Hcond.
            apply bool_decide_eq_false in Hcond. rewrite decide_False; [done|lia].
          - destruct (decide (f ∈ bs)) as [Hf'|Hf']; [|done].
            destruct (T2 Hf') as [-> Hle]. simpl in Hcond.
            apply bool_decide_eq_false in Hcond. lia. }
        cbn [fst snd]. split_and!; [done| |].
        -- destruct Hc as (E1 & E2 & E3 & E4). split_and!; congruence.
        -- intros g key' v' ev' Hg.
           rewrite A4.
           destruct (decide (g = f)) as [->|Hne].
           ++ rewrite Ha1 in Hg. injection Hg as <- <- <-.
              split; [done|]. split; [lia|]. split_and!.
              ** intros Hin. destruct (T1 Hin) as [-> Hlt]. split; [done|].
                 simpl in Hcond. apply bool_decide_eq_false in Hcond. lia.
              ** intros Hin. destruct (T2 Hin) as [-> Hle]. split; [done|].
                 simpl in Hcond. apply bool_decide_eq_false in Hcond. lia.
              ** done.
           ++ rewrite Hat1 in Hg by congruence. by apply Ht.
  - assert (read r (Entry f) = None) as Hn0.
    { unfold attrs in Ha. by destruct (read r (Entry f)). }
    rewrite Hn0.
    set (r1 := write r (Entry f) (mkNode f 1 false None None)).
    assert (read r1 (Entry f) = Some (mkNode f 1 false None None)) as Hrd1.
    { unfold r1. rewrite read_write. by rewrite decide_True. }
    rewrite (update_Some _ _ _ _ Hrd1).
    set (r2 := write r1 (Entry f) (set_value (mkNode f 1 false None None) 1)).
    assert (∀ q, q ≠ Entry f -> read r2 q = read r q) as Hoth.
    { intros q Hq. unfold r2, r1. rewrite !read_write. by rewrite !decide_False. }
    assert (read r2 (Entry f) = Some (mkNode f 1 false None None)) as Hrd2.
    { unfold r2. rewrite read_write. by rewrite decide_True. }
    assert (f ∉ hs ++ bs) as Hf.
    { intros Hf. destruct (listed_attrs r hs bs f Hok Hf) as (v & Ha' & _). congruence. }
    eexists. split; [done|]. split_and!; [done|done| | |].
    + intros g Hg. unfold attrs. rewrite Hoth; [done|congruence].
    + by rewrite (attrs_read _ _ _ Hrd2).
    + split_and!.
      * revert Hl. apply linked_ext; intros q; unfold nx, pv.
        -- destruct (decide (q = Entry f)) as [->|Hq]; [by rewrite Hrd2, Hn0|by rewrite Hoth].
        -- destruct (decide (q = Entry f)) as [->|Hq]; [by rewrite Hrd2, Hn0|by rewrite Hoth].
      * done.
      * intros g key v ev Hg. destruct (decide (g = f)) as [->|Hne].
        -- rewrite (attrs_read _ _ _ Hrd2) in Hg. simpl in Hg. injection Hg as <- <- <-.
           split; [done|]. split; [lia|]. split_and!; [| |done].
           ++ intros Hin. exfalso. apply Hf. apply elem_of_app. by left.
           ++ intros Hin. exfalso. apply Hf. apply elem_of_app. by right.
        -- unfold attrs in Hg. rewrite Hoth in Hg by congruence. by apply Ht.
Qed.

(** [SetEvictable(f, false)] of an evictable frame. *)
Lemma SetEvictable_false_ok fuel r hs bs f :
  replacer_ok r hs bs -> f ∈ hs ++ bs ->
  ∃ r', SetEvictable fuel r f false = Ok r' ∧
        k_ r' = k_ r ∧ replacer_size_ r' = replacer_size_ r ∧
        attrs r' (Entry f) = Some (f, 0, false) ∧
        (∀ g, g ≠ f -> attrs r' (Entry g) = attrs r (Entry g)) ∧
        replacer_ok r' (without f hs) (without f bs).
Proof.
  intros Hok Hf. destruct (listed_attrs r hs bs f Hok Hf) as (v & Ha & Hv & V1 & V2).
  destruct (attrs_Some_read _ _ _ _ _ Ha) as (n0 & Hn0 & Hkey & Hval & Hev).
  pose proof Hok as (Hl & (Hch & Hcb & Hcap & Hmax) & Ht).
  pose proof Hl as (Hnd & _). apply NoDup_app in Hnd as (N1 & N2 & N3).
  unfold SetEvictable. change (entries_ r !! f) with (read r (Entry f)).
  rewrite Hn0, Hev, Hval. cbn [andb negb].
  assert (∃ r1, (if decide (k_ r ≤ v) then dec_buffer r else dec_history r) = r1 ∧
                (∀ q, read r1 q = read r q) ∧ k_ r1 = k_ r ∧
                replacer_size_ r1 = replacer_size_ r ∧
                curr_history_size_ r1 = Z.of_nat (length (without f hs)) ∧
                curr_buffer_size_ r1 = Z.of_nat (length (without f bs)))
    as (r1 & -> & Hrd1 & Hk1 & Hcap1 & Hh1 & Hb1).
  { apply elem_of_app in Hf as [Hf|Hf].
    - specialize (V1 Hf). rewrite decide_False by lia. eexists. split; [done|].
      assert (f ∉ bs) by (by apply N2).
      pose proof (without_length f hs N1 Hf).
      assert (0 < length hs)%nat by (destruct hs; [by apply not_elem_of_nil in Hf|simpl; lia]).
      split_and!; [apply read_set_sizes|done|done| |].
      + simpl. rewrite Hch. unfold size_t_wrap. rewrite Z.mod_small; lia.
      + simpl. by rewrite without_notin.
    - specialize (V2 Hf). rewrite decide_True by lia. eexists. split; [done|].
      assert (f ∉ hs) by (intros ?; by eapply N2).
      pose proof (without_length f bs N3 Hf).
      assert (0 < length bs)%nat by (destruct bs; [by apply not_elem_of_nil in Hf|simpl; lia]).
      split_and!; [apply read_set_sizes|done|done| |].
      + simpl. by rewrite without_notin.
      + simpl. rewrite Hcb. unfold size_t_wrap. rewrite Z.mod_small; lia. }
  destruct (retire_ok r r1 hs bs f Hok Hf)
    as (r2 & r3 & r4 & E2 & E3 & E4 & Hk4 & Hcap4 & (n4 & Hn4 & Hkey4 & Hval4 & Hev4) & Hoth & Hok4);
    [done..|].
  rewrite E2. cbn [mbind option_bind]. rewrite E3. cbn [mbind option_bind]. rewrite E4.
  exists r4. split_and!; [done..| |done|done].
  rewrite (attrs_read _ _ _ Hn4). by rewrite Hkey4, Hval4, Hev4.
Qed.

Lemma make_room_free fuel r : Size r < replacer_size_ r -> make_room fuel r = Ok r.
Proof. intros Hs. destruct fuel; simpl; by rewrite decide_True. Qed.

(** The steps of [SetEvictable(f, true)] after the loop that makes room. *)
Lemma enlist_ok r hs bs f v :
  replacer_ok r hs bs -> attrs r (Entry f) = Some (f, v, false) ->
  Size r < replacer_size_ r ->
  ∃ r', (r2 ← update r (Entry f) (fun n => set_evictable n true);
         n ← read r2 (Entry f);
         if decide (k_ r2 ≤ value_ n) then
           r3 ← PushFrontBufferPool r2 (Entry f); Some (inc_buffer r3)
         else
           r3 ← PushFrontHistoryPool r2 (Entry f); Some (inc_history r3)) = Some r' ∧
        k_ r' = k_ r ∧ replacer_size_ r' = replacer_size_ r ∧
        attrs r' (Entry f) = Some (f, v, true) ∧
        (∀ g, g ≠ f -> attrs r' (Entry g) = attrs r (Entry g)) ∧
        replacer_ok r' (after_enlist (k_ r) v f hs bs).1 (after_enlist (k_ r) v f hs bs).2.
Proof.
  intros Hok Ha Hroom. pose proof (unlisted_attrs _ _ _ _ _ _ Hok Ha) as Hf.
  destruct (attrs_Some_read _ _ _ _ _ Ha) as (n0 & Hn0 & Hkey & Hval & Hev).
  pose proof Hok as (Hl & Hc & Ht). pose proof (Size_ok _ _ _ Hc) as HS.
  pose proof Hc as (Hch & Hcb & Hcap & Hmax).
  destruct (Ht f _ _ _ Ha) as (_ & Hv & _).
  destruct (update_attr r (Entry f) (fun n => set_evictable n true))
    as (r2 & n0' & Hn0' & Hr2 & Hsc2 & Hnx2 & Hpv2 & Hrd2 & Hat2); [done|by eexists|].
  rewrite Hn0 in Hn0'. injection Hn0' as <-.
  rewrite Hr2. cbn [mbind option_bind]. rewrite Hrd2. cbn [mbind option_bind].
  destruct Hsc2 as (A1 & A2 & A3 & A4).
  cbn [set_evictable value_]. rewrite Hval, A4.
  assert (linked r2 hs bs) as Hl2 by (revert Hl; by apply linked_ext).
  assert (attrs r2 (Entry f) = Some (f, v, true)) as Ha2.
  { rewrite (attrs_read _ _ _ Hrd2). simpl. by rewrite Hkey, Hval. }
  assert (∀ g key' v' ev', g ≠ f -> attrs r2 (Entry g) = Some (key', v', ev') ->
            key' = g ∧ 0 ≤ v' < 2 ^ 64 ∧ (g ∈ hs -> ev' = true ∧ v' < k_ r) ∧
            (g ∈ bs -> ev' = true ∧ k_ r ≤ v') ∧ (g ∉ hs ++ bs -> ev' = false)) as Ht2.
  { intros g key' v' ev' Hne Hg. rewrite Hat2 in Hg by congruence. by apply Ht. }
  unfold after_enlist. destruct (decide (k_ r ≤ v)) as [Hle|Hgt].
  - destruct (enlist_buffer r2 hs bs f Hl2 Hf) as (r3 & Hr3 & Hsc3 & Hat3 & Hl3); [by eexists|].
    rewrite Hr3. cbn [mbind option_bind fst snd].
    destruct Hsc3 as (B1 & B2 & B3 & B4).
    eexists. split; [done|]. split_and!.
    + simpl. congruence.
    + simpl. congruence.
    + unfold inc_buffer. by rewrite attrs_set_sizes, Hat3.
    + intros g Hg. unfold inc_buffer. rewrite attrs_set_sizes, Hat3. apply Hat2. congruence.
    + split_and!.
      * revert Hl3. apply linked_ext; intros q; unfold nx, pv, inc_buffer;
          by rewrite read_set_sizes.
      * rewrite HS in Hroom. split_and!; simpl.
        -- congruence.
        -- rewrite B2, A2, Hcb. unfold size_t_wrap. rewrite Z.mod_small; lia.
        -- rewrite B3, A3. lia.
        -- congruence.
      * intros g key' v' ev' Hg. unfold inc_buffer in Hg. rewrite attrs_set_sizes, Hat3 in Hg.
        assert (k_ (inc_buffer r3) = k_ r) as -> by (simpl; congruence).
        destruct (decide (g = f)) as [->|Hne].
        -- rewrite Ha2 in Hg. injection Hg as <- <- <-.
           split; [done|]. split; [done|]. split_and!.
           ++ intros Hin. exfalso. apply Hf. apply elem_of_app. by left.
           ++ done.
           ++ intros Hin. exfalso. apply Hin. apply elem_of_app. right. by left.
        -- destruct (Ht2 g _ _ _ Hne Hg) as (U0 & U1 & U2 & U3 & U4).
           split; [done|]. split; [done|]. split_and!; [done| |].
           ++ intros Hin. apply elem_of_cons in Hin as [?|Hin]; [done|]. by apply U3.
           ++ intros Hin. apply U4. intros Hin'. apply Hin.
              apply elem_of_app in Hin' as [?|?]; apply elem_of_app; [by left|right; by right].
  - destruct (enlist_history r2 hs bs f Hl2 Hf) as (r3 & Hr3 & Hsc3 & Hat3 & Hl3); [by eexists|].
    rewrite Hr3. cbn [mbind option_bind fst snd].
    destruct Hsc3 as (B1 & B2 & B3 & B4).
    eexists. split; [done|]. split_and!.
    + simpl. congruence.
    + simpl. congruence.
    + unfold inc_history. by rewrite attrs_set_sizes, Hat3.
    + intros g Hg. unfold inc_history. rewrite attrs_set_sizes, Hat3. apply Hat2. congruence.
    + split_and!.
      * revert Hl3. apply linked_ext; intros q; unfold nx, pv, inc_history;
          by rewrite read_set_sizes.
      * rewrite HS in Hroom. split_and!; simpl.
        -- rewrite B1, A1, Hch. unfold size_t_wrap. rewrite Z.mod_small; lia.
        -- congruence.
        -- rewrite B3, A3. lia.
        -- congruence.
      * intros g key' v' ev' Hg. unfold inc_history in Hg. rewrite attrs_set_sizes, Hat3 in Hg.
        assert (k_ (inc_history r3) = k_ r) as -> by (simpl; congruence).
        destruct (decide (g = f)) as [->|Hne].
        -- rewrite Ha2 in Hg. injection Hg as <- <- <-.
           split; [done|]. split; [done|]. split_and!.
           ++ intros _. split; [done|lia].
           ++ intros Hin. exfalso. apply Hf. apply elem_of_app. by right.
           ++ intros Hin. exfalso. apply Hin. by left.
        -- destruct (Ht2 g _ _ _ Hne Hg) as (U0 & U1 & U2 & U3 & U4).
           split; [done|]. split; [done|]. split_and!; [|done|].
           ++ intros Hin. apply elem_of_cons in Hin as [?|Hin]; [done|]. by apply U2.
           ++ intros Hin. apply U4. intros Hin'. apply Hin. by right.
Qed.

(** [SetEvictable(f, true)] of a tracked frame that is not evictable, when
    the replacer has room. *)
Lemma SetEvictable_true_ok fuel r hs bs f v :
  replacer_ok r hs bs -> attrs r (Entry f) = Some (f, v, false) ->
  Size r < replacer_size_ r ->
  ∃ r', SetEvictable fuel r f true = Ok r' ∧
        k_ r' = k_ r ∧ replacer_size_ r' = replacer_size_ r ∧
        attrs r' (Entry f) = Some (f, v, true) ∧
        (∀ g, g ≠ f -> attrs r' (Entry g) = attrs r (Entry g)) ∧
        replacer_ok r' (after_enlist (k_ r) v f hs bs).1 (after_enlist (k_ r) v f hs bs).2.
Proof.
  intros Hok Ha Hroom.
  destruct (attrs_Some_read _ _ _ _ _ Ha) as (n0 & Hn0 & Hkey & Hval & Hev).
  destruct (enlist_ok r hs bs f v Hok Ha Hroom) as (r' & Hr & G).
  exists r'. split; [|done].
  unfold SetEvictable. change (entries_ r !! f) with (read r (Entry f)).
  rewrite Hn0, Hev. cbn [andb negb]. rewrite make_room_free by done.
  cbn [rbind]. by rewrite Hr.
Qed.

(** The calls of [SetEvictable] that change nothing. *)
Lemma SetEvictable_same fuel r hs bs f b :
  replacer_ok r hs bs ->
  attrs r (Entry f) = None ∨ (f ∈ hs ++ bs ∧ b = true) ∨
  ((∃ v, attrs r (Entry f) = Some (f, v, false)) ∧ b = false) ->
  SetEvictable fuel r f b = Ok r.
Proof.
  intros Hok Hcase. unfold SetEvictable. change (entries_ r !! f) with (read r (Entry f)).
  destruct Hcase as [Ha|[[Hf ->]|[[v Ha] ->]]].
  - unfold attrs in Ha. by destruct (read r (Entry f)).
  - destruct (listed_attrs r hs bs f Hok Hf) as (v & Ha & _).
    destruct (attrs_Some_read _ _ _ _ _ Ha) as (n0 & -> & _ & _ & ->). done.
  - destruct (attrs_Some_read _ _ _ _ _ Ha) as (n0 & -> & _ & _ & ->). done.
Qed.

Lemma read_erase r f q : read (erase r f) q = if decide (q = Entry f) then None else read r q.
Proof.
  destruct q as [| |g]; simpl; [done..|].
  destruct (decide (Entry g = Entry f)) as [[= ->]|Hne].
  - by rewrite lookup_delete_eq.
  - rewrite lookup_delete_ne; [done|]. congruence.
Qed.

(** Forgetting a frame that is not in the lists. *)
Lemma erase_ok r hs bs f :
  replacer_ok r hs bs -> f ∉ hs ++ bs -> replacer_ok (erase r f) hs bs.
Proof.
  intros (Hl & Hc & Ht) Hf. pose proof Hl as (_ & _ & _ & Hout).
  destruct (Hout f Hf) as [O1 O2]. split_and!.
  - revert Hl. apply linked_ext; intros q.
    + unfold nx at 1. rewrite read_erase.
      destruct (decide (q = Entry f)) as [->|]; [|done]. by rewrite O1.
    + unfold pv at 1. rewrite read_erase.
      destruct (decide (q = Entry f)) as [->|]; [|done]. by rewrite O2.
  - done.
  - intros g key v ev Hg. unfold attrs in Hg. rewrite read_erase in Hg.
    destruct (decide (Entry g = Entry f)); [done|]. by apply Ht.
Qed.

(** [Remove]. *)
Lemma Remove_ok r hs bs f :
  replacer_ok r hs bs ->
  ∃ r', Remove r f = Some r' ∧
        k_ r' = k_ r ∧ replacer_size_ r' = replacer_size_ r ∧
        attrs r' (Entry f) = None ∧
        (∀ g, g ≠ f -> attrs r' (Entry g) = attrs r (Entry g)) ∧
        replacer_ok r' (without f hs) (without f bs).
Proof.
  intros Hok. pose proof Hok as (Hl & (Hch & Hcb & Hcap & Hmax) & Ht).
  pose proof Hl as (Hnd & _). apply NoDup_app in Hnd as (N1 & N2 & N3).
  unfold Remove. change (entries_ r !! f) with (read r (Entry f)).
  destruct (read r (Entry f)) as [n0|] eqn:Hn0.
  2:{ assert (f ∉ hs ++ bs) as Hf.
      { intros Hf. destruct (listed_attrs r hs bs f Hok Hf) as (v & Ha & _).
        unfold attrs in Ha. by rewrite Hn0 in Ha. }
      assert ((f ∉ hs) ∧ (f ∉ bs)) as [Hfh Hfb].
      { split; intros ?; apply Hf; apply elem_of_app; [by left|by right]. }
      exists r. rewrite !without_notin by done. split_and!; try done.
      unfold attrs. by rewrite Hn0. }
  destruct (evictable_ n0) eqn:Hev.
  - assert (f ∈ hs ++ bs) as Hf.
    { destruct (decide (f ∈ hs ++ bs)) as [|Hn]; [done|].
      destruct (Ht f _ _ _ (attrs_read _ _ _ Hn0)) as (_ & _ & _ & _ & T3).
      specialize (T3 Hn). congruence. }
    destruct (listed_attrs r hs bs f Hok Hf) as (v & Ha & Hv & V1 & V2).
    rewrite (attrs_read _ _ _ Hn0) in Ha. injection Ha as Hkey Hval.
    rewrite Hval.
    assert (∃ r1, (if decide (k_ r ≤ v) then dec_buffer r else dec_history r) = r1 ∧
                  (∀ q, read r1 q = read r q) ∧ k_ r1 = k_ r ∧
                  replacer_size_ r1 = replacer_size_ r ∧
                  curr_history_size_ r1 = Z.of_nat (length (without f hs)) ∧
                  curr_buffer_size_ r1 = Z.of_nat (length (without f bs)))
      as (r1 & -> & Hrd1 & Hk1 & Hcap1 & Hh1 & Hb1).
    { pose proof Hf as Hf'. apply elem_of_app in Hf' as [Hf'|Hf'].
      - specialize (V1 Hf'). rewrite decide_False by lia. eexists. split; [done|].
        assert (f ∉ bs) by (by apply N2).
        pose proof (without_length f hs N1 Hf').
        assert (0 < length hs)%nat by (destruct hs; [by apply not_elem_of_nil in Hf'|simpl; lia]).
        split_and!; [apply read_set_sizes|done|done| |].
        + simpl. rewrite Hch. unfold size_t_wrap. rewrite Z.mod_small; lia.
        + simpl. by rewrite without_notin.
      - specialize (V2 Hf'). rewrite decide_True by lia. eexists. split; [done|].
        assert (f ∉ hs) by (intros ?; by eapply N2).
        pose proof (without_length f bs N3 Hf').
        assert (0 < length bs)%nat by (destruct bs; [by apply not_elem_of_nil in Hf'|simpl; lia]).
        split_and!; [apply read_set_sizes|done|done| |].
        + simpl. by rewrite without_notin.
        + simpl. rewrite Hcb. unfold size_t_wrap. rewrite Z.mod_small; lia. }
    destruct (retire_ok r r1 hs bs f Hok Hf)
      as (r2 & r3 & r4 & E2 & E3 & E4 & Hk4 & Hcap4 & _ & Hoth & Hok4); [done..|].
    rewrite E2. cbn [mbind option_bind]. rewrite E3. cbn [mbind option_bind]. rewrite E4.
    cbn [mbind option_bind].
    exists (erase r4 f). split_and!; [done|done|done| | |].
    + unfold attrs. rewrite read_erase. by rewrite decide_True.
    + intros g Hg. unfold attrs at 1. rewrite read_erase.
      rewrite decide_False by congruence. by apply Hoth.
    + apply erase_ok; [done|]. intros Hin.
      apply elem_of_app in Hin as [Hin|Hin]; by apply without_elem in Hin as [_ ?].
  - assert (f ∉ hs ++ bs) as Hf.
    { intros Hf. destruct (listed_attrs r hs bs f Hok Hf) as (v & Ha & _).
      rewrite (attrs_read _ _ _ Hn0) in Ha. congruence. }
    assert ((f ∉ hs) ∧ (f ∉ bs)) as [Hfh Hfb].
    { split; intros ?; apply Hf; apply elem_of_app; [by left|by right]. }
    cbn [mbind option_bind].
    exists (erase r f). rewrite !without_notin by done. split_and!; [done|done|done| | |].
    + unfold attrs. rewrite read_erase. by rewrite decide_True.
    + intros g Hg. unfold attrs. rewrite read_erase. by rewrite decide_False by congruence.
    + by apply erase_ok.
Qed.

Lemma victim_listed hs bs f : victim hs bs = Some f -> f ∈ hs ++ bs.
Proof.
  unfold victim. destruct (last hs) as [g|] eqn:Hl.
  - intros [= ->]. apply last_Some in Hl as [l ->]. apply elem_of_app. left.
    apply elem_of_app. right. by left.
  - intros Hb. apply last_Some in Hb as [l ->]. apply elem_of_app. right.
    apply elem_of_app. right. by left.
Qed.

Lemma removelast_subseteq (l : list Z) : removelast l ⊆ l.
Proof.
  destruct (last l) as [g|] eqn:Hl.
  - apply last_Some in Hl as [l' ->]. rewrite removelast_last. intros x Hx.
    apply elem_of_app. by left.
  - apply last_None in Hl. by subst l.
Qed.

Lemma after_evict_subseteq hs bs :
  (after_evict hs bs).1 ++ (after_evict hs bs).2 ⊆ hs ++ bs.
Proof.
  unfold after_evict. destruct (last hs); simpl; intros x Hx;
    apply elem_of_app in Hx as [Hx|Hx]; apply elem_of_app.
  - left. by apply removelast_subseteq.
  - by right.
  - by left.
  - right. by apply removelast_subseteq.
Qed.

(** The loop of [SetEvictable] that makes room, when it ends. *)
Lemma make_room_ok fuel : ∀ r hs bs r',
  replacer_ok r hs bs -> make_room fuel r = Ok r' ->
  ∃ hs' bs', replacer_ok r' hs' bs' ∧ Size r' < replacer_size_ r' ∧
             k_ r' = k_ r ∧ replacer_size_ r' = replacer_size_ r ∧
             hs' ++ bs' ⊆ hs ++ bs ∧
             (∀ g, g ∉ hs ++ bs -> attrs r' (Entry g) = attrs r (Entry g)).
Proof.
  induction fuel as [|fuel IH]; intros r hs bs r' Hok Hrun; simpl in Hrun.
  - destruct (decide (Size r < replacer_size_ r)); [|done]. injection Hrun as <-.
    by exists hs, bs.
  - destruct (decide (Size r < replacer_size_ r)).
    { injection Hrun as <-. by exists hs, bs. }
    destruct (Evict_ok r hs bs Hok) as (r1 & Hok1 & Hk1 & Hcap1 & _ & Hoth & Hev).
    destruct (Hev (S fuel)) as [[He|He] _]; rewrite He in Hrun; [|done].
    cbn [rbind] in Hrun.
    destruct (IH _ _ _ _ Hok1 Hrun) as (hs' & bs' & G1 & G2 & G3 & G4 & G5 & G6).
    exists hs', bs'. split_and!; [done|done|congruence|congruence| |].
    + etrans; [done|]. apply after_evict_subseteq.
    + intros g Hg. rewrite G6.
      * apply Hoth. intros Hv. by apply victim_listed in Hv.
      * intros Hin. apply Hg. by apply after_evict_subseteq.
Qed.

(** Whatever [SetEvictable] does, the lists stay well formed. *)
Lemma SetEvictable_preserves fuel r hs bs f b r' :
  replacer_ok r hs bs -> SetEvictable fuel r f b = Ok r' ->
  ∃ hs' bs', replacer_ok r' hs' bs'.
Proof.
  intros Hok Hrun.
  destruct (attrs r (Entry f)) as [[[key v] ev]|] eqn:Ha.
  2:{ rewrite (SetEvictable_same fuel r hs bs f b Hok) in Hrun by (by left).
      injection Hrun as <-. by exists hs, bs. }
  pose proof Hok as (_ & _ & Ht). destruct (Ht f _ _ _ Ha) as (-> & _ & _ & _ & T3).
  destruct ev, b.
  - assert (f ∈ hs ++ bs) as Hf.
    { destruct (decide (f ∈ hs ++ bs)) as [|Hn]; [done|]. by specialize (T3 Hn). }
    rewrite (SetEvictable_same fuel r hs bs f true Hok) in Hrun by (right; left; done).
    injection Hrun as <-. by exists hs, bs.
  - assert (f ∈ hs ++ bs) as Hf.
    { destruct (decide (f ∈ hs ++ bs)) as [|Hn]; [done|]. by specialize (T3 Hn). }
    destruct (SetEvictable_false_ok fuel r hs bs f Hok Hf) as (r'' & Hr & _ & _ & _ & _ & Hok').
    rewrite Hr in Hrun. injection Hrun as <-. by eexists _, _.
  - destruct (attrs_Some_read _ _ _ _ _ Ha) as (n0 & Hn0 & Hkey & Hval & Hev).
    unfold SetEvictable in Hrun. change (entries_ r !! f) with (read r (Entry f)) in Hrun.
    rewrite Hn0, Hev in Hrun. cbn [andb negb] in Hrun.
    destruct (make_room fuel r) as [r1| |] eqn:Hroom; [|done..].
    cbn [rbind] in Hrun.
    destruct (make_room_ok fuel r hs bs r1 Hok Hroom) as (hs1 & bs1 & Hok1 & Hs1 & Hk1 & _ & _ & Hat1).
    assert (attrs r1 (Entry f) = Some (f, v, false)) as Ha1.
    { rewrite Hat1; [done|]. by eapply unlisted_attrs. }
    destruct (enlist_ok r1 hs1 bs1 f v Hok1 Ha1 Hs1) as (r'' & Hr & _ & _ & _ & _ & Hok').
    rewrite Hr in Hrun. injection Hrun as <-. by eexists _, _.
  - rewrite (SetEvictable_same fuel r hs bs f false Hok) in Hrun.
    + injection Hrun as <-. by exists hs, bs.
    + right. right. split; [|done]. by exists v.
Qed.

(** Every replacer the program can build is two well-formed lists. *)
Lemma built_ok r : built r -> ∃ hs bs, replacer_ok r hs bs.
Proof.
  induction 1 as [n k Hn|r f r' _ [hs [bs IH]] Hno Hrun|r fuel f b r' _ [hs [bs IH]] Hrun
                 |r fuel r' v _ [hs [bs IH]] Hrun|r f r' _ [hs [bs IH]] Hrun].
  - exists [], []. by apply new_ok.
  - destruct (RecordAccess_ok r hs bs f IH) as (r'' & Hr & _ & _ & _ & Hres).
    { intros key v ev Ha. destruct (attrs_Some_read _ _ _ _ _ Ha) as (n0 & Hn0 & _ & <- & _).
      by apply Hno. }
    rewrite Hr in Hrun. injection Hrun as <-.
    destruct (attrs r (Entry f)) as [[[key v] ev]|].
    + destruct Hres as [_ Hok]. by eexists _, _.
    + destruct Hres as [_ Hok]. by eexists _, _.
  - by eapply SetEvictable_preserves.
  - destruct (Evict_ok r hs bs IH) as (r1 & Hok1 & _ & _ & _ & _ & Hev).
    destruct (Hev fuel) as [[He|He] _]; unfold Evict in Hrun; rewrite He in Hrun; [|done].
    injection Hrun as <- _. by eexists _, _.
  - destruct (Remove_ok r hs bs f IH) as (r'' & Hr & _ & _ & _ & _ & Hok).
    rewrite Hr in Hrun. injection Hrun as <-. by eexists _, _.
Qed.

(** The evictable entries are the frames of the two lists. *)
Lemma evictable_listed r hs bs f :
  replacer_ok r hs bs ->
  (∃ n, entries_ r !! f = Some n ∧ evictable_ n = true) <-> f ∈ hs ++ bs.
Proof.
  intros Hok. split.
  - intros (n & Hn & Hev). destruct (decide (f ∈ hs ++ bs)) as [|Hf]; [done|].
    destruct Hok as (_ & _ & Ht).
    destruct (Ht f _ _ _ (attrs_read r (Entry f) n Hn)) as (_ & _ & _ & _ & T3).
    specialize (T3 Hf). congruence.
  - intros Hf. destruct (listed_attrs r hs bs f Hok Hf) as (v & Ha & _).
    destruct (attrs_Some_read _ _ _ _ _ Ha) as (n & Hn & _ & _ & Hev). by exists n.
Qed.

(** X15: [Evict] takes the frame at the back of the history list, the list of
    the evictable frames with fewer than [k_] accesses, in which a frame
    stands where [SetEvictable] put it; only when that list is empty does it
    take the frame at the back of the buffer list. The frame taken stays
    tracked, not evictable and with its access count back at 0; the other
    frames keep their places. With no evictable frame the call returns false
    and changes nothing. *)
Theorem Evict_takes_oldest r hs bs fuel :
  replacer_ok r hs bs -> (length hs + length bs < fuel)%nat ->
  ∃ r', Evict fuel r = Ok (r', victim hs bs) ∧
        replacer_ok r' (after_evict hs bs).1 (after_evict hs bs).2 ∧
        (∀ f, victim hs bs = Some f -> attrs r' (Entry f) = Some (f, 0, false)) ∧
        (∀ g, victim hs bs ≠ Some g -> attrs r' (Entry g) = attrs r (Entry g)) ∧
        (victim hs bs = None -> r' = r).
Proof.
  intros Hok Hfuel.
  destruct (Evict_ok r hs bs Hok) as (r' & Hok' & _ & _ & Hv & Hoth & Hev).
  destruct (Hev fuel) as [_ He]. specialize (He Hfuel).
  exists r'. split_and!; [done..|].
  intros Hnone. rewrite Hnone in He. by destruct (LRUKFacts.EvictInternal_None _ _ _ He).
Qed.

(** X16: [RecordAccess] counts the access and moves at most the frame it is
    called for. A frame not seen before is tracked with one access and is
    not evictable. An evictable frame whose count reaches [k_] leaves the
    history list for the front of the buffer list; one that already had
    [k_] accesses goes to the front of the buffer list; one that stays
    below [k_] keeps its place, so the history list is not reordered by
    accesses. No other frame changes. *)
Theorem RecordAccess_moves r hs bs f :
  replacer_ok r hs bs ->
  (∀ n, entries_ r !! f = Some n -> value_ n + 1 < 2 ^ 64) ->
  ∃ r', RecordAccess r f = Some r' ∧
        (∀ g, g ≠ f -> attrs r' (Entry g) = attrs r (Entry g)) ∧
        match attrs r (Entry f) with
        | None => attrs r' (Entry f) = Some (f, 1, false) ∧ replacer_ok r' hs bs
        | Some (_, v, ev) =>
            attrs r' (Entry f) = Some (f, v + 1, ev) ∧
            replacer_ok r' (after_access (k_ r) v f hs bs).1 (after_access (k_ r) v f hs bs).2
        end.
Proof.
  intros Hok Hno.
  destruct (RecordAccess_ok r hs bs f Hok) as (r' & Hr & _ & _ & Hoth & Hres).
  { intros key v ev Ha. destruct (attrs_Some_read _ _ _ _ _ Ha) as (n0 & Hn0 & _ & <- & _).
    by apply Hno. }
  by exists r'.
Qed.

(** X17: [SetEvictable]. Making an evictable frame non-evictable takes it out
    of its list and resets its access count to 0. Making a tracked,
    non-evictable frame evictable, when [Size()] is below the capacity, puts
    it at the front of the buffer list if it has [k_] accesses or more and
    at the front of the history list otherwise. A call that asks for the
    state the frame is in, or names a frame that is not tracked, changes
    nothing. *)
Theorem SetEvictable_toggles fuel r hs bs f :
  replacer_ok r hs bs ->
  (f ∈ hs ++ bs ->
     SetEvictable fuel r f true = Ok r ∧
     ∃ r', SetEvictable fuel r f false = Ok r' ∧
           attrs r' (Entry f) = Some (f, 0, false) ∧
           (∀ g, g ≠ f -> attrs r' (Entry g) = attrs r (Entry g)) ∧
           replacer_ok r' (without f hs) (without f bs)) ∧
  (∀ v, attrs r (Entry f) = Some (f, v, false) ->
     SetEvictable fuel r f false = Ok r ∧
     (Size r < replacer_size_ r ->
      ∃ r', SetEvictable fuel r f true = Ok r' ∧
            attrs r' (Entry f) = Some (f, v, true) ∧
            (∀ g, g ≠ f -> attrs r' (Entry g) = attrs r (Entry g)) ∧
            replacer_ok r' (after_enlist (k_ r) v f hs bs).1 (after_enlist (k_ r) v f hs bs).2)) ∧
  (entries_ r !! f = None -> ∀ b, SetEvictable fuel r f b = Ok r).
Proof.
  intros Hok. split_and!.
  - intros Hf. split.
    + apply (SetEvictable_same fuel r hs bs); [done|]. right. by left.
    + destruct (SetEvictable_false_ok fuel r hs bs f Hok Hf) as (r' & Hr & _ & _ & G).
      by exists r'.
  - intros v Ha. split.
    + apply (SetEvictable_same fuel r hs bs); [done|]. right. right. split; [|done]. by exists v.
    + intros Hroom.
      destruct (SetEvictable_true_ok fuel r hs bs f v Hok Ha Hroom) as (r' & Hr & _ & _ & G).
      by exists r'.
  - intros Hn b. apply (SetEvictable_same fuel r hs bs); [done|]. left.
    unfold attrs. simpl. by rewrite Hn.
Qed.

(** X18: [Remove] forgets the frame: its node is gone from [entries_], and if
    the frame was evictable it is taken out of its list first, so [Size()]
    goes down by one. The other frames keep their places and counts. A
    frame that is not tracked changes nothing. *)
Theorem Remove_forgets r hs bs f :
  replacer_ok r hs bs ->
  ∃ r', Remove r f = Some r' ∧
        entries_ r' !! f = None ∧
        (∀ g, g ≠ f -> attrs r' (Entry g) = attrs r (Entry g)) ∧
        replacer_ok r' (without f hs) (without f bs) ∧
        Size r' = Size r - (if decide (f ∈ hs ++ bs) then 1 else 0).
Proof.
  intros Hok. destruct (Remove_ok r hs bs f Hok) as (r' & Hr & _ & _ & Ha & Hoth & Hok').
  exists r'. split_and!; [done| |done|done|].
  - unfold attrs in Ha. simpl in Ha. by destruct (entries_ r' !! f).
  - destruct Hok as ((Hnd & _) & Hc & _). destruct Hok' as (_ & Hc' & _).
    rewrite (Size_ok _ _ _ Hc), (Size_ok _ _ _ Hc').
    apply NoDup_app in Hnd as (N1 & N2 & N3).
    destruct (decide (f ∈ hs ++ bs)) as [Hf|Hf].
    + apply elem_of_app in Hf as [Hf|Hf].
      * pose proof (without_length f hs N1 Hf).
        rewrite (without_notin f bs) by (by apply N2). lia.
      * pose proof (without_length f bs N3 Hf).
        rewrite (without_notin f hs) by (intros ?; by eapply N2). lia.
    + rewrite !without_notin; [lia| |]; intros ?; apply Hf; apply elem_of_app; [by right|by left].
Qed.

(** X19: On every replacer the program can build (with no access count at the
    limit of [size_t]), [Size()] is the number of tracked frames that are
    evictable, it never exceeds the capacity given to the constructor, and
    [Evict] never follows a null or dangling pointer. *)
Theorem Size_counts_evictable r :
  built r ->
  Size r = Z.of_nat (size (filter (fun kv => evictable_ kv.2 = true) (entries_ r))) ∧
  0 ≤ Size r ≤ replacer_size_ r ∧
  ∀ fuel, Evict fuel r ≠ Fault.
Proof.
  intros Hb. destruct (built_ok r Hb) as (hs & bs & Hok).
  pose proof Hok as ((Hnd & _) & Hc & _). pose proof (Size_ok _ _ _ Hc) as HS.
  split_and!.
  - rewrite HS. f_equal. rewrite <- length_app.
    rewrite <- (size_list_to_set (C := gset Z) (hs ++ bs)) by done.
    rewrite <- size_dom. f_equal. apply set_eq. intros f.
    rewrite elem_of_list_to_set, elem_of_dom.
    rewrite <- (evictable_listed r hs bs f Hok). split.
    + intros Hf. destruct (entries_ r !! f) as [n|] eqn:Hn.
      * destruct Hf as (n' & [= <-] & Hev). exists n.
        by apply map_lookup_filter_Some.
      * by destruct Hf as (n' & ? & _).
    + intros [n Hn]. apply map_lookup_filter_Some in Hn as [Hn Hev]. by exists n.
  - lia.
  - destruct Hc as (_ & _ & Hcap & _). lia.
  - intros fuel. destruct (Evict_ok r hs bs Hok) as (r' & _ & _ & _ & _ & _ & Hev).
    unfold Evict. by destruct (Hev fuel) as [[-> | ->] _].
Qed.

(** X20: A replacer made for no frames cannot make a frame evictable: the loop
    of [SetEvictable] that makes room asks [Evict] for a victim while
    [Size() >= replacer_size_], [Evict] has none to give, and the loop never
    ends. *)
Theorem SetEvictable_no_capacity r f n :
  replacer_size_ r ≤ 0 -> Size r = 0 ->
  entries_ r !! f = Some n -> evictable_ n = false ->
  ∀ fuel, SetEvictable fuel r f true = Timeout.
Proof.
  intros Hcap Hsize Hn Hev fuel.
  assert (make_room fuel r = Timeout) as Hroom.
  { induction fuel as [|fuel IH]; simpl.
    - rewrite decide_False by lia. done.
    - rewrite decide_False by lia.
      rewrite (LRUKFacts.EvictInternal_empty (S fuel) r Hsize). simpl. exact IH. }
  unfold SetEvictable. rewrite Hn, Hev. cbn [andb negb]. by rewrite Hroom.
Qed.

(** ** What the calls do to the set of evictable frames *)
Lemma after_access_elem k v f hs bs g :
  g ∈ (after_access k v f hs bs).1 ++ (after_access k v f hs bs).2 <-> g ∈ hs ++ bs.
Proof.
  unfold after_access. destruct (decide (f ∈ hs)) as [Hh|Hh].
  - destruct (decide (v + 1 = k)); [|done]. cbn [fst snd].
    rewrite !elem_of_app, elem_of_cons, without_elem.
    destruct (decide (g = f)) as [->|]; [tauto|]. tauto.
  - destruct (decide (f ∈ bs)) as [Hb|Hb]; [|done]. cbn [fst snd].
    rewrite !elem_of_app, elem_of_cons, without_elem.
    destruct (decide (g = f)) as [->|]; [tauto|]. tauto.
Qed.

Lemma victim_gone hs bs f :
  NoDup (hs ++ bs) -> victim hs bs = Some f ->
  f ∉ (after_evict hs bs).1 ++ (after_evict hs bs).2.
Proof.
  unfold victim, after_evict. intros Hnd Hv. destruct (last hs) as [x|] eqn:Hl.
  - injection Hv as ->. apply last_Some in Hl as [l' ->]. cbn [fst snd].
    rewrite removelast_last. rewrite <- app_assoc in Hnd.
    apply NoDup_app in Hnd as (_ & Hdis & Hnd2). simpl in Hnd2.
    apply NoDup_cons in Hnd2 as [Hfb _].
    rewrite elem_of_app. intros [Hin|Hin]; [|done].
    apply (Hdis f Hin). apply elem_of_cons. by left.
  - apply last_None in Hl as ->. cbn [fst snd]. simpl in Hnd |- *.
    apply last_Some in Hv as [l' ->]. rewrite removelast_last.
    apply NoDup_app in Hnd as (_ & Hdis & _). intros Hin. apply (Hdis f Hin).
    by apply list_elem_of_singleton.
Qed.

(** The accesses and the un-listing that pin a frame. *)
Lemma pin_lists fuel r hs bs f r1 r2 :
  replacer_ok r hs bs ->
  (∀ n, entries_ r !! f = Some n -> value_ n + 1 < 2 ^ 64) ->
  RecordAccess r f = Some r1 -> SetEvictable fuel r1 f false = Ok r2 ->
  ∃ hs' bs', replacer_ok r2 hs' bs' ∧ (f ∉ hs' ++ bs') ∧
             ∀ g, g ∈ hs' ++ bs' -> g ∈ hs ++ bs.
Proof.
  intros Hok Hlim Hra Hse.
  destruct (RecordAccess_ok r hs bs f Hok) as (r1' & Hr & _ & _ & _ & Hres).
  { intros key v ev Ha. destruct (attrs_Some_read _ _ _ _ _ Ha) as (n0 & Hn0 & _ & <- & _).
    by apply Hlim. }
  rewrite Hr in Hra. injection Hra as ->.
  assert (∃ hs1 bs1 v ev, replacer_ok r1 hs1 bs1 ∧ attrs r1 (Entry f) = Some (f, v, ev) ∧
                          ∀ g, g ∈ hs1 ++ bs1 <-> g ∈ hs ++ bs)
    as (hs1 & bs1 & v & ev & Hok1 & Ha1 & Hel).
  { destruct (attrs r (Entry f)) as [[[key v] ev]|].
    - destruct Hres as [Ha Hok1]. eexists _, _, _, _. split; [exact Hok1|]. split; [exact Ha|].
      intros g. apply after_access_elem.
    - destruct Hres as [Ha Hok1]. by exists hs, bs, 1, false. }
  destruct (decide (f ∈ hs1 ++ bs1)) as [Hin|Hout].
  - destruct (SetEvictable_false_ok fuel r1 hs1 bs1 f Hok1 Hin) as (r2' & Hr2 & _ & _ & _ & _ & Hok2).
    rewrite Hr2 in Hse. injection Hse as ->.
    exists (without f hs1), (without f bs1). split; [done|]. split.
    + rewrite elem_of_app, !without_elem. tauto.
    + intros g. rewrite elem_of_app, !without_elem. intros Hg. apply Hel.
      rewrite elem_of_app. tauto.
  - pose proof Hok1 as (_ & _ & Ht). destruct (Ht f _ _ _ Ha1) as (_ & _ & _ & _ & T3).
    rewrite (T3 Hout) in Ha1.
    rewrite (SetEvictable_same fuel r1 hs1 bs1 f false Hok1) in Hse.
    2:{ right. right. split; [|done]. by exists v. }
    injection Hse as <-. exists hs1, bs1. split; [done|]. split; [done|].
    intros g Hg. by apply Hel.
Qed.

Lemma SetEvictable_true_lists fuel r hs bs f r' :
  replacer_ok r hs bs -> SetEvictable fuel r f true = Ok r' ->
  ∃ hs' bs', replacer_ok r' hs' bs' ∧ ∀ g, g ∈ hs' ++ bs' -> g = f ∨ g ∈ hs ++ bs.
Proof.
  intros Hok Hrun.
  destruct (attrs r (Entry f)) as [[[key v] ev]|] eqn:Ha.
  2:{ rewrite (SetEvictable_same fuel r hs bs f true Hok) in Hrun by (by left).
      injection Hrun as <-. exists hs, bs. split; [done|]. intros g Hg. by right. }
  pose proof Hok as (_ & _ & Ht). destruct (Ht f _ _ _ Ha) as (-> & _ & _ & _ & T3).
  destruct ev.
  - assert (f ∈ hs ++ bs) as Hf.
    { destruct (decide (f ∈ hs ++ bs)) as [|Hn]; [done|]. by specialize (T3 Hn). }
    rewrite (SetEvictable_same fuel r hs bs f true Hok) in Hrun by (right; left; done).
    injection Hrun as <-. exists hs, bs. split; [done|]. intros g Hg. by right.
  - destruct (attrs_Some_read _ _ _ _ _ Ha) as (n0 & Hn0 & Hkey & Hval & Hev).
    unfold SetEvictable in Hrun. change (entries_ r !! f) with (read r (Entry f)) in Hrun.
    rewrite Hn0, Hev in Hrun. cbn [andb negb] in Hrun.
    destruct (make_room fuel r) as [r1| |] eqn:Hroom; [|done..].
    cbn [rbind] in Hrun.
    destruct (make_room_ok fuel r hs bs r1 Hok Hroom)
      as (hs1 & bs1 & Hok1 & Hs1 & Hk1 & _ & Hsub & Hat1).
    assert (attrs r1 (Entry f) = Some (f, v, false)) as Ha1.
    { rewrite Hat1; [done|]. by eapply unlisted_attrs. }
    destruct (enlist_ok r1 hs1 bs1 f v Hok1 Ha1 Hs1) as (r'' & Hr & _ & _ & _ & _ & Hok').
    rewrite Hr in Hrun. injection Hrun as <-. eexists _, _. split; [exact Hok'|].
    intros g. unfold after_enlist. destruct (decide (k_ r1 ≤ v)); cbn [fst snd];
      intros Hg; rewrite ?elem_of_app, ?elem_of_cons in Hg.
    + destruct Hg as [Hg|[->|Hg]]; [|by left|]; right; apply Hsub; rewrite elem_of_app; tauto.
    + destruct Hg as [[->|Hg]|Hg]; [by left| |]; right; apply Hsub; rewrite elem_of_app; tauto.
Qed.

Lemma Evict_lists fuel r hs bs r' v :
  replacer_ok r hs bs -> Evict fuel r = Ok (r', v) ->
  ∃ hs' bs', replacer_ok r' hs' bs' ∧
    (∀ g, g ∈ hs' ++ bs' -> g ∈ hs ++ bs ∧ v ≠ Some g) ∧
    (∀ f, v = Some f -> f ∈ hs ++ bs) ∧
    (∀ g n, entries_ r' !! g = Some n ->
       value_ n = 0 ∨ ∃ n0, entries_ r !! g = Some n0 ∧ value_ n0 = value_ n).
Proof.
  intros Hok Hrun. destruct (Evict_ok r hs bs Hok) as (r'' & Hok' & _ & _ & Hvic & Hoth & Hfuel).
  unfold Evict in Hrun. destruct (Hfuel fuel) as [[Heq|Heq] _]; rewrite Heq in Hrun; [|done].
  injection Hrun as <- <-. exists (after_evict hs bs).1, (after_evict hs bs).2.
  split; [done|]. pose proof Hok as ((Hnd & _) & _). split_and!.
  - intros g Hg. split; [by apply after_evict_subseteq|].
    intros Hv. by apply (victim_gone hs bs g Hnd Hv).
  - intros f. apply victim_listed.
  - intros g n Hn. change (entries_ r'' !! g) with (read r'' (Entry g)) in Hn.
    destruct (decide (victim hs bs = Some g)) as [Hv|Hv].
    + left. pose proof (Hvic g Hv) as Ha. rewrite (attrs_read _ _ n Hn) in Ha. by injection Ha.
    + right. pose proof (Hoth g Hv) as Ha. rewrite (attrs_read _ _ n Hn) in Ha.
      symmetry in Ha. destruct (attrs_Some_read _ _ _ _ _ Ha) as (n0 & Hn0 & H1 & H2 & H3).
      exists n0. split; [exact Hn0|done].
Qed.

(** The two calls that pin a frame return. *)
Lemma pin_calls_return fuel r hs bs f :
  replacer_ok r hs bs ->
  (∀ n, entries_ r !! f = Some n -> value_ n + 1 < 2 ^ 64) ->
  ∃ r1 r2, RecordAccess r f = Some r1 ∧ SetEvictable fuel r1 f false = Ok r2.
Proof.
  intros Hok Hlim.
  destruct (RecordAccess_ok r hs bs f Hok) as (r1 & Hr & _ & _ & _ & Hres).
  { intros key v ev Ha. destruct (attrs_Some_read _ _ _ _ _ Ha) as (n0 & Hn0 & _ & <- & _).
    by apply Hlim. }
  exists r1.
  assert (∃ hs1 bs1 v ev, replacer_ok r1 hs1 bs1 ∧ attrs r1 (Entry f) = Some (f, v, ev))
    as (hs1 & bs1 & v & ev & Hok1 & Ha1).
  { destruct (attrs r (Entry f)) as [[[key v] ev]|].
    - destruct Hres as [Ha Hok1]. by eexists _, _, _, _.
    - destruct Hres as [Ha Hok1]. by exists hs, bs, 1, false. }
  destruct (decide (f ∈ hs1 ++ bs1)) as [Hin|Hout].
  - destruct (SetEvictable_false_ok fuel r1 hs1 bs1 f Hok1 Hin) as (r2 & Hr2 & _).
    by exists r2.
  - pose proof Hok1 as (_ & _ & Ht). destruct (Ht f _ _ _ Ha1) as (_ & _ & _ & _ & T3).
    rewrite (T3 Hout) in Ha1. exists r1. split; [done|].
    apply (SetEvictable_same fuel r1 hs1 bs1 f false Hok1).
    right. right. split; [|done]. by exists v.
Qed.

(** With an evictable frame and fuel for the walk over the ring, [Evict]
    returns a frame of the lists. *)
Lemma Evict_returns_victim fuel r hs bs :
  replacer_ok r hs bs -> Size r ≠ 0 -> (Z.to_nat (Size r) < fuel)%nat ->
  ∃ r' f, Evict fuel r = Ok (r', Some f) ∧ f ∈ hs ++ bs.
Proof.
  intros Hok Hsize Hfuel. pose proof Hok as (_ & Hc & _).
  rewrite (Size_ok r hs bs Hc) in Hsize, Hfuel.
  destruct (Evict_ok r hs bs Hok) as (r' & _ & _ & _ & _ & _ & Hrun).
  destruct (Hrun fuel) as [_ Hgo]. unfold Evict. rewrite Hgo by lia.
  destruct (victim hs bs) as [f|] eqn:Hv.
  - exists r', f. split; [done|]. by apply victim_listed.
  - exfalso. unfold victim in Hv. destruct (last hs) eqn:Hl; [done|].
    apply last_None in Hl, Hv. subst. simpl in Hsize. lia.
Qed.

Import Scenario.

(** The lists of [two_waiting]: frame 1 in front of frame 2 in the history
    list, the buffer list empty. *)
Lemma two_waiting_ok : replacer_ok two_waiting [1; 2] [].
Proof.
  pose proof (new_ok 7 2 ltac:(lia)) as H0.
  destruct (RecordAccess_ok (new 7 2) [] [] 1 H0) as (r1 & E1 & _ & _ & _ & H1).
  { intros key v ev Ha. vm_compute in Ha. discriminate. }
  assert (attrs (new 7 2) (Entry 1) = None) as Ha1 by (vm_compute; reflexivity).
  rewrite Ha1 in H1. destruct H1 as [_ H1].
  assert (r1 = replacer_after [DoRecordAccess 1]) as ->.
  { apply (inj Some). rewrite <- E1. vm_compute. reflexivity. }
  destruct (RecordAccess_ok _ [] [] 2 H1) as (r2 & E2 & _ & _ & _ & H2).
  { intros key v ev Ha. vm_compute in Ha. discriminate. }
  assert (attrs (replacer_after [DoRecordAccess 1]) (Entry 2) = None) as Ha2
    by (vm_compute; reflexivity).
  rewrite Ha2 in H2. destruct H2 as [_ H2].
  assert (r2 = replacer_after [DoRecordAccess 1; DoRecordAccess 2]) as ->.
  { apply (inj Some). rewrite <- E2. vm_compute. reflexivity. }
  destruct (SetEvictable_true_ok fuel _ [] [] 2 1 H2) as (r3 & E3 & _ & _ & _ & _ & H3);
    [vm_compute; reflexivity|vm_compute; reflexivity|].
  assert (Ok r3 = Ok (replacer_after [DoRecordAccess 1; DoRecordAccess 2;
                                      DoSetEvictable 2 true])) as Heqr3
    by (rewrite <- E3; vm_compute; reflexivity).
  injection Heqr3 as ->.
  destruct (SetEvictable_true_ok fuel _ _ _ 1 1 H3) as (r4 & E4 & _ & _ & _ & _ & H4);
    [vm_compute; reflexivity|vm_compute; reflexivity|].
  assert (Ok r4 = Ok two_waiting) as Heqr4 by (rewrite <- E4; vm_compute; reflexivity).
  injection Heqr4 as ->.
  exact H4.
Qed.

Lemma two_waiting_built : built two_waiting.
Proof.
  apply (built_SetEvictable
           (replacer_after [DoRecordAccess 1; DoRecordAccess 2; DoSetEvictable 2 true])
           fuel 1 true); [|vm_compute; reflexivity].
  apply (built_SetEvictable (replacer_after [DoRecordAccess 1; DoRecordAccess 2])
           fuel 2 true); [|vm_compute; reflexivity].
  apply (built_RecordAccess (replacer_after [DoRecordAccess 1]) 2);
    [|intros n Hn; vm_compute in Hn; discriminate|vm_compute; reflexivity].
  apply (built_RecordAccess (new 7 2) 1);
    [|intros n Hn; vm_compute in Hn; discriminate|vm_compute; reflexivity].
  apply built_new. lia.
Qed.

(** X15, witness: frames 1 and 2 wait in the history list, 2 made evictable
    first; [Evict] takes frame 2 and leaves frame 1. *)
Lemma Evict_takes_oldest_witness :
  ∃ r', Evict fuel two_waiting = Ok (r', Some 2) ∧
        replacer_ok r' [1] [] ∧
        attrs r' (Entry 2) = Some (2, 0, false).
Proof.
  destruct (Evict_takes_oldest two_waiting [1; 2] [] fuel two_waiting_ok)
    as (r' & He & Hok & Hv & _); [vm_compute; lia|].
  exists r'. split; [exact He|]. split; [exact Hok|]. apply Hv. reflexivity.
Defined.

(** X16, witness: frame 1 has one access and k is 2; the second access
    moves it from the history list to the buffer list. *)
Lemma RecordAccess_moves_witness :
  ∃ r', RecordAccess two_waiting 1 = Some r' ∧
        attrs r' (Entry 1) = Some (1, 2, true) ∧
        replacer_ok r' [2] [1].
Proof.
  destruct (RecordAccess_moves two_waiting [1; 2] [] 1 two_waiting_ok)
    as (r' & Hr & _ & Hm).
  { intros n Hn. vm_compute in Hn. injection Hn as <-. vm_compute. reflexivity. }
  assert (attrs two_waiting (Entry 1) = Some (1, 1, true)) as Ha by (vm_compute; reflexivity).
  rewrite Ha in Hm. destruct Hm as [Hattr Hok].
  exists r'. split; [exact Hr|]. split; [exact Hattr|exact Hok].
Defined.

(** X17, witness: frame 1 is evictable; asking for that again changes
    nothing, and making it non-evictable takes it out of the history list. *)
Lemma SetEvictable_toggles_witness :
  SetEvictable fuel two_waiting 1 true = Ok two_waiting ∧
  ∃ r', SetEvictable fuel two_waiting 1 false = Ok r' ∧
        attrs r' (Entry 1) = Some (1, 0, false) ∧
        replacer_ok r' [2] [].
Proof.
  destruct (SetEvictable_toggles fuel two_waiting [1; 2] [] 1 two_waiting_ok)
    as (Hlisted & _ & _).
  destruct Hlisted as (Hsame & r' & Hset & Hattr & _ & Hok).
  { apply elem_of_cons. left. reflexivity. }
  split; [exact Hsame|]. exists r'. split; [exact Hset|]. split; [exact Hattr|exact Hok].
Defined.

(** X18, witness: frame 1 is removed; frame 2 stays and the size is 1. *)
Lemma Remove_forgets_witness :
  ∃ r', Remove two_waiting 1 = Some r' ∧
        entries_ r' !! 1 = None ∧
        replacer_ok r' [2] [] ∧
        Size r' = 1.
Proof.
  destruct (Remove_forgets two_waiting [1; 2] [] 1 two_waiting_ok)
    as (r' & Hr & Hgone & _ & Hok & Hsize).
  exists r'. split; [exact Hr|]. split; [exact Hgone|]. split; [exact Hok|].
  rewrite Hsize. vm_compute. reflexivity.
Defined.

(** X19, witness: two frames are evictable and the size is 2. *)
Lemma Size_counts_evictable_witness :
  Size two_waiting
  = Z.of_nat (size (filter (fun kv => evictable_ kv.2 = true) (entries_ two_waiting))) ∧
  0 ≤ Size two_waiting ≤ replacer_size_ two_waiting ∧
  ∀ fuel, Evict fuel two_waiting ≠ Fault.
Proof. apply (Size_counts_evictable two_waiting). exact two_waiting_built. Defined.

(** X20, witness: a replacer for no frames tracks frame 1. *)
Lemma SetEvictable_no_capacity_witness :
  SetEvictable fuel no_room 1 true = Timeout.
Proof.
  apply (SetEvictable_no_capacity no_room 1 (mkNode 1 1 false None None)).
  - vm_compute. discriminate.
  - vm_compute. reflexivity.
  - vm_compute. reflexivity.
  - reflexivity.
Defined.

End ReplacerFacts.

(** * More facts: the buffer pool manager, call by call *)
Module BufferPoolMore.
Import TreePage BufferPool ReplacerInv BufferPoolInv.

#[local] Open Scope Z_scope.

Section Pool.
Variable hash : Z -> nat.

(** ** Frames *)
Lemma frame_Some bpm f p : frame bpm f = Some p -> 0 ≤ f ∧ pages_ bpm !! Z.to_nat f = Some p.
Proof. unfold frame. by destruct (decide (0 ≤ f)). Qed.

Lemma frame_of_nat bpm i : frame bpm (Z.of_nat i) = pages_ bpm !! i.
Proof. unfold frame. rewrite decide_True by lia. by rewrite Nat2Z.id. Qed.

Lemma frame_set_frame_eq bpm f p q :
  frame bpm f = Some p -> frame (set_frame bpm f q) f = Some q.
Proof.
  intros Hp. apply frame_Some in Hp as [H0 Hp]. unfold frame. rewrite decide_True by done.
  simpl. apply list_lookup_insert_eq. by eapply lookup_lt_Some.
Qed.

Lemma frame_set_frame_ne bpm f g q :
  0 ≤ f -> g ≠ f -> frame (set_frame bpm f q) g = frame bpm g.
Proof.
  intros H0 Hne. unfold frame. destruct (decide (0 ≤ g)); [|done]. simpl.
  apply list_lookup_insert_ne. lia.
Qed.

Lemma frame_set_frame_case bpm f p q g :
  frame bpm f = Some p ->
  frame (set_frame bpm f q) g = if decide (g = f) then Some q else frame bpm g.
Proof.
  intros Hp. destruct (decide (g = f)) as [->|Hne].
  - by apply (frame_set_frame_eq bpm f p).
  - apply frame_set_frame_ne; [|done]. by apply frame_Some in Hp as [? _].
Qed.

Lemma frame_set_replacer bpm r g : frame (set_replacer bpm r) g = frame bpm g.
Proof. done. Qed.

Lemma length_set_frame bpm f q : length (pages_ (set_frame bpm f q)) = length (pages_ bpm).
Proof. simpl. by rewrite length_insert. Qed.

Lemma table_find_total bpm q :
  ExtHash.wf hash (page_table_ bpm) -> is_Some (table_find hash bpm q).
Proof.
  intros Hwf. destruct (ExtHashFacts.wf_slot hash (page_table_ bpm) q Hwf) as (h & b & Hh & Hb & _).
  unfold table_find. rewrite (ExtHashFacts.Find_slot hash _ q h b Hh Hb). done.
Qed.

(** ** The tail of [NewPgImp] and [FetchPgImp] *)
Lemma pin_spec fuel bpm f bpm' :
  pin fuel bpm f = Ok bpm' ->
  ∃ p, frame bpm f = Some p ∧
       frame bpm' f = Some (mkPage (page_id_ p) (pin_count_ p + 1) (is_dirty_ p) (data_ p)) ∧
       (∀ g, g ≠ f -> frame bpm' g = frame bpm g) ∧
       page_table_ bpm' = page_table_ bpm ∧ free_list_ bpm' = free_list_ bpm ∧
       disk_manager_ bpm' = disk_manager_ bpm ∧ next_page_id_ bpm' = next_page_id_ bpm ∧
       pool_size_ bpm' = pool_size_ bpm ∧
       length (pages_ bpm') = length (pages_ bpm) ∧
       ∃ r1, LRUK.RecordAccess (replacer_ bpm) f = Some r1 ∧
             LRUK.SetEvictable fuel r1 f false = Ok (replacer_ bpm').
Proof.
  unfold pin. destruct (LRUK.RecordAccess (replacer_ bpm) f) as [r1|] eqn:Hr1; [|done].
  cbn [of_option rbind].
  destruct (LRUK.SetEvictable fuel r1 f false) as [r2| |] eqn:Hr2; [|done..].
  cbn [rbind]. rewrite frame_set_replacer.
  destruct (frame bpm f) as [p|] eqn:Hp; [|done]. cbn [of_option rbind].
  intros [= <-]. exists p. split_and!; try done.
  - by apply (frame_set_frame_eq _ f p).
  - intros g Hg. rewrite frame_set_frame_ne; [done| |done]. by apply frame_Some in Hp as [? _].
  - simpl. by rewrite length_insert.
  - by exists r1.
Qed.

(** The page [pg] is put in the frame, bound to [page_id] and pinned. *)
Lemma install_spec fuel bpm f p0 pg page_id t bpm' :
  ExtHash.wf hash (page_table_ bpm) ->
  frame bpm f = Some p0 ->
  ExtHash.Insert hash fuel (page_table_ bpm) page_id f = Ok t ->
  pin fuel (set_page_table (set_frame bpm f pg) t) f = Ok bpm' ->
  frame bpm' f = Some (mkPage (page_id_ pg) (pin_count_ pg + 1) (is_dirty_ pg) (data_ pg)) ∧
  (∀ g, g ≠ f -> frame bpm' g = frame bpm g) ∧
  table_find hash bpm' page_id = Some (Some f) ∧
  (∀ q, q ≠ page_id -> table_find hash bpm' q = table_find hash bpm q) ∧
  ExtHash.wf hash (page_table_ bpm') ∧
  free_list_ bpm' = free_list_ bpm ∧ disk_manager_ bpm' = disk_manager_ bpm ∧
  next_page_id_ bpm' = next_page_id_ bpm ∧ pool_size_ bpm' = pool_size_ bpm ∧
  length (pages_ bpm') = length (pages_ bpm) ∧
  ∃ r1, LRUK.RecordAccess (replacer_ bpm) f = Some r1 ∧
        LRUK.SetEvictable fuel r1 f false = Ok (replacer_ bpm').
Proof.
  intros Hwf Hp0 Hins Hpin.
  destruct (ExtHashFacts.Insert_Ok_spec hash fuel (page_table_ bpm) t _ _ Hwf Hins)
    as (Hwft & Hfind & Hother & _).
  destruct (pin_spec fuel _ f bpm' Hpin)
    as (p & Hp & Hp' & Hfr & Hpt & Hfl & Hd & Hnp & Hps & Hlen & Hrep).
  assert (frame (set_page_table (set_frame bpm f pg) t) f = Some pg) as Hpg
    by (by apply (frame_set_frame_eq _ f p0)).
  rewrite Hpg in Hp. injection Hp as <-.
  pose proof (frame_Some _ _ _ Hp0) as [H0 _].
  split_and!; try done.
  - intros g Hg. rewrite Hfr by done.
    change (frame (set_page_table (set_frame bpm f pg) t) g) with (frame (set_frame bpm f pg) g).
    by rewrite frame_set_frame_ne.
  - unfold table_find. by rewrite Hpt.
  - intros q Hq. unfold table_find. rewrite Hpt. by apply Hother.
  - by rewrite Hpt.
  - rewrite Hlen. simpl. by rewrite length_insert.
Qed.

(** ** Getting a frame *)
Lemma GetAvailableFrame_Some fuel bpm bpm1 f :
  ExtHash.wf hash (page_table_ bpm) ->
  GetAvailableFrame hash fuel bpm = Ok (bpm1, Some f) ->
  ExtHash.wf hash (page_table_ bpm1) ∧
  next_page_id_ bpm1 = next_page_id_ bpm ∧
  pool_size_ bpm1 = pool_size_ bpm ∧
  length (pages_ bpm1) = length (pages_ bpm) ∧
  (∀ g, g ≠ f -> frame bpm1 g = frame bpm g) ∧
  (is_Some (frame bpm f) -> is_Some (frame bpm1 f)) ∧
  ((free_list_ bpm = f :: free_list_ bpm1 ∧ page_table_ bpm1 = page_table_ bpm ∧
    disk_manager_ bpm1 = disk_manager_ bpm ∧ pages_ bpm1 = pages_ bpm ∧
    replacer_ bpm1 = replacer_ bpm) ∨
   (free_list_ bpm = [] ∧ free_list_ bpm1 = [] ∧
    LRUK.Evict fuel (replacer_ bpm) = Ok (replacer_ bpm1, Some f) ∧
    ∃ p, frame bpm f = Some p ∧
         table_find hash bpm1 (page_id_ p) = Some None ∧
         (∀ q, q ≠ page_id_ p -> table_find hash bpm1 q = table_find hash bpm q) ∧
         disk_manager_ bpm1 =
           (if is_dirty_ p then WritePage (disk_manager_ bpm) (page_id_ p) (data_ p)
            else disk_manager_ bpm) ∧
         ∃ b, ExtHash.Remove hash (page_table_ bpm) (page_id_ p)
              = Some (b, page_table_ bpm1))).
Proof.
  intros Hwf. unfold GetAvailableFrame. destruct (free_list_ bpm) as [|f0 rest] eqn:Hfl.
  2:{ intros [= <- <-]. split_and!; try done. left. done. }
  destruct (LRUK.Evict fuel (replacer_ bpm)) as [[r victim]| |] eqn:Hev; [|done..].
  cbn [rbind]. destruct victim as [f0|]; [|done].
  unfold reclaim. rewrite frame_set_replacer.
  destruct (frame bpm f0) as [p|] eqn:Hp; [|done]. cbn [mbind option_bind].
  pose proof (frame_Some _ _ _ Hp) as [H0 _].
  set (bpmd := if is_dirty_ p then _ else _).
  assert (replacer_ bpmd = r) as Hrd by (subst bpmd; by destruct (is_dirty_ p)).
  assert (∃ p1, frame bpmd f0 = Some p1 ∧ page_id_ p1 = page_id_ p) as (p1 & Hp1 & Hid).
  { subst bpmd. destruct (is_dirty_ p).
    - eexists. split; [by apply (frame_set_frame_eq _ f0 p)|done].
    - by exists p. }
  assert (page_table_ bpmd = page_table_ bpm) as Hpt by (subst bpmd; by destruct (is_dirty_ p)).
  assert (next_page_id_ bpmd = next_page_id_ bpm) as Hnp by (subst bpmd; by destruct (is_dirty_ p)).
  assert (pool_size_ bpmd = pool_size_ bpm) as Hps by (subst bpmd; by destruct (is_dirty_ p)).
  assert (free_list_ bpmd = []) as Hfd by (subst bpmd; by destruct (is_dirty_ p)).
  assert (length (pages_ bpmd) = length (pages_ bpm)) as Hlen.
  { subst bpmd. destruct (is_dirty_ p); [|done]. simpl. by rewrite length_insert. }
  assert (∀ g, g ≠ f0 -> frame bpmd g = frame bpm g) as Hfr.
  { intros g Hg. subst bpmd. destruct (is_dirty_ p); [|done].
    by rewrite frame_set_frame_ne. }
  assert (disk_manager_ bpmd =
          (if is_dirty_ p then WritePage (disk_manager_ bpm) (page_id_ p) (data_ p)
           else disk_manager_ bpm)) as Hdisk.
  { subst bpmd. by destruct (is_dirty_ p). }
  rewrite Hp1. cbn [mbind option_bind]. unfold table_remove. rewrite Hpt.
  destruct (ExtHashFacts.Remove_spec hash (page_table_ bpm) (page_id_ p1) Hwf)
    as (b & t' & Hr & Hwf' & Hfk & Hfo).
  rewrite Hr. cbn [mbind option_bind of_option rbind snd].
  intros [= <- <-]. split_and!; try done.
  right. split_and!; try done.
  { simpl. by rewrite Hrd. }
  exists p. split_and!; try done.
  - unfold table_find. simpl. by rewrite <- Hid.
  - intros q Hq. unfold table_find. simpl. apply Hfo. by rewrite Hid.
  - exists b. simpl. by rewrite <- Hid.
Qed.

(** ** [NewPgImp] *)
Lemma NewPgImp_Some fuel bpm bpm' page_id f :
  ExtHash.wf hash (page_table_ bpm) ->
  NewPgImp hash fuel bpm = Ok (bpm', Some (page_id, f)) ->
  ∃ bpm1, GetAvailableFrame hash fuel bpm = Ok (bpm1, Some f) ∧
    page_id = next_page_id_ bpm ∧
    next_page_id_ bpm' = page_id + 1 ∧
    frame bpm' f = Some (mkPage page_id 1 false Zeroed) ∧
    (∀ g, g ≠ f -> frame bpm' g = frame bpm g) ∧
    table_find hash bpm' page_id = Some (Some f) ∧
    (∀ q, q ≠ page_id -> table_find hash bpm' q = table_find hash bpm1 q) ∧
    ExtHash.wf hash (page_table_ bpm') ∧
    free_list_ bpm' = free_list_ bpm1 ∧ disk_manager_ bpm' = disk_manager_ bpm1 ∧
    pool_size_ bpm' = pool_size_ bpm ∧
    length (pages_ bpm') = length (pages_ bpm) ∧
    ∃ r1, LRUK.RecordAccess (replacer_ bpm1) f = Some r1 ∧
          LRUK.SetEvictable fuel r1 f false = Ok (replacer_ bpm').
Proof.
  intros Hwf. unfold NewPgImp.
  destruct (GetAvailableFrame hash fuel bpm) as [[bpm1 avail]| |] eqn:Hg; [|done..].
  cbn [rbind]. destruct avail as [f0|]; [|done].
  destruct (GetAvailableFrame_Some fuel bpm bpm1 f0 Hwf Hg)
    as (Hwf1 & Hnp1 & Hps1 & Hlen1 & Hfr1 & _ & _).
  unfold AllocatePage.
  set (bpm2 := set_next_page_id bpm1 (next_page_id_ bpm1 + 1)).
  destruct (frame bpm2 f0) as [p0|] eqn:Hp0; [|done].
  cbn [of_option rbind].
  destruct (ExtHash.Insert hash fuel
              (page_table_ (set_frame bpm2 f0 (mkPage (next_page_id_ bpm1) 0 false Zeroed)))
              (next_page_id_ bpm1) f0) as [t| |] eqn:Hins; [|done..].
  cbn [rbind].
  destruct (pin fuel _ f0) as [bpm4| |] eqn:Hpin; [|done..].
  cbn [rbind]. intros [= <- <- <-].
  destruct (install_spec fuel bpm2 f0 p0 _ _ t bpm4 Hwf1 Hp0 Hins Hpin)
    as (Hf & Hfr & Htf & Hto & Hwf4 & Hfl & Hd & Hnp & Hps & Hlen & Hrep).
  exists bpm1. split_and!; try done.
  - intros g Hg'. rewrite Hfr by done. by apply Hfr1.
  - by rewrite Hps.
  - by rewrite Hlen.
Qed.

(** ** [FetchPgImp] *)
Lemma FetchPgImp_hit fuel bpm bpm' page_id f r :
  table_find hash bpm page_id = Some (Some f) ->
  FetchPgImp hash fuel bpm page_id = Ok (bpm', r) ->
  r = Some f ∧ pin fuel bpm f = Ok bpm'.
Proof.
  intros Ht. unfold FetchPgImp. rewrite Ht. cbn [of_option rbind].
  destruct (pin fuel bpm f) as [bpm1| |] eqn:Hpin; [|done..]. cbn [rbind].
  by intros [= <- <-].
Qed.

Lemma FetchPgImp_miss fuel bpm bpm' page_id f :
  ExtHash.wf hash (page_table_ bpm) ->
  table_find hash bpm page_id = Some None ->
  FetchPgImp hash fuel bpm page_id = Ok (bpm', Some f) ->
  ∃ bpm1, GetAvailableFrame hash fuel bpm = Ok (bpm1, Some f) ∧
    next_page_id_ bpm' = next_page_id_ bpm ∧
    frame bpm' f = Some (mkPage page_id 1 false (ReadPage (disk_manager_ bpm') page_id)) ∧
    (∀ g, g ≠ f -> frame bpm' g = frame bpm g) ∧
    table_find hash bpm' page_id = Some (Some f) ∧
    (∀ q, q ≠ page_id -> table_find hash bpm' q = table_find hash bpm1 q) ∧
    ExtHash.wf hash (page_table_ bpm') ∧
    free_list_ bpm' = free_list_ bpm1 ∧ disk_manager_ bpm' = disk_manager_ bpm1 ∧
    pool_size_ bpm' = pool_size_ bpm ∧
    length (pages_ bpm') = length (pages_ bpm) ∧
    ∃ r1, LRUK.RecordAccess (replacer_ bpm1) f = Some r1 ∧
          LRUK.SetEvictable fuel r1 f false = Ok (replacer_ bpm').
Proof.
  intros Hwf Ht. unfold FetchPgImp. rewrite Ht. cbn [of_option rbind].
  destruct (GetAvailableFrame hash fuel bpm) as [[bpm1 avail]| |] eqn:Hg; [|done..].
  cbn [rbind]. destruct avail as [f0|]; [|done].
  destruct (GetAvailableFrame_Some fuel bpm bpm1 f0 Hwf Hg)
    as (Hwf1 & Hnp1 & Hps1 & Hlen1 & Hfr1 & _ & _).
  destruct (frame bpm1 f0) as [p0|] eqn:Hp0; [|done]. cbn [of_option rbind].
  destruct (ExtHash.Insert hash fuel
              (page_table_ (set_frame bpm1 f0
                 (mkPage page_id 0 false (ReadPage (disk_manager_ bpm1) page_id))))
              page_id f0) as [t| |] eqn:Hins; [|done..].
  cbn [rbind].
  destruct (pin fuel _ f0) as [bpm3| |] eqn:Hpin; [|done..].
  cbn [rbind]. intros [= <- <-].
  destruct (install_spec fuel bpm1 f0 p0 _ _ t bpm3 Hwf1 Hp0 Hins Hpin)
    as (Hf & Hfr & Htf & Hto & Hwf3 & Hfl & Hd & Hnp & Hps & Hlen & Hrep).
  exists bpm1. split_and!; try done.
  - by rewrite Hnp.
  - rewrite Hf. simpl. by rewrite Hd.
  - intros g Hg'. rewrite Hfr by done. by apply Hfr1.
  - by rewrite Hps.
  - by rewrite Hlen.
Qed.

(** ** [UnpinPgImp] *)
Lemma UnpinPgImp_Ok fuel bpm page_id is_dirty bpm' r :
  UnpinPgImp hash fuel bpm page_id is_dirty = Ok (bpm', r) ->
  (r = false ∧ bpm' = bpm ∧
   (table_find hash bpm page_id = Some None ∨
    ∃ f p, table_find hash bpm page_id = Some (Some f) ∧ frame bpm f = Some p ∧
           pin_count_ p ≤ 0)) ∨
  (r = true ∧
   ∃ f p, table_find hash bpm page_id = Some (Some f) ∧ frame bpm f = Some p ∧
          0 < pin_count_ p ∧
          frame bpm' f = Some (mkPage (page_id_ p) (pin_count_ p - 1)
                                      (is_dirty_ p || is_dirty) (data_ p)) ∧
          (∀ g, g ≠ f -> frame bpm' g = frame bpm g) ∧
          page_table_ bpm' = page_table_ bpm ∧ free_list_ bpm' = free_list_ bpm ∧
          disk_manager_ bpm' = disk_manager_ bpm ∧
          next_page_id_ bpm' = next_page_id_ bpm ∧
          pool_size_ bpm' = pool_size_ bpm ∧
          length (pages_ bpm') = length (pages_ bpm) ∧
          (if decide (pin_count_ p = 1)
           then LRUK.SetEvictable fuel (replacer_ bpm) f true = Ok (replacer_ bpm')
           else replacer_ bpm' = replacer_ bpm)).
Proof.
  unfold UnpinPgImp. destruct (table_find hash bpm page_id) as [[f|]|] eqn:Ht; [| |done].
  2:{ cbn [of_option rbind]. intros [= <- <-]. left. split_and!; try done. by left. }
  cbn [of_option rbind].
  destruct (frame bpm f) as [p|] eqn:Hp; [|done]. cbn [of_option rbind].
  destruct (decide (pin_count_ p ≤ 0)) as [Hle|Hgt].
  { intros [= <- <-]. left. split_and!; try done. right. by exists f, p. }
  pose proof (frame_Some _ _ _ Hp) as [H0 _].
  set (pg := mkPage (page_id_ p) (pin_count_ p - 1) (is_dirty_ p) (data_ p)).
  set (bpm1 := set_frame bpm f pg).
  assert (∀ r2 bpm'' r'',
    Ok (if is_dirty
        then set_frame (set_replacer bpm1 r2) f
               (mkPage (page_id_ pg) (pin_count_ pg) true (data_ pg))
        else set_replacer bpm1 r2, true) = Ok (bpm'', r'') ->
    r'' = true ∧
    frame bpm'' f = Some (mkPage (page_id_ p) (pin_count_ p - 1)
                                 (is_dirty_ p || is_dirty) (data_ p)) ∧
    (∀ g, g ≠ f -> frame bpm'' g = frame bpm g) ∧
    page_table_ bpm'' = page_table_ bpm ∧ free_list_ bpm'' = free_list_ bpm ∧
    disk_manager_ bpm'' = disk_manager_ bpm ∧
    next_page_id_ bpm'' = next_page_id_ bpm ∧
    pool_size_ bpm'' = pool_size_ bpm ∧
    length (pages_ bpm'') = length (pages_ bpm) ∧
    replacer_ bpm'' = r2) as Hend.
  { intros r2 bpm'' r'' [= <- <-]. split; [done|].
    assert (frame (set_replacer bpm1 r2) f = Some pg) as Hpg
      by (by apply (frame_set_frame_eq bpm f p)).
    destruct is_dirty.
    - split_and!; try done.
      + rewrite (frame_set_frame_eq _ f pg) by done. simpl. by rewrite orb_true_r.
      + intros g Hg. rewrite frame_set_frame_ne by done.
        rewrite frame_set_replacer. by apply frame_set_frame_ne.
      + simpl. by rewrite !length_insert.
    - split_and!; try done.
      + rewrite Hpg. unfold pg. by rewrite orb_false_r.
      + intros g Hg. rewrite frame_set_replacer. by apply frame_set_frame_ne.
      + simpl. by rewrite length_insert. }
  assert (frame bpm1 f = Some pg) as Hpg1 by (by apply (frame_set_frame_eq bpm f p)).
  destruct (decide (pin_count_ p - 1 = 0)) as [H1|H1].
  - change (replacer_ bpm1) with (replacer_ bpm).
    destruct (LRUK.SetEvictable fuel (replacer_ bpm) f true) as [r2| |] eqn:Hse; [|done..].
    cbn [rbind]. rewrite frame_set_replacer, Hpg1. cbn [of_option rbind].
    intros Heq. apply Hend in Heq as (-> & Hf & Hfr & Hpt & Hfl & Hd & Hnp & Hps & Hlen & Hrep).
    right. split; [done|]. exists f, p. split_and!; try done; [lia|].
    rewrite decide_True by lia. by rewrite Hrep.
  - cbn [rbind]. rewrite Hpg1. cbn [of_option rbind].
    pose proof (Hend (replacer_ bpm1) bpm' r) as Hend'.
    rewrite (BufferPoolFacts.set_replacer_id bpm1) in Hend'.
    intros Heq. apply Hend' in Heq as (-> & Hf & Hfr & Hpt & Hfl & Hd & Hnp & Hps & Hlen & Hrep).
    right. split; [done|]. exists f, p. split_and!; try done; [lia|].
    rewrite decide_False by lia. by rewrite Hrep.
Qed.

(** ** [FlushPgImp] *)
Lemma FlushPgImp_Some bpm page_id bpm' r :
  FlushPgImp hash bpm page_id = Some (bpm', r) ->
  (r = false ∧ bpm' = bpm ∧ table_find hash bpm page_id = Some None) ∨
  (r = true ∧
   ∃ f p, table_find hash bpm page_id = Some (Some f) ∧ frame bpm f = Some p ∧
          frame bpm' f = Some (mkPage (page_id_ p) (pin_count_ p) false (data_ p)) ∧
          (∀ g, g ≠ f -> frame bpm' g = frame bpm g) ∧
          disk_manager_ bpm' = WritePage (disk_manager_ bpm) page_id (data_ p) ∧
          page_table_ bpm' = page_table_ bpm ∧ free_list_ bpm' = free_list_ bpm ∧
          replacer_ bpm' = replacer_ bpm ∧
          next_page_id_ bpm' = next_page_id_ bpm ∧
          pool_size_ bpm' = pool_size_ bpm ∧
          length (pages_ bpm') = length (pages_ bpm)).
Proof.
  unfold FlushPgImp. destruct (table_find hash bpm page_id) as [[f|]|] eqn:Ht; [| |done].
  2:{ cbn [mbind option_bind]. intros [= <- <-]. by left. }
  cbn [mbind option_bind].
  destruct (frame bpm f) as [p|] eqn:Hp; [|done]. cbn [mbind option_bind].
  pose proof (frame_Some _ _ _ Hp) as [H0 _].
  intros [= <- <-]. right. split; [done|]. exists f, p. split_and!; try done.
  - by apply (frame_set_frame_eq _ f p).
  - intros g Hg. by rewrite frame_set_frame_ne.
  - simpl. by rewrite length_insert.
Qed.

(** ** [DeletePgImp] *)
Lemma DeletePgImp_Some bpm page_id bpm' r :
  ExtHash.wf hash (page_table_ bpm) ->
  DeletePgImp hash bpm page_id = Some (bpm', r) ->
  (r = true ∧ bpm' = bpm ∧ table_find hash bpm page_id = Some None) ∨
  (∃ f p, table_find hash bpm page_id = Some (Some f) ∧ frame bpm f = Some p ∧
     if decide (0 < pin_count_ p) then r = false ∧ bpm' = bpm
     else
       r = true ∧
       frame bpm' f = Some (mkPage INVALID_PAGE_ID 0 false Zeroed) ∧
       (∀ g, g ≠ f -> frame bpm' g = frame bpm g) ∧
       table_find hash bpm' page_id = Some None ∧
       (∀ q, q ≠ page_id -> table_find hash bpm' q = table_find hash bpm q) ∧
       free_list_ bpm' = free_list_ bpm ++ [f] ∧
       LRUK.Remove (replacer_ bpm) f = Some (replacer_ bpm') ∧
       disk_manager_ bpm' = disk_manager_ bpm ∧
       next_page_id_ bpm' = next_page_id_ bpm ∧
       ExtHash.wf hash (page_table_ bpm') ∧
       pool_size_ bpm' = pool_size_ bpm ∧
       length (pages_ bpm') = length (pages_ bpm)).
Proof.
  intros Hwf. unfold DeletePgImp.
  destruct (table_find hash bpm page_id) as [[f|]|] eqn:Ht; [| |done].
  2:{ cbn [mbind option_bind]. intros [= <- <-]. by left. }
  cbn [mbind option_bind].
  destruct (frame bpm f) as [p|] eqn:Hp; [|done]. cbn [mbind option_bind].
  pose proof (frame_Some _ _ _ Hp) as [H0 _].
  right. exists f, p. split; [done|]. split; [done|].
  destruct (decide (0 < pin_count_ p)) as [Hpin|Hpin]; [by injection H as <- <-|].
  revert H. unfold table_remove.
  destruct (ExtHashFacts.Remove_spec hash (page_table_ bpm) page_id Hwf)
    as (b & t' & Hr & Hwf' & Hfk & Hfo).
  rewrite Hr. cbn [mbind option_bind snd].
  change (replacer_ (set_page_table bpm t')) with (replacer_ bpm).
  destruct (LRUK.Remove (replacer_ bpm) f) as [r1|] eqn:Hrem; [|done].
  cbn [mbind option_bind].
  set (bpm2 := set_free_list _ _).
  change (frame bpm2 f) with (frame bpm f). rewrite Hp. cbn [mbind option_bind].
  unfold DeallocatePage. intros [= <- <-]. split_and!; try done.
  - by apply (frame_set_frame_eq bpm2 f p).
  - intros g Hg. by rewrite frame_set_frame_ne.
  - simpl. by rewrite length_insert.
Qed.

(** ** The invariant *)
Lemma new_pool_ok pool_size replacer_k bucket_size :
  pool_ok hash (BufferPool.new pool_size replacer_k bucket_size).
Proof.
  assert (∀ f p, frame (BufferPool.new pool_size replacer_k bucket_size) f = Some p ->
                 page_id_ p = INVALID_PAGE_ID) as Hfr.
  { intros f p Hp. apply frame_Some in Hp as [_ Hp]. simpl in Hp.
    apply lookup_replicate in Hp as [-> _]. done. }
  assert (∀ q, table_find hash (BufferPool.new pool_size replacer_k bucket_size) q = Some None)
    as Htb.
  { intros q. unfold table_find, ExtHash.Find, ExtHash.GetIndexBucket.
    assert (ExtHash.IndexOf hash
              (page_table_ (BufferPool.new pool_size replacer_k bucket_size)) q = 0%nat) as ->
      by (rewrite ExtHashFacts.IndexOf_spec; apply Nat.mod_1_r).
    done. }
  split_and!.
  - apply ExtHashFacts.wf_new.
  - simpl. by rewrite length_replicate.
  - simpl. apply NoDup_fmap_2; [intros ???; lia|]. apply NoDup_seq.
  - done.
  - intros f p Hp Hid. by apply Hfr in Hp.
  - intros q f Hq. by rewrite Htb in Hq.
Qed.

(** Changes that leave the page ids of the frames, the page table and the
    free list alone keep the invariant. *)
Lemma pool_ok_same_ids bpm bpm' :
  pool_ok hash bpm ->
  page_table_ bpm' = page_table_ bpm ->
  free_list_ bpm' = free_list_ bpm ->
  next_page_id_ bpm' = next_page_id_ bpm ->
  pool_size_ bpm' = pool_size_ bpm ->
  length (pages_ bpm') = length (pages_ bpm) ->
  (∀ g p', frame bpm' g = Some p' -> ∃ p, frame bpm g = Some p ∧ page_id_ p = page_id_ p') ->
  (∀ g p, frame bpm g = Some p -> ∃ p', frame bpm' g = Some p' ∧ page_id_ p' = page_id_ p) ->
  pool_ok hash bpm'.
Proof.
  intros (Hwf & Hlen & Hnd & Hnx & Hfr & Htb) Hpt Hfl Hnp Hps Hlen' Hback Hforth.
  unfold pool_ok, table_find. rewrite Hpt, Hfl, Hnp, Hps, Hlen'. split_and!; try done.
  - intros f p' Hp' Hid. destruct (Hback f p' Hp') as (p & Hp & Heq).
    rewrite <- Heq in *. by apply Hfr.
  - intros q f Hq. destruct (Htb q f Hq) as (Hq1 & Hq2 & p & Hp & Hpid).
    split_and!; try done. destruct (Hforth f p Hp) as (p' & Hp' & Heq).
    exists p'. split; [done|]. by rewrite Heq.
Qed.

(** One frame gets a page with the page id it had. *)
Lemma pool_ok_one_frame bpm bpm' f p p' :
  pool_ok hash bpm ->
  frame bpm f = Some p -> frame bpm' f = Some p' -> page_id_ p' = page_id_ p ->
  (∀ g, g ≠ f -> frame bpm' g = frame bpm g) ->
  page_table_ bpm' = page_table_ bpm ->
  free_list_ bpm' = free_list_ bpm ->
  next_page_id_ bpm' = next_page_id_ bpm ->
  pool_size_ bpm' = pool_size_ bpm ->
  length (pages_ bpm') = length (pages_ bpm) ->
  pool_ok hash bpm'.
Proof.
  intros Hok Hp Hp' Hid Hfr Hpt Hfl Hnp Hps Hlen.
  apply (pool_ok_same_ids bpm bpm'); try done.
  - intros g q' Hq'. destruct (decide (g = f)) as [->|Hg].
    + exists p. rewrite Hp' in Hq'. injection Hq' as <-. done.
    + exists q'. by rewrite <- Hfr.
  - intros g q Hq. destruct (decide (g = f)) as [->|Hg].
    + exists p'. rewrite Hp in Hq. injection Hq as <-. done.
    + exists q. by rewrite Hfr.
Qed.

Lemma pin_ok fuel bpm f bpm' : pool_ok hash bpm -> pin fuel bpm f = Ok bpm' -> pool_ok hash bpm'.
Proof.
  intros Hok Hpin.
  destruct (pin_spec fuel bpm f bpm' Hpin)
    as (p & Hp & Hp' & Hfr & Hpt & Hfl & Hd & Hnp & Hps & Hlen & _).
  by apply (pool_ok_one_frame bpm bpm' f p _ Hok Hp Hp').
Qed.

(** A frame is taken by [GetAvailableFrame] and given the page [page_id],
    which no frame holds. *)
Lemma take_frame_ok fuel bpm bpm1 bpm' f page_id pg :
  pool_ok hash bpm ->
  GetAvailableFrame hash fuel bpm = Ok (bpm1, Some f) ->
  page_id ≠ INVALID_PAGE_ID ->
  page_id < next_page_id_ bpm' ->
  next_page_id_ bpm ≤ next_page_id_ bpm' ->
  (∀ g p, frame bpm g = Some p -> page_id_ p ≠ page_id) ->
  frame bpm' f = Some pg -> page_id_ pg = page_id ->
  (∀ g, g ≠ f -> frame bpm' g = frame bpm g) ->
  table_find hash bpm' page_id = Some (Some f) ->
  (∀ q, q ≠ page_id -> table_find hash bpm' q = table_find hash bpm1 q) ->
  ExtHash.wf hash (page_table_ bpm') ->
  free_list_ bpm' = free_list_ bpm1 ->
  pool_size_ bpm' = pool_size_ bpm ->
  length (pages_ bpm') = length (pages_ bpm) ->
  pool_ok hash bpm'.
Proof.
  intros (Hwf & Hlen & Hnd & Hnx & Hfr & Htb) Hg Hvalid Hlt Hle Hfresh Hpg Hpgid Hfr' Htf Hto
         Hwf' Hfl' Hps' Hlen'.
  destruct (GetAvailableFrame_Some fuel bpm bpm1 f Hwf Hg)
    as (_ & Hnp1 & _ & _ & _ & _ & Hcase).
  assert (0 ≤ next_page_id_ bpm') as Hnx' by lia.
  assert (NoDup (free_list_ bpm') ∧ f ∉ free_list_ bpm') as [Hnd' Hnotin].
  { rewrite Hfl'. destruct Hcase as [(Hfl & _)|(_ & Hfl1 & _)].
    - rewrite Hfl in Hnd. by apply NoDup_cons in Hnd as [? ?].
    - rewrite Hfl1. split; [constructor|]. apply not_elem_of_nil. }
  assert (∀ q g, q ≠ page_id -> table_find hash bpm' q = Some (Some g) ->
                 table_find hash bpm q = Some (Some g)) as Hold.
  { intros q g Hq Hfind. rewrite Hto in Hfind by done.
    destruct Hcase as [(_ & Hpt & _)|(_ & _ & _ & pv & Hpv & Hnone & Hsame & _)].
    - unfold table_find in *. by rewrite <- Hpt.
    - rewrite <- Hsame; [done|]. intros ->. by rewrite Hnone in Hfind. }
  assert (∀ q g, q ≠ page_id -> table_find hash bpm' q = Some (Some g) -> g ≠ f) as Hother.
  { intros q g Hq Hfind ->.
    pose proof (Hold q f Hq Hfind) as Hb. destruct (Htb q f Hb) as (_ & Hnin & p & Hp & Hpid).
    destruct Hcase as [(Hfl & _)|(_ & _ & _ & pv & Hpv & Hnone & Hsame & _)].
    - apply Hnin. rewrite Hfl. apply elem_of_cons. by left.
    - rewrite Hp in Hpv. injection Hpv as <-. rewrite Hpid in Hnone.
      rewrite Hto in Hfind by done. by rewrite Hnone in Hfind. }
  unfold pool_ok. rewrite Hps', Hlen'. split_and!; try done.
  - intros g p Hp Hid. destruct (decide (g = f)) as [->|Hgf].
    + rewrite Hpg in Hp. injection Hp as <-. rewrite Hpgid. done.
    + rewrite Hfr' in Hp by done. destruct (Hfr g p Hp Hid) as [Hlt' Hb].
      split; [lia|]. pose proof (Hfresh g p Hp) as Hne. rewrite Hto by done.
      destruct Hcase as [(_ & Hpt & _)|(_ & _ & _ & pv & Hpv & Hnone & Hsame & _)].
      * unfold table_find in *. by rewrite Hpt.
      * rewrite Hsame; [done|]. intros Heq.
        destruct (decide (page_id_ pv = INVALID_PAGE_ID)) as [Hinv|Hinv]; [congruence|].
        destruct (Hfr f pv Hpv Hinv) as [_ Hbf]. rewrite <- Heq in Hbf. congruence.
  - intros q g Hfind. destruct (decide (q = page_id)) as [->|Hq].
    + rewrite Htf in Hfind. injection Hfind as <-. split_and!; try done. by exists pg.
    + pose proof (Hold q g Hq Hfind) as Hb. pose proof (Hother q g Hq Hfind) as Hgf.
      destruct (Htb q g Hb) as (Hq1 & Hnin & p & Hp & Hpid). split_and!; try done.
      * rewrite Hfl'. destruct Hcase as [(Hfl & _)|(_ & Hfl1 & _)].
        -- rewrite Hfl in Hnin. by apply not_elem_of_cons in Hnin as [_ ?].
        -- rewrite Hfl1. apply not_elem_of_nil.
      * exists p. by rewrite Hfr'.
Qed.

Lemma NewPgImp_ok fuel bpm bpm' r :
  pool_ok hash bpm -> NewPgImp hash fuel bpm = Ok (bpm', r) -> pool_ok hash bpm'.
Proof.
  intros Hok Hnew. destruct r as [[page_id f]|].
  2:{ by apply BufferPoolFacts.NewPgImp_None in Hnew as [-> _]. }
  pose proof Hok as (Hwf & Hlen & Hnd & Hnx & Hfr & Htb).
  destruct (NewPgImp_Some fuel bpm bpm' page_id f Hwf Hnew)
    as (bpm1 & Hg & Hpid & Hnp & Hf & Hfr' & Htf & Hto & Hwf' & Hfl & _ & Hps & Hlen' & _).
  apply (take_frame_ok fuel bpm bpm1 bpm' f page_id (mkPage page_id 1 false Zeroed));
    try done.
  - unfold INVALID_PAGE_ID. lia.
  - lia.
  - lia.
  - intros g p Hp Heq.
    assert (page_id_ p ≠ INVALID_PAGE_ID) as Hv by (unfold INVALID_PAGE_ID; lia).
    destruct (Hfr g p Hp Hv). lia.
Qed.

Lemma FetchPgImp_ok fuel bpm page_id bpm' r :
  pool_ok hash bpm -> 0 ≤ page_id < next_page_id_ bpm ->
  FetchPgImp hash fuel bpm page_id = Ok (bpm', r) -> pool_ok hash bpm'.
Proof.
  intros Hok Hrange Hfetch.
  pose proof Hok as (Hwf & Hlen & Hnd & Hnx & Hfr & Htb).
  destruct (table_find_total bpm page_id Hwf) as [[f0|] Ht].
  { destruct (FetchPgImp_hit fuel bpm bpm' page_id f0 r Ht Hfetch) as [_ Hpin].
    by apply (pin_ok fuel bpm f0). }
  destruct r as [f|].
  2:{ by apply (BufferPoolFacts.FetchPgImp_None hash fuel bpm page_id bpm' Ht) in Hfetch as [-> _]. }
  destruct (FetchPgImp_miss fuel bpm bpm' page_id f Hwf Ht Hfetch)
    as (bpm1 & Hg & Hnp & Hf & Hfr' & Htf & Hto & Hwf' & Hfl & _ & Hps & Hlen' & _).
  apply (take_frame_ok fuel bpm bpm1 bpm' f page_id
           (mkPage page_id 1 false (ReadPage (disk_manager_ bpm') page_id))); try done.
  - unfold INVALID_PAGE_ID. lia.
  - lia.
  - lia.
  - intros g p Hp Heq.
    assert (page_id_ p ≠ INVALID_PAGE_ID) as Hv by (unfold INVALID_PAGE_ID; lia).
    destruct (Hfr g p Hp Hv) as [_ Hb]. rewrite Heq in Hb. congruence.
Qed.

Lemma UnpinPgImp_ok fuel bpm page_id is_dirty bpm' r :
  pool_ok hash bpm -> UnpinPgImp hash fuel bpm page_id is_dirty = Ok (bpm', r) ->
  pool_ok hash bpm'.
Proof.
  intros Hok Hun. destruct (UnpinPgImp_Ok fuel bpm page_id is_dirty bpm' r Hun)
    as [(_ & -> & _)|(_ & f & p & Ht & Hp & _ & Hp' & Hfr & Hpt & Hfl & _ & Hnp & Hps & Hlen & _)];
    [done|].
  by apply (pool_ok_one_frame bpm bpm' f p _ Hok Hp Hp').
Qed.

Lemma FlushPgImp_ok bpm page_id bpm' r :
  pool_ok hash bpm -> FlushPgImp hash bpm page_id = Some (bpm', r) -> pool_ok hash bpm'.
Proof.
  intros Hok Hfl. destruct (FlushPgImp_Some bpm page_id bpm' r Hfl)
    as [(_ & -> & _)|(_ & f & p & Ht & Hp & Hp' & Hfr & _ & Hpt & Hfl' & _ & Hnp & Hps & Hlen)];
    [done|].
  by apply (pool_ok_one_frame bpm bpm' f p _ Hok Hp Hp').
Qed.

Lemma write_data_ok bpm f data bpm' :
  pool_ok hash bpm -> write_data bpm f data = Some bpm' -> pool_ok hash bpm'.
Proof.
  intros Hok. unfold write_data. destruct (frame bpm f) as [p|] eqn:Hp; [|done].
  cbn [mbind option_bind]. intros [= <-].
  pose proof (frame_Some _ _ _ Hp) as [H0 _].
  apply (pool_ok_one_frame bpm _ f p (mkPage (page_id_ p) (pin_count_ p) (is_dirty_ p) data) Hok Hp);
    try done.
  - by apply (frame_set_frame_eq bpm f p).
  - intros g Hg. by apply frame_set_frame_ne.
  - simpl. by rewrite length_insert.
Qed.

Lemma DeletePgImp_ok bpm page_id bpm' r :
  pool_ok hash bpm -> DeletePgImp hash bpm page_id = Some (bpm', r) -> pool_ok hash bpm'.
Proof.
  intros Hok Hdel. pose proof Hok as (Hwf & Hlen & Hnd & Hnx & Hfr & Htb).
  destruct (DeletePgImp_Some bpm page_id bpm' r Hwf Hdel)
    as [(_ & -> & _)|(f & p & Ht & Hp & Hcase)]; [done|].
  destruct (decide (0 < pin_count_ p)) as [Hpin|Hpin]; [by destruct Hcase as [_ ->]|].
  destruct Hcase as (_ & Hp' & Hfr' & Hnone & Hto & Hfl & _ & _ & Hnp & Hwf' & Hps & Hlen').
  destruct (Htb page_id f Ht) as (Hvalid & Hnin & p0 & Hp0 & Hpid).
  rewrite Hp in Hp0. injection Hp0 as <-.
  unfold pool_ok. rewrite Hfl, Hnp, Hps, Hlen'. split_and!; try done.
  - apply NoDup_app. split_and!; [done| |apply NoDup_singleton].
    intros x Hx ->%list_elem_of_singleton. done.
  - intros g q Hq Hid. destruct (decide (g = f)) as [->|Hgf].
    + rewrite Hp' in Hq. injection Hq as <-. done.
    + rewrite Hfr' in Hq by done. destruct (Hfr g q Hq Hid) as [Hlt Hb]. split; [done|].
      rewrite Hto; [done|]. intros Heq. rewrite Heq in Hb. congruence.
  - intros q g Hfind. destruct (decide (q = page_id)) as [->|Hq]; [congruence|].
    rewrite Hto in Hfind by done.
    destruct (Htb q g Hfind) as (Hq1 & Hq2 & pq & Hpq & Hqid).
    assert (g ≠ f) as Hgf.
    { intros ->. rewrite Hp in Hpq. injection Hpq as <-. congruence. }
    split_and!; try done.
    + rewrite elem_of_app, list_elem_of_singleton. tauto.
    + exists pq. by rewrite Hfr'.
Qed.

Lemma flush_from_ok n : ∀ i bpm bpm',
  pool_ok hash bpm -> flush_from hash n i bpm = Some bpm' -> pool_ok hash bpm'.
Proof.
  induction n as [|n IH]; intros i bpm bpm' Hok; simpl; [by intros [= <-]|].
  destruct (pages_ bpm !! i) as [p|]; [|done]. cbn [mbind option_bind].
  destruct (decide (page_id_ p ≠ INVALID_PAGE_ID)).
  - destruct (FlushPgImp hash bpm (page_id_ p)) as [[bpm1 r]|] eqn:Hfl; [|done].
    cbn [fmap option_fmap option_map mbind option_bind fst]. apply IH.
    by apply (FlushPgImp_ok bpm (page_id_ p) bpm1 r).
  - cbn [mbind option_bind]. by apply IH.
Qed.

Lemma pool_built_ok bpm : pool_built hash bpm -> pool_ok hash bpm.
Proof.
  induction 1 as [| fuel bpm bpm' r _ IH _ Hc | fuel bpm page_id bpm' r _ IH _ Hr Hc
                  | fuel bpm page_id d bpm' r _ IH Hc | bpm page_id bpm' r _ IH Hc
                  | bpm bpm' _ IH Hc | bpm page_id bpm' r _ IH Hc | bpm f data bpm' _ IH Hc].
  - apply new_pool_ok.
  - by apply (NewPgImp_ok fuel bpm bpm' r).
  - by apply (FetchPgImp_ok fuel bpm page_id bpm' r).
  - by apply (UnpinPgImp_ok fuel bpm page_id d bpm' r).
  - by apply (FlushPgImp_ok bpm page_id bpm' r).
  - by apply (flush_from_ok (pool_size_ bpm) 0%nat bpm bpm').
  - by apply (DeletePgImp_ok bpm page_id bpm' r).
  - by apply (write_data_ok bpm f data bpm').
Qed.

(** ** Pinned pages and the replacer *)
Lemma new_pins_ok pool_size replacer_k bucket_size :
  Z.of_nat pool_size < 2 ^ 64 ->
  pins_ok (BufferPool.new pool_size replacer_k bucket_size).
Proof.
  intros Hlt. exists [], []. split; [apply ReplacerFacts.new_ok; lia|].
  intros f Hf. by apply elem_of_nil in Hf.
Qed.

(** One frame gets a page with the pin count it had. *)
Lemma pins_ok_one_frame bpm bpm' f p p' :
  pins_ok bpm ->
  frame bpm f = Some p -> frame bpm' f = Some p' -> pin_count_ p' = pin_count_ p ->
  (∀ g, g ≠ f -> frame bpm' g = frame bpm g) ->
  replacer_ bpm' = replacer_ bpm -> free_list_ bpm' = free_list_ bpm ->
  pins_ok bpm'.
Proof.
  intros (hs & bs & Hok & Hl) Hp Hp' Hpin Hfr Hrep Hfl. exists hs, bs. rewrite Hrep, Hfl.
  split; [done|]. intros g Hg. destruct (Hl g Hg) as (Hnin & q & Hq & Hq0). split; [done|].
  destruct (decide (g = f)) as [->|Hgf].
  - exists p'. split; [done|]. rewrite Hp in Hq. injection Hq as <-. lia.
  - exists q. by rewrite Hfr.
Qed.

Lemma pin_pins_ok fuel bpm f bpm' :
  pins_ok bpm -> counts_below_limit (replacer_ bpm) ->
  pin fuel bpm f = Ok bpm' -> pins_ok bpm'.
Proof.
  intros (hs & bs & Hok & Hl) Hlim Hpin.
  destruct (pin_spec fuel bpm f bpm' Hpin)
    as (p & Hp & Hp' & Hfr & _ & Hfl & _ & _ & _ & _ & r1 & Hra & Hse).
  destruct (ReplacerFacts.pin_lists fuel _ hs bs f r1 _ Hok (Hlim f) Hra Hse)
    as (hs' & bs' & Hok' & Hnf & Hsub).
  exists hs', bs'. split; [done|]. intros g Hg.
  assert (g ≠ f) as Hgf by (by intros ->).
  destruct (Hl g (Hsub g Hg)) as (Hnin & q & Hq & Hq0). split; [by rewrite Hfl|].
  exists q. by rewrite Hfr.
Qed.

(** The frame [GetAvailableFrame] gives is not in the lists of the replacer
    afterwards, and when it was taken from the replacer its page was not
    pinned. *)
Lemma GetAvailableFrame_pins fuel bpm bpm1 f :
  ExtHash.wf hash (page_table_ bpm) -> pins_ok bpm ->
  GetAvailableFrame hash fuel bpm = Ok (bpm1, Some f) ->
  (∃ hs bs, replacer_ok (replacer_ bpm1) hs bs ∧ (f ∉ hs ++ bs) ∧
     ∀ g, g ∈ hs ++ bs ->
       (g ∉ free_list_ bpm1) ∧ ∃ p, frame bpm g = Some p ∧ pin_count_ p = 0) ∧
  (free_list_ bpm = [] -> ∃ p, frame bpm f = Some p ∧ pin_count_ p = 0) ∧
  (counts_below_limit (replacer_ bpm) -> counts_below_limit (replacer_ bpm1)).
Proof.
  intros Hwf (hs & bs & Hok & Hl) Hg.
  destruct (GetAvailableFrame_Some fuel bpm bpm1 f Hwf Hg) as (_ & _ & _ & _ & _ & _ & Hcase).
  destruct Hcase as [(Hfl & _ & _ & _ & Hrep)|(Hfl & Hfl1 & Hev & _)].
  - rewrite Hrep, Hfl. split_and!; [|done|done]. exists hs, bs. split; [done|].
    assert (∀ g, g ∈ hs ++ bs -> g ∉ f :: free_list_ bpm1) as Hout.
    { intros g Hin. destruct (Hl g Hin) as [Hnin _]. by rewrite Hfl in Hnin. }
    split.
    + intros Hin. apply (Hout f Hin). apply elem_of_cons. by left.
    + intros g Hin. destruct (Hl g Hin) as (_ & Hpg). split; [|done].
      intros Hin1. apply (Hout g Hin). apply elem_of_cons. by right.
  - destruct (ReplacerFacts.Evict_lists fuel _ hs bs _ _ Hok Hev)
      as (hs' & bs' & Hok' & Hsub & Hvic & Hcnt).
    split_and!.
    + exists hs', bs'. split; [done|]. split.
      * intros Hin. by destruct (Hsub f Hin) as [_ ?].
      * intros g Hin. destruct (Hsub g Hin) as [Hold _]. destruct (Hl g Hold) as (_ & Hpg).
        split; [|done]. rewrite Hfl1. apply not_elem_of_nil.
    + intros _. by destruct (Hl f (Hvic f eq_refl)) as (_ & ?).
    + intros Hlim g n Hn. destruct (Hcnt g n Hn) as [->|(n0 & Hn0 & <-)]; [done|].
      by apply (Hlim g n0).
Qed.

(** A frame is taken by [GetAvailableFrame] and pinned. *)
Lemma take_frame_pins fuel bpm bpm1 bpm' f r1 :
  ExtHash.wf hash (page_table_ bpm) -> pins_ok bpm ->
  counts_below_limit (replacer_ bpm) ->
  GetAvailableFrame hash fuel bpm = Ok (bpm1, Some f) ->
  (∀ g, g ≠ f -> frame bpm' g = frame bpm g) ->
  free_list_ bpm' = free_list_ bpm1 ->
  LRUK.RecordAccess (replacer_ bpm1) f = Some r1 ->
  LRUK.SetEvictable fuel r1 f false = Ok (replacer_ bpm') ->
  pins_ok bpm'.
Proof.
  intros Hwf Hpins Hlim Hg Hfr Hfl Hra Hse.
  destruct (GetAvailableFrame_pins fuel bpm bpm1 f Hwf Hpins Hg)
    as ((hs & bs & Hok & Hnf & Hl) & _ & Hlim1).
  destruct (ReplacerFacts.pin_lists fuel _ hs bs f r1 _ Hok (Hlim1 Hlim f) Hra Hse)
    as (hs' & bs' & Hok' & Hnf' & Hsub).
  exists hs', bs'. split; [done|]. intros g Hin.
  assert (g ≠ f) as Hgf by (by intros ->).
  destruct (Hl g (Hsub g Hin)) as (Hnin & q & Hq & Hq0). split; [by rewrite Hfl|].
  exists q. by rewrite Hfr.
Qed.

Lemma NewPgImp_pins fuel bpm bpm' r :
  pool_ok hash bpm -> pins_ok bpm -> counts_below_limit (replacer_ bpm) ->
  NewPgImp hash fuel bpm = Ok (bpm', r) -> pins_ok bpm'.
Proof.
  intros (Hwf & _) Hpins Hlim Hnew. destruct r as [[page_id f]|].
  2:{ by apply BufferPoolFacts.NewPgImp_None in Hnew as [-> _]. }
  destruct (NewPgImp_Some fuel bpm bpm' page_id f Hwf Hnew)
    as (bpm1 & Hg & _ & _ & _ & Hfr & _ & _ & _ & Hfl & _ & _ & _ & r1 & Hra & Hse).
  by apply (take_frame_pins fuel bpm bpm1 bpm' f r1).
Qed.

Lemma FetchPgImp_pins fuel bpm page_id bpm' r :
  pool_ok hash bpm -> pins_ok bpm -> counts_below_limit (replacer_ bpm) ->
  FetchPgImp hash fuel bpm page_id = Ok (bpm', r) -> pins_ok bpm'.
Proof.
  intros (Hwf & _) Hpins Hlim Hfetch.
  destruct (table_find_total bpm page_id Hwf) as [[f0|] Ht].
  { destruct (FetchPgImp_hit fuel bpm bpm' page_id f0 r Ht Hfetch) as [_ Hpin].
    by apply (pin_pins_ok fuel bpm f0). }
  destruct r as [f|].
  2:{ by destruct (BufferPoolFacts.FetchPgImp_None hash fuel bpm page_id bpm' Ht Hfetch)
        as [-> _]. }
  destruct (FetchPgImp_miss fuel bpm bpm' page_id f Hwf Ht Hfetch)
    as (bpm1 & Hg & _ & _ & Hfr & _ & _ & _ & Hfl & _ & _ & _ & r1 & Hra & Hse).
  by apply (take_frame_pins fuel bpm bpm1 bpm' f r1).
Qed.

Lemma UnpinPgImp_pins fuel bpm page_id is_dirty bpm' r :
  pool_ok hash bpm -> pins_ok bpm ->
  UnpinPgImp hash fuel bpm page_id is_dirty = Ok (bpm', r) -> pins_ok bpm'.
Proof.
  intros (_ & _ & _ & _ & _ & Htb) Hpins Hun.
  destruct (UnpinPgImp_Ok fuel bpm page_id is_dirty bpm' r Hun)
    as [(_ & -> & _)|(_ & f & p & Ht & Hp & Hpos & Hp' & Hfr & _ & Hfl & _ & _ & _ & _ & Hrep)];
    [done|].
  destruct Hpins as (hs & bs & Hok & Hl).
  destruct (Htb page_id f Ht) as (_ & Hnfl & _).
  assert (f ∉ hs ++ bs) as Hnf.
  { intros Hin. destruct (Hl f Hin) as (_ & q & Hq & Hq0). rewrite Hp in Hq.
    injection Hq as <-. lia. }
  destruct (decide (pin_count_ p = 1)) as [H1|H1].
  - destruct (ReplacerFacts.SetEvictable_true_lists fuel _ hs bs f _ Hok Hrep)
      as (hs' & bs' & Hok' & Hsub).
    exists hs', bs'. split; [done|]. intros g Hin. rewrite Hfl.
    destruct (decide (g = f)) as [->|Hgf].
    + split; [done|]. eexists. split; [exact Hp'|]. simpl. lia.
    + destruct (Hsub g Hin) as [->|Hold]; [done|].
      destruct (Hl g Hold) as (Hnin & q & Hq & Hq0). split; [done|]. exists q. by rewrite Hfr.
  - exists hs, bs. rewrite Hrep, Hfl. split; [done|]. intros g Hin.
    assert (g ≠ f) as Hgf by (by intros ->).
    destruct (Hl g Hin) as (Hnin & q & Hq & Hq0). split; [done|]. exists q. by rewrite Hfr.
Qed.

Lemma FlushPgImp_pins bpm page_id bpm' r :
  pins_ok bpm -> FlushPgImp hash bpm page_id = Some (bpm', r) -> pins_ok bpm'.
Proof.
  intros Hpins Hfl. destruct (FlushPgImp_Some bpm page_id bpm' r Hfl)
    as [(_ & -> & _)|(_ & f & p & _ & Hp & Hp' & Hfr & _ & _ & Hfl' & Hrep & _)]; [done|].
  by apply (pins_ok_one_frame bpm bpm' f p _ Hpins Hp Hp').
Qed.

Lemma flush_from_pins n : ∀ i bpm bpm',
  pins_ok bpm -> flush_from hash n i bpm = Some bpm' -> pins_ok bpm'.
Proof.
  induction n as [|n IH]; intros i bpm bpm' Hok; simpl; [by intros [= <-]|].
  destruct (pages_ bpm !! i) as [p|]; [|done]. cbn [mbind option_bind].
  destruct (decide (page_id_ p ≠ INVALID_PAGE_ID)).
  - destruct (FlushPgImp hash bpm (page_id_ p)) as [[bpm1 r]|] eqn:Hfl; [|done].
    cbn [fmap option_fmap option_map mbind option_bind fst]. apply IH.
    by apply (FlushPgImp_pins bpm (page_id_ p) bpm1 r).
  - cbn [mbind option_bind]. by apply IH.
Qed.

Lemma write_data_pins bpm f data bpm' :
  pins_ok bpm -> write_data bpm f data = Some bpm' -> pins_ok bpm'.
Proof.
  intros Hok. unfold write_data. destruct (frame bpm f) as [p|] eqn:Hp; [|done].
  cbn [mbind option_bind]. intros [= <-].
  pose proof (frame_Some _ _ _ Hp) as [H0 _].
  apply (pins_ok_one_frame bpm _ f p (mkPage (page_id_ p) (pin_count_ p) (is_dirty_ p) data)
           Hok Hp); try done.
  - by apply (frame_set_frame_eq bpm f p).
  - intros g Hg. by apply frame_set_frame_ne.
Qed.

Lemma DeletePgImp_pins bpm page_id bpm' r :
  pool_ok hash bpm -> pins_ok bpm ->
  DeletePgImp hash bpm page_id = Some (bpm', r) -> pins_ok bpm'.
Proof.
  intros (Hwf & _) Hpins Hdel.
  destruct (DeletePgImp_Some bpm page_id bpm' r Hwf Hdel)
    as [(_ & -> & _)|(f & p & Ht & Hp & Hcase)]; [done|].
  destruct (decide (0 < pin_count_ p)) as [Hpin|Hpin]; [by destruct Hcase as [_ ->]|].
  destruct Hcase as (_ & Hp' & Hfr & _ & _ & Hfl & Hrem & _).
  destruct Hpins as (hs & bs & Hok & Hl).
  destruct (ReplacerFacts.Remove_ok _ hs bs f Hok) as (r' & Hr' & _ & _ & _ & _ & Hok').
  rewrite Hr' in Hrem. injection Hrem as ->.
  exists (without f hs), (without f bs). split; [done|]. intros g Hin.
  rewrite elem_of_app, !ReplacerFacts.without_elem in Hin.
  assert (g ∈ hs ++ bs ∧ g ≠ f) as [Hold Hgf] by (rewrite elem_of_app; tauto).
  destruct (Hl g Hold) as (Hnin & q & Hq & Hq0). split.
  - rewrite Hfl, elem_of_app, list_elem_of_singleton. tauto.
  - exists q. by rewrite Hfr.
Qed.

Lemma pool_built_pins bpm : pool_built hash bpm -> pins_ok bpm.
Proof.
  induction 1 as [ps k b Hlt | fuel bpm bpm' r Hb IH Hlim Hc
                  | fuel bpm page_id bpm' r Hb IH Hlim Hr Hc
                  | fuel bpm page_id d bpm' r Hb IH Hc | bpm page_id bpm' r Hb IH Hc
                  | bpm bpm' Hb IH Hc | bpm page_id bpm' r Hb IH Hc | bpm f data bpm' Hb IH Hc].
  - by apply new_pins_ok.
  - apply (NewPgImp_pins fuel bpm bpm' r); [by apply pool_built_ok|done..].
  - apply (FetchPgImp_pins fuel bpm page_id bpm' r); [by apply pool_built_ok|done..].
  - apply (UnpinPgImp_pins fuel bpm page_id d bpm' r); [by apply pool_built_ok|done..].
  - by apply (FlushPgImp_pins bpm page_id bpm' r).
  - by apply (flush_from_pins (pool_size_ bpm) 0%nat bpm bpm').
  - apply (DeletePgImp_pins bpm page_id bpm' r); [by apply pool_built_ok|done..].
  - by apply (write_data_pins bpm f data bpm').
Qed.

(** ** [FlushAllPgsImp] *)
Lemma pool_ok_one_holder bpm i j p q :
  pool_ok hash bpm ->
  pages_ bpm !! i = Some p -> pages_ bpm !! j = Some q ->
  page_id_ p ≠ INVALID_PAGE_ID -> page_id_ q = page_id_ p -> i = j.
Proof.
  intros (_ & _ & _ & _ & Hfr & _) Hp Hq Hv Heq.
  rewrite <- frame_of_nat in Hp, Hq.
  destruct (Hfr _ p Hp Hv) as [_ H1]. destruct (Hfr _ q Hq) as [_ H2]; [by rewrite Heq|].
  rewrite Heq in H2. rewrite H1 in H2. injection H2 as H2. lia.
Qed.

(** What the loop of [FlushAllPgsImp] does from frame [i] on. *)
Lemma flush_from_spec n : ∀ i bpm,
  pool_ok hash bpm -> (i + n = length (pages_ bpm))%nat ->
  ∃ bpm', flush_from hash n i bpm = Some bpm' ∧
    (∀ j p, pages_ bpm !! j = Some p ->
       pages_ bpm' !! j =
         Some (if decide ((i ≤ j)%nat ∧ page_id_ p ≠ INVALID_PAGE_ID)
               then mkPage (page_id_ p) (pin_count_ p) false (data_ p) else p)) ∧
    (∀ j p, (i ≤ j)%nat -> pages_ bpm !! j = Some p -> page_id_ p ≠ INVALID_PAGE_ID ->
       ReadPage (disk_manager_ bpm') (page_id_ p) = data_ p) ∧
    (∀ q, (∀ j p, (i ≤ j)%nat -> pages_ bpm !! j = Some p -> page_id_ p ≠ INVALID_PAGE_ID ->
                  page_id_ p ≠ q) ->
       ReadPage (disk_manager_ bpm') q = ReadPage (disk_manager_ bpm) q) ∧
    page_table_ bpm' = page_table_ bpm ∧ free_list_ bpm' = free_list_ bpm ∧
    replacer_ bpm' = replacer_ bpm ∧ next_page_id_ bpm' = next_page_id_ bpm ∧
    pool_size_ bpm' = pool_size_ bpm.
Proof.
  induction n as [|n IH]; intros i bpm Hok Hlen.
  { exists bpm. simpl. split_and!; try done.
    - intros j p Hp. rewrite Hp. f_equal. destruct (decide _) as [[Hij _]|]; [|done].
      apply lookup_lt_Some in Hp. lia.
    - intros j p Hij Hp. apply lookup_lt_Some in Hp. lia. }
  destruct (lookup_lt_is_Some_2 (pages_ bpm) i) as [p Hp]; [lia|].
  cbn [flush_from]. rewrite Hp. cbn [mbind option_bind].
  destruct (decide (page_id_ p ≠ INVALID_PAGE_ID)) as [Hv|Hv].
  - pose proof Hok as (_ & _ & _ & _ & Hfr & _).
    pose proof Hp as Hpf. rewrite <- frame_of_nat in Hpf.
    destruct (Hfr _ p Hpf Hv) as [_ Ht].
    assert (FlushPgImp hash bpm (page_id_ p)
            = Some (set_frame (set_disk bpm (WritePage (disk_manager_ bpm) (page_id_ p) (data_ p)))
                      (Z.of_nat i) (mkPage (page_id_ p) (pin_count_ p) false (data_ p)), true))
      as Hflush.
    { unfold FlushPgImp. rewrite Ht. cbn [mbind option_bind]. by rewrite Hpf. }
    rewrite Hflush. cbn [fmap option_fmap option_map mbind option_bind fst].
    set (bpm1 := set_frame _ _ _).
    assert (pages_ bpm1 = <[i := mkPage (page_id_ p) (pin_count_ p) false (data_ p)]> (pages_ bpm))
      as Hpages by (unfold bpm1; simpl; by rewrite Nat2Z.id).
    destruct (IH (S i) bpm1) as (bpm' & Hrun & Hpg & Hrd & Hkeep & Hpt & Hfl & Hrp & Hnp & Hps).
    { by apply (FlushPgImp_ok bpm (page_id_ p) bpm1 true). }
    { rewrite Hpages, length_insert. lia. }
    exists bpm'. split; [done|]. split_and!; try done.
    + intros j q Hq. destruct (decide (j = i)) as [->|Hji].
      * rewrite Hp in Hq. injection Hq as <-.
        rewrite (Hpg i (mkPage (page_id_ p) (pin_count_ p) false (data_ p))).
        2:{ rewrite Hpages. apply list_lookup_insert_eq. by eapply lookup_lt_Some. }
        rewrite decide_False by lia. by rewrite decide_True by (split; [lia|done]).
      * rewrite (Hpg j q) by (rewrite Hpages; by rewrite list_lookup_insert_ne).
        f_equal. destruct (decide (_ ∧ _)) as [[? ?]|Hn1], (decide (_ ∧ _)) as [[? ?]|Hn2];
          try done.
        -- exfalso. apply Hn2. split; [lia|done].
        -- exfalso. apply Hn1. split; [lia|done].
    + intros j q Hij Hq Hvq. destruct (decide (j = i)) as [->|Hji].
      * rewrite Hp in Hq. injection Hq as <-. rewrite Hkeep.
        { simpl. by rewrite decide_True. }
        intros j' q' Hij' Hq' Hvq' Heq.
        rewrite Hpages, list_lookup_insert_ne in Hq' by lia.
        pose proof (pool_ok_one_holder bpm i j' p q' Hok Hp Hq' Hv Heq). lia.
      * apply (Hrd j q); [lia| |done]. rewrite Hpages. by rewrite list_lookup_insert_ne.
    + intros q Hq. rewrite Hkeep.
      * simpl. rewrite decide_False; [done|]. by apply (Hq i p).
      * intros j' q' Hij' Hq' Hvq'. rewrite Hpages, list_lookup_insert_ne in Hq' by lia.
        apply (Hq j' q'); [lia|done..].
  - cbn [mbind option_bind].
    destruct (IH (S i) bpm) as (bpm' & Hrun & Hpg & Hrd & Hkeep & Hpt & Hfl & Hrp & Hnp & Hps);
      [done|lia|].
    exists bpm'. split; [done|]. split_and!; try done.
    + intros j q Hq. rewrite (Hpg j q Hq). f_equal.
      destruct (decide (_ ∧ _)) as [[? ?]|Hn1], (decide (_ ∧ _)) as [[? ?]|Hn2]; try done.
      * exfalso. apply Hn2. split; [lia|done].
      * exfalso. apply Hn1. split; [|done]. destruct (decide (j = i)) as [->|]; [|lia].
        rewrite Hp in Hq. injection Hq as <-. done.
    + intros j q Hij Hq Hvq. apply (Hrd j q); [|done..].
      destruct (decide (j = i)) as [->|]; [|lia]. rewrite Hp in Hq. injection Hq as <-. done.
    + intros q Hq. apply Hkeep. intros j' q' Hij'. apply Hq. lia.
Qed.

(** ** How a frame is taken *)
Lemma NewPgImp_taken fuel bpm bpm' page_id f :
  ExtHash.wf hash (page_table_ bpm) ->
  NewPgImp hash fuel bpm = Ok (bpm', Some (page_id, f)) ->
  frame_taken hash fuel bpm bpm' f page_id.
Proof.
  intros Hwf Hnew.
  destruct (NewPgImp_Some fuel bpm bpm' page_id f Hwf Hnew)
    as (bpm1 & Hg & _ & _ & _ & _ & _ & Hto & _ & Hfl & Hd & _ & _ & r1 & Hra & Hse).
  destruct (GetAvailableFrame_Some fuel bpm bpm1 f Hwf Hg) as (_ & _ & _ & _ & _ & _ & Hcase).
  unfold frame_taken.
  destruct Hcase as [(Hfl0 & Hpt & Hd0 & _ & Hrep)|(Hfl0 & Hfl1 & Hev & p & Hp & Hnone & Hsame & Hd0 & _)];
    rewrite Hfl0.
  - split_and!; [done|done|congruence| |].
    + intros q Hq. rewrite (Hto q Hq). unfold table_find. by rewrite Hpt.
    + exists r1. by rewrite <- Hrep.
  - exists (replacer_ bpm1), p. split_and!; [done|done|congruence|congruence| |by exists r1].
    intros q Hq. rewrite (Hto q Hq). destruct (decide (q = page_id_ p)) as [->|Hqp]; [done|].
    by apply Hsame.
Qed.

Lemma FetchPgImp_taken fuel bpm bpm' page_id f :
  ExtHash.wf hash (page_table_ bpm) ->
  table_find hash bpm page_id = Some None ->
  FetchPgImp hash fuel bpm page_id = Ok (bpm', Some f) ->
  frame_taken hash fuel bpm bpm' f page_id.
Proof.
  intros Hwf Ht Hfetch.
  destruct (FetchPgImp_miss fuel bpm bpm' page_id f Hwf Ht Hfetch)
    as (bpm1 & Hg & _ & _ & _ & _ & Hto & _ & Hfl & Hd & _ & _ & r1 & Hra & Hse).
  destruct (GetAvailableFrame_Some fuel bpm bpm1 f Hwf Hg) as (_ & _ & _ & _ & _ & _ & Hcase).
  unfold frame_taken.
  destruct Hcase as [(Hfl0 & Hpt & Hd0 & _ & Hrep)|(Hfl0 & Hfl1 & Hev & p & Hp & Hnone & Hsame & Hd0 & _)];
    rewrite Hfl0.
  - split_and!; [done|done|congruence| |].
    + intros q Hq. rewrite (Hto q Hq). unfold table_find. by rewrite Hpt.
    + exists r1. by rewrite <- Hrep.
  - exists (replacer_ bpm1), p. split_and!; [done|done|congruence|congruence| |by exists r1].
    intros q Hq. rewrite (Hto q Hq). destruct (decide (q = page_id_ p)) as [->|Hqp]; [done|].
    by apply Hsame.
Qed.

(** ** Dirty pages when a frame is taken *)
Lemma dirty_pages_safe_refl bpm : dirty_pages_safe bpm bpm.
Proof. intros g p Hp _ Hd. left. by exists p. Qed.

Lemma taken_safe fuel bpm bpm1 bpm' f :
  pool_ok hash bpm ->
  GetAvailableFrame hash fuel bpm = Ok (bpm1, Some f) ->
  (∀ g, g ≠ f -> frame bpm' g = frame bpm g) ->
  disk_manager_ bpm' = disk_manager_ bpm1 ->
  dirty_pages_safe bpm bpm'.
Proof.
  intros (Hwf & _ & _ & _ & Hfr & Htb) Hg Hfr' Hd g p Hp Hv Hdirty.
  destruct (decide (g = f)) as [->|Hgf].
  2:{ left. exists p. by rewrite Hfr'. }
  destruct (GetAvailableFrame_Some fuel bpm bpm1 f Hwf Hg) as (_ & _ & _ & _ & _ & _ & Hcase).
  destruct Hcase as [(Hfl0 & _)|(_ & _ & _ & q & Hq & _ & _ & Hd0 & _)].
  - exfalso. destruct (Hfr f p Hp Hv) as [_ Hb]. destruct (Htb _ f Hb) as (_ & Hnin & _).
    apply Hnin. rewrite Hfl0. apply elem_of_cons. by left.
  - right. rewrite Hp in Hq. injection Hq as <-. rewrite Hd, Hd0, Hdirty. simpl.
    by rewrite decide_True.
Qed.

Lemma NewPgImp_safe fuel bpm bpm' r :
  pool_ok hash bpm -> NewPgImp hash fuel bpm = Ok (bpm', r) -> dirty_pages_safe bpm bpm'.
Proof.
  intros Hok Hnew. pose proof Hok as (Hwf & _). destruct r as [[page_id f]|].
  2:{ apply BufferPoolFacts.NewPgImp_None in Hnew as [-> _]. apply dirty_pages_safe_refl. }
  destruct (NewPgImp_Some fuel bpm bpm' page_id f Hwf Hnew)
    as (bpm1 & Hg & _ & _ & _ & Hfr & _ & _ & _ & _ & Hd & _).
  by apply (taken_safe fuel bpm bpm1 bpm' f).
Qed.

Lemma FetchPgImp_safe fuel bpm page_id bpm' r :
  pool_ok hash bpm -> FetchPgImp hash fuel bpm page_id = Ok (bpm', r) ->
  dirty_pages_safe bpm bpm'.
Proof.
  intros Hok Hfetch. pose proof Hok as (Hwf & _).
  destruct (table_find_total bpm page_id Hwf) as [[f0|] Ht].
  { destruct (FetchPgImp_hit fuel bpm bpm' page_id f0 r Ht Hfetch) as [_ Hpin].
    destruct (pin_spec fuel bpm f0 bpm' Hpin) as (p0 & Hp0 & Hp0' & Hfr & _).
    intros g p Hp _ Hdirty. left. destruct (decide (g = f0)) as [->|Hgf].
    - rewrite Hp0 in Hp. injection Hp as <-. eexists. by split; [exact Hp0'|].
    - exists p. by rewrite Hfr. }
  destruct r as [f|].
  2:{ destruct (BufferPoolFacts.FetchPgImp_None hash fuel bpm page_id bpm' Ht Hfetch) as [-> _].
      apply dirty_pages_safe_refl. }
  destruct (FetchPgImp_miss fuel bpm bpm' page_id f Hwf Ht Hfetch)
    as (bpm1 & Hg & _ & _ & Hfr & _ & _ & _ & _ & Hd & _).
  by apply (taken_safe fuel bpm bpm1 bpm' f).
Qed.

(** ** The free list names frames of the pool *)
Lemma frame_valid bpm f :
  is_Some (frame bpm f) <-> 0 ≤ f ∧ (Z.to_nat f < length (pages_ bpm))%nat.
Proof.
  unfold frame. destruct (decide (0 ≤ f)) as [H0|H0].
  - rewrite lookup_lt_is_Some. tauto.
  - split; [by intros [? ?]|tauto].
Qed.

Lemma free_frames_valid_kept bpm bpm' :
  free_frames_valid bpm ->
  length (pages_ bpm') = length (pages_ bpm) ->
  (∀ f, f ∈ free_list_ bpm' -> f ∈ free_list_ bpm ∨ is_Some (frame bpm f)) ->
  free_frames_valid bpm'.
Proof.
  intros Hfv Hlen Hsub f Hf. apply frame_valid. rewrite Hlen. apply frame_valid.
  destruct (Hsub f Hf) as [Hin|Hv]; [by apply Hfv|done].
Qed.

Lemma taken_free_frames_valid fuel bpm bpm1 bpm' f :
  ExtHash.wf hash (page_table_ bpm) -> free_frames_valid bpm ->
  GetAvailableFrame hash fuel bpm = Ok (bpm1, Some f) ->
  free_list_ bpm' = free_list_ bpm1 ->
  length (pages_ bpm') = length (pages_ bpm) ->
  free_frames_valid bpm'.
Proof.
  intros Hwf Hfv Hg Hfl Hlen.
  destruct (GetAvailableFrame_Some fuel bpm bpm1 f Hwf Hg) as (_ & _ & _ & _ & _ & _ & Hcase).
  apply (free_frames_valid_kept bpm bpm' Hfv Hlen). intros g Hin. left. rewrite Hfl in Hin.
  destruct Hcase as [(Hfl0 & _)|(_ & Hfl1 & _)].
  - rewrite Hfl0. apply elem_of_cons. by right.
  - rewrite Hfl1 in Hin. by apply elem_of_nil in Hin.
Qed.

Lemma pool_built_free_valid bpm : pool_built hash bpm -> free_frames_valid bpm.
Proof.
  induction 1 as [ps k b Hlt | fuel bpm bpm' r Hb IH Hlim Hc
                  | fuel bpm page_id bpm' r Hb IH Hlim Hr Hc
                  | fuel bpm page_id d bpm' r Hb IH Hc | bpm page_id bpm' r Hb IH Hc
                  | bpm bpm' Hb IH Hc | bpm page_id bpm' r Hb IH Hc | bpm f data bpm' Hb IH Hc];
    try (pose proof (pool_built_ok bpm Hb) as Hok; pose proof Hok as (Hwf & _)).
  - intros f Hf. simpl in Hf. apply list_elem_of_fmap in Hf as (i & -> & Hi).
    apply elem_of_seq in Hi. apply frame_valid. simpl. rewrite length_replicate. lia.
  - destruct r as [[page_id f]|].
    2:{ by apply BufferPoolFacts.NewPgImp_None in Hc as [-> _]. }
    destruct (NewPgImp_Some fuel bpm bpm' page_id f Hwf Hc)
      as (bpm1 & Hg & _ & _ & _ & _ & _ & _ & _ & Hfl & _ & _ & Hlen & _).
    by apply (taken_free_frames_valid fuel bpm bpm1 bpm' f).
  - destruct (table_find_total bpm page_id Hwf) as [[f0|] Ht].
    { destruct (FetchPgImp_hit fuel bpm bpm' page_id f0 r Ht Hc) as [_ Hpin].
      destruct (pin_spec fuel bpm f0 bpm' Hpin) as (_ & _ & _ & _ & _ & Hfl & _ & _ & _ & Hlen & _).
      apply (free_frames_valid_kept bpm bpm' IH Hlen). intros g Hin. left. by rewrite <- Hfl. }
    destruct r as [f|].
    2:{ by destruct (BufferPoolFacts.FetchPgImp_None hash fuel bpm page_id bpm' Ht Hc)
          as [-> _]. }
    destruct (FetchPgImp_miss fuel bpm bpm' page_id f Hwf Ht Hc)
      as (bpm1 & Hg & _ & _ & _ & _ & _ & _ & Hfl & _ & _ & Hlen & _).
    by apply (taken_free_frames_valid fuel bpm bpm1 bpm' f).
  - destruct (UnpinPgImp_Ok fuel bpm page_id d bpm' r Hc)
      as [(_ & -> & _)|(_ & f & p & _ & _ & _ & _ & _ & _ & Hfl & _ & _ & _ & Hlen & _)]; [done|].
    apply (free_frames_valid_kept bpm bpm' IH Hlen). intros g Hin. left. by rewrite <- Hfl.
  - destruct (FlushPgImp_Some bpm page_id bpm' r Hc)
      as [(_ & -> & _)|(_ & f & p & _ & _ & _ & _ & _ & _ & Hfl & _ & _ & _ & Hlen)]; [done|].
    apply (free_frames_valid_kept bpm bpm' IH Hlen). intros g Hin. left. by rewrite <- Hfl.
  - pose proof Hok as (_ & Hlen0 & _).
    destruct (flush_from_spec (pool_size_ bpm) 0%nat bpm Hok)
      as (bpm2 & Hrun & _ & _ & _ & _ & Hfl & _ & _ & Hps); [by rewrite Hlen0|].
    unfold FlushAllPgsImp in Hc. rewrite Hrun in Hc. injection Hc as <-.
    pose proof (flush_from_ok (pool_size_ bpm) 0%nat bpm bpm2 Hok Hrun) as (_ & Hlen2 & _).
    apply (free_frames_valid_kept bpm bpm2 IH); [congruence|].
    intros g Hin. left. by rewrite <- Hfl.
  - destruct (DeletePgImp_Some bpm page_id bpm' r Hwf Hc)
      as [(_ & -> & _)|(f & p & Ht & Hp & Hcase)]; [done|].
    destruct (decide (0 < pin_count_ p)) as [Hpin|Hpin]; [by destruct Hcase as [_ ->]|].
    destruct Hcase as (_ & _ & _ & _ & _ & Hfl & _ & _ & _ & _ & _ & Hlen).
    apply (free_frames_valid_kept bpm bpm' IH Hlen). intros g Hin. rewrite Hfl in Hin.
    apply elem_of_app in Hin as [Hin|Hin]; [by left|]. apply list_elem_of_singleton in Hin.
    subst g. right. by rewrite Hp.
  - unfold write_data in Hc. destruct (frame bpm f) as [p|] eqn:Hp; [|done].
    injection Hc as <-. apply (free_frames_valid_kept bpm _ IH); [apply length_set_frame|].
    intros g Hin. by left.
Qed.

(** ** The calls return *)
Lemma GetAvailableFrame_returns fuel bpm :
  ExtHash.wf hash (page_table_ bpm) -> pins_ok bpm -> free_frames_valid bpm ->
  (Z.to_nat (LRUK.Size (replacer_ bpm)) < fuel)%nat ->
  free_list_ bpm ≠ [] ∨ LRUK.Size (replacer_ bpm) ≠ 0 ->
  ∃ bpm1 f, GetAvailableFrame hash fuel bpm = Ok (bpm1, Some f) ∧ is_Some (frame bpm f).
Proof.
  intros Hwf (hs & bs & Hok & Hl) Hfv Hfuel Hsome.
  destruct (free_list_ bpm) as [|f rest] eqn:Hfl.
  - destruct Hsome as [?|Hsize]; [done|].
    destruct (ReplacerFacts.Evict_returns_victim fuel _ hs bs Hok Hsize Hfuel)
      as (r' & f & Hev & Hin).
    destruct (Hl f Hin) as (_ & p & Hp & _).
    destruct (BufferPoolFacts.GetAvailableFrame_cases hash fuel bpm Hwf) as (_ & Hevict & _).
    destruct (Hevict r' f p Hfl Hev Hp) as (bpm1 & Hg & _).
    exists bpm1, f. split; [done|]. by rewrite Hp.
  - exists (set_free_list bpm rest), f. split.
    + unfold GetAvailableFrame. by rewrite Hfl.
    + apply Hfv. rewrite Hfl. apply elem_of_cons. by left.
Qed.

(** The page is put in the frame, bound and pinned, when the bucket of its
    id has room. *)
Lemma install_returns fuel bpm f pg page_id hs bs :
  ExtHash.wf hash (page_table_ bpm) -> is_Some (frame bpm f) ->
  (length (ExtHash.target_keys hash (page_table_ bpm) page_id)
   < ExtHash.bucket_size_ (page_table_ bpm))%nat ->
  replacer_ok (replacer_ bpm) hs bs ->
  (∀ n, LRUK.entries_ (replacer_ bpm) !! f = Some n -> LRUK.value_ n + 1 < 2 ^ 64) ->
  (0 < fuel)%nat ->
  ∃ t bpm', ExtHash.Insert hash fuel (page_table_ bpm) page_id f = Ok t ∧
            pin fuel (set_page_table (set_frame bpm f pg) t) f = Ok bpm'.
Proof.
  intros Hwf [p0 Hp0] Hroom Hok Hlim Hfuel. destruct fuel as [|m]; [lia|].
  destruct (ExtHashMore.Insert_room_returns hash (page_table_ bpm) page_id f m Hwf Hroom)
    as (t & Hins).
  destruct (ReplacerFacts.pin_calls_return (S m) _ hs bs f Hok Hlim) as (r1 & r2 & Hra & Hse).
  exists t. unfold pin. simpl replacer_. rewrite Hra. cbn [of_option rbind]. rewrite Hse.
  cbn [rbind]. rewrite frame_set_replacer.
  assert (frame (set_page_table (set_frame bpm f pg) t) f = Some pg) as ->
    by (by apply (frame_set_frame_eq _ f p0)).
  cbn [of_option rbind]. by eexists.
Qed.

(** What [GetAvailableFrame] leaves for the rest of the call. *)
Lemma GetAvailableFrame_ready fuel bpm bpm1 f page_id :
  ExtHash.wf hash (page_table_ bpm) -> pins_ok bpm ->
  counts_below_limit (replacer_ bpm) ->
  (length (ExtHash.target_keys hash (page_table_ bpm) page_id)
   < ExtHash.bucket_size_ (page_table_ bpm))%nat ->
  GetAvailableFrame hash fuel bpm = Ok (bpm1, Some f) ->
  ExtHash.wf hash (page_table_ bpm1) ∧
  (is_Some (frame bpm f) -> is_Some (frame bpm1 f)) ∧
  (length (ExtHash.target_keys hash (page_table_ bpm1) page_id)
   < ExtHash.bucket_size_ (page_table_ bpm1))%nat ∧
  (∃ hs bs, replacer_ok (replacer_ bpm1) hs bs) ∧
  counts_below_limit (replacer_ bpm1).
Proof.
  intros Hwf Hpins Hlim Hroom Hg.
  destruct (GetAvailableFrame_Some fuel bpm bpm1 f Hwf Hg)
    as (Hwf1 & _ & _ & _ & _ & Hvalid & Hcase).
  destruct (GetAvailableFrame_pins fuel bpm bpm1 f Hwf Hpins Hg)
    as ((hs & bs & Hok & _) & _ & Hlim1).
  split_and!; [done|done| |by exists hs, bs|by apply Hlim1].
  destruct Hcase as [(_ & Hpt & _)|(_ & _ & _ & p & _ & _ & _ & _ & b & Hrem)].
  - by rewrite Hpt.
  - destruct (ExtHashMore.Remove_room hash _ _ _ b page_id Hwf Hrem) as [-> Hle]. lia.
Qed.

Lemma NewPgImp_returns fuel bpm :
  ExtHash.wf hash (page_table_ bpm) -> pins_ok bpm -> free_frames_valid bpm ->
  counts_below_limit (replacer_ bpm) ->
  (Z.to_nat (LRUK.Size (replacer_ bpm)) < fuel)%nat ->
  (length (ExtHash.target_keys hash (page_table_ bpm) (next_page_id_ bpm))
   < ExtHash.bucket_size_ (page_table_ bpm))%nat ->
  free_list_ bpm ≠ [] ∨ LRUK.Size (replacer_ bpm) ≠ 0 ->
  ∃ bpm' f, NewPgImp hash fuel bpm = Ok (bpm', Some (next_page_id_ bpm, f)).
Proof.
  intros Hwf Hpins Hfv Hlim Hfuel Hroom Hsome.
  destruct (GetAvailableFrame_returns fuel bpm Hwf Hpins Hfv Hfuel Hsome)
    as (bpm1 & f & Hg & Hvalid).
  destruct (GetAvailableFrame_Some fuel bpm bpm1 f Hwf Hg) as (_ & Hnp1 & _).
  destruct (GetAvailableFrame_ready fuel bpm bpm1 f (next_page_id_ bpm) Hwf Hpins Hlim Hroom Hg)
    as (Hwf1 & Hv1 & Hroom1 & (hs & bs & Hok1) & Hlim1).
  pose proof (Hv1 Hvalid) as [p0 Hp0].
  set (bpm2 := set_next_page_id bpm1 (next_page_id_ bpm1 + 1)).
  destruct (install_returns fuel bpm2 f (mkPage (next_page_id_ bpm1) 0 false Zeroed)
              (next_page_id_ bpm1) hs bs) as (t & bpm' & Hins & Hpin);
    [done|by exists p0|by rewrite Hnp1|done|by apply Hlim1|lia|].
  exists bpm', f. unfold NewPgImp. rewrite Hg. cbn [rbind]. unfold AllocatePage.
  fold bpm2. change (frame bpm2 f) with (frame bpm1 f). rewrite Hp0. cbn [of_option rbind].
  change (page_table_ (set_frame bpm2 f (mkPage (next_page_id_ bpm1) 0 false Zeroed)))
    with (page_table_ bpm2).
  rewrite Hins. cbn [rbind]. rewrite Hpin. cbn [rbind]. by rewrite Hnp1.
Qed.

Lemma FetchPgImp_returns fuel bpm page_id :
  ExtHash.wf hash (page_table_ bpm) -> pins_ok bpm -> free_frames_valid bpm ->
  counts_below_limit (replacer_ bpm) ->
  table_find hash bpm page_id = Some None ->
  (Z.to_nat (LRUK.Size (replacer_ bpm)) < fuel)%nat ->
  (length (ExtHash.target_keys hash (page_table_ bpm) page_id)
   < ExtHash.bucket_size_ (page_table_ bpm))%nat ->
  free_list_ bpm ≠ [] ∨ LRUK.Size (replacer_ bpm) ≠ 0 ->
  ∃ bpm' f, FetchPgImp hash fuel bpm page_id = Ok (bpm', Some f).
Proof.
  intros Hwf Hpins Hfv Hlim Ht Hfuel Hroom Hsome.
  destruct (GetAvailableFrame_returns fuel bpm Hwf Hpins Hfv Hfuel Hsome)
    as (bpm1 & f & Hg & Hvalid).
  destruct (GetAvailableFrame_ready fuel bpm bpm1 f page_id Hwf Hpins Hlim Hroom Hg)
    as (Hwf1 & Hv1 & Hroom1 & (hs & bs & Hok1) & Hlim1).
  pose proof (Hv1 Hvalid) as [p0 Hp0].
  destruct (install_returns fuel bpm1 f
              (mkPage page_id 0 false (ReadPage (disk_manager_ bpm1) page_id))
              page_id hs bs) as (t & bpm' & Hins & Hpin);
    [done|by exists p0|done|done|by apply Hlim1|lia|].
  exists bpm', f. unfold FetchPgImp. rewrite Ht. cbn [of_option rbind]. rewrite Hg.
  cbn [rbind]. rewrite Hp0. cbn [of_option rbind].
  change (page_table_ (set_frame bpm1 f
            (mkPage page_id 0 false (ReadPage (disk_manager_ bpm1) page_id))))
    with (page_table_ bpm1).
  rewrite Hins. cbn [rbind]. by rewrite Hpin.
Qed.

(** ** The calls, as a caller sees them *)

(** X21: A successful [NewPgImp]. The page id is the old [next_page_id_] and
    the counter moves on by one, so ids are handed out in increasing order
    and never twice. The frame holds the new page zeroed, clean and pinned
    once, and the page table binds the new id to it. No other frame is
    touched and the free list loses at most the frame taken. *)
Theorem NewPgImp_fresh_page fuel bpm bpm' page_id f :
  ExtHash.wf hash (page_table_ bpm) ->
  NewPgImp hash fuel bpm = Ok (bpm', Some (page_id, f)) ->
  page_id = next_page_id_ bpm ∧
  next_page_id_ bpm' = page_id + 1 ∧
  frame bpm' f = Some (mkPage page_id 1 false Zeroed) ∧
  table_find hash bpm' page_id = Some (Some f) ∧
  (∀ g, g ≠ f -> frame bpm' g = frame bpm g) ∧
  (free_list_ bpm = f :: free_list_ bpm' ∨ free_list_ bpm = [] ∧ free_list_ bpm' = []).
Proof.
  intros Hwf Hnew.
  destruct (NewPgImp_Some fuel bpm bpm' page_id f Hwf Hnew)
    as (bpm1 & Hg & Hpid & Hnp & Hf & Hfr & Htf & Hto & Hwf' & Hfl & _).
  destruct (GetAvailableFrame_Some fuel bpm bpm1 f Hwf Hg) as (_ & _ & _ & _ & _ & _ & Hcase).
  split_and!; try done. rewrite Hfl.
  destruct Hcase as [(? & _)|(? & ? & _)]; [by left|by right].
Qed.

(** X22: [FetchPgImp] of a page that is resident returns the frame the page
    table names, pins it once more and does nothing else: the data and the
    dirty flag of the page, the other frames, the page table, the free
    list and the disk are as before. In a pool whose page table and frames
    agree, the frame returned holds the page asked for. *)
Theorem FetchPgImp_resident fuel bpm bpm' page_id f r :
  table_find hash bpm page_id = Some (Some f) ->
  FetchPgImp hash fuel bpm page_id = Ok (bpm', r) ->
  r = Some f ∧
  ∃ p, frame bpm f = Some p ∧
       frame bpm' f = Some (mkPage (page_id_ p) (pin_count_ p + 1) (is_dirty_ p) (data_ p)) ∧
       (∀ g, g ≠ f -> frame bpm' g = frame bpm g) ∧
       page_table_ bpm' = page_table_ bpm ∧ free_list_ bpm' = free_list_ bpm ∧
       disk_manager_ bpm' = disk_manager_ bpm ∧ next_page_id_ bpm' = next_page_id_ bpm ∧
       (pool_ok hash bpm -> page_id_ p = page_id).
Proof.
  intros Ht Hfetch.
  destruct (FetchPgImp_hit fuel bpm bpm' page_id f r Ht Hfetch) as [-> Hpin].
  split; [done|].
  destruct (pin_spec fuel bpm f bpm' Hpin) as (p & Hp & Hp1 & Hfr & Hpt & Hfl & Hd & Hnp & _).
  exists p. split_and!; try done.
  intros (_ & _ & _ & _ & _ & Htb). destruct (Htb page_id f Ht) as (_ & _ & p0 & Hp0 & Hid).
  rewrite Hp in Hp0. by injection Hp0 as <-.
Qed.

(** X23: [FetchPgImp] of a page that is not resident, when it gets a frame.
    The frame holds what the disk has for the page id (zeroes for an id
    never written), clean and pinned once; the page table binds the id to
    the frame; [next_page_id_] is not moved and no other frame is touched.
    The disk is as before when the frame came from the free list, and when
    the page in the frame was evicted and clean; when the evicted page was
    dirty the disk has exactly one write more, of that page. *)
Theorem FetchPgImp_reads_disk fuel bpm bpm' page_id f :
  ExtHash.wf hash (page_table_ bpm) ->
  table_find hash bpm page_id = Some None ->
  FetchPgImp hash fuel bpm page_id = Ok (bpm', Some f) ->
  frame bpm' f = Some (mkPage page_id 1 false (ReadPage (disk_manager_ bpm') page_id)) ∧
  table_find hash bpm' page_id = Some (Some f) ∧
  (∀ g, g ≠ f -> frame bpm' g = frame bpm g) ∧
  next_page_id_ bpm' = next_page_id_ bpm ∧
  match free_list_ bpm with
  | _ :: _ => disk_manager_ bpm' = disk_manager_ bpm
  | [] => ∃ r p, LRUK.Evict fuel (replacer_ bpm) = Ok (r, Some f) ∧
                 frame bpm f = Some p ∧
                 disk_manager_ bpm' =
                   (if is_dirty_ p
                    then WritePage (disk_manager_ bpm) (page_id_ p) (data_ p)
                    else disk_manager_ bpm)
  end.
Proof.
  intros Hwf Ht Hfetch.
  destruct (FetchPgImp_miss fuel bpm bpm' page_id f Hwf Ht Hfetch)
    as (bpm1 & Hg & Hnp & Hf & Hfr & Htf & Hto & Hwf' & Hfl & Hd & _).
  destruct (GetAvailableFrame_Some fuel bpm bpm1 f Hwf Hg) as (_ & _ & _ & _ & _ & _ & Hcase).
  split_and!; try done. rewrite Hd.
  destruct Hcase as [(Hfl0 & _ & ? & _)|(Hfl0 & _ & Hev & p & Hp & _ & _ & Hdisk & _)];
    rewrite Hfl0; [done|].
  by exists (replacer_ bpm1), p.
Qed.

(** X24: [UnpinPgImp] returns false and changes nothing when the page is not
    resident or its pin count is not positive. Otherwise it returns true and
    lowers the pin count by one; the dirty flag becomes the old flag or
    [is_dirty], so a call with [is_dirty = false] never clears it; the
    frame is made evictable exactly when the count reaches zero. The data,
    the other frames, the page table, the free list and the disk are
    untouched. *)
Theorem UnpinPgImp_result fuel bpm page_id is_dirty bpm' r :
  UnpinPgImp hash fuel bpm page_id is_dirty = Ok (bpm', r) ->
  (r = false ∧ bpm' = bpm ∧
   (table_find hash bpm page_id = Some None ∨
    ∃ f p, table_find hash bpm page_id = Some (Some f) ∧ frame bpm f = Some p ∧
           pin_count_ p ≤ 0)) ∨
  (r = true ∧
   ∃ f p, table_find hash bpm page_id = Some (Some f) ∧ frame bpm f = Some p ∧
          0 < pin_count_ p ∧
          frame bpm' f = Some (mkPage (page_id_ p) (pin_count_ p - 1)
                                      (is_dirty_ p || is_dirty) (data_ p)) ∧
          (∀ g, g ≠ f -> frame bpm' g = frame bpm g) ∧
          page_table_ bpm' = page_table_ bpm ∧ free_list_ bpm' = free_list_ bpm ∧
          disk_manager_ bpm' = disk_manager_ bpm ∧
          next_page_id_ bpm' = next_page_id_ bpm ∧
          (if decide (pin_count_ p = 1)
           then LRUK.SetEvictable fuel (replacer_ bpm) f true = Ok (replacer_ bpm')
           else replacer_ bpm' = replacer_ bpm)).
Proof.
  intros Hun. destruct (UnpinPgImp_Ok fuel bpm page_id is_dirty bpm' r Hun)
    as [Hno|(-> & f & p & Ht & Hp & Hpin & Hp' & Hfr & Hpt & Hfl & Hd & Hnp & _ & _ & Hrep)];
    [by left|].
  right. split; [done|]. exists f, p. by split_and!.
Qed.

(** X25: [DeletePgImp] returns true and changes nothing when the page is not
    resident, and returns false and changes nothing when it is pinned.
    Otherwise it returns true: the page id is unbound, the frame is reset
    to an empty page and appended to the free list, and the replacer
    forgets the frame. The disk is not written, also when the page was
    dirty. *)
Theorem DeletePgImp_result bpm page_id bpm' r :
  ExtHash.wf hash (page_table_ bpm) ->
  DeletePgImp hash bpm page_id = Some (bpm', r) ->
  (r = true ∧ bpm' = bpm ∧ table_find hash bpm page_id = Some None) ∨
  (∃ f p, table_find hash bpm page_id = Some (Some f) ∧ frame bpm f = Some p ∧
     if decide (0 < pin_count_ p) then r = false ∧ bpm' = bpm
     else
       r = true ∧
       frame bpm' f = Some (mkPage INVALID_PAGE_ID 0 false Zeroed) ∧
       (∀ g, g ≠ f -> frame bpm' g = frame bpm g) ∧
       table_find hash bpm' page_id = Some None ∧
       (∀ q, q ≠ page_id -> table_find hash bpm' q = table_find hash bpm q) ∧
       free_list_ bpm' = free_list_ bpm ++ [f] ∧
       LRUK.Remove (replacer_ bpm) f = Some (replacer_ bpm') ∧
       disk_manager_ bpm' = disk_manager_ bpm ∧
       next_page_id_ bpm' = next_page_id_ bpm).
Proof.
  intros Hwf Hdel. destruct (DeletePgImp_Some bpm page_id bpm' r Hwf Hdel)
    as [Hno|(f & p & Ht & Hp & Hcase)]; [by left|].
  right. exists f, p. split; [done|]. split; [done|].
  destruct (decide (0 < pin_count_ p)); [done|].
  destruct Hcase as (? & ? & ? & ? & ? & ? & ? & ? & ? & _). by split_and!.
Qed.

(** X26: In a pool whose page table and frames agree, [FlushAllPgsImp]
    returns, and afterwards every frame that holds a page is clean and the
    disk has the data of that page under its id. Pin counts, data, empty
    frames, the page table, the free list and the replacer are as before,
    and what the disk has for the ids no frame holds is as before. *)
Theorem FlushAllPgsImp_writes_all bpm :
  pool_ok hash bpm ->
  ∃ bpm', FlushAllPgsImp hash bpm = Some bpm' ∧
    (∀ f p, frame bpm f = Some p ->
       frame bpm' f =
         Some (if decide (page_id_ p = INVALID_PAGE_ID) then p
               else mkPage (page_id_ p) (pin_count_ p) false (data_ p)) ∧
       (page_id_ p ≠ INVALID_PAGE_ID ->
        ReadPage (disk_manager_ bpm') (page_id_ p) = data_ p)) ∧
    (∀ q, (∀ f p, frame bpm f = Some p -> page_id_ p ≠ q) ->
       ReadPage (disk_manager_ bpm') q = ReadPage (disk_manager_ bpm) q) ∧
    page_table_ bpm' = page_table_ bpm ∧ free_list_ bpm' = free_list_ bpm ∧
    replacer_ bpm' = replacer_ bpm ∧ next_page_id_ bpm' = next_page_id_ bpm.
Proof.
  intros Hok. pose proof Hok as (_ & Hlen & _).
  destruct (flush_from_spec (pool_size_ bpm) 0%nat bpm Hok)
    as (bpm' & Hrun & Hpg & Hrd & Hkeep & Hpt & Hfl & Hrp & Hnp & _); [by rewrite Hlen|].
  exists bpm'. split; [done|]. split_and!; try done.
  - intros f p Hp. apply frame_Some in Hp as [H0 Hp]. split.
    + unfold frame. rewrite decide_True by done. rewrite (Hpg _ p Hp). f_equal.
      destruct (decide (_ ∧ _)) as [[_ ?]|Hn], (decide (page_id_ p = _)); try done.
      exfalso. apply Hn. split; [lia|done].
    + intros Hv. apply (Hrd (Z.to_nat f) p); [lia|done..].
  - intros q Hq. apply Hkeep. intros j p _ Hp _. apply (Hq (Z.of_nat j) p).
    by rewrite frame_of_nat.
Qed.

(** X27: In every pool the calls can build, with pages fetched under ids
    that [NewPgImp] has returned and no access count of the replacer at the
    limit of [size_t]: no page is held by two frames; a page id is bound to
    a frame in the page table exactly when that frame holds the page; a
    frame in the free list holds no page; the page ids in the frames are
    below [next_page_id_]. *)
Theorem built_pool_agrees bpm :
  pool_built hash bpm ->
  (∀ f g p q, frame bpm f = Some p -> frame bpm g = Some q ->
     page_id_ p ≠ INVALID_PAGE_ID -> page_id_ q = page_id_ p -> f = g) ∧
  (∀ page_id f,
     table_find hash bpm page_id = Some (Some f) <->
     page_id ≠ INVALID_PAGE_ID ∧ ∃ p, frame bpm f = Some p ∧ page_id_ p = page_id) ∧
  (∀ f p, f ∈ free_list_ bpm -> frame bpm f = Some p -> page_id_ p = INVALID_PAGE_ID) ∧
  (∀ f p, frame bpm f = Some p -> page_id_ p < next_page_id_ bpm).
Proof.
  intros Hb. destruct (pool_built_ok bpm Hb) as (Hwf & Hlen & Hnd & Hnx & Hfr & Htb).
  split_and!.
  - intros f g p q Hp Hq Hv Heq.
    destruct (Hfr f p Hp Hv) as [_ H1]. destruct (Hfr g q Hq) as [_ H2]; [by rewrite Heq|].
    rewrite Heq in H2. congruence.
  - intros page_id f. split.
    + intros Ht. destruct (Htb page_id f Ht) as (? & _ & ?). done.
    + intros (Hv & p & Hp & <-). by apply Hfr.
  - intros f p Hin Hp. destruct (decide (page_id_ p = INVALID_PAGE_ID)) as [|Hv]; [done|].
    destruct (Hfr f p Hp Hv) as [_ Ht]. by destruct (Htb _ f Ht) as (_ & ? & _).
  - intros f p Hp. destruct (decide (page_id_ p = INVALID_PAGE_ID)) as [->|Hv].
    + unfold INVALID_PAGE_ID. lia.
    + by destruct (Hfr f p Hp Hv).
Qed.

(** X28: In every pool the calls can build, a frame the replacer may evict
    holds a page that nobody has pinned, and is not in the free list: a
    frame becomes evictable only when [UnpinPgImp] brings its pin count to
    zero, and stops being evictable when its page is pinned again. *)
Theorem evictable_frames_unpinned bpm f n :
  pool_built hash bpm ->
  LRUK.entries_ (replacer_ bpm) !! f = Some n -> LRUK.evictable_ n = true ->
  (f ∉ free_list_ bpm) ∧ ∃ p, frame bpm f = Some p ∧ pin_count_ p = 0.
Proof.
  intros Hb Hn Hev. destruct (pool_built_pins bpm Hb) as (hs & bs & Hok & Hl).
  apply Hl. apply (ReplacerFacts.evictable_listed _ hs bs f Hok). by exists n.
Qed.

(** X29: A pinned page keeps its frame. In every pool the calls can build,
    while a page has a positive pin count, [NewPgImp] and [FetchPgImp] of
    another page leave its frame as it is, whatever they evict, and
    [DeletePgImp] of the page returns false and changes nothing. *)
Theorem pinned_page_keeps_frame bpm f p :
  pool_built hash bpm ->
  frame bpm f = Some p -> page_id_ p ≠ INVALID_PAGE_ID -> 0 < pin_count_ p ->
  (∀ fuel bpm' r, NewPgImp hash fuel bpm = Ok (bpm', r) -> frame bpm' f = Some p) ∧
  (∀ fuel page_id bpm' r,
     page_id ≠ page_id_ p ->
     FetchPgImp hash fuel bpm page_id = Ok (bpm', r) -> frame bpm' f = Some p) ∧
  (∀ bpm' r, DeletePgImp hash bpm (page_id_ p) = Some (bpm', r) -> r = false ∧ bpm' = bpm).
Proof.
  intros Hb Hp Hv Hpos.
  pose proof (pool_built_ok bpm Hb) as (Hwf & Hlen & Hnd & Hnx & Hfr & Htb).
  pose proof (pool_built_pins bpm Hb) as Hpins.
  destruct (Hfr f p Hp Hv) as [_ Hbound].
  assert (∀ fuel bpm1 g, GetAvailableFrame hash fuel bpm = Ok (bpm1, Some g) -> g ≠ f) as Hnot.
  { intros fuel bpm1 g Hg ->.
    destruct (GetAvailableFrame_Some fuel bpm bpm1 f Hwf Hg) as (_ & _ & _ & _ & _ & _ & Hcase).
    destruct (GetAvailableFrame_pins fuel bpm bpm1 f Hwf Hpins Hg) as (_ & Hzero & _).
    destruct Hcase as [(Hfl & _)|(Hfl & _)].
    - destruct (Htb _ f Hbound) as (_ & Hnin & _). apply Hnin. rewrite Hfl.
      apply elem_of_cons. by left.
    - destruct (Hzero Hfl) as (q & Hq & Hq0). rewrite Hp in Hq. injection Hq as <-. lia. }
  split_and!.
  - intros fuel bpm' r Hnew. destruct r as [[page_id g]|].
    2:{ by apply BufferPoolFacts.NewPgImp_None in Hnew as [-> _]. }
    destruct (NewPgImp_Some fuel bpm bpm' page_id g Hwf Hnew)
      as (bpm1 & Hg & _ & _ & _ & Hfr' & _).
    rewrite Hfr'; [done|]. intros ->. by apply (Hnot fuel bpm1 g).
  - intros fuel page_id bpm' r Hne Hfetch.
    destruct (table_find_total bpm page_id Hwf) as [[f0|] Ht].
    + destruct (FetchPgImp_hit fuel bpm bpm' page_id f0 r Ht Hfetch) as [_ Hpin].
      destruct (pin_spec fuel bpm f0 bpm' Hpin) as (_ & _ & _ & Hfr' & _).
      rewrite Hfr'; [done|]. intros ->.
      destruct (Htb page_id f0 Ht) as (_ & _ & q & Hq & Hqid).
      rewrite Hp in Hq. injection Hq as <-. done.
    + destruct r as [g|].
      2:{ by destruct (BufferPoolFacts.FetchPgImp_None hash fuel bpm page_id bpm' Ht Hfetch)
            as [-> _]. }
      destruct (FetchPgImp_miss fuel bpm bpm' page_id g Hwf Ht Hfetch)
        as (bpm1 & Hg & _ & _ & Hfr' & _).
      rewrite Hfr'; [done|]. intros ->. by apply (Hnot fuel bpm1 g).
  - intros bpm' r Hdel.
    destruct (DeletePgImp_Some bpm (page_id_ p) bpm' r Hwf Hdel)
      as [(_ & _ & Hno)|(f0 & q & Ht & Hq & Hcase)]; [congruence|].
    rewrite Hbound in Ht. injection Ht as <-. rewrite Hp in Hq. injection Hq as <-.
    by rewrite decide_True in Hcase.
Qed.


End Pool.

Import Scenario.

(** The check of [counts_below_limit] on a replacer that is given. *)
#[local] Ltac counts_checked :=
  apply (bool_decide_unpack (ReplacerInv.counts_below_limit _)); vm_compute; exact I.

Lemma one_written_page_built : pool_built hash_int one_written_page.
Proof.
  set (bpm1 := pool_of (NewPgImp hash_int fuel (BufferPool.new 1 2 4))).
  set (bpm2 := default bpm1 (write_data bpm1 0 (HeaderData [("index", 7)]))).
  apply (pool_built_UnpinPgImp hash_int fuel bpm2 0 true one_written_page true);
    [|vm_compute; reflexivity].
  apply (pool_built_write_data hash_int bpm1 0 (HeaderData [("index", 7)]));
    [|vm_compute; reflexivity].
  apply (pool_built_NewPgImp hash_int fuel (BufferPool.new 1 2 4) bpm1 (Some (0, 0)));
    [|counts_checked|vm_compute; reflexivity].
  apply pool_built_new. vm_compute. reflexivity.
Qed.

Lemma page_swapped_built : pool_built hash_int page_swapped.
Proof.
  set (bpm1 := pool_of (NewPgImp hash_int fuel one_written_page)).
  apply (pool_built_UnpinPgImp hash_int fuel bpm1 1 false page_swapped true);
    [|vm_compute; reflexivity].
  apply (pool_built_NewPgImp hash_int fuel one_written_page bpm1 (Some (1, 0)));
    [|counts_checked|vm_compute; reflexivity].
  exact one_written_page_built.
Qed.

Lemma both_written_built : pool_built hash_int both_written.
Proof.
  set (bpm1 := pool_of (NewPgImp hash_int fuel one_written_page)).
  set (bpm2 := default bpm1 (write_data bpm1 0 (HeaderData [("index", 9)]))).
  apply (pool_built_UnpinPgImp hash_int fuel bpm2 1 true both_written true);
    [|vm_compute; reflexivity].
  apply (pool_built_write_data hash_int bpm1 0 (HeaderData [("index", 9)]) bpm2);
    [|vm_compute; reflexivity].
  apply (pool_built_NewPgImp hash_int fuel one_written_page bpm1 (Some (1, 0)));
    [|counts_checked|vm_compute; reflexivity].
  exact one_written_page_built.
Qed.

Lemma pinned_and_waiting_built : pool_built hash_int pinned_and_waiting.
Proof.
  set (bpm1 := pool_of (NewPgImp hash_int fuel (BufferPool.new 2 2 4))).
  set (bpm2 := pool_of (NewPgImp hash_int fuel bpm1)).
  apply (pool_built_UnpinPgImp hash_int fuel bpm2 1 false pinned_and_waiting true);
    [|vm_compute; reflexivity].
  apply (pool_built_NewPgImp hash_int fuel bpm1 bpm2 (Some (1, 1)));
    [|counts_checked|vm_compute; reflexivity].
  apply (pool_built_NewPgImp hash_int fuel (BufferPool.new 2 2 4) bpm1 (Some (0, 0)));
    [|counts_checked|vm_compute; reflexivity].
  apply pool_built_new. vm_compute. reflexivity.
Qed.

Lemma one_written_page_table : ExtHash.wf hash_int (page_table_ one_written_page).
Proof. by destruct (pool_built_ok hash_int _ one_written_page_built) as (? & _). Qed.

Lemma page_swapped_table : ExtHash.wf hash_int (page_table_ page_swapped).
Proof. by destruct (pool_built_ok hash_int _ page_swapped_built) as (? & _). Qed.

Lemma both_written_table : ExtHash.wf hash_int (page_table_ both_written).
Proof. by destruct (pool_built_ok hash_int _ both_written_built) as (? & _). Qed.


(** X21, witness: the only frame holds page 0, unpinned and dirty; the new
    page is page 1 and takes the frame. *)
Lemma NewPgImp_fresh_page_witness :
  ∃ bpm', NewPgImp hash_int fuel one_written_page = Ok (bpm', Some (1, 0)) ∧
          next_page_id_ bpm' = 2 ∧
          frame bpm' 0 = Some (mkPage 1 1 false Zeroed) ∧
          table_find hash_int bpm' 1 = Some (Some 0).
Proof.
  assert (NewPgImp hash_int fuel one_written_page
          = Ok (pool_of (NewPgImp hash_int fuel one_written_page), Some (1, 0))) as Hnew
    by (vm_compute; reflexivity).
  destruct (NewPgImp_fresh_page hash_int fuel one_written_page _ 1 0
              one_written_page_table Hnew) as (_ & Hnp & Hf & Ht & _).
  eexists. split; [exact Hnew|]. split; [exact Hnp|]. split; [exact Hf|exact Ht].
Defined.

(** X22, witness: page 0 is resident in frame 0, unpinned and dirty; the
    fetch pins it and keeps its data and its dirty flag. *)
Lemma FetchPgImp_resident_witness :
  ∃ bpm', FetchPgImp hash_int fuel one_written_page 0 = Ok (bpm', Some 0) ∧
          frame bpm' 0 = Some (mkPage 0 1 true (HeaderData [("index", 7)])) ∧
          disk_manager_ bpm' = [].
Proof.
  assert (FetchPgImp hash_int fuel one_written_page 0
          = Ok (pool_of (FetchPgImp hash_int fuel one_written_page 0), Some 0)) as Hfetch
    by (vm_compute; reflexivity).
  assert (table_find hash_int one_written_page 0 = Some (Some 0)) as Htab
    by (vm_compute; reflexivity).
  destruct (FetchPgImp_resident hash_int fuel one_written_page _ 0 0 (Some 0) Htab Hfetch)
    as (_ & p & Hp & Hp' & _ & _ & _ & Hd & _).
  vm_compute in Hp. injection Hp as <-.
  eexists. split; [exact Hfetch|]. split; [exact Hp'|]. rewrite Hd. reflexivity.
Defined.

(** X23, witness: page 0 was written back when page 1 took its frame, and
    page 1 was written and unpinned dirty; the fetch of page 0 evicts page
    1, writes it to the disk and reads page 0 from the disk. *)
Lemma FetchPgImp_reads_disk_witness :
  ∃ bpm', FetchPgImp hash_int fuel both_written 0 = Ok (bpm', Some 0) ∧
          frame bpm' 0 = Some (mkPage 0 1 false (HeaderData [("index", 7)])) ∧
          table_find hash_int bpm' 0 = Some (Some 0) ∧
          disk_manager_ bpm'
          = WritePage (disk_manager_ both_written) 1 (HeaderData [("index", 9)]).
Proof.
  assert (FetchPgImp hash_int fuel both_written 0
          = Ok (pool_of (FetchPgImp hash_int fuel both_written 0), Some 0)) as Hfetch
    by (vm_compute; reflexivity).
  assert (table_find hash_int both_written 0 = Some None) as Htab
    by (vm_compute; reflexivity).
  destruct (FetchPgImp_reads_disk hash_int fuel both_written _ 0 0 both_written_table
              Htab Hfetch) as (Hf & Ht & _ & _ & Hdisk).
  assert (free_list_ both_written = []) as Hfl by (vm_compute; reflexivity).
  rewrite Hfl in Hdisk. destruct Hdisk as (r & p & _ & Hp & Hd).
  assert (frame both_written 0 = Some (mkPage 1 0 true (HeaderData [("index", 9)])))
    as Hp0 by (vm_compute; reflexivity).
  rewrite Hp0 in Hp. injection Hp as <-.
  eexists. split; [exact Hfetch|]. split_and!; [|exact Ht|exact Hd].
  rewrite Hf. vm_compute. reflexivity.
Defined.

(** X24, witness: page 0 is pinned once and clean; [UnpinPgImp(0, true)]
    returns true, leaves it unpinned and dirty and makes the frame
    evictable. *)
Lemma UnpinPgImp_result_witness :
  ∃ bpm', UnpinPgImp hash_int fuel (or_empty one_pinned_frame) 0 true = Ok (bpm', true) ∧
          frame bpm' 0 = Some (mkPage 0 0 true Zeroed) ∧
          LRUK.Size (replacer_ bpm') = 1.
Proof.
  assert (UnpinPgImp hash_int fuel (or_empty one_pinned_frame) 0 true
          = Ok (pool_of (UnpinPgImp hash_int fuel (or_empty one_pinned_frame) 0 true), true))
    as Hun by (vm_compute; reflexivity).
  destruct (UnpinPgImp_result hash_int fuel (or_empty one_pinned_frame) 0 true _ true Hun)
    as [(Hr & _)|(_ & f & p & Ht & Hp & _ & Hp' & _)]; [discriminate|].
  vm_compute in Ht. injection Ht as <-. vm_compute in Hp. injection Hp as <-.
  eexists. split; [exact Hun|]. split; [exact Hp'|]. vm_compute. reflexivity.
Defined.

(** X25, witness: page 0 is unpinned and dirty; [DeletePgImp(0)] frees the
    frame and nothing reaches the disk. *)
Lemma DeletePgImp_result_witness :
  ∃ bpm', DeletePgImp hash_int one_written_page 0 = Some (bpm', true) ∧
          frame bpm' 0 = Some (mkPage INVALID_PAGE_ID 0 false Zeroed) ∧
          free_list_ bpm' = [0] ∧
          disk_manager_ bpm' = [].
Proof.
  assert (DeletePgImp hash_int one_written_page 0
          = Some (default one_written_page (fst <$> DeletePgImp hash_int one_written_page 0),
                  true)) as Hdel by (vm_compute; reflexivity).
  destruct (DeletePgImp_result hash_int one_written_page 0 _ true one_written_page_table Hdel)
    as [(_ & _ & Hno)|(f & p & Ht & Hp & Hcase)]; [vm_compute in Hno; discriminate|].
  vm_compute in Ht. injection Ht as <-. vm_compute in Hp. injection Hp as <-.
  rewrite decide_False in Hcase by (vm_compute; discriminate).
  destruct Hcase as (_ & Hf & _ & _ & _ & Hfl & _ & Hd & _).
  eexists. split; [exact Hdel|]. split; [exact Hf|]. split; [exact Hfl|]. rewrite Hd. reflexivity.
Defined.

(** X26, witness: page 0 is resident and dirty; after [FlushAllPgsImp] it is
    clean and the disk has its data. *)
Lemma FlushAllPgsImp_writes_all_witness :
  ∃ bpm', FlushAllPgsImp hash_int one_written_page = Some bpm' ∧
          frame bpm' 0 = Some (mkPage 0 0 false (HeaderData [("index", 7)])) ∧
          ReadPage (disk_manager_ bpm') 0 = HeaderData [("index", 7)].
Proof.
  destruct (FlushAllPgsImp_writes_all hash_int one_written_page
              (pool_built_ok hash_int _ one_written_page_built))
    as (bpm' & Hrun & Hframes & _).
  destruct (Hframes 0 (mkPage 0 0 true (HeaderData [("index", 7)]))) as [Hf Hd];
    [vm_compute; reflexivity|].
  exists bpm'. split; [exact Hrun|]. split; [exact Hf|]. apply Hd. discriminate.
Defined.

(** X27, witness: the pool in which page 1 has taken the frame of page 0. *)
Lemma built_pool_agrees_witness :
  (∀ f g p q, frame page_swapped f = Some p -> frame page_swapped g = Some q ->
     page_id_ p ≠ INVALID_PAGE_ID -> page_id_ q = page_id_ p -> f = g) ∧
  (∀ page_id f,
     table_find hash_int page_swapped page_id = Some (Some f) <->
     page_id ≠ INVALID_PAGE_ID ∧ ∃ p, frame page_swapped f = Some p ∧ page_id_ p = page_id) ∧
  (∀ f p, f ∈ free_list_ page_swapped -> frame page_swapped f = Some p ->
     page_id_ p = INVALID_PAGE_ID) ∧
  (∀ f p, frame page_swapped f = Some p -> page_id_ p < next_page_id_ page_swapped).
Proof. apply (built_pool_agrees hash_int page_swapped). exact page_swapped_built. Defined.

(** X28, witness: frame 0 holds page 0, unpinned, and the replacer may evict
    it. *)
Lemma evictable_frames_unpinned_witness :
  (0 ∉ free_list_ one_written_page) ∧
  ∃ p, frame one_written_page 0 = Some p ∧ pin_count_ p = 0.
Proof.
  apply (evictable_frames_unpinned hash_int one_written_page 0
           (default (LRUK.mkNode 0 0 false None None)
                    (LRUK.entries_ (replacer_ one_written_page) !! 0))).
  - exact one_written_page_built.
  - vm_compute. reflexivity.
  - vm_compute. reflexivity.
Defined.

(** X29, witness: two frames, page 0 pinned in frame 0 and page 1 unpinned in
    frame 1; the new page 2 takes frame 1, and frame 0 is as it was. *)
Lemma pinned_page_keeps_frame_witness :
  NewPgImp hash_int fuel pinned_and_waiting
  = Ok (pool_of (NewPgImp hash_int fuel pinned_and_waiting), Some (2, 1)) ∧
  frame (pool_of (NewPgImp hash_int fuel pinned_and_waiting)) 0
  = Some (mkPage 0 1 false Zeroed).
Proof.
  assert (NewPgImp hash_int fuel pinned_and_waiting
          = Ok (pool_of (NewPgImp hash_int fuel pinned_and_waiting), Some (2, 1))) as Hnew
    by (vm_compute; reflexivity).
  split; [exact Hnew|].
  destruct (pinned_page_keeps_frame hash_int pinned_and_waiting 0 (mkPage 0 1 false Zeroed)
              pinned_and_waiting_built) as (Hkeep & _).
  - vm_compute. reflexivity.
  - discriminate.
  - vm_compute. reflexivity.
  - exact (Hkeep fuel _ _ Hnew).
Defined.

End BufferPoolMore.
